(** * Route-wise explorer: the TSP solving engine

    A shallow embedding of the three solver call sites of the repository
    (src/utils/algorithms.ts, src/utils/graphAlgorithms.ts and the
    Gemini-enhanced simulation file) and of the builder of the route graphs
    (data/maps), the properties of its specification, and further properties
    of the solvers, the graph builders and the dispatchers.

    Conventions of the embedding:
    - a JavaScript [number] that is known to be finite is a rational [Q];
      a number that may also be [Infinity] is a [num];
    - a JavaScript object used as a record of keyed entries
      ([Record<string, T>]) is an association list in insertion order, so
      that [Object.keys] is the list of its keys (the ids of this program,
      such as k1 or b2, are not integer-like, hence kept in insertion order);
    - a [Set<string>] is a duplicate-free list in insertion order;
    - [Math.random()] is an explicit argument of the function that calls it;
    - where the rounding of a sum decides what the program does next (the
      sums that the branch and bound of algorithms.ts prunes on), the sum is
      rounded by an explicit argument [fl]: [binary64] is the rounding of
      the program, and the results that hold for every rounding quantify
      over [fl];
    - a [while] loop whose number of iterations is not a syntactic bound
      takes a fuel argument, and enough fuel is shown to give the result. *)

From stdpp Require Import gmap.
From Stdlib Require Import String Ascii ZArith QArith Qround Qabs Lia Lqa Bool Permutation List.
From Corelib Require PrimFloat FloatOps.
Import ListNotations.
Close Scope Q_scope.
Local Open Scope string_scope.
Local Open Scope list_scope.

(** ** JavaScript numbers *)

Definition Qltb (a b : Q) : bool := negb (Qle_bool b a).

Inductive num : Type :=
| Fin (q : Q)
| Infinity.

(** [a < b] on numbers that may be [Infinity]. *)
Definition num_ltb (a b : num) : bool :=
  match a, b with
  | Fin x, Fin y => Qltb x y
  | Fin _, Infinity => true
  | Infinity, _ => false
  end.

(** [a >= b]. *)
Definition num_geb (a b : num) : bool :=
  match a, b with
  | Fin x, Fin y => Qle_bool y x
  | Fin _, Infinity => false
  | Infinity, _ => true
  end.

Definition num_add (a b : num) : num :=
  match a, b with
  | Fin x, Fin y => Fin (x + y)%Q
  | _, _ => Infinity
  end.

(** [a * q] for a finite [q > 0]. *)
Definition num_scale (a : num) (q : Q) : num :=
  match a with
  | Fin x => Fin (x * q)%Q
  | Infinity => Infinity
  end.

Definition Math_max (a b : Q) : Q := if Qle_bool a b then b else a.

(** ** The rounding of a result to a JavaScript number *)

(** [q * 2 ^ e]. *)
Definition Qscale (q : Q) (e : Z) : Q :=
  if (0 <=? e)%Z then (q * inject_Z (2 ^ e))%Q else (q / inject_Z (2 ^ (- e)))%Q.

(** [floor (log2 q)] for [q > 0]. *)
Definition Qlog2 (q : Q) : Z :=
  let k := (Z.log2 (Qnum q) - Z.log2 (Zpos (Qden q)))%Z in
  if Qle_bool 1 (Qscale q (- k)) then k else (k - 1)%Z.

(** The nearest integer; of the two nearest ones, the even one. *)
Definition round_half_even (q : Q) : Z :=
  let f := Qfloor q in
  match (q - inject_Z f ?= 1 # 2)%Q with
  | Lt => f
  | Gt => (f + 1)%Z
  | Eq => if Z.even f then f else (f + 1)%Z
  end.

(** IEEE 754 binary64, round to nearest with ties to even: a significand of
    53 bits, that is a multiple of [2 ^ (e - 52)] for a result in
    [[2 ^ e, 2 ^ (e + 1))], and a multiple of [2 ^ -1074] below [2 ^ -1022].
    This is the result of [a + b] in JavaScript when given the real sum of
    two numbers, as long as it does not overflow to [Infinity] (from about
    [1.8e308] on). *)
Definition binary64 (q : Q) : Q :=
  if Qeq_bool q 0 then 0%Q
  else
    let e := Z.max (Qlog2 (Qabs q) - 52) (-1074) in
    Qred (Qscale (inject_Z (round_half_even (Qscale q (- e)))) e).

(** ** [Set<string>] *)

Module JsSet.
Definition t := list string.
Definition has (s : t) (x : string) : bool := existsb (String.eqb x) s.
Definition add (x : string) (s : t) : t := if has s x then s else s ++ [x].
Definition size (s : t) : nat := length s.
End JsSet.

(** ** Objects keyed by strings *)

Section Obj.
Context {A : Type}.

Definition obj_get (o : list (string * A)) (k : string) : option A :=
  match find (fun kv => String.eqb (fst kv) k) o with
  | Some kv => Some (snd kv)
  | None => None
  end.

(** [o[k] = v]: an existing key keeps its place. *)
Fixpoint obj_set (o : list (string * A)) (k : string) (v : A) : list (string * A) :=
  match o with
  | [] => [(k, v)]
  | (k', v') :: o' =>
      if String.eqb k' k then (k', v) :: o' else (k', v') :: obj_set o' k v
  end.

Definition Object_keys (o : list (string * A)) : list string := map fst o.
End Obj.

(** [arr.includes(x)] and [arr.indexOf(x)] on arrays of strings. *)
Definition includes (arr : list string) (x : string) : bool :=
  existsb (String.eqb x) arr.

Fixpoint indexOf_from (arr : list string) (x : string) (i : nat) : option nat :=
  match arr with
  | [] => None
  | y :: arr' => if String.eqb y x then Some i else indexOf_from arr' x (S i)
  end.

Definition indexOf (arr : list string) (x : string) : option nat :=
  indexOf_from arr x 0.

(** [Array.prototype.sort] with the comparator [(a, b) => key a - key b]: a
    negative value puts [a] first, and the sort is stable. It is the insertion
    sort that keeps elements in their order unless [lt] puts one first
    ([sort_insert] puts an element in front of the sorted rest, before the first
    element that is not to come first). A difference that is [NaN]
    ([Infinity - Infinity]) counts as 0, so on keys that may be [Infinity] the
    order is [num_ltb]. *)
Section Sort.
Context {A : Type} (lt : A -> A -> bool).

Fixpoint sort_insert (x : A) (l : list A) : list A :=
  match l with
  | [] => [x]
  | y :: l' => if lt y x then y :: sort_insert x l' else x :: y :: l'
  end.

Definition sort_with (l : list A) : list A :=
  fold_right sort_insert [] l.
End Sort.

Definition sort_by {A : Type} (key : A -> Q) : list A -> list A :=
  sort_with (fun a b => Qltb (key a) (key b)).

Definition sort_by_num {A : Type} (key : A -> num) : list A -> list A :=
  sort_with (fun a b => num_ltb (key a) (key b)).

(** ** Matrices of numbers

    [Array(n).fill(null).map(() => Array(n).fill(Infinity))] and its cells; the
    programs read and write inside the matrix only. *)
Definition Matrix := list (list num).

Definition mat_new (n : nat) : Matrix := repeat (repeat Infinity n) n.

Definition mat_get (m : Matrix) (i j : nat) : num :=
  nth j (nth i m []) Infinity.

Definition mat_set (m : Matrix) (i j : nat) (x : num) : Matrix :=
  <[i := <[j := x]> (nth i m [])]> m.

(** ** The shared types (src/types/index.ts) *)

Inductive Algorithm := nearest_neighbor | brute_force | dynamic_programming | branch_and_bound.
Inductive MapType := karnataka | bengaluru | mysuru.
Inductive Weather := sunny | rainy | foggy | snowy | windy.
Inductive TimeOfDay := morning | afternoon | evening | night.
Inductive Vehicle := car | bike | truck | ambulance | bus | ev.

Record SimulationParams := {
  algorithm : Algorithm;
  mapType : MapType;
  weather : Weather;
  timeOfDay : TimeOfDay;
  startLocation : string;
  vehicle : Vehicle;
  selectedCities : option (list string)
}.

Record Metrics := {
  m_distance : Q;
  m_time : Q;
  m_cost : Q;
  m_fuel : Q;
  m_trafficImpact : Q;
  m_weatherImpact : Q;
  m_totalScore : Q
}.

Record Location := { loc_id : string; loc_name : string; loc_lat : Q; loc_lng : Q }.

Record NodeData := { node_id : string; lat : Q; lng : Q }.

Record Edge := {
  from : string;
  to : string;
  distance : Q;
  time : Q;
  trafficFactor : Q
}.

Record RouteGraph := {
  nodes : list (string * NodeData);
  edges : list Edge
}.

(** * src/utils/algorithms.ts *)

Module Algorithms.

(** [getWeatherImpact], [getTimeOfDayImpact], [getVehicleEfficiency]. *)
Definition getWeatherImpact (w : Weather) : Q :=
  match w with
  | rainy => 13 # 10
  | foggy => 14 # 10
  | snowy => 16 # 10
  | windy => 11 # 10
  | sunny => 1
  end.

Definition getTimeOfDayImpact (t : TimeOfDay) : Q :=
  match t with
  | morning => 13 # 10
  | evening => 14 # 10
  | night => 9 # 10
  | afternoon => 1
  end.

Record VehicleInfo := { speedFactor : Q; fuelRate : Q; costPerKm : Q }.

Definition getVehicleEfficiency (v : Vehicle) : VehicleInfo :=
  match v with
  | bike => {| speedFactor := 12 # 10; fuelRate := 2 # 100; costPerKm := 25 # 10 |}
  | car => {| speedFactor := 1; fuelRate := 8 # 100; costPerKm := 4 |}
  | truck => {| speedFactor := 7 # 10; fuelRate := 25 # 100; costPerKm := 8 |}
  | bus => {| speedFactor := 8 # 10; fuelRate := 20 # 100; costPerKm := 6 |}
  | ambulance => {| speedFactor := 13 # 10; fuelRate := 10 # 100; costPerKm := 5 |}
  | ev => {| speedFactor := 1; fuelRate := 3 # 100; costPerKm := 2 |}
  end.

(** [filterGraphForSelectedCities]. *)
Definition filterGraphForSelectedCities (graph : RouteGraph) (selected : list string)
  : RouteGraph :=
  match selected with
  | [] => graph
  | _ =>
      {| nodes :=
           fold_left
             (fun filteredNodes cityId =>
                match obj_get (nodes graph) cityId with
                | Some nd => obj_set filteredNodes cityId nd
                | None => filteredNodes
                end)
             selected [];
         edges :=
           filter (fun e => includes selected (from e) && includes selected (to e))
                  (edges graph) |}
  end.

(** [graph.edges.find(e => e.from === a && e.to === b)]. *)
Definition find_edge (graph : RouteGraph) (a b : string) : option Edge :=
  find (fun e => String.eqb (from e) a && String.eqb (to e) b) (edges graph).

(** The accumulation loop of [calculatePathMetrics]:
    [(totalDistance, totalTime)] over the consecutive pairs of the path. *)
Fixpoint sumPath (graph : RouteGraph) (path : list string) (acc : Q * Q) : Q * Q :=
  match path with
  | a :: (b :: _) as rest =>
      sumPath graph rest
        match find_edge graph a b with
        | Some e => (fst acc + distance e, snd acc + time e)%Q
        | None => acc
        end
  | _ => acc
  end.

(** The six base metrics of [calculatePathMetrics] ([m_totalScore] is filled in by
    [runSimulation]; it is 0 here). *)
Definition calculatePathMetrics (path : list string) (graph : RouteGraph)
           (params : SimulationParams) : Metrics :=
  if (length path <? 2)%nat then
    {| m_distance := 0; m_time := 0; m_cost := 0; m_fuel := 0;
       m_trafficImpact := 1; m_weatherImpact := 1; m_totalScore := 0 |}
  else
    let '(totalDistance, totalTime) := sumPath graph path (0, 0)%Q in
    let weatherImpact := getWeatherImpact (weather params) in
    let timeImpact := getTimeOfDayImpact (timeOfDay params) in
    let vehicleInfo := getVehicleEfficiency (vehicle params) in
    let adjustedTime := (totalTime * weatherImpact * timeImpact / speedFactor vehicleInfo)%Q in
    let baseCost := ((totalDistance / 1000) * costPerKm vehicleInfo)%Q in
    let fuelCost := ((totalDistance / 1000) * fuelRate vehicleInfo * 100)%Q in
    let driverCost := ((adjustedTime / 3600) * 200)%Q in
    let totalCost := (baseCost + fuelCost + driverCost)%Q in
    let fuelConsumption := ((totalDistance / 1000) * fuelRate vehicleInfo)%Q in
    {| m_distance := totalDistance; m_time := adjustedTime; m_cost := totalCost;
       m_fuel := fuelConsumption; m_trafficImpact := timeImpact;
       m_weatherImpact := weatherImpact; m_totalScore := 0 |}.

(** The running sum [totalDistance += edge.distance] of [calculatePathMetrics]
    from [acc], each addition rounded by [fl]; without rounding it is the
    distance of [sumPath]. *)
Fixpoint sumDistance (fl : Q -> Q) (graph : RouteGraph) (path : list string) (acc : Q) : Q :=
  match path with
  | a :: (b :: _) as rest =>
      sumDistance fl graph rest
        match find_edge graph a b with
        | Some e => fl (acc + distance e)%Q
        | None => acc
        end
  | _ => acc
  end.

(** *** Nearest neighbour *)

(** The inner [for (const edge of graph.edges)] of [nearestNeighborTSP]:
    the pair [(nearestNode, nearestDistance)], from [('', Infinity)]. *)
Definition nearestStep (current : string) (visited : JsSet.t)
           (st : string * num) (edge : Edge) : string * num :=
  if String.eqb (from edge) current && negb (JsSet.has visited (to edge)) then
    if num_ltb (Fin (distance edge)) (snd st) then (to edge, Fin (distance edge)) else st
  else st.

Definition findNearest (graph : RouteGraph) (current : string) (visited : JsSet.t)
  : string :=
  fst (fold_left (nearestStep current visited) (edges graph) ("", Infinity)).

(** The [while (visited.size < allNodes.length)] loop; it returns
    [(visited, path)]. Every turn adds a node to [visited], so
    [length allNodes] turns are enough ([nn_loop_fuel]). *)
Fixpoint nn_loop (fuel : nat) (graph : RouteGraph) (n : nat)
         (visited : JsSet.t) (path : list string) (current : string)
  : JsSet.t * list string :=
  match fuel with
  | O => (visited, path)
  | S fuel' =>
      if (JsSet.size visited <? n)%nat then
        let nearestNode := findNearest graph current visited in
        if String.eqb nearestNode "" then (visited, path)
        else nn_loop fuel' graph n (JsSet.add nearestNode visited)
                     (path ++ [nearestNode]) nearestNode
      else (visited, path)
  end.

Definition nearestNeighborTSP (graph : RouteGraph) (start : string) : list string :=
  let allNodes := Object_keys (nodes graph) in
  let '(visited, path) :=
    nn_loop (length allNodes) graph (length allNodes)
            (JsSet.add start []) [start] start in
  if (JsSet.size visited =? length allNodes)%nat then path ++ [start] else path.

(** *** Brute force *)

(** [permute]: the recursion is on a shorter array each time, so the length of
    the array is enough fuel. *)
Fixpoint permute_fuel (fuel : nat) (arr : list string) : list (list string) :=
  if (length arr <=? 1)%nat then [arr]
  else
    match fuel with
    | O => []
    | S fuel' =>
        flat_map
          (fun i =>
             let rest := firstn i arr ++ skipn (i + 1) arr in
             map (fun perm => nth i arr "" :: perm) (permute_fuel fuel' rest))
          (seq 0 (length arr))
    end.

Definition permute (arr : list string) : list (list string) :=
  permute_fuel (length arr) arr.

(** The distance loop of [bruteForceTSP] over [fullPath]: [None] when an edge
    is missing ([validPath = false]). *)
Fixpoint pathDistance (graph : RouteGraph) (path : list string) (acc : Q) : option Q :=
  match path with
  | a :: (b :: _) as rest =>
      match find_edge graph a b with
      | Some e => pathDistance graph rest (acc + distance e)%Q
      | None => None
      end
  | _ => Some acc
  end.

Definition bruteStep (graph : RouteGraph) (start : string)
           (st : list string * num) (perm : list string) : list string * num :=
  let fullPath := start :: perm ++ [start] in
  match pathDistance graph fullPath 0 with
  | Some totalDistance =>
      if num_ltb (Fin totalDistance) (snd st) then (fullPath, Fin totalDistance) else st
  | None => st
  end.

Definition bruteForceTSP (graph : RouteGraph) (start : string) : list string :=
  let allNodes := Object_keys (nodes graph) in
  let otherNodes := filter (fun node => negb (String.eqb node start)) allNodes in
  if (8 <? length otherNodes)%nat then nearestNeighborTSP graph start
  else
    let bestPath := fst (fold_left (bruteStep graph start) (permute otherNodes) ([], Infinity)) in
    if (0 <? length bestPath)%nat then bestPath else nearestNeighborTSP graph start.

(** *** Dynamic programming (Held-Karp) *)

(** [dist]: the [n] by [n] matrix, [Infinity] where no edge was written. *)
Definition buildDist (allNodes : list string) (es : list Edge) : Matrix :=
  let n := length allNodes in
  fold_left
    (fun dist edge =>
       match indexOf allNodes (from edge), indexOf allNodes (to edge) with
       | Some i, Some j => mat_set dist i j (Fin (distance edge))
       | _, _ => dist
       end)
    es (mat_new n).

(** [dp] and [parent]: objects keyed by the mask, of objects keyed by the
    city index. *)
Record Tables := {
  dp : gmap Z (gmap Z Q);
  parent : gmap Z (gmap Z nat)
}.

Definition bit (i : nat) : Z := Z.shiftl 1 (Z.of_nat i).

Definition dp_get (t : Tables) (mask : Z) (u : Z) : option Q :=
  match dp t !! mask with
  | Some row => row !! u
  | None => None
  end.

Definition parent_get (t : Tables) (mask : Z) (u : Z) : option nat :=
  match parent t !! mask with
  | Some row => row !! u
  | None => None
  end.

(** The body of [for (let v = 0; v < n; v++)]. *)
Definition relax (dist : Matrix) (mask : Z) (u : nat) (t : Tables) (v : nat) : Tables :=
  if Z.testbit mask (Z.of_nat v) then t
  else
    match mat_get dist u v, dp_get t mask (Z.of_nat u) with
    | Fin d, Some cu =>
        let newMask := Z.lor mask (bit v) in
        let dpRow := default ∅ (dp t !! newMask) in
        let parentRow := default ∅ (parent t !! newMask) in
        let newCost := (cu + d)%Q in
        let better :=
          match dpRow !! (Z.of_nat v) with
          | None => true
          | Some old => Qltb newCost old
          end in
        if better then
          {| dp := <[newMask := <[Z.of_nat v := newCost]> dpRow]> (dp t);
             parent := <[newMask := <[Z.of_nat v := u]> parentRow]> (parent t) |}
        else
          {| dp := <[newMask := dpRow]> (dp t);
             parent := <[newMask := parentRow]> (parent t) |}
    | _, _ => t
    end.

(** The body of [for (let u = 0; u < n; u++)]. *)
Definition relaxFrom (dist : Matrix) (n : nat) (mask : Z) (t : Tables) (u : nat) : Tables :=
  if negb (Z.testbit mask (Z.of_nat u)) then t
  else
    match dp_get t mask (Z.of_nat u) with
    | None => t
    | Some _ => fold_left (relax dist mask u) (seq 0 n) t
    end.

(** The body of [for (let mask = 1; mask < (1 << n); mask++)]. *)
Definition fillMask (dist : Matrix) (n : nat) (t : Tables) (mask : nat) : Tables :=
  match dp t !! (Z.of_nat mask) with
  | None => t
  | Some _ => fold_left (relaxFrom dist n (Z.of_nat mask)) (seq 0 n) t
  end.

Definition fillTable (dist : Matrix) (n : nat) (t : Tables) : Tables :=
  fold_left (fillMask dist n) (seq 1 (2 ^ n - 1)) t.

(** The search for the best return to the start: [(minCost, lastCity)],
    with [None] for [lastCity = -1]. *)
Definition bestLast (dist : Matrix) (n : nat) (startIndex : option nat) (t : Tables)
  : num * option nat :=
  let fullMask := (Z.shiftl 1 (Z.of_nat n) - 1)%Z in
  match dp t !! fullMask with
  | None => (Infinity, None)
  | Some row =>
      fold_left
        (fun (st : num * option nat) i =>
           if match startIndex with Some si => (i =? si)%nat | None => false end then st
           else
             match row !! (Z.of_nat i) with
             | None => st
             | Some c =>
                 let totalCost :=
                   num_add (Fin c)
                           match startIndex with
                           | Some si => mat_get dist i si
                           | None => Infinity
                           end in
                 if num_ltb totalCost (fst st) then (totalCost, Some i) else st
             end)
        (seq 0 n) (Infinity, None)
  end.

(** The reconstruction loop
    [while (currentMask > 0 && parent[currentMask] && parent[currentMask][currentCity] !== undefined)];
    it returns [(path, currentMask)]. Every turn clears one bit of the
    mask, so [n] turns are enough. *)
Fixpoint reconstruct (fuel : nat) (allNodes : list string) (t : Tables)
         (path : list string) (currentMask : Z) (currentCity : nat)
  : list string * Z :=
  match fuel with
  | O => (path, currentMask)
  | S fuel' =>
      if (0 <? currentMask)%Z then
        match parent_get t currentMask (Z.of_nat currentCity) with
        | Some prevCity =>
            reconstruct fuel' allNodes t
                        (nth currentCity allNodes "" :: path)
                        (Z.lxor currentMask (bit currentCity)) prevCity
        | None => (path, currentMask)
        end
      else (path, currentMask)
  end.

(** [dynamicProgrammingTSP]. When [start] is not a key of [graph.nodes],
    [startIndex] is [undefined]: [1 << undefined] is 1, and the entry
    [dp[1][undefined]], written here under the key -1, is read by no loop. *)
Definition dynamicProgrammingTSP (graph : RouteGraph) (start : string) : list string :=
  let allNodes := Object_keys (nodes graph) in
  let n := length allNodes in
  if (12 <? n)%nat then nearestNeighborTSP graph start
  else
    let dist := buildDist allNodes (edges graph) in
    let startIndex := indexOf allNodes start in
    let startMask := bit (default 0%nat startIndex) in
    let startKey := match startIndex with Some si => Z.of_nat si | None => (-1)%Z end in
    let t0 := {| dp := {[ startMask := {[ startKey := 0%Q ]} ]}; parent := ∅ |} in
    let t := fillTable dist n t0 in
    let fullMask := (Z.shiftl 1 (Z.of_nat n) - 1)%Z in
    match snd (bestLast dist n startIndex t) with
    | None => nearestNeighborTSP graph start
    | Some lastCity =>
        let '(path, currentMask) := reconstruct n allNodes t [] fullMask lastCity in
        let path :=
          if (currentMask =? startMask)%Z then
            match startIndex with
            | Some si => nth si allNodes "" :: path ++ [nth si allNodes ""]
            | None => path
            end
          else path in
        if (2 <? length path)%nat then path else nearestNeighborTSP graph start
    end.

(** *** Branch and bound *)

Record BranchNode := {
  bn_path : list string;
  bn_cost : Q;
  bn_visited : JsSet.t;
  bn_bound : Q
}.

(** The minimum outgoing edge of [node]: [minEdge], from [Infinity]. *)
Definition minEdge (graph : RouteGraph) (node : string) : num :=
  fold_left
    (fun (m : num) edge =>
       if String.eqb (from edge) node && num_ltb (Fin (distance edge)) m
       then Fin (distance edge) else m)
    (edges graph) Infinity.

(** The search prunes on sums of distances, so the rounding of each sum is
    part of the model: [fl] rounds the real sum to the number that [+]
    returns ([binary64] in the program). *)

(** [calculateBound]: its [path] argument is not used by the source. *)
Definition calculateBound (fl : Q -> Q) (graph : RouteGraph) (allNodes : list string)
           (visited : JsSet.t) : Q :=
  fold_left
    (fun (bound : Q) node =>
       if negb (JsSet.has visited node) then
         match minEdge graph node with
         | Fin m => fl (bound + m)%Q
         | Infinity => bound
         end
       else bound)
    allNodes 0%Q.

(** [cost + bound], the key of the sort and of the pruning test. *)
Definition priority (fl : Q -> Q) (b : BranchNode) : Q := fl (bn_cost b + bn_bound b)%Q.

(** The expansion loop [for (const edge of graph.edges)] over the queue. *)
Definition expandStep (fl : Q -> Q) (graph : RouteGraph) (allNodes : list string)
           (current : BranchNode) (currentNode : string) (bestCost : num)
           (queue : list BranchNode) (edge : Edge) : list BranchNode :=
  if String.eqb (from edge) currentNode && negb (JsSet.has (bn_visited current) (to edge)) then
    let newVisited := JsSet.add (to edge) (bn_visited current) in
    let newPath := bn_path current ++ [to edge] in
    let newCost := fl (bn_cost current + distance edge)%Q in
    let newBound := calculateBound fl graph allNodes newVisited in
    if num_ltb (Fin (fl (newCost + newBound)%Q)) bestCost then
      queue ++ [{| bn_path := newPath; bn_cost := newCost;
                   bn_visited := newVisited; bn_bound := newBound |}]
    else queue
  else queue.

(** The [while (queue.length > 0)] loop: [Some bestSolution] when the queue
    runs empty, [None] when the fuel runs out first. *)
Fixpoint bb_loop (fl : Q -> Q) (fuel : nat) (graph : RouteGraph) (start : string)
         (allNodes : list string) (queue : list BranchNode)
         (bestSolution : option BranchNode) (bestCost : num)
  : option (option BranchNode) :=
  match fuel with
  | O => None
  | S fuel' =>
      match sort_by (priority fl) queue with
      | [] => Some bestSolution
      | current :: queue' =>
          if num_geb (Fin (priority fl current)) bestCost then
            bb_loop fl fuel' graph start allNodes queue' bestSolution bestCost
          else if (JsSet.size (bn_visited current) =? length allNodes)%nat then
            let lastNode := List.last (bn_path current) "" in
            match find_edge graph lastNode start with
            | Some returnEdge =>
                let totalCost := fl (bn_cost current + distance returnEdge)%Q in
                if num_ltb (Fin totalCost) bestCost then
                  bb_loop fl fuel' graph start allNodes queue'
                          (Some {| bn_path := bn_path current ++ [start];
                                   bn_cost := totalCost;
                                   bn_visited := bn_visited current;
                                   bn_bound := 0 |})
                          (Fin totalCost)
                else bb_loop fl fuel' graph start allNodes queue' bestSolution bestCost
            | None => bb_loop fl fuel' graph start allNodes queue' bestSolution bestCost
            end
          else
            let currentNode := List.last (bn_path current) "" in
            bb_loop fl fuel' graph start allNodes
                    (fold_left (expandStep fl graph allNodes current currentNode bestCost)
                               (edges graph) queue')
                    bestSolution bestCost
      end
  end.

(** [branchAndBoundTSP]; [None] only when the fuel of the queue loop runs out. *)
Definition branchAndBoundTSP (fl : Q -> Q) (fuel : nat) (graph : RouteGraph)
           (start : string) : option (list string) :=
  let allNodes := Object_keys (nodes graph) in
  if (10 <? length allNodes)%nat then Some (dynamicProgrammingTSP graph start)
  else
    let visited0 := JsSet.add start [] in
    let queue := [{| bn_path := [start]; bn_cost := 0; bn_visited := visited0;
                     bn_bound := calculateBound fl graph allNodes visited0 |}] in
    match bb_loop fl fuel graph start allNodes queue None Infinity with
    | None => None
    | Some (Some bestSolution) => Some (bn_path bestSolution)
    | Some None => Some (nearestNeighborTSP graph start)
    end.

(** *** Scores and the dispatcher *)

(** [calculateAlgorithmScore]; [rnd] is the value of its [Math.random()]. *)
Definition calculateAlgorithmScore (alg : Algorithm) (metrics : Metrics) (rnd : Q) : Q :=
  let distanceScore := ((m_distance metrics / 1000) / 50)%Q in
  let timeScore := ((m_time metrics / 3600) / 2)%Q in
  let costScore := (m_cost metrics / 1000)%Q in
  let fuelScore := (m_fuel metrics / 10)%Q in
  let baseScore := (distanceScore + timeScore + costScore + fuelScore)%Q in
  let baseScore :=
    match alg with
    | brute_force => (baseScore * (95 # 100))%Q
    | dynamic_programming => (baseScore * (97 # 100))%Q
    | nearest_neighbor => (baseScore * (108 # 100))%Q
    | branch_and_bound => (baseScore * (98 # 100))%Q
    end in
  let baseScore := (baseScore * (m_trafficImpact metrics * (1 # 10)))%Q in
  let baseScore := (baseScore * (m_weatherImpact metrics * (5 # 100)))%Q in
  let baseScore := (baseScore + (rnd - (1 # 2)) * (1 # 10))%Q in
  Math_max baseScore (1 # 10).

Record SimulationResult := {
  r_algorithm : Algorithm;
  r_path : list string;
  r_metrics : Metrics
}.

Definition emptyResult (alg : Algorithm) : SimulationResult :=
  {| r_algorithm := alg;
     r_path := [];
     r_metrics :=
       {| m_distance := 0; m_time := 0; m_cost := 0; m_fuel := 0;
          m_trafficImpact := 1; m_weatherImpact := 1; m_totalScore := 0 |} |}.

(** [runSimulation]. [fullGraph] is the value of [getRouteGraph(params.mapType)],
    [rnd] the value of the [Math.random()] of the score, [fl] the rounding of
    the sums of branch and bound, and [fuel] bounds its queue loop ([None]:
    out of fuel). The lookup of the Gemini key only logs. *)
Definition runSimulation (fl : Q -> Q) (fuel : nat) (fullGraph : RouteGraph) (rnd : Q)
           (params : SimulationParams) : option SimulationResult :=
  let graph := filterGraphForSelectedCities fullGraph (default [] (selectedCities params)) in
  match selectedCities params with
  | None => Some (emptyResult (algorithm params))
  | Some selected =>
      if (length selected <? 2)%nat then Some (emptyResult (algorithm params))
      else
        let startLocation :=
          if includes selected (startLocation params) then startLocation params
          else nth 0 selected "" in
        let path :=
          match algorithm params with
          | nearest_neighbor => Some (nearestNeighborTSP graph startLocation)
          | brute_force => Some (bruteForceTSP graph startLocation)
          | dynamic_programming => Some (dynamicProgrammingTSP graph startLocation)
          | branch_and_bound => branchAndBoundTSP fl fuel graph startLocation
          end in
        match path with
        | None => None
        | Some path =>
            let baseMetrics := calculatePathMetrics path graph params in
            let totalScore := calculateAlgorithmScore (algorithm params) baseMetrics rnd in
            Some {| r_algorithm := algorithm params;
                    r_path := path;
                    r_metrics :=
                      {| m_distance := m_distance baseMetrics;
                         m_time := m_time baseMetrics;
                         m_cost := m_cost baseMetrics;
                         m_fuel := m_fuel baseMetrics;
                         m_trafficImpact := m_trafficImpact baseMetrics;
                         m_weatherImpact := m_weatherImpact baseMetrics;
                         m_totalScore := totalScore |} |}
        end
  end.

End Algorithms.

(** * The map data (data/maps) *)

Module Maps.

Definition mkLocation (id name : string) (lat lng : Q) : Location :=
  {| loc_id := id; loc_name := name; loc_lat := lat; loc_lng := lng |}.

(** [mapLocations]: coordinates in degrees, as decimal fractions. *)
Definition mapLocations (mapType : MapType) : list Location :=
  match mapType with
  | karnataka =>
      [ mkLocation "k1" "Bengaluru" (129716 # 10000) (775946 # 10000);
        mkLocation "k2" "Mysuru" (122958 # 10000) (766394 # 10000);
        mkLocation "k3" "Mangaluru" (129141 # 10000) (748560 # 10000);
        mkLocation "k4" "Hubli" (153647 # 10000) (751240 # 10000);
        mkLocation "k5" "Belagavi" (158497 # 10000) (744977 # 10000);
        mkLocation "k6" "Kalaburagi" (173297 # 10000) (768343 # 10000);
        mkLocation "k7" "Davangere" (144644 # 10000) (759932 # 10000);
        mkLocation "k8" "Ballari" (151394 # 10000) (769214 # 10000);
        mkLocation "k9" "Tumakuru" (133379 # 10000) (771140 # 10000);
        mkLocation "k10" "Shimoga" (139299 # 10000) (755681 # 10000);
        mkLocation "k11" "Hassan" (130033 # 10000) (760955 # 10000);
        mkLocation "k12" "Mandya" (125218 # 10000) (768951 # 10000);
        mkLocation "k13" "Chikmagalur" (133161 # 10000) (757720 # 10000);
        mkLocation "k14" "Raichur" (162120 # 10000) (773439 # 10000);
        mkLocation "k15" "Bijapur" (168302 # 10000) (757100 # 10000) ]
  | bengaluru =>
      [ mkLocation "b1" "Majestic" (129762 # 10000) (775993 # 10000);
        mkLocation "b2" "Koramangala" (129279 # 10000) (776271 # 10000);
        mkLocation "b3" "Indiranagar" (129719 # 10000) (776412 # 10000);
        mkLocation "b4" "Whitefield" (129698 # 10000) (777500 # 10000);
        mkLocation "b5" "Electronic City" (128456 # 10000) (776603 # 10000);
        mkLocation "b6" "Hebbal" (130358 # 10000) (775970 # 10000);
        mkLocation "b7" "Jayanagar" (129279 # 10000) (775937 # 10000);
        mkLocation "b8" "Malleshwaram" (130030 # 10000) (775747 # 10000);
        mkLocation "b9" "BTM Layout" (129165 # 10000) (776101 # 10000);
        mkLocation "b10" "Sarjapur" (128795 # 10000) (776898 # 10000) ]
  | mysuru =>
      [ mkLocation "m1" "Mysuru Palace" (123051 # 10000) (766551 # 10000);
        mkLocation "m2" "Chamundi Hills" (122724 # 10000) (766730 # 10000);
        mkLocation "m3" "KRS Dam" (124244 # 10000) (765692 # 10000);
        mkLocation "m4" "Brindavan Gardens" (124244 # 10000) (765692 # 10000);
        mkLocation "m5" "Mysuru Zoo" (123009 # 10000) (766543 # 10000);
        mkLocation "m6" "Lalitha Mahal" (122830 # 10000) (766390 # 10000);
        mkLocation "m7" "Karanji Lake" (123167 # 10000) (766594 # 10000) ]
  end.

(** ** The route graph ([getRouteGraph]) *)

(** [Math.abs]. *)
Definition Math_abs (x : Q) : Q := if Qltb x 0%Q then (- x)%Q else x.

(** [locations[i]] with its index [i]. *)
Definition indexed {A : Type} (l : list A) : list (nat * A) := combine (seq 0 (length l)) l.

Section RouteGraph.
(** The great-circle distance [R * c] of [calculateRoadDistance], in metres,
    from the two latitudes and longitudes. *)
Variable straightDistance : Q -> Q -> Q -> Q -> Q.

(** [calculateRoadDistance]; [r] is the value of its [Math.random()]. *)
Definition calculateRoadDistance (r : Q) (lat1 lng1 lat2 lng2 : Q) : Q :=
  let roadFactor := ((12 # 10) + r * (1 # 10))%Q in
  (straightDistance lat1 lng1 lat2 lng2 * roadFactor)%Q.

(** [calculateTravelTime]; [r] is the value of its [Math.random()]. The speed
    is not 0 for a draw in [0, 1). *)
Definition calculateTravelTime (r : Q) (distance : Q) (mapType : MapType)
           (fromLat toLat : Q) : Q :=
  let baseSpeed : Q :=
    match mapType with
    | karnataka => 70%Q
    | bengaluru => 30%Q
    | mysuru => 50%Q
    end in
  let isHillRoute := Qltb 1%Q (Math_abs (fromLat - toLat)) in
  let isCoastalRoute := Qltb toLat (135 # 10) in
  let baseSpeed := if isHillRoute then (baseSpeed * (9 # 10))%Q else baseSpeed in
  let baseSpeed := if isCoastalRoute then (baseSpeed * (95 # 100))%Q else baseSpeed in
  let trafficVariation := ((9 # 10) + r * (2 # 10))%Q in
  let actualSpeed := (baseSpeed * trafficVariation)%Q in
  let timeInHours := ((distance / 1000) / actualSpeed)%Q in
  (timeInHours * 3600)%Q.

(** The traffic factor of an edge; [r] is the value of the one [Math.random()]
    that the branch taken draws. *)
Definition trafficFactorOf (r : Q) (mapType : MapType) (distance : Q) : Q :=
  match mapType with
  | bengaluru => ((13 # 10) + r * (4 # 10))%Q
  | karnataka =>
      if Qltb 150000%Q distance then (1 + r * (1 # 10))%Q
      else if Qltb distance 50000%Q then ((11 # 10) + r * (2 # 10))%Q
      else ((105 # 100) + r * (15 # 100))%Q
  | mysuru => ((11 # 10) + r * (2 # 10))%Q
  end.

(** The body of the two loops over [i] and [j], on the edges pushed so far and
    the number [k] of draws made: an edge draws three numbers, for the road
    factor, the traffic variation and the traffic factor. *)
Definition addRouteEdge (rnd : nat -> Q) (mapType : MapType) (loc1 : nat * Location)
           (st : list Edge * nat) (loc2 : nat * Location) : list Edge * nat :=
  if (fst loc1 =? fst loc2)%nat then st
  else
    let distance :=
      calculateRoadDistance (rnd (snd st)) (loc_lat (snd loc1)) (loc_lng (snd loc1))
                            (loc_lat (snd loc2)) (loc_lng (snd loc2)) in
    let baseTime :=
      calculateTravelTime (rnd (snd st + 1)%nat) distance mapType
                          (loc_lat (snd loc1)) (loc_lat (snd loc2)) in
    let trafficFactor := trafficFactorOf (rnd (snd st + 2)%nat) mapType distance in
    (fst st ++ [{| from := loc_id (snd loc1); to := loc_id (snd loc2);
                   distance := distance; time := (baseTime * trafficFactor)%Q;
                   trafficFactor := trafficFactor |}],
     (snd st + 3)%nat).

Definition routeNodes (locations : list Location) : list (string * NodeData) :=
  fold_left
    (fun nodes loc =>
       obj_set nodes (loc_id loc)
               {| node_id := loc_id loc; lat := loc_lat loc; lng := loc_lng loc |})
    locations [].

Definition routeEdges (rnd : nat -> Q) (mapType : MapType) (locations : list Location)
  : list Edge :=
  fst (fold_left
         (fun st loc1 => fold_left (addRouteEdge rnd mapType loc1) (indexed locations) st)
         (indexed locations) ([], 0%nat)).

(** [getRouteGraph]; [rnd k] is the value of the [k]-th [Math.random()] of the
    call. *)
Definition getRouteGraph (rnd : nat -> Q) (mapType : MapType) : RouteGraph :=
  {| nodes := routeNodes (mapLocations mapType);
     edges := routeEdges rnd mapType (mapLocations mapType) |}.

End RouteGraph.

End Maps.

(** * The Gemini-enhanced simulation file (runGeminiEnhancedSimulation and
      its fallback [runBasicTSPSimulation]) *)

Module TspSimulation.

(** An element of a path of this file: a city id, or the [undefined] that
    [cities[-1]] reads. *)
Inductive CityId : Type :=
| Id (s : string)
| undefined.

Definition CityId_eqb (a b : CityId) : bool :=
  match a, b with
  | Id x, Id y => String.eqb x y
  | undefined, undefined => true
  | _, _ => false
  end.

(** The table [dp] of the Held-Karp solver: the key "mask_u" is the pair
    [(mask, u)]; an entry is [(cost, parent)]. *)
Abbreviation HKTable := (gmap (Z * Z) (Q * Z)).

Section Distances.
(** The great-circle formula of [calculateDistance] on two located points
    ([lat1], [lng1], [lat2], [lng2], result in metres). Its sines, cosines
    and arctangent are not rational functions; the value they give is
    taken as given. *)
Variable haversine : Q -> Q -> Q -> Q -> Q.

Definition find_location (locations : list Location) (city : CityId) : option Location :=
  match city with
  | Id c => find (fun loc => String.eqb (loc_id loc) c) locations
  | undefined => None
  end.

Definition calculateDistance (city1 city2 : CityId) (locations : list Location) : Q :=
  match find_location locations city1, find_location locations city2 with
  | Some loc1, Some loc2 =>
      haversine (loc_lat loc1) (loc_lng loc1) (loc_lat loc2) (loc_lng loc2)
  | _, _ => 999999
  end.

Fixpoint pathDistanceFrom (total : Q) (path : list CityId) (locations : list Location) : Q :=
  match path with
  | a :: (b :: _) as rest =>
      pathDistanceFrom (total + calculateDistance a b locations)%Q rest locations
  | _ => total
  end.

Definition calculatePathDistance (path : list CityId) (locations : list Location) : Q :=
  pathDistanceFrom 0 path locations.

(** *** Nearest neighbour *)

(** [remaining.splice(remaining.indexOf(x), 1)]. *)
Fixpoint remove_first (x : string) (l : list string) : list string :=
  match l with
  | [] => []
  | y :: l' => if String.eqb y x then l' else y :: remove_first x l'
  end.

(** The scan [for (let i = 1; i < remaining.length; i++)] for the nearest city. *)
Definition nearestOf (current : string) (locations : list Location)
           (first : string) (others : list string) : string :=
  fst (fold_left
         (fun (st : string * Q) city =>
            let dist := calculateDistance (Id current) (Id city) locations in
            if Qltb dist (snd st) then (city, dist) else st)
         others
         (first, calculateDistance (Id current) (Id first) locations)).

(** The [while (remaining.length > 0)] loop: [remaining] loses one element
    each turn, so its length is the fuel. *)
Fixpoint greedy_loop (fuel : nat) (locations : list Location)
         (path remaining : list string) (current : string) : list string :=
  match fuel, remaining with
  | S fuel', first :: others =>
      let nearest := nearestOf current locations first others in
      greedy_loop fuel' locations (path ++ [nearest]) (remove_first nearest remaining) nearest
  | _, _ => path
  end.

Definition otherCities (params : SimulationParams) : list string :=
  filter (fun id => negb (String.eqb id (startLocation params)))
         (default [] (selectedCities params)).

Definition runGreedyNearestNeighbor (params : SimulationParams)
           (locations : list Location) : list string :=
  let remaining := otherCities params in
  greedy_loop (length remaining) locations [startLocation params] remaining
              (startLocation params)
  ++ [startLocation params].

(** *** Brute force with 2-opt *)

Definition generateAllPermutations (arr : list string) : list (list string) :=
  Algorithms.permute arr.

Definition pathDistanceOf (path : list string) (locations : list Location) : Q :=
  calculatePathDistance (map Id path) locations.

(** [newPath.splice(i, j - i + 1, ...currentPath.slice(i, j + 1).reverse())]. *)
Definition reverseSegment (path : list string) (i j : nat) : list string :=
  firstn i path ++ rev (firstn (j - i + 1) (skipn i path)) ++ skipn (j + 1) path.

(** One turn of the [while (improved)] loop: the two [for] loops, giving
    [(currentPath, improved)]. *)
Definition twoOptPass (locations : list Location) (path : list string)
  : list string * bool :=
  let len := length path in
  fold_left
    (fun st i =>
       fold_left
         (fun (st : list string * bool) j =>
            let newPath := reverseSegment (fst st) i j in
            if Qltb (pathDistanceOf newPath locations) (pathDistanceOf (fst st) locations)
            then (newPath, true) else st)
         (seq (i + 1) (len - 2 - i)) st)
    (seq 1 (len - 3)) (path, false).

(** [apply2OptImprovement]: [None] when the fuel of the [while] loop runs out. *)
Fixpoint apply2OptImprovement (fuel : nat) (path : list string)
         (locations : list Location) : option (list string) :=
  match fuel with
  | O => None
  | S fuel' =>
      let '(currentPath, improved) := twoOptPass locations path in
      if improved then apply2OptImprovement fuel' currentPath locations
      else Some currentPath
  end.

(** [runIntensive2Opt]; [random1] and [random2] are the arrays that the two
    [[...cities].sort(() => Math.random() - 0.5)] produce. *)
Definition runIntensive2Opt (fuel : nat) (random1 random2 : list string)
           (params : SimulationParams) (locations : list Location)
           (cities : list string) : option (list string) :=
  option_map fst
   (fold_left
    (fun (st : option (list string * num)) order =>
       match st with
       | None => None
       | Some (bestPath, bestDistance) =>
           match apply2OptImprovement fuel
                   (startLocation params :: order ++ [startLocation params]) locations with
           | None => None
           | Some path =>
               let distance := pathDistanceOf path locations in
               if num_ltb (Fin distance) bestDistance then Some (path, Fin distance)
               else Some (bestPath, bestDistance)
           end
       end)
    [cities; rev cities; random1; random2]
    (Some ([], Infinity))).

Definition runOptimalBruteForce (fuel : nat) (random1 random2 : list string)
           (params : SimulationParams) (locations : list Location)
  : option (list string) :=
  let cities := otherCities params in
  if (8 <? length cities)%nat then runIntensive2Opt fuel random1 random2 params locations cities
  else
    let bestPath :=
      fst (fold_left
             (fun (st : list string * num) perm =>
                let testPath := startLocation params :: perm ++ [startLocation params] in
                let distance := pathDistanceOf testPath locations in
                if num_ltb (Fin distance) (snd st) then (testPath, Fin distance) else st)
             (generateAllPermutations cities) ([], Infinity)) in
    apply2OptImprovement fuel
      (if (0 <? length bestPath)%nat then bestPath else [startLocation params]) locations.

(** *** Held-Karp *)

(** [cities[i]]: [undefined] outside the array. *)
Definition cityAt (cities : list string) (i : Z) : CityId :=
  if (i <? 0)%Z then undefined
  else match nth_error cities (Z.to_nat i) with
       | Some c => Id c
       | None => undefined
       end.

(** [cities.indexOf(x)]: -1 when absent. *)
Definition indexOfZ (cities : list string) (x : string) : Z :=
  match indexOf cities x with
  | Some i => Z.of_nat i
  | None => (-1)%Z
  end.


Definition hkInit (cities : list string) (startIdx : Z) (locations : list Location)
  : HKTable :=
  fold_left
    (fun (dp : HKTable) (i : nat) =>
       if (Z.of_nat i =? startIdx)%Z then dp
       else <[(Z.shiftl 1 (Z.of_nat i), Z.of_nat i) :=
                (calculateDistance (cityAt cities startIdx) (cityAt cities (Z.of_nat i)) locations,
                 startIdx)]> dp)
    (seq 0 (length cities)) ∅.

(** The inner loop [for (let v = 0; v < n; v++)] of the fill: the pair
    [(minCost, bestParent)], from [(Infinity, -1)]. *)
Definition hkBest (cities : list string) (startIdx : Z) (locations : list Location)
           (dp : HKTable) (mask : Z) (u : nat) : num * Z :=
  fold_left
    (fun (st : num * Z) (v : nat) =>
       if negb (Z.testbit mask (Z.of_nat v)) || (v =? u)%nat || (Z.of_nat v =? startIdx)%Z
       then st
       else
         let prevMask := Z.lxor mask (Z.shiftl 1 (Z.of_nat u)) in
         match dp !! (prevMask, Z.of_nat v) with
         | Some (c, _) =>
             let cost :=
               (c + calculateDistance (cityAt cities (Z.of_nat v))
                                      (cityAt cities (Z.of_nat u)) locations)%Q in
             if num_ltb (Fin cost) (fst st) then (Fin cost, Z.of_nat v) else st
         | None => st
         end)
    (seq 0 (length cities)) (Infinity, (-1)%Z).

Definition hkFill (cities : list string) (startIdx : Z) (locations : list Location)
           (dp : HKTable) : HKTable :=
  let n := length cities in
  fold_left
    (fun (dp : HKTable) (mask : nat) =>
       fold_left
         (fun (dp : HKTable) (u : nat) =>
            if negb (Z.testbit (Z.of_nat mask) (Z.of_nat u)) || (Z.of_nat u =? startIdx)%Z
            then dp
            else
              match dp !! (Z.of_nat mask, Z.of_nat u) with
              | Some _ => dp
              | None =>
                  match hkBest cities startIdx locations dp (Z.of_nat mask) u with
                  | (Fin minCost, bestParent) =>
                      if (bestParent =? -1)%Z then dp
                      else <[(Z.of_nat mask, Z.of_nat u) := (minCost, bestParent)]> dp
                  | (Infinity, _) => dp
                  end
              end)
         (seq 0 n) dp)
    (seq 1 (2 ^ n - 1)) dp.

(** The search for the last city of the optimal tour: [(minCost, lastCity)]. *)
Definition hkLast (cities : list string) (startIdx : Z) (locations : list Location)
           (dp : HKTable) : num * Z :=
  let n := length cities in
  let fullMask := (Z.shiftl 1 (Z.of_nat n) - 1)%Z in
  fold_left
    (fun (st : num * Z) (i : nat) =>
       if (Z.of_nat i =? startIdx)%Z then st
       else
         match dp !! (fullMask, Z.of_nat i) with
         | Some (c, _) =>
             let cost :=
               (c + calculateDistance (cityAt cities (Z.of_nat i))
                                      (cityAt cities startIdx) locations)%Q in
             if num_ltb (Fin cost) (fst st) then (Fin cost, Z.of_nat i) else st
         | None => st
         end)
    (seq 0 n) (Infinity, (-1)%Z).

(** The loop [while (current !== startIdx && mask > 0)] of the
    reconstruction. A key of [dp] has its city in its mask, so each turn
    that goes on clears a bit of [mask]: [n + 1] turns are enough. *)
Fixpoint hkReconstruct (fuel : nat) (cities : list string) (startIdx : Z)
         (dp : HKTable) (path : list CityId) (mask : Z) (current : Z) : list CityId :=
  match fuel with
  | O => path
  | S fuel' =>
      if negb (current =? startIdx)%Z && (0 <? mask)%Z then
        let path := path ++ [cityAt cities current] in
        match dp !! (mask, current) with
        | Some (_, parent) =>
            hkReconstruct fuel' cities startIdx dp path
                          (Z.lxor mask (Z.shiftl 1 current)) parent
        | None => path
        end
      else path
  end.

(** [runDPApproximation]: the score of a candidate and the greedy loop. *)
Definition Math_min (xs : list Q) : num :=
  fold_left (fun (m : num) x => if num_ltb (Fin x) m then Fin x else m) xs Infinity.

Definition dpApproxNext (params : SimulationParams) (locations : list Location)
           (current : string) (first : string) (remaining : list string) : string :=
  fst (fold_left
         (fun (st : string * num) city =>
            let directDist := calculateDistance (Id current) (Id city) locations in
            let remainingAfter := filter (fun c => negb (String.eqb c city)) remaining in
            let futureEstimate :=
              if (0 <? length remainingAfter)%nat then
                Math_min (map (fun c => calculateDistance (Id city) (Id c) locations)
                              remainingAfter)
              else Fin (calculateDistance (Id city) (Id (startLocation params)) locations) in
            let totalScore :=
              match futureEstimate with
              | Fin f => Fin (directDist + f * (8 # 10))%Q
              | Infinity => Infinity
              end in
            if num_ltb totalScore (snd st) then (city, totalScore) else st)
         remaining (first, Infinity)).

Fixpoint dpApprox_loop (fuel : nat) (params : SimulationParams)
         (locations : list Location) (path remaining : list string) (current : string)
  : list string :=
  match fuel, remaining with
  | S fuel', first :: _ =>
      let bestNext := dpApproxNext params locations current first remaining in
      dpApprox_loop fuel' params locations (path ++ [bestNext])
                    (remove_first bestNext remaining) bestNext
  | _, _ => path
  end.

Definition runDPApproximation (params : SimulationParams) (locations : list Location)
  : list string :=
  let remaining := otherCities params in
  dpApprox_loop (length remaining) params locations [startLocation params] remaining
                (startLocation params)
  ++ [startLocation params].

Definition runHeldKarpDP (params : SimulationParams) (locations : list Location)
  : list CityId :=
  let cities := default [] (selectedCities params) in
  let startIdx := indexOfZ cities (startLocation params) in
  if (10 <? length cities)%nat then map Id (runDPApproximation params locations)
  else
    let n := length cities in
    let dp := hkFill cities startIdx locations (hkInit cities startIdx locations) in
    let fullMask := (Z.shiftl 1 (Z.of_nat n) - 1)%Z in
    let lastCity := snd (hkLast cities startIdx locations dp) in
    let path :=
      hkReconstruct (S n) cities startIdx dp [Id (startLocation params)] fullMask lastCity in
    rev (path ++ [Id (startLocation params)]).

(** *** Branch and bound *)

Record MSTEdge := { mst_from : string; mst_to : string; mst_weight : Q }.

(** [find] of the union-find, with its path compression: the root and the
    updated [parent] map. A chain of parents has no cycle, so the number of
    points is enough fuel. *)
Fixpoint uf_find (fuel : nat) (parent : list (string * string)) (x : string)
  : string * list (string * string) :=
  match fuel with
  | O => (x, parent)
  | S fuel' =>
      match obj_get parent x with
      | Some px =>
          if String.eqb px x then (px, parent)
          else
            let '(root, parent) := uf_find fuel' parent px in
            (root, obj_set parent x root)
      | None => (x, parent)
      end
  end.

(** The edges [allPoints[i]] to [allPoints[j]], [i < j], in the order of the
    two [for] loops. *)
Fixpoint allPairs (locations : list Location) (points : list string) : list MSTEdge :=
  match points with
  | [] => []
  | a :: rest =>
      map (fun b => {| mst_from := a; mst_to := b;
                       mst_weight := calculateDistance (Id a) (Id b) locations |}) rest
      ++ allPairs locations rest
  end.

Record Kruskal := {
  k_parent : list (string * string);
  k_weight : Q;
  k_added : nat;
  k_done : bool
}.

Definition calculateMSTBound (current : string) (remaining : list string)
           (endCity : string) (locations : list Location) : Q :=
  match remaining with
  | [] => calculateDistance (Id current) (Id endCity) locations
  | _ =>
      let allPoints := current :: remaining ++ [endCity] in
      let edges := sort_by mst_weight (allPairs locations allPoints) in
      let parent0 := fold_left (fun parent p => obj_set parent p p) allPoints [] in
      let fuel := S (length allPoints) in
      k_weight
        (fold_left
           (fun (k : Kruskal) edge =>
              if k_done k then k
              else
                let '(rootFrom, parent) := uf_find fuel (k_parent k) (mst_from edge) in
                let '(rootTo, parent) := uf_find fuel parent (mst_to edge) in
                if negb (String.eqb rootFrom rootTo) then
                  {| k_parent := obj_set parent rootFrom rootTo;
                     k_weight := (k_weight k + mst_weight edge)%Q;
                     k_added := S (k_added k);
                     k_done := (S (k_added k) =? length allPoints - 1)%nat |}
                else
                  {| k_parent := parent; k_weight := k_weight k;
                     k_added := k_added k; k_done := false |})
           edges
           {| k_parent := parent0; k_weight := 0; k_added := 0; k_done := false |})
  end.

(** The recursive closure [branchAndBound] of [runBranchAndBoundTSP], with
    the incumbent [(bestPath, bestCost)] passed through. A call on
    [remaining] recurses on strictly shorter arrays, so the length of
    [remaining] is the fuel. [remaining.sort] sorts in place: the filter
    of the loop reads the sorted array. *)
Fixpoint bnb (fuel : nat) (params : SimulationParams) (locations : list Location)
         (currentPath remaining : list string) (currentCost : Q)
         (best : list string * Q) : list string * Q :=
  let lastCity := List.last currentPath "" in
  match remaining with
  | [] =>
      let completePath := currentPath ++ [startLocation params] in
      let totalCost :=
        (currentCost + calculateDistance (Id lastCity) (Id (startLocation params)) locations)%Q in
      if Qltb totalCost (snd best) then (completePath, totalCost) else best
  | _ =>
      match fuel with
      | O => best
      | S fuel' =>
          let lowerBound :=
            (currentCost + calculateMSTBound lastCity remaining (startLocation params) locations)%Q in
          if Qle_bool (snd best) lowerBound then best
          else
            let sortedRemaining :=
              sort_by (fun a => calculateDistance (Id lastCity) (Id a) locations) remaining in
            fold_left
              (fun best city =>
                 let newCost :=
                   (currentCost + calculateDistance (Id lastCity) (Id city) locations)%Q in
                 bnb fuel' params locations (currentPath ++ [city])
                     (filter (fun c => negb (String.eqb c city)) sortedRemaining)
                     newCost best)
              sortedRemaining best
      end
  end.

(** [runHeuristicBranchBound]: [newPath.splice(i, 1)] then
    [newPath.splice(j, 0, city)]. *)
Definition relocate (path : list string) (i j : nat) : list string :=
  let city := nth i path "" in
  let without := firstn i path ++ skipn (i + 1) path in
  firstn j without ++ city :: skipn j without.

Definition runHeuristicBranchBound (params : SimulationParams)
           (locations : list Location) : list string :=
  let path0 := runGreedyNearestNeighbor params locations in
  let len := length path0 in
  fold_left
    (fun path i =>
       fold_left
         (fun path j =>
            let newPath := relocate path i j in
            if Qltb (pathDistanceOf newPath locations) (pathDistanceOf path locations)
            then newPath else path)
         (seq (i + 2) (len - 3 - i)) path)
    (seq 1 (len - 3)) path0.

Definition runBranchAndBoundTSP (params : SimulationParams) (locations : list Location)
  : list string :=
  let cities := default [] (selectedCities params) in
  if (9 <? length cities)%nat then runHeuristicBranchBound params locations
  else
    let bestPath := runGreedyNearestNeighbor params locations in
    let bestCost := pathDistanceOf bestPath locations in
    let others := otherCities params in
    fst (bnb (length others) params locations [startLocation params] others 0
             (bestPath, bestCost)).

(** *** The fallback dispatcher *)

Record Multiplier := { mul_time : Q; mul_cost : Q; mul_fuel : Q; mul_score : Q }.

Definition getAlgorithmMultiplier (alg : Algorithm) : Multiplier :=
  match alg with
  | brute_force =>
      {| mul_time := 82 # 100; mul_cost := 85 # 100; mul_fuel := 83 # 100; mul_score := 80 # 100 |}
  | dynamic_programming =>
      {| mul_time := 88 # 100; mul_cost := 90 # 100; mul_fuel := 87 # 100; mul_score := 85 # 100 |}
  | nearest_neighbor =>
      {| mul_time := 125 # 100; mul_cost := 135 # 100; mul_fuel := 130 # 100; mul_score := 140 # 100 |}
  | branch_and_bound =>
      {| mul_time := 85 # 100; mul_cost := 92 # 100; mul_fuel := 89 # 100; mul_score := 88 # 100 |}
  end.

Record SimulationResult := {
  r_algorithm : Algorithm;
  r_path : list CityId;
  r_metrics : Metrics
}.

Definition emptyResult (alg : Algorithm) : SimulationResult :=
  {| r_algorithm := alg;
     r_path := [];
     r_metrics :=
       {| m_distance := 0; m_time := 0; m_cost := 0; m_fuel := 0;
          m_trafficImpact := 1; m_weatherImpact := 1; m_totalScore := 0 |} |}.

(** [runBasicTSPSimulation]. [fuel] bounds the [while] loop of the 2-opt
    ([None]: out of fuel), [random1] and [random2] are the shuffled arrays of
    [runIntensive2Opt], [rnd1] and [rnd2] the two [Math.random()] of the
    metrics. *)
Definition runBasicTSPSimulation (fuel : nat) (random1 random2 : list string)
           (rnd1 rnd2 : Q) (params : SimulationParams) : option SimulationResult :=
  let locations := Maps.mapLocations (mapType params) in
  match selectedCities params with
  | None => Some (emptyResult (algorithm params))
  | Some selected =>
      if (length selected <? 2)%nat then Some (emptyResult (algorithm params))
      else
        let path :=
          match algorithm params with
          | brute_force =>
              option_map (map Id) (runOptimalBruteForce fuel random1 random2 params locations)
          | dynamic_programming => Some (runHeldKarpDP params locations)
          | nearest_neighbor => Some (map Id (runGreedyNearestNeighbor params locations))
          | branch_and_bound => Some (map Id (runBranchAndBoundTSP params locations))
          end in
        match path with
        | None => None
        | Some path =>
            let totalDistance := calculatePathDistance path locations in
            let baseTime := (totalDistance / 50000 * 3600)%Q in
            let baseCost := ((totalDistance / 1000) * 5)%Q in
            let baseFuel := ((totalDistance / 1000) * (1 # 10))%Q in
            let algorithmMultiplier := getAlgorithmMultiplier (algorithm params) in
            Some {| r_algorithm := algorithm params;
                    r_path := path;
                    r_metrics :=
                      {| m_distance := totalDistance;
                         m_time := (baseTime * mul_time algorithmMultiplier)%Q;
                         m_cost := (baseCost * mul_cost algorithmMultiplier)%Q;
                         m_fuel := (baseFuel * mul_fuel algorithmMultiplier)%Q;
                         m_trafficImpact := (1 + rnd1 * (3 # 10))%Q;
                         m_weatherImpact := (1 + rnd2 * (2 # 10))%Q;
                         m_totalScore :=
                           ((totalDistance / 1000) * mul_score algorithmMultiplier)%Q |} |}
        end
  end.

End Distances.

(** *** The path of the AI route *)

Section BuildPath.
(** [String.prototype.toLowerCase]. *)
Variable toLowerCase : string -> string.

(** The first loop of [buildTSPPath], over the route of the service:
    [(path, visitedCities)]. *)
Definition addRouteCity (params : SimulationParams) (locations : list Location)
           (st : list string * JsSet.t) (cityName : string) : list string * JsSet.t :=
  match find (fun loc => String.eqb (toLowerCase (loc_name loc)) (toLowerCase cityName))
             locations with
  | Some location =>
      if negb (JsSet.has (snd st) (loc_id location))
         && match selectedCities params with
            | Some selected => includes selected (loc_id location)
            | None => false
            end
      then (fst st ++ [loc_id location], JsSet.add (loc_id location) (snd st))
      else st
  | None => st
  end.

(** The second loop, over the selected cities. *)
Definition addSelectedCity (st : list string * JsSet.t) (cityId : string)
  : list string * JsSet.t :=
  if negb (JsSet.has (snd st) cityId)
  then (fst st ++ [cityId], JsSet.add cityId (snd st))
  else st.

Definition buildTSPPath (route : list string) (params : SimulationParams)
           (locations : list Location) : list string :=
  let st0 := ([startLocation params], JsSet.add (startLocation params) []) in
  let st1 := fold_left (addRouteCity params locations) route st0 in
  let st2 := fold_left addSelectedCity (default [] (selectedCities params)) st1 in
  if (1 <? length (fst st2))%nat then fst st2 ++ [startLocation params] else fst st2.
End BuildPath.

End TspSimulation.

(** * src/utils/graphAlgorithms.ts *)

Module GraphAlgorithms.

Record GraphNode := {
  gn_id : string;
  gn_label : string;
  gn_x : Q;
  gn_y : Q;
  population : Z;
  importance : Q;
  trafficLevel : Q
}.

Inductive RoadType := highway | city | rural.

Record GraphEdge := {
  ge_from : string;
  ge_to : string;
  weight : Q;
  roadType : RoadType;
  ge_trafficFactor : Q;
  ge_weatherImpact : Q
}.

(** [indexToNode] is keyed by 0, 1, ...: the list of its values. *)
Record Graph := {
  g_nodes : list (string * GraphNode);
  g_edges : list GraphEdge;
  adjacencyMatrix : Matrix;
  nodeIndices : list (string * nat);
  indexToNode : list string
}.

(** [conditions?: any]: each field may be missing (an [undefined]
    [conditions] has them all missing). *)
Record Conditions := {
  c_weather : option Weather;
  c_timeOfDay : option TimeOfDay;
  c_vehicle : option Vehicle
}.

Definition ROAD_TYPE_MULTIPLIERS (r : RoadType) : Q :=
  match r with
  | highway => 8 # 10
  | city => 12 # 10
  | rural => 1
  end.

(** [WEATHER_MULTIPLIERS[w] || 1.0]: the table has no entry for windy. *)
Definition weatherMultiplier (w : Weather) : Q :=
  match w with
  | sunny => 1
  | rainy => 14 # 10
  | foggy => 13 # 10
  | snowy => 18 # 10
  | windy => 1
  end.

(** [TIME_OF_DAY_MULTIPLIERS[t] || 1.0]. *)
Definition timeOfDayMultiplier (t : TimeOfDay) : Q :=
  match t with
  | morning => 12 # 10
  | afternoon => 1
  | evening => 13 # 10
  | night => 9 # 10
  end.

(** [if (conditions?.weather) x *= ...] and [if (conditions?.timeOfDay) x *= ...]. *)
Definition applyWeather (conditions : Conditions) (x : Q) : Q :=
  match c_weather conditions with
  | Some w => (x * weatherMultiplier w)%Q
  | None => x
  end.

Definition applyTimeOfDay (conditions : Conditions) (x : Q) : Q :=
  match c_timeOfDay conditions with
  | Some t => (x * timeOfDayMultiplier t)%Q
  | None => x
  end.

Record Result := {
  res_path : list string;
  res_distance : num;
  res_time : num
}.

Section Solvers.
(** [Math.sqrt] on the numbers of the program. *)
Variable sqrt : Q -> Q.

Definition calculateEuclideanDistance (node1 node2 : GraphNode) : Q :=
  let dx := (gn_x node1 - gn_x node2)%Q in
  let dy := (gn_y node1 - gn_y node2)%Q in
  (sqrt (dx * dx + dy * dy) * (1 # 10))%Q.

(** The fallback that every solver applies to a cell [w] of the matrix
    between the nodes [a] and [b]: a finite cell is the weight; for
    [Infinity] it is the Euclidean distance with the weather and
    time-of-day factors. [None] is the [TypeError] of reading the
    coordinates of a node that [graph.nodes] does not have. *)
Definition realWorldWeight (graph : Graph) (conditions : Conditions)
           (a b : string) (w : num) : option Q :=
  match w with
  | Fin d => Some d
  | Infinity =>
      match obj_get (g_nodes graph) a, obj_get (g_nodes graph) b with
      | Some fromNode, Some toNode =>
          Some (applyTimeOfDay conditions
                  (applyWeather conditions (calculateEuclideanDistance fromNode toNode)))
      | _, _ => None
      end
  end.

(** [calculateTravelTime]. *)
Definition calculateTravelTime (distance : num) (path : list string) (graph : Graph)
           (conditions : Conditions) : num :=
  let baseTime := num_scale distance 60 in
  let baseTime :=
    match c_timeOfDay conditions with
    | Some t => num_scale baseTime (timeOfDayMultiplier t)
    | None => baseTime
    end in
  let baseTime :=
    match c_weather conditions with
    | Some w => num_scale baseTime (weatherMultiplier w)
    | None => baseTime
    end in
  let cityDelayFactor :=
    fold_left
      (fun (f : Q) nodeId =>
         match obj_get (g_nodes graph) nodeId with
         | Some node => if (500000 <? population node)%Z then (f + (1 # 10))%Q else f
         | None => f
         end)
      path 1%Q in
  num_scale baseTime cityDelayFactor.

(** [calculateRealWorldDistance]: [Some Infinity] when an id of the path has
    no index, [None] for a [TypeError]. *)
Fixpoint realWorldDistanceFrom (total : Q) (path : list string) (graph : Graph)
         (conditions : Conditions) : option num :=
  match path with
  | a :: (b :: _) as rest =>
      match obj_get (nodeIndices graph) a, obj_get (nodeIndices graph) b with
      | Some fromIndex, Some toIndex =>
          match realWorldWeight graph conditions a b
                  (mat_get (adjacencyMatrix graph) fromIndex toIndex) with
          | Some edgeWeight =>
              realWorldDistanceFrom (total + edgeWeight)%Q rest graph conditions
          | None => None
          end
      | _, _ => Some Infinity
      end
  | _ => Some (Fin total)
  end.

Definition calculateRealWorldDistance (path : list string) (graph : Graph)
           (conditions : Conditions) : option num :=
  if (length path <? 2)%nat then Some (Fin 0)
  else realWorldDistanceFrom 0 path graph conditions.

(** *** Brute force *)

(** The body of the loop over the permutations, on [(bestPath, bestDistance)];
    [None] for a [TypeError]. *)
Definition bruteStep (graph : Graph) (start : string) (conditions : Conditions)
           (st : option (list string * num)) (perm : list string)
  : option (list string * num) :=
  match st with
  | None => None
  | Some (bestPath, bestDistance) =>
      let fullPath := start :: perm ++ [start] in
      match calculateRealWorldDistance fullPath graph conditions with
      | None => None
      | Some pathDistance =>
          if num_ltb pathDistance bestDistance then Some (fullPath, pathDistance)
          else Some (bestPath, bestDistance)
      end
  end.

Definition bruteForce (graph : Graph) (start : string) (conditions : Conditions)
  : option Result :=
  let allNodes := Object_keys (g_nodes graph) in
  if (length allNodes <? 2)%nat then
    Some {| res_path := [start]; res_distance := Fin 0; res_time := Fin 0 |}
  else
    let otherNodes := filter (fun node => negb (String.eqb node start)) allNodes in
    match fold_left (bruteStep graph start conditions)
                    (Algorithms.permute otherNodes) (Some ([], Infinity)) with
    | None => None
    | Some (bestPath, bestDistance) =>
        Some {| res_path := bestPath;
                res_distance := bestDistance;
                res_time := calculateTravelTime bestDistance bestPath graph conditions |}
    end.

(** *** Nearest neighbour *)

(** The score of a candidate: the distance, lowered for important and for
    large cities. *)
Definition smartScore (cityNode : GraphNode) (distance : Q) : Q :=
  let score := distance in
  let score :=
    if negb (Qeq_bool (importance cityNode) 0)
    then (score * (1 - importance cityNode / 200))%Q else score in
  if (300000 <? population cityNode)%Z then (score * (9 # 10))%Q else score.

(** The body of the scan [for (const nodeId of allNodes)] on
    [(bestNode, bestScore)]; [None] for a [TypeError]. *)
Definition nnScanStep (graph : Graph) (conditions : Conditions) (current : string)
           (currentIndex : nat) (visited : JsSet.t)
           (st : option (string * num)) (nodeId : string) : option (string * num) :=
  match st with
  | None => None
  | Some (bestNode, bestScore) =>
      if JsSet.has visited nodeId then st
      else
        match obj_get (nodeIndices graph) nodeId with
        | None => st
        | Some nodeIndex =>
            match realWorldWeight graph conditions current nodeId
                    (mat_get (adjacencyMatrix graph) currentIndex nodeIndex),
                  obj_get (g_nodes graph) nodeId with
            | Some distance, Some cityNode =>
                let score := smartScore cityNode distance in
                if num_ltb (Fin score) bestScore then Some (nodeId, Fin score)
                else st
            | _, _ => None
            end
        end
  end.

(** The scan, from [("", Infinity)]. *)
Definition nnScan (graph : Graph) (conditions : Conditions) (current : string)
           (currentIndex : nat) (visited : JsSet.t) (allNodes : list string)
  : option (string * num) :=
  fold_left (nnScanStep graph conditions current currentIndex visited)
            allNodes (Some ("", Infinity)).

Record NNState := {
  nn_visited : JsSet.t;
  nn_path : list string;
  nn_current : string;
  nn_total : Q
}.

(** The loop [while (visited.size < allNodes.length)]; every turn that goes
    on adds a node to [visited], so [allNodes.length] turns are enough. *)
Fixpoint nn_loop (fuel : nat) (graph : Graph) (conditions : Conditions)
         (allNodes : list string) (st : NNState) : option NNState :=
  match fuel with
  | O => Some st
  | S fuel' =>
      if (JsSet.size (nn_visited st) <? length allNodes)%nat then
        match obj_get (nodeIndices graph) (nn_current st) with
        | None => Some st
        | Some currentIndex =>
            match nnScan graph conditions (nn_current st) currentIndex
                    (nn_visited st) allNodes with
            | None => None
            | Some (bestNode, _) =>
                if String.eqb bestNode "" then Some st
                else
                  match obj_get (nodeIndices graph) bestNode with
                  | Some bestNodeIndex =>
                      match realWorldWeight graph conditions (nn_current st) bestNode
                              (mat_get (adjacencyMatrix graph) currentIndex bestNodeIndex) with
                      | Some actualDistance =>
                          nn_loop fuel' graph conditions allNodes
                            {| nn_visited := JsSet.add bestNode (nn_visited st);
                               nn_path := nn_path st ++ [bestNode];
                               nn_current := bestNode;
                               nn_total := (nn_total st + actualDistance)%Q |}
                      | None => None
                      end
                  | None =>
                      nn_loop fuel' graph conditions allNodes
                        {| nn_visited := JsSet.add bestNode (nn_visited st);
                           nn_path := nn_path st ++ [bestNode];
                           nn_current := bestNode;
                           nn_total := nn_total st |}
                  end
            end
        end
      else Some st
  end.

Definition nearestNeighbor (graph : Graph) (start : string) (conditions : Conditions)
  : option Result :=
  let allNodes := Object_keys (g_nodes graph) in
  match nn_loop (length allNodes) graph conditions allNodes
          {| nn_visited := JsSet.add start []; nn_path := [start];
             nn_current := start; nn_total := 0 |} with
  | None => None
  | Some st =>
      let closed :=
        if (JsSet.size (nn_visited st) =? length allNodes)%nat then
          match obj_get (nodeIndices graph) (nn_current st),
                obj_get (nodeIndices graph) start with
          | Some currentIndex, Some startIndex =>
              match realWorldWeight graph conditions (nn_current st) start
                      (mat_get (adjacencyMatrix graph) currentIndex startIndex) with
              | Some returnDistance =>
                  Some (nn_path st ++ [start], (nn_total st + returnDistance)%Q)
              | None => None
              end
          | _, _ => Some (nn_path st, nn_total st)
          end
        else Some (nn_path st, nn_total st) in
      match closed with
      | None => None
      | Some (path, totalDistance) =>
          Some {| res_path := path;
                  res_distance := Fin totalDistance;
                  res_time := calculateTravelTime (Fin totalDistance) path graph conditions |}
      end
  end.

(** *** Dynamic programming *)

(** A row of [dp] or [parent]: a [Map] keyed by the city index, iterated in
    insertion order. *)
Fixpoint row_get {V : Type} (row : list (nat * V)) (k : nat) : option V :=
  match row with
  | [] => None
  | (k', v) :: row' => if (k' =? k)%nat then Some v else row_get row' k
  end.

Fixpoint row_set {V : Type} (row : list (nat * V)) (k : nat) (v : V) : list (nat * V) :=
  match row with
  | [] => [(k, v)]
  | (k', v') :: row' =>
      if (k' =? k)%nat then (k', v) :: row' else (k', v') :: row_set row' k v
  end.

Record Tables := {
  dp : gmap Z (list (nat * Q));
  parent : gmap Z (list (nat * nat))
}.

(** The weight between the cities of index [u] and [v], with the fallback. *)
Definition indexWeight (graph : Graph) (conditions : Conditions) (u v : nat) : option Q :=
  match mat_get (adjacencyMatrix graph) u v with
  | Fin d => Some d
  | Infinity =>
      match nth_error (indexToNode graph) u, nth_error (indexToNode graph) v with
      | Some a, Some b => realWorldWeight graph conditions a b Infinity
      | _, _ => None
      end
  end.

(** The body of [for (let v = 0; v < n; v++)] for the state [(u, cost)] of [mask]. *)
Definition relax (graph : Graph) (conditions : Conditions) (mask : Z) (u : nat) (cost : Q)
           (t : option Tables) (v : nat) : option Tables :=
  match t with
  | None => None
  | Some t =>
      if Z.testbit mask (Z.of_nat v) then Some t
      else
        match indexWeight graph conditions u v with
        | None => None
        | Some distance =>
            let newMask := Z.lor mask (Z.shiftl 1 (Z.of_nat v)) in
            let newCost := (cost + distance)%Q in
            let newStates := default [] (dp t !! newMask) in
            let newParents := default [] (parent t !! newMask) in
            let better :=
              match row_get newStates v with
              | None => true
              | Some old => Qltb newCost old
              end in
            if better then
              Some {| dp := <[newMask := row_set newStates v newCost]> (dp t);
                      parent := <[newMask := row_set newParents v u]> (parent t) |}
            else
              Some {| dp := <[newMask := newStates]> (dp t);
                      parent := <[newMask := newParents]> (parent t) |}
        end
  end.

Definition fillMask (graph : Graph) (conditions : Conditions) (n : nat)
           (t : option Tables) (mask : nat) : option Tables :=
  match t with
  | None => None
  | Some t0 =>
      match dp t0 !! (Z.of_nat mask) with
      | None => Some t0
      | Some currentStates =>
          fold_left
            (fun t (state : nat * Q) =>
               fold_left (relax graph conditions (Z.of_nat mask) (fst state) (snd state))
                         (seq 0 n) t)
            currentStates (Some t0)
      end
  end.

(** The search for the last city: [(minCost, lastCity)]. *)
Definition bestLast (graph : Graph) (conditions : Conditions) (n startIndex : nat)
           (t : Tables) : option (num * option nat) :=
  match dp t !! (Z.shiftl 1 (Z.of_nat n) - 1)%Z with
  | None => Some (Infinity, None)
  | Some finalStates =>
      fold_left
        (fun (st : option (num * option nat)) (state : nat * Q) =>
           match st with
           | None => None
           | Some (minCost, lastCity) =>
               if (fst state =? startIndex)%nat then st
               else
                 match indexWeight graph conditions (fst state) startIndex with
                 | None => None
                 | Some returnCost =>
                     let totalCost := (snd state + returnCost)%Q in
                     if num_ltb (Fin totalCost) minCost
                     then Some (Fin totalCost, Some (fst state)) else st
                 end
           end)
        finalStates (Some (Infinity, None))
  end.

(** The loop [while (currentMask > 0)] of the reconstruction; each turn that
    goes on flips a bit of the mask, and [n] turns are enough. *)
Fixpoint reconstruct (fuel : nat) (graph : Graph) (t : Tables) (startMask : Z)
         (path : list string) (currentMask : Z) (currentCity : nat) : list string :=
  match fuel with
  | O => path
  | S fuel' =>
      if (0 <? currentMask)%Z then
        let path := nth currentCity (indexToNode graph) "" :: path in
        if (currentMask =? startMask)%Z then path
        else
          match parent t !! currentMask with
          | None => path
          | Some parents =>
              match row_get parents currentCity with
              | None => path
              | Some prevCity =>
                  reconstruct fuel' graph t startMask path
                              (Z.lxor currentMask (Z.shiftl 1 (Z.of_nat currentCity)))
                              prevCity
              end
          end
      else path
  end.

Definition dynamicProgramming (graph : Graph) (start : string) (conditions : Conditions)
  : option Result :=
  let allNodes := Object_keys (g_nodes graph) in
  let n := length allNodes in
  if (n <=? 1)%nat then
    Some {| res_path := [start]; res_distance := Fin 0; res_time := Fin 0 |}
  else if (12 <? n)%nat then nearestNeighbor graph start conditions
  else
    match obj_get (nodeIndices graph) start with
    | None => Some {| res_path := []; res_distance := Fin 0; res_time := Fin 0 |}
    | Some startIndex =>
        let startMask := Z.shiftl 1 (Z.of_nat startIndex) in
        let t0 := {| dp := {[ startMask := [(startIndex, 0%Q)] ]}; parent := ∅ |} in
        match fold_left (fillMask graph conditions n) (seq 1 (2 ^ n - 1)) (Some t0) with
        | None => None
        | Some t =>
            match bestLast graph conditions n startIndex t with
            | None => None
            | Some (Fin minCost, Some lastCity) =>
                let fullMask := (Z.shiftl 1 (Z.of_nat n) - 1)%Z in
                let path := reconstruct (S n) graph t startMask [] fullMask lastCity ++ [start] in
                Some {| res_path := path;
                        res_distance := Fin minCost;
                        res_time := calculateTravelTime (Fin minCost) path graph conditions |}
            | Some (_, _) =>
                Some {| res_path := []; res_distance := Fin 0; res_time := Fin 0 |}
            end
        end
    end.

(** *** Branch and bound *)

Record BnBNode := {
  bn_path : list string;
  bn_cost : Q;
  bn_visited : JsSet.t;
  bn_bound : num
}.

(** The minimum of the row of [nodeId] for the bound: a missing cell counts
    as the Euclidean distance with the weather factor capped at 1.2, when
    both nodes exist. *)
Definition boundMinEdge (graph : Graph) (conditions : Conditions) (n : nat)
           (nodeId : string) (nodeIndex : nat) : num :=
  fold_left
    (fun (minEdge : num) i =>
       let edgeWeight :=
         match mat_get (adjacencyMatrix graph) nodeIndex i with
         | Fin d => Fin d
         | Infinity =>
             match obj_get (g_nodes graph) nodeId,
                   match nth_error (indexToNode graph) i with
                   | Some b => obj_get (g_nodes graph) b
                   | None => None
                   end with
             | Some fromNode, Some toNode =>
                 let e := calculateEuclideanDistance fromNode toNode in
                 match c_weather conditions with
                 | Some w =>
                     Fin (e * (if Qltb (12 # 10) (weatherMultiplier w)
                               then 12 # 10 else weatherMultiplier w))%Q
                 | None => Fin e
                 end
             | _, _ => Infinity
             end
         end in
       if num_ltb edgeWeight minEdge then edgeWeight else minEdge)
    (seq 0 n) Infinity.

(** [calculateBound]; [None] for a [TypeError]. *)
Definition calculateBound (graph : Graph) (start : string) (conditions : Conditions)
           (allNodes : list string) (path : list string) (visited : JsSet.t)
  : option num :=
  if (JsSet.size visited =? length allNodes)%nat then
    let lastNode := List.last path "" in
    match obj_get (nodeIndices graph) lastNode, obj_get (nodeIndices graph) start with
    | Some lastIndex, Some startIndex =>
        option_map Fin
          (realWorldWeight graph conditions lastNode start
             (mat_get (adjacencyMatrix graph) lastIndex startIndex))
    | _, _ => Some Infinity
    end
  else
    let unvisited := filter (fun node => negb (JsSet.has visited node)) allNodes in
    Some (Fin
      (fold_left
         (fun (bound : Q) nodeId =>
            match obj_get (nodeIndices graph) nodeId with
            | Some nodeIndex =>
                match boundMinEdge graph conditions (length allNodes) nodeId nodeIndex with
                | Fin m => (bound + m)%Q
                | Infinity => bound
                end
            | None => bound
            end)
         unvisited 0%Q)).

Definition priority (b : BnBNode) : num := num_add (Fin (bn_cost b)) (bn_bound b).

(** The expansion loop [for (const nextNode of allNodes)]. *)
Definition expandStep (graph : Graph) (start : string) (conditions : Conditions)
           (allNodes : list string) (current : BnBNode) (currentNode : string)
           (currentIndex : nat) (bestCost : num)
           (queue : option (list BnBNode)) (nextNode : string) : option (list BnBNode) :=
  match queue with
  | None => None
  | Some q =>
      if JsSet.has (bn_visited current) nextNode then Some q
      else
        match obj_get (nodeIndices graph) nextNode with
        | None => Some q
        | Some nextIndex =>
            match realWorldWeight graph conditions currentNode nextNode
                    (mat_get (adjacencyMatrix graph) currentIndex nextIndex) with
            | None => None
            | Some edgeCost =>
                let newVisited := JsSet.add nextNode (bn_visited current) in
                let newPath := bn_path current ++ [nextNode] in
                let newCost := (bn_cost current + edgeCost)%Q in
                match calculateBound graph start conditions allNodes newPath newVisited with
                | None => None
                | Some newBound =>
                    if num_ltb (num_add (Fin newCost) newBound) bestCost then
                      Some (q ++ [{| bn_path := newPath; bn_cost := newCost;
                                      bn_visited := newVisited; bn_bound := newBound |}])
                    else Some q
                end
            end
        end
  end.

Definition maxIterations : nat := Z.to_nat 50000.

(** The loop [while (queue.length > 0 && iterations < maxIterations)], with
    [fuel = maxIterations - iterations]: the incumbent when it stops, [None]
    for a [TypeError]. *)
Fixpoint bb_loop (fuel : nat) (graph : Graph) (start : string) (conditions : Conditions)
         (allNodes : list string) (queue : list BnBNode)
         (bestSolution : option BnBNode) (bestCost : num)
  : option (option BnBNode) :=
  match fuel with
  | O => Some bestSolution
  | S fuel' =>
      match sort_by_num priority queue with
      | [] => Some bestSolution
      | current :: queue' =>
          if num_geb (priority current) bestCost then
            bb_loop fuel' graph start conditions allNodes queue' bestSolution bestCost
          else if (JsSet.size (bn_visited current) =? length allNodes)%nat then
            let lastNode := List.last (bn_path current) "" in
            match obj_get (nodeIndices graph) lastNode, obj_get (nodeIndices graph) start with
            | Some lastIndex, Some startIndex =>
                match realWorldWeight graph conditions lastNode start
                        (mat_get (adjacencyMatrix graph) lastIndex startIndex) with
                | None => None
                | Some returnCost =>
                    let totalCost := (bn_cost current + returnCost)%Q in
                    if num_ltb (Fin totalCost) bestCost then
                      bb_loop fuel' graph start conditions allNodes queue'
                              (Some {| bn_path := bn_path current ++ [start];
                                       bn_cost := totalCost;
                                       bn_visited := bn_visited current;
                                       bn_bound := Fin 0 |})
                              (Fin totalCost)
                    else
                      bb_loop fuel' graph start conditions allNodes queue' bestSolution bestCost
                end
            | _, _ =>
                bb_loop fuel' graph start conditions allNodes queue' bestSolution bestCost
            end
          else
            let currentNode := List.last (bn_path current) "" in
            match obj_get (nodeIndices graph) currentNode with
            | None =>
                bb_loop fuel' graph start conditions allNodes queue' bestSolution bestCost
            | Some currentIndex =>
                match fold_left
                        (expandStep graph start conditions allNodes current currentNode
                                    currentIndex bestCost)
                        allNodes (Some queue') with
                | None => None
                | Some queue'' =>
                    bb_loop fuel' graph start conditions allNodes queue'' bestSolution bestCost
                end
            end
      end
  end.

Definition branchAndBound (graph : Graph) (start : string) (conditions : Conditions)
  : option Result :=
  let allNodes := Object_keys (g_nodes graph) in
  if (10 <? length allNodes)%nat then nearestNeighbor graph start conditions
  else
    let visited0 := JsSet.add start [] in
    match calculateBound graph start conditions allNodes [start] visited0 with
    | None => None
    | Some bound0 =>
        match bb_loop maxIterations graph start conditions allNodes
                [{| bn_path := [start]; bn_cost := 0; bn_visited := visited0;
                    bn_bound := bound0 |}] None Infinity with
        | None => None
        | Some (Some bestSolution) =>
            Some {| res_path := bn_path bestSolution;
                    res_distance := Fin (bn_cost bestSolution);
                    res_time := calculateTravelTime (Fin (bn_cost bestSolution))
                                  (bn_path bestSolution) graph conditions |}
        | Some None =>
            Some {| res_path := []; res_distance := Fin 0; res_time := Fin 0 |}
        end
    end.

(** *** From the editor's nodes and edges to the graph *)

(** A node and an edge of the graph editor (reactflow): [fe_label] is the value
    of [parseInt(edge.label)], [None] for [NaN]. *)
Record FlowNode := { fn_id : string; fn_label : string; fn_x : Q; fn_y : Q }.
Record FlowEdge := { fe_source : string; fe_target : string; fe_label : option Z }.

(** The first loop of [convertToGraph]; [rnd k] is the value of the [k]-th
    [Math.random()] of the call, and the node of index [i] draws three. *)
Definition addNode (rnd : nat -> Q) (g : Graph) (node : FlowNode) : Graph :=
  let index := length (indexToNode g) in
  {| g_nodes :=
       obj_set (g_nodes g) (fn_id node)
         {| gn_id := fn_id node; gn_label := fn_label node;
            gn_x := fn_x node; gn_y := fn_y node;
            population := (Qfloor (rnd (3 * index)%nat * 1000000) + 50000)%Z;
            importance := (rnd (3 * index + 1)%nat * 100)%Q;
            trafficLevel := (rnd (3 * index + 2)%nat * 3)%Q |};
     g_edges := g_edges g;
     adjacencyMatrix := adjacencyMatrix g;
     nodeIndices := obj_set (nodeIndices g) (fn_id node) index;
     indexToNode := indexToNode g ++ [fn_id node] |}.

(** [roadTypes[Math.floor(Math.random() * roadTypes.length)]], for a draw in [0, 1). *)
Definition pickRoadType (r : Q) : RoadType :=
  match Qfloor (r * 3) with
  | 0%Z => highway
  | 1%Z => city
  | _ => rural
  end.

(** The body of the second loop: the edge of position [j] draws three numbers
    after those of the [n] nodes. [None] is the [TypeError] of measuring to a
    node that is not in the graph. *)
Definition addEdge (rnd : nat -> Q) (n : nat) (st : option (Graph * nat)) (edge : FlowEdge)
  : option (Graph * nat) :=
  match st with
  | None => None
  | Some (g, j) =>
      let baseWeight :=
        match fe_label edge with
        | Some z => if (z =? 0)%Z then None else Some (inject_Z z)
        | None => None
        end in
      let baseWeight :=
        match baseWeight with
        | Some w => Some w
        | None =>
            match obj_get (g_nodes g) (fe_source edge), obj_get (g_nodes g) (fe_target edge) with
            | Some a, Some b => Some (calculateEuclideanDistance a b)
            | _, _ => None
            end
        end in
      match baseWeight with
      | None => None
      | Some baseWeight =>
          let roadType := pickRoadType (rnd (3 * n + 3 * j)%nat) in
          let trafficFactor := (rnd (3 * n + 3 * j + 1)%nat * 2 + (1 # 2))%Q in
          let weatherImpact := (rnd (3 * n + 3 * j + 2)%nat * (1 # 2) + 1)%Q in
          let realWorldWeight :=
            (baseWeight * ROAD_TYPE_MULTIPLIERS roadType * trafficFactor * weatherImpact)%Q in
          match obj_get (nodeIndices g) (fe_source edge), obj_get (nodeIndices g) (fe_target edge) with
          | Some fromIndex, Some toIndex =>
              let mk a b :=
                {| ge_from := a; ge_to := b; weight := realWorldWeight; roadType := roadType;
                   ge_trafficFactor := trafficFactor; ge_weatherImpact := weatherImpact |} in
              Some ({| g_nodes := g_nodes g;
                       g_edges := g_edges g ++ [mk (fe_source edge) (fe_target edge);
                                                mk (fe_target edge) (fe_source edge)];
                       adjacencyMatrix :=
                         mat_set (mat_set (adjacencyMatrix g) fromIndex toIndex (Fin realWorldWeight))
                                 toIndex fromIndex (Fin realWorldWeight);
                       nodeIndices := nodeIndices g;
                       indexToNode := indexToNode g |}, S j)
          | _, _ => Some (g, S j)
          end
      end
  end.

Definition convertToGraph (rnd : nat -> Q) (nodes : list FlowNode) (edges : list FlowEdge)
  : option Graph :=
  let g0 := {| g_nodes := []; g_edges := []; adjacencyMatrix := [];
               nodeIndices := []; indexToNode := [] |} in
  let g1 := fold_left (addNode rnd) nodes g0 in
  let n := length nodes in
  let matrix := fold_left (fun m i => mat_set m i i (Fin 0)) (seq 0 n) (mat_new n) in
  let g2 := {| g_nodes := g_nodes g1; g_edges := []; adjacencyMatrix := matrix;
               nodeIndices := nodeIndices g1; indexToNode := indexToNode g1 |} in
  option_map fst (fold_left (addEdge rnd n) edges (Some (g2, 0%nat))).

(** *** The dispatcher *)

Record NumMetrics := {
  nm_time : num;
  nm_distance : num;
  nm_cost : num;
  nm_fuel : num;
  nm_trafficImpact : Q;
  nm_weatherImpact : Q;
  nm_totalScore : num
}.

Record SimulationResult := {
  r_algorithm : Algorithm;
  r_path : list string;
  r_metrics : NumMetrics
}.

Definition emptyResult (alg : Algorithm) : SimulationResult :=
  {| r_algorithm := alg;
     r_path := [];
     r_metrics :=
       {| nm_time := Fin 0; nm_distance := Fin 0; nm_cost := Fin 0; nm_fuel := Fin 0;
          nm_trafficImpact := 1; nm_weatherImpact := 1; nm_totalScore := Fin 0 |} |}.

(** [runGraphSimulation]; its [end] argument is not used. [rnd] gives the
    draws of [convertToGraph], [rndTraffic] and [rndWeather] those of the two
    impacts, and [executionTime] is the measured [performance.now()]
    difference, in milliseconds. [None] is the [TypeError] of
    [convertToGraph], which no handler catches; one raised by a solver is
    caught and turned into the empty result of the solvers. *)
Definition runGraphSimulation (rnd : nat -> Q) (rndTraffic rndWeather executionTime : Q)
           (alg : Algorithm) (nodes : list FlowNode) (edges : list FlowEdge)
           (start : string) (conditions : Conditions) : option SimulationResult :=
  if (length nodes <? 2)%nat then Some (emptyResult alg)
  else
    match convertToGraph rnd nodes edges with
    | None => None
    | Some graph =>
        let result :=
          match
            match alg with
            | brute_force => bruteForce graph start conditions
            | dynamic_programming => dynamicProgramming graph start conditions
            | nearest_neighbor => nearestNeighbor graph start conditions
            | branch_and_bound => branchAndBound graph start conditions
            end
          with
          | Some r => r
          | None => {| res_path := []; res_distance := Fin 0; res_time := Fin 0 |}
          end in
        let labelPath :=
          map (fun nodeId =>
                 match obj_get (g_nodes graph) nodeId with
                 | Some node => gn_label node
                 | None => nodeId
                 end) (res_path result) in
        let distance := res_distance result in
        let time := res_time result in
        let vehicleEfficiency : Q :=
          match c_vehicle conditions with Some ev => (8 # 100)%Q | _ => (12 # 100)%Q end in
        let fuelConsumption := num_scale distance vehicleEfficiency in
        let baseCost :=
          num_scale distance
            match c_vehicle conditions with Some truck => 25 # 10 | _ => 12 # 10 end in
        let timeCost := num_scale time (8 # 10) in
        let weatherCostFactor : Q :=
          match c_weather conditions with Some w => weatherMultiplier w | None => 1%Q end in
        let totalCost :=
          num_add (num_scale (num_add baseCost timeCost) weatherCostFactor)
                  (Fin (executionTime * (1 # 100))%Q) in
        let trafficImpact : Q :=
          match c_timeOfDay conditions with
          | Some t => timeOfDayMultiplier t
          | None => (1 + rndTraffic * (5 # 10))%Q
          end in
        let weatherImpact : Q :=
          match c_weather conditions with
          | Some w => weatherMultiplier w
          | None => (1 + rndWeather * (3 # 10))%Q
          end in
        let efficiencyScore :=
          if num_ltb (Fin 0) distance then
            num_scale
              (num_scale
                 (num_scale (num_add distance (num_scale time (1 # 60))) trafficImpact)
                 weatherImpact)
              (1 # 10)
          else Fin 0 in
        Some {| r_algorithm := alg;
                r_path := labelPath;
                r_metrics :=
                  {| nm_time := num_add time (Fin executionTime);
                     nm_distance := distance;
                     nm_cost := totalCost;
                     nm_fuel := fuelConsumption;
                     nm_trafficImpact := trafficImpact;
                     nm_weatherImpact := weatherImpact;
                     nm_totalScore := efficiencyScore |} |}
    end.

End Solvers.
End GraphAlgorithms.

(** * Properties *)

(** ** Numbers and sets *)

Lemma Qltb_lt (a b : Q) : Qltb a b = true <-> (a < b)%Q.
Proof.
  unfold Qltb. rewrite negb_true_iff. split; intros H.
  - apply Qnot_le_lt. intros Hle. apply Qle_bool_iff in Hle. congruence.
  - destruct (Qle_bool b a) eqn:E; [|reflexivity].
    apply Qle_bool_iff in E. exfalso. apply (Qlt_not_le _ _ H E).
Qed.

Lemma Qltb_ge (a b : Q) : Qltb a b = false <-> (b <= a)%Q.
Proof.
  unfold Qltb. rewrite negb_false_iff. apply Qle_bool_iff.
Qed.

Lemma num_ltb_Fin (a b : Q) : num_ltb (Fin a) (Fin b) = true <-> (a < b)%Q.
Proof. apply Qltb_lt. Qed.

Lemma has_In (s : JsSet.t) (x : string) : JsSet.has s x = true <-> In x s.
Proof.
  unfold JsSet.has. rewrite existsb_exists. split.
  - intros [y [Hy He]]. apply String.eqb_eq in He. subst. exact Hy.
  - intros H. exists x. split; [exact H | apply String.eqb_refl].
Qed.

Lemma has_not_In (s : JsSet.t) (x : string) : JsSet.has s x = false <-> ~ In x s.
Proof.
  rewrite <- has_In. destruct (JsSet.has s x); split; congruence.
Qed.

Lemma includes_In (arr : list string) (x : string) : includes arr x = true <-> In x arr.
Proof. apply has_In. Qed.

Lemma add_In (x y : string) (s : JsSet.t) : In y (JsSet.add x s) <-> y = x \/ In y s.
Proof.
  unfold JsSet.add. destruct (JsSet.has s x) eqn:E.
  - apply has_In in E. split; [auto | intros [-> | H]; auto].
  - rewrite in_app_iff. simpl. split; intros H; [destruct H as [H | [H | []]]; auto | destruct H; auto].
Qed.

Lemma NoDup_snoc {A : Type} (l : list A) (x : A) :
  NoDup l -> ~ In x l -> NoDup (l ++ [x]).
Proof.
  induction l as [|y l IH]; simpl; intros Hl Hx.
  - constructor; [simpl; tauto | constructor].
  - inversion Hl; subst. constructor.
    + rewrite in_app_iff. simpl. intros [H | [H | []]]; [tauto | subst; tauto].
    + apply IH; [assumption | tauto].
Qed.

Lemma add_NoDup (x : string) (s : JsSet.t) : NoDup s -> NoDup (JsSet.add x s).
Proof.
  intros H. unfold JsSet.add. destruct (JsSet.has s x) eqn:E; [exact H|].
  apply has_not_In in E. apply NoDup_snoc; assumption.
Qed.

Lemma add_length_fresh (x : string) (s : JsSet.t) :
  ~ In x s -> length (JsSet.add x s) = S (length s).
Proof.
  intros H. apply has_not_In in H. unfold JsSet.add. rewrite H.
  rewrite length_app. simpl. lia.
Qed.

Lemma add_size_fresh (x : string) (s : JsSet.t) :
  ~ In x s -> JsSet.size (JsSet.add x s) = S (JsSet.size s).
Proof.
  intros H. apply has_not_In in H. unfold JsSet.add, JsSet.size. rewrite H.
  rewrite length_app. simpl. lia.
Qed.

(** ** Example instances *)

Module Examples.

(** The complete graph on [names] whose edge [i] to [j] has the distance and
    the time [d i j]. *)
Definition mkEdge (a b : string) (d : Z) : Edge :=
  {| from := a; to := b; distance := inject_Z d; time := inject_Z d; trafficFactor := 1 |}.

Definition mkNode (s : string) : string * NodeData :=
  (s, {| node_id := s; lat := 0; lng := 0 |}).

Definition completeGraph (names : list string) (d : nat -> nat -> Z) : RouteGraph :=
  let n := length names in
  {| nodes := map mkNode names;
     edges :=
       flat_map
         (fun i =>
            flat_map
              (fun j => if (i =? j)%nat then [] else [mkEdge (nth i names "") (nth j names "") (d i j)])
              (seq 0 n))
         (seq 0 n) |}.

Definition tableDistance (rows : list (list Z)) (i j : nat) : Z :=
  nth j (nth i rows []) 0%Z.

(** Four cities: the tour a, b, c, d, a costs 10. *)
Definition squareGraph : RouteGraph :=
  completeGraph ["a"; "b"; "c"; "d"]
    (tableDistance [[0; 1; 5; 4]; [1; 0; 2; 6]; [5; 2; 0; 3]; [4; 6; 3; 0]]%Z).

Definition request (alg : Algorithm) (start : string) (selected : option (list string))
  : SimulationParams :=
  {| algorithm := alg; mapType := karnataka; weather := sunny; timeOfDay := afternoon;
     startLocation := start; vehicle := car; selectedCities := selected |}.

End Examples.

(** ** The dispatcher of algorithms.ts *)

(** The request [p] with another start location. *)
Definition withStart (p : SimulationParams) (start : string) : SimulationParams :=
  {| algorithm := algorithm p; mapType := mapType p; weather := weather p;
     timeOfDay := timeOfDay p; startLocation := start; vehicle := vehicle p;
     selectedCities := selectedCities p |}.

(** C7, as the code has it: when the start location is not among the selected
    cities, [runSimulation] does not fail; it solves the request as if it had
    been made with the first selected city as its start. *)
Theorem C7_start_outside_selection_is_replaced :
  forall (fl : Q -> Q) (fuel : nat) (fullGraph : RouteGraph) (rnd : Q) (p : SimulationParams)
         (selected : list string),
    selectedCities p = Some selected ->
    includes selected (startLocation p) = false ->
    Algorithms.runSimulation fl fuel fullGraph rnd p
    = Algorithms.runSimulation fl fuel fullGraph rnd (withStart p (nth 0 selected "")).
Proof.
  intros fl fuel g rnd p sel Hsel Hnot.
  unfold Algorithms.runSimulation. simpl. rewrite Hsel.
  destruct (length sel <? 2)%nat eqn:Hlen; [reflexivity|].
  rewrite Hnot.
  assert (Hin : includes sel (nth 0 sel "") = true).
  { destruct sel as [|c sel']; [discriminate|]. simpl. rewrite String.eqb_refl. reflexivity. }
  rewrite Hin. reflexivity.
Qed.

Lemma C7_witness :
  Algorithms.runSimulation binary64 0 Examples.squareGraph 0
    (Examples.request nearest_neighbor "zz" (Some ["a"; "b"; "c"]))
  = Algorithms.runSimulation binary64 0 Examples.squareGraph 0
      (withStart (Examples.request nearest_neighbor "zz" (Some ["a"; "b"; "c"])) "a").
Proof.
  exact (C7_start_outside_selection_is_replaced binary64 0 Examples.squareGraph 0
           (Examples.request nearest_neighbor "zz" (Some ["a"; "b"; "c"]))
           ["a"; "b"; "c"] eq_refl eq_refl).
Defined.

(** C7 as stated fails: a request whose start is not selected gets a tour, for
    the substituted start. *)
Lemma C7_counterexample :
  exists p selected,
    selectedCities p = Some selected
    /\ includes selected (startLocation p) = false
    /\ option_map Algorithms.r_path (Algorithms.runSimulation binary64 0 Examples.squareGraph 0 p)
       = Some ["a"; "b"; "c"; "a"].
Proof.
  exists (Examples.request nearest_neighbor "zz" (Some ["a"; "b"; "c"])), ["a"; "b"; "c"].
  repeat split; reflexivity.
Qed.

(** C8, as the code has it: with fewer than two selected cities (or nodes)
    each dispatcher returns the empty tour with distance, time, cost, fuel and
    total score 0, and with both impact factors 1. *)
Theorem C8_too_few_cities_gives_empty_result :
  (forall (p : SimulationParams),
      match selectedCities p with
      | Some selected => (length selected < 2)%nat
      | None => True
      end ->
      (forall fl fuel fullGraph rnd,
          Algorithms.runSimulation fl fuel fullGraph rnd p
          = Some {| Algorithms.r_algorithm := algorithm p;
                    Algorithms.r_path := [];
                    Algorithms.r_metrics :=
                      {| m_distance := 0; m_time := 0; m_cost := 0; m_fuel := 0;
                         m_trafficImpact := 1; m_weatherImpact := 1; m_totalScore := 0 |} |})
      /\ (forall haversine fuel random1 random2 rnd1 rnd2,
             TspSimulation.runBasicTSPSimulation haversine fuel random1 random2 rnd1 rnd2 p
             = Some {| TspSimulation.r_algorithm := algorithm p;
                       TspSimulation.r_path := [];
                       TspSimulation.r_metrics :=
                         {| m_distance := 0; m_time := 0; m_cost := 0; m_fuel := 0;
                            m_trafficImpact := 1; m_weatherImpact := 1; m_totalScore := 0 |} |}))
  /\ (forall sqrt rnd rndTraffic rndWeather executionTime alg nodes edges start conditions,
         (length nodes < 2)%nat ->
         GraphAlgorithms.runGraphSimulation sqrt rnd rndTraffic rndWeather executionTime
                                            alg nodes edges start conditions
         = Some {| GraphAlgorithms.r_algorithm := alg;
                   GraphAlgorithms.r_path := [];
                   GraphAlgorithms.r_metrics :=
                     {| GraphAlgorithms.nm_time := Fin 0;
                        GraphAlgorithms.nm_distance := Fin 0;
                        GraphAlgorithms.nm_cost := Fin 0;
                        GraphAlgorithms.nm_fuel := Fin 0;
                        GraphAlgorithms.nm_trafficImpact := 1;
                        GraphAlgorithms.nm_weatherImpact := 1;
                        GraphAlgorithms.nm_totalScore := Fin 0 |} |}).
Proof.
  split.
  - intros p Hp. split.
    + intros fl fuel g rnd. unfold Algorithms.runSimulation.
      destruct (selectedCities p) as [sel|]; [|reflexivity].
      apply Nat.ltb_lt in Hp. rewrite Hp. reflexivity.
    + intros h fuel r1 r2 rnd1 rnd2. unfold TspSimulation.runBasicTSPSimulation.
      destruct (selectedCities p) as [sel|]; [|reflexivity].
      apply Nat.ltb_lt in Hp. rewrite Hp. reflexivity.
  - intros sqrt rnd rt rw et alg nodes edges start c Hn.
    unfold GraphAlgorithms.runGraphSimulation.
    apply Nat.ltb_lt in Hn. rewrite Hn. reflexivity.
Qed.

Lemma C8_witness :
  (Algorithms.runSimulation binary64 0 Examples.squareGraph 0
     (Examples.request brute_force "a" (Some ["a"]))
   = Some (Algorithms.emptyResult brute_force))
  /\ (TspSimulation.runBasicTSPSimulation (fun _ _ _ _ => 0%Q) 0 [] [] 0 0
        (Examples.request brute_force "a" (Some ["a"]))
      = Some (TspSimulation.emptyResult brute_force))
  /\ (GraphAlgorithms.runGraphSimulation (fun q => q) (fun _ => 0%Q) 0 0 0 brute_force [] [] "a"
        {| GraphAlgorithms.c_weather := None; GraphAlgorithms.c_timeOfDay := None;
           GraphAlgorithms.c_vehicle := None |}
      = Some (GraphAlgorithms.emptyResult brute_force)).
Proof.
  pose proof C8_too_few_cities_gives_empty_result as [H1 H2].
  split; [|split].
  - apply (H1 (Examples.request brute_force "a" (Some ["a"]))). simpl. lia.
  - apply (H1 (Examples.request brute_force "a" (Some ["a"]))). simpl. lia.
  - apply H2. simpl. lia.
Defined.

(** C8 as stated fails: the metrics of the empty result are not all zero. *)
Lemma C8_counterexample :
  exists p,
    selectedCities p = Some ["a"]
    /\ option_map (fun r => m_trafficImpact (Algorithms.r_metrics r))
                  (Algorithms.runSimulation binary64 0 Examples.squareGraph 0 p) = Some 1%Q
    /\ option_map (fun r => m_weatherImpact (Algorithms.r_metrics r))
                  (Algorithms.runSimulation binary64 0 Examples.squareGraph 0 p) = Some 1%Q
    /\ ~ (1 == 0)%Q.
Proof.
  exists (Examples.request brute_force "a" (Some ["a"])).
  repeat split; try reflexivity. discriminate.
Qed.

(** ** The path built from the route of the AI service *)

Section BuildPathFacts.
Variable toLowerCase : string -> string.
Variable params : SimulationParams.
Variable locations : list Location.

(** A route name [name] resolves to the city [x]. *)
Definition resolves (route : list string) (x : string) : Prop :=
  exists name location,
    In name route /\ In location locations
    /\ toLowerCase (loc_name location) = toLowerCase name
    /\ loc_id location = x.

(** The state of the two loops: the path and the set hold the same cities in
    the same order, without repetition; the path starts at the start, and its
    other cities are selected ones. *)
Record path_inv (selected : list string) (st : list string * JsSet.t) : Prop := {
  inv_same : fst st = snd st;
  inv_nodup : NoDup (fst st);
  inv_head : exists rest, fst st = startLocation params :: rest;
  inv_selected : forall x, In x (fst st) -> x = startLocation params \/ In x selected
}.

Lemma path_inv_push (selected : list string) (st : list string * JsSet.t) (x : string) :
  path_inv selected st -> JsSet.has (snd st) x = false -> In x selected ->
  path_inv selected (fst st ++ [x], JsSet.add x (snd st)).
Proof.
  intros [Hs Hn [rest Hh] Hsel] Hx Hin.
  assert (Hnot : ~ In x (fst st)) by (rewrite Hs; apply has_not_In; exact Hx).
  constructor; simpl.
  - unfold JsSet.add. rewrite Hx, Hs. reflexivity.
  - apply NoDup_snoc; assumption.
  - exists (rest ++ [x]). rewrite Hh. reflexivity.
  - intros y Hy. apply in_app_iff in Hy. destruct Hy as [Hy | [<- | []]]; auto.
Qed.

Lemma addRouteCity_inv (selected : list string) (st : list string * JsSet.t) (name : string) :
  selectedCities params = Some selected ->
  path_inv selected st ->
  path_inv selected (TspSimulation.addRouteCity toLowerCase params locations st name).
Proof.
  intros Hsel Hinv. unfold TspSimulation.addRouteCity.
  destruct (find _ locations) as [location|]; [|exact Hinv].
  rewrite Hsel.
  destruct (JsSet.has (snd st) (loc_id location)) eqn:Hhas; simpl; [exact Hinv|].
  destruct (includes selected (loc_id location)) eqn:Hinc; [|exact Hinv].
  apply path_inv_push; [exact Hinv | exact Hhas | apply includes_In; exact Hinc].
Qed.

(** What the first loop adds comes from the route. *)
Lemma addRouteCity_from_route (route : list string) (st : list string * JsSet.t) (base : list string) :
  forall done,
    (forall x, In x (fst st) -> In x base \/ resolves done x) ->
    forall x,
      In x (fst (fold_left (TspSimulation.addRouteCity toLowerCase params locations) route st)) ->
      In x base \/ resolves (done ++ route) x.
Proof.
  revert st. induction route as [|name route IH]; intros st done Hst x Hx; simpl in *.
  - rewrite app_nil_r. auto.
  - replace (done ++ name :: route) with ((done ++ [name]) ++ route)
      by (rewrite <- app_assoc; reflexivity).
    apply (IH (TspSimulation.addRouteCity toLowerCase params locations st name)
              (done ++ [name])); [|exact Hx].
    intros y Hy. unfold TspSimulation.addRouteCity in Hy.
    assert (Hold : In y (fst st) -> In y base \/ resolves (done ++ [name]) y).
    { intros Hin. destruct (Hst y Hin) as [Hb | (n & l & Hn & Hl & He & Hid)]; [auto|].
      right. exists n, l. rewrite in_app_iff. auto. }
    destruct (find _ locations) as [location|] eqn:Hfind; [|auto].
    destruct (negb (JsSet.has (snd st) (loc_id location)) && _); [|auto].
    simpl in Hy. apply in_app_iff in Hy. destruct Hy as [Hy | [<- | []]]; [auto|].
    right. apply find_some in Hfind. destruct Hfind as [Hl He].
    apply String.eqb_eq in He.
    exists name, location. rewrite in_app_iff. simpl. auto.
Qed.

Lemma addSelectedCity_inv (selected : list string) (st : list string * JsSet.t) (c : string) :
  In c selected -> path_inv selected st ->
  path_inv selected (TspSimulation.addSelectedCity st c).
Proof.
  intros Hc Hinv. unfold TspSimulation.addSelectedCity.
  destruct (JsSet.has (snd st) c) eqn:Hhas; simpl; [exact Hinv|].
  apply path_inv_push; assumption.
Qed.

(** The second loop keeps what is there, in place, and adds every city it
    goes over. *)
Lemma addSelectedCity_fold (selected cities : list string) (st : list string * JsSet.t) :
  (forall c, In c cities -> In c selected) ->
  path_inv selected st ->
  let st' := fold_left TspSimulation.addSelectedCity cities st in
  path_inv selected st'
  /\ (exists appended,
         fst st' = fst st ++ appended
         /\ forall x, In x appended -> In x cities /\ ~ In x (fst st))
  /\ (forall c, In c cities -> In c (fst st')).
Proof.
  revert st. induction cities as [|c cities IH]; intros st Hsub Hinv; simpl.
  - split; [exact Hinv|]. split; [|tauto].
    exists []. rewrite app_nil_r. split; [reflexivity | intros x []].
  - assert (Hinv' : path_inv selected (TspSimulation.addSelectedCity st c)).
    { apply addSelectedCity_inv; [apply Hsub; left; reflexivity | exact Hinv]. }
    destruct (IH (TspSimulation.addSelectedCity st c)) as (Hi & (app & Happ & Hprop) & Hall);
      [intros; apply Hsub; right; assumption | exact Hinv' |].
    assert (Hstep : (JsSet.has (snd st) c = true /\ TspSimulation.addSelectedCity st c = st)
                    \/ (JsSet.has (snd st) c = false
                        /\ TspSimulation.addSelectedCity st c
                           = (fst st ++ [c], JsSet.add c (snd st)))).
    { unfold TspSimulation.addSelectedCity.
      destruct (JsSet.has (snd st) c); simpl; [left | right]; split; reflexivity. }
    split; [exact Hi|]. split.
    + destruct Hstep as [[Hhas E] | [Hhas E]];
        rewrite E in Happ, Hprop |- *; simpl in Happ, Hprop.
      * exists app. split; [exact Happ|]. intros x Hx. destruct (Hprop x Hx). auto.
      * exists (c :: app). split; [rewrite Happ, <- app_assoc; reflexivity|].
        intros x [<- | Hx].
        -- split; [auto|]. rewrite (inv_same _ _ Hinv). apply has_not_In. exact Hhas.
        -- destruct (Hprop x Hx) as [H1 H2]. split; [auto|].
           intros Hin. apply H2. apply in_app_iff. auto.
    + intros c' [<- | Hc'].
      * rewrite Happ. apply in_app_iff. left.
        destruct Hstep as [[Hhas E] | [Hhas E]]; rewrite E; simpl.
        -- rewrite (inv_same _ _ Hinv). apply has_In. exact Hhas.
        -- apply in_app_iff. right. left. reflexivity.
      * apply Hall. exact Hc'.
Qed.

(** C10: for every route of the AI service, when the selected cities hold the
    start and at least one other city, [buildTSPPath] returns the start, then
    an interior, then the start again; the start and the interior are exactly
    the selected cities, each once. The interior is first the cities that
    route names resolve to (each once, unknown names and cities that are not
    selected dropped) and then the selected cities that were still missing. *)
Theorem C10_buildTSPPath_is_a_tour_of_the_selection :
  forall (route selected : list string) (other : string),
    selectedCities params = Some selected ->
    In (startLocation params) selected ->
    In other selected -> other <> startLocation params ->
    exists fromRoute appended,
      TspSimulation.buildTSPPath toLowerCase route params locations
      = startLocation params :: (fromRoute ++ appended) ++ [startLocation params]
      /\ NoDup (startLocation params :: fromRoute ++ appended)
      /\ (forall x, In x (startLocation params :: fromRoute ++ appended) <-> In x selected)
      /\ (forall x, In x fromRoute -> resolves route x)
      /\ (forall x, In x appended -> ~ In x fromRoute).
Proof.
  intros route selected other Hsel Hstart Hother Hne.
  unfold TspSimulation.buildTSPPath. rewrite Hsel. simpl default.
  set (st0 := ([startLocation params], JsSet.add (startLocation params) [])).
  set (st1 := fold_left (TspSimulation.addRouteCity toLowerCase params locations) route st0).
  assert (H0 : path_inv selected st0).
  { constructor; simpl.
    - reflexivity.
    - constructor; [simpl; tauto | constructor].
    - exists []. reflexivity.
    - intros x [<- | []]. auto. }
  assert (H1 : path_inv selected st1).
  { unfold st1. clear -H0 Hsel. revert H0. generalize st0. induction route as [|n r IH]; intros st H; simpl.
    - exact H.
    - apply IH. apply addRouteCity_inv; assumption. }
  destruct (addSelectedCity_fold selected selected st1) as (H2 & (appended & Happ & Hprop) & Hall);
    [auto | exact H1 |].
  set (st2 := fold_left TspSimulation.addSelectedCity selected st1) in *.
  destruct (inv_head _ _ H1) as [fromRoute Hfrom].
  assert (Hpath : fst st2 = startLocation params :: fromRoute ++ appended).
  { rewrite Happ, Hfrom. reflexivity. }
  assert (Hlen : (1 <? length (fst st2))%nat = true).
  { apply Nat.ltb_lt. rewrite Hpath. simpl.
    destruct (fromRoute ++ appended) as [|y l] eqn:E; [|simpl; lia].
    exfalso. specialize (Hall other Hother). rewrite Hpath in Hall.
    destruct Hall as [Hs | []]. congruence. }
  rewrite Hlen. exists fromRoute, appended. split; [rewrite Hpath; reflexivity|].
  split; [rewrite <- Hpath; exact (inv_nodup _ _ H2)|].
  split; [|split].
  - intros x. rewrite <- Hpath. split.
    + intros Hx. destruct (inv_selected _ _ H2 x Hx) as [-> | Hx']; assumption.
    + apply Hall.
  - intros x Hx.
    destruct (addRouteCity_from_route route st0 [startLocation params] [] (fun y Hy => or_introl Hy) x)
      as [[<- | []] | Hr].
    + fold st1. rewrite Hfrom. right. exact Hx.
    + exfalso. pose proof (inv_nodup _ _ H1) as Hnd. rewrite Hfrom in Hnd.
      inversion Hnd; subst. auto.
    + exact Hr.
  - intros x Hx Hin. destruct (Hprop x Hx) as [_ Hn]. apply Hn. rewrite Hfrom. right. exact Hin.
Qed.

End BuildPathFacts.

(** [toLowerCase] on the letters A to Z (the city names of the maps are ASCII). *)
Definition asciiToLower (c : ascii) : ascii :=
  let n := nat_of_ascii c in
  if ((65 <=? n) && (n <=? 90))%nat then ascii_of_nat (n + 32) else c.

Fixpoint asciiLowerCase (s : string) : string :=
  match s with
  | EmptyString => EmptyString
  | String c s' => String (asciiToLower c) (asciiLowerCase s')
  end.

Lemma C10_witness :
  exists fromRoute appended,
    TspSimulation.buildTSPPath asciiLowerCase ["MYSURU"; "Goa"; "mysuru"; "Hubli"]
      (Examples.request nearest_neighbor "k1" (Some ["k1"; "k2"; "k3"]))
      (Maps.mapLocations karnataka)
    = "k1" :: (fromRoute ++ appended) ++ ["k1"]
    /\ NoDup ("k1" :: fromRoute ++ appended)
    /\ (forall x, In x ("k1" :: fromRoute ++ appended) <-> In x ["k1"; "k2"; "k3"])
    /\ (forall x, In x fromRoute ->
                  resolves asciiLowerCase (Maps.mapLocations karnataka)
                           ["MYSURU"; "Goa"; "mysuru"; "Hubli"] x)
    /\ (forall x, In x appended -> ~ In x fromRoute).
Proof.
  apply (C10_buildTSPPath_is_a_tour_of_the_selection asciiLowerCase
           (Examples.request nearest_neighbor "k1" (Some ["k1"; "k2"; "k3"]))
           (Maps.mapLocations karnataka)
           ["MYSURU"; "Goa"; "mysuru"; "Hubli"] ["k1"; "k2"; "k3"] "k2").
  - reflexivity.
  - simpl. auto.
  - simpl. auto.
  - discriminate.
Defined.

(** ** Tours *)

(** [path] returns to [start]: it is [start], an interior, and [start] again. *)
Definition closed_tour (start : string) (path : list string) : Prop :=
  exists interior, path = start :: interior ++ [start].

(** [path] is a tour of [keys] from [start]: closed, and [start] with the
    interior is a rearrangement of [keys] (every node once). *)
Definition tour_of (keys : list string) (start : string) (path : list string) : Prop :=
  exists interior,
    path = start :: interior ++ [start] /\ Permutation (start :: interior) keys.

Definition visits_all (keys path : list string) : Prop :=
  forall x, In x keys -> In x path.

Lemma NoDup_not_closed (start : string) (path : list string) :
  NoDup path -> ~ closed_tour start path.
Proof.
  intros Hnd [interior ->]. inversion Hnd as [|? ? Hnot _]; subst.
  apply Hnot. apply in_app_iff. right. left. reflexivity.
Qed.

(** A duplicate-free list inside [keys] that is as long as [keys] holds all of it. *)
Lemma NoDup_full (keys l : list string) :
  NoDup l -> incl l keys -> length keys <= length l -> incl keys l.
Proof.
  intros Hnd Hincl Hlen. apply NoDup_length_incl; assumption.
Qed.

Lemma NoDup_full_Permutation (keys l : list string) :
  NoDup keys -> NoDup l -> incl l keys -> length l = length keys -> Permutation l keys.
Proof.
  intros Hk Hl Hincl Hlen. apply NoDup_Permutation; [assumption | assumption |].
  intros x. split; [apply Hincl|]. apply NoDup_full; [assumption | assumption | lia].
Qed.

Lemma incl_short (keys l : list string) :
  NoDup keys -> incl keys l -> length keys <= length l.
Proof. intros Hk Hincl. apply NoDup_incl_length; assumption. Qed.

(** A list shorter than a duplicate-free [keys] misses one of its elements. *)
Lemma exists_missing (keys l : list string) :
  NoDup keys -> length l < length keys -> exists x, In x keys /\ ~ In x l.
Proof.
  intros Hk Hlen.
  destruct (filter (fun x => negb (includes l x)) keys) as [|x rest] eqn:E.
  - exfalso. assert (Hall : incl keys l).
    { intros x Hx. destruct (includes l x) eqn:Hi; [apply includes_In; exact Hi|].
      assert (Hf : In x (filter (fun x => negb (includes l x)) keys)).
      { apply filter_In. rewrite Hi. auto. }
      rewrite E in Hf. destruct Hf. }
    pose proof (incl_short keys l Hk Hall). lia.
  - assert (Hf : In x (filter (fun x => negb (includes l x)) keys)) by (rewrite E; left; reflexivity).
    apply filter_In in Hf. destruct Hf as [Hx Hn]. exists x. split; [exact Hx|].
    apply negb_true_iff in Hn. intros Hin. apply includes_In in Hin. congruence.
Qed.

(** ** Nearest neighbour of algorithms.ts *)

Module NearestNeighborFacts.
Import Algorithms.

Definition eligible (current : string) (visited : JsSet.t) (e : Edge) : bool :=
  String.eqb (from e) current && negb (JsSet.has visited (to e)).

Lemma nearest_fold (current : string) (visited : JsSet.t) (es : list Edge) :
  forall st,
    let r := fold_left (nearestStep current visited) es st in
    (r = st /\ (snd st = Infinity -> forall e, In e es -> eligible current visited e = false))
    \/ (exists e, In e es /\ eligible current visited e = true
                  /\ r = (to e, Fin (distance e))).
Proof.
  induction es as [|e es IH]; intros st; simpl.
  - left. split; [reflexivity | intros _ e []].
  - assert (Hstep : nearestStep current visited st e
                   = if eligible current visited e
                     then if num_ltb (Fin (distance e)) (snd st)
                          then (to e, Fin (distance e)) else st
                     else st) by reflexivity.
    rewrite Hstep. clear Hstep.
    destruct (eligible current visited e) eqn:He.
    + destruct (num_ltb (Fin (distance e)) (snd st)) eqn:Hlt.
      * destruct (IH (to e, Fin (distance e))) as [[Hr _] | (e' & Hin & He' & Hr)].
        -- right. exists e. auto.
        -- right. exists e'. auto.
      * destruct (IH st) as [[Hr Hinf] | (e' & Hin & He' & Hr)].
        -- left. split; [exact Hr|]. intros Hs. rewrite Hs in Hlt. discriminate.
        -- right. exists e'. auto.
    + destruct (IH st) as [[Hr Hinf] | (e' & Hin & He' & Hr)].
      * left. split; [exact Hr|]. intros Hs e0 [<- | Hin]; auto.
      * right. exists e'. auto.
Qed.

(** [findNearest] is the empty id when no edge from [current] leads to an
    unvisited node; otherwise it is the target of such an edge. *)
Lemma findNearest_cases (graph : RouteGraph) (current : string) (visited : JsSet.t) :
  (findNearest graph current visited = ""
   /\ forall e, In e (edges graph) -> eligible current visited e = false)
  \/ (exists e, In e (edges graph) /\ from e = current /\ ~ In (to e) visited
                /\ findNearest graph current visited = to e).
Proof.
  unfold findNearest.
  destruct (nearest_fold current visited (edges graph) ("", Infinity))
    as [[Hr Hinf] | (e & Hin & He & Hr)].
  - left. rewrite Hr. split; [reflexivity | apply Hinf; reflexivity].
  - right. exists e. rewrite Hr. unfold eligible in He.
    apply andb_true_iff in He. destruct He as [H1 H2].
    apply String.eqb_eq in H1. apply negb_true_iff, has_not_In in H2. auto.
Qed.

(** The state of the loop: the set and the path hold the same nodes in the
    same order. *)
Record nn_inv (keys : list string) (start : string)
       (visited : JsSet.t) (path : list string) (current : string) : Prop := {
  nn_same : path = visited;
  nn_nodup : NoDup path;
  nn_incl : incl path keys;
  nn_head : exists rest, path = start :: rest;
  nn_last : List.last path "" = current
}.

(** A node that the loop stops at: every edge from it leads to a visited node,
    unless one leads to a node whose id is empty (the value that stands for
    "none" in the scan). *)
Definition stuck_at (graph : RouteGraph) (path : list string) : Prop :=
  forall e, In e (edges graph) -> from e = List.last path "" ->
            In (to e) path
            \/ exists e', In e' (edges graph) /\ from e' = List.last path ""
                          /\ to e' = "" /\ ~ In "" path.

Lemma nn_loop_spec (graph : RouteGraph) (keys : list string) (start : string) :
  (forall e, In e (edges graph) -> In (to e) keys) ->
  forall fuel visited path current,
    nn_inv keys start visited path current ->
    length keys < length visited + fuel ->
    let r := nn_loop fuel graph (length keys) visited path current in
    nn_inv keys start (fst r) (snd r) (List.last (snd r) "")
    /\ (length keys <= length (fst r) \/ stuck_at graph (snd r)).
Proof.
  intros Hto. induction fuel as [|fuel IH]; intros visited path current Hinv Hfuel; simpl.
  - split; [destruct Hinv; constructor; auto|]. left. lia.
  - unfold JsSet.size. destruct (length visited <? length keys)%nat eqn:Hlt.
    + destruct (findNearest_cases graph current visited)
        as [[Hn Hnone] | (e & Hin & Hfrom & Hnot & Hn)].
      * rewrite Hn. simpl. split; [destruct Hinv; constructor; auto|]. right.
        intros e He Hfrom. left. rewrite (nn_last _ _ _ _ _ Hinv) in Hfrom.
        specialize (Hnone e He). unfold eligible in Hnone. rewrite Hfrom, String.eqb_refl in Hnone.
        simpl in Hnone. apply negb_false_iff, has_In in Hnone.
        rewrite (nn_same _ _ _ _ _ Hinv). exact Hnone.
      * rewrite Hn. destruct (String.eqb (to e) "") eqn:Hempty.
        -- simpl. split; [destruct Hinv; constructor; auto|]. right.
           intros e0 He0 Hfrom0. right. exists e.
           rewrite (nn_last _ _ _ _ _ Hinv). apply String.eqb_eq in Hempty.
           rewrite (nn_same _ _ _ _ _ Hinv). rewrite <- Hempty. auto.
        -- assert (Hadd : JsSet.add (to e) visited = visited ++ [to e]).
           { unfold JsSet.add. apply has_not_In in Hnot. rewrite Hnot. reflexivity. }
           rewrite Hadd. apply IH.
           ++ destruct Hinv as [Hs Hnd Hincl [rest Hh] Hl]. subst visited. constructor.
              ** reflexivity.
              ** apply NoDup_snoc; assumption.
              ** intros x Hx. apply in_app_iff in Hx. destruct Hx as [Hx | [<- | []]]; auto.
              ** exists (rest ++ [to e]). rewrite Hh. reflexivity.
              ** apply last_last.
           ++ rewrite length_app. simpl. lia.
    + simpl. split; [destruct Hinv; constructor; auto|]. left.
      apply Nat.ltb_ge in Hlt. exact Hlt.
Qed.

(** More fuel than the number of nodes changes nothing. *)
Lemma nn_loop_fuel (graph : RouteGraph) (keys : list string) (start : string) :
  (forall e, In e (edges graph) -> In (to e) keys) ->
  forall fuel fuel' visited path current,
    nn_inv keys start visited path current ->
    length keys < length visited + fuel -> fuel <= fuel' ->
    nn_loop fuel' graph (length keys) visited path current
    = nn_loop fuel graph (length keys) visited path current.
Proof.
  intros Hto. induction fuel as [|fuel IH]; intros fuel' visited path current Hinv Hfuel Hle.
  - exfalso. destruct Hinv as [Hs Hnd Hincl _ _]. subst.
    pose proof (NoDup_incl_length Hnd Hincl). lia.
  - destruct fuel' as [|fuel']; [lia|]. simpl.
    unfold JsSet.size. destruct (length visited <? length keys)%nat eqn:Hlt; [|reflexivity].
    destruct (findNearest_cases graph current visited)
      as [[Hn Hnone] | (e & Hin & Hfrom & Hnot & Hn)]; rewrite Hn; [reflexivity|].
    destruct (String.eqb (to e) "") eqn:Hempty; [reflexivity|].
    assert (Hadd : JsSet.add (to e) visited = visited ++ [to e]).
    { unfold JsSet.add. apply has_not_In in Hnot. rewrite Hnot. reflexivity. }
    rewrite Hadd. apply IH.
    + destruct Hinv as [Hs Hnd Hincl [rest Hh] Hl]. subst visited. constructor.
      * reflexivity.
      * apply NoDup_snoc; assumption.
      * intros x Hx. apply in_app_iff in Hx. destruct Hx as [Hx | [<- | []]]; auto.
      * exists (rest ++ [to e]). rewrite Hh. reflexivity.
      * apply last_last.
    + rewrite length_app. simpl. lia.
    + lia.
Qed.

End NearestNeighborFacts.

(** The result of [nearestNeighborTSP] on a graph whose edges lead to nodes of
    the graph: a tour of all nodes, or an open path that got stuck. *)
Lemma nearestNeighborTSP_spec (graph : RouteGraph) (start : string) :
  let keys := Object_keys (nodes graph) in
  let path := Algorithms.nearestNeighborTSP graph start in
  NoDup keys -> In start keys ->
  (forall e, In e (edges graph) -> In (to e) keys) ->
  tour_of keys start path
  \/ (NoDup path /\ incl path keys /\ length path < length keys
      /\ (exists rest, path = start :: rest)
      /\ NearestNeighborFacts.stuck_at graph path).
Proof.
  intros keys path Hnd Hstart Hto. subst path. unfold Algorithms.nearestNeighborTSP.
  fold keys.
  assert (H0 : NearestNeighborFacts.nn_inv keys start (JsSet.add start []) [start] start).
  { constructor; simpl.
    - reflexivity.
    - constructor; [simpl; tauto | constructor].
    - intros x [<- | []]. exact Hstart.
    - exists []. reflexivity.
    - reflexivity. }
  assert (Hpos : 0 < length keys) by (destruct keys; [destruct Hstart | simpl; lia]).
  destruct (NearestNeighborFacts.nn_loop_spec graph keys start Hto (length keys)
              (JsSet.add start []) [start] start H0) as [Hinv Hexit].
  { simpl. lia. }
  destruct (Algorithms.nn_loop (length keys) graph (length keys) (JsSet.add start []) [start] start)
    as [visited path] eqn:Hloop.
  simpl in Hinv, Hexit.
  destruct Hinv as [Hs Hn Hincl [rest Hh] Hl]. subst visited.
  pose proof (NoDup_incl_length Hn Hincl) as Hle.
  unfold JsSet.size. destruct (length path =? length keys)%nat eqn:Hfull.
  - left. apply Nat.eqb_eq in Hfull. exists rest. split.
    + rewrite Hh. reflexivity.
    + rewrite <- Hh. apply NoDup_full_Permutation; assumption.
  - right. apply Nat.eqb_neq in Hfull.
    split; [exact Hn|]. split; [exact Hincl|]. split; [lia|]. split; [exists rest; exact Hh|].
    destruct Hexit as [Hge | Hstuck]; [lia | exact Hstuck].
Qed.

(** A graph is complete on its nodes when every ordered pair of different
    nodes has an edge. *)
Definition complete_graph (graph : RouteGraph) : Prop :=
  forall a b, In a (Object_keys (nodes graph)) -> In b (Object_keys (nodes graph)) ->
              a <> b -> exists e, In e (edges graph) /\ from e = a /\ to e = b.

(** The graphs of the engine: the node ids are distinct and not empty, the
    edges join nodes of the graph, one edge for every ordered pair of
    different nodes, with a distance that is not negative. *)
Record valid_graph (graph : RouteGraph) : Prop := {
  vg_nodup : NoDup (Object_keys (nodes graph));
  vg_nonempty : ~ In "" (Object_keys (nodes graph));
  vg_inside : forall e, In e (edges graph) ->
                        In (from e) (Object_keys (nodes graph))
                        /\ In (to e) (Object_keys (nodes graph));
  vg_complete : complete_graph graph;
  vg_unique : forall e e', In e (edges graph) -> In e' (edges graph) ->
                           from e = from e' -> to e = to e' -> e = e';
  vg_nonneg : forall e, In e (edges graph) -> (0 <= distance e)%Q
}.

(** On a valid graph the nearest-neighbour path is a tour of all nodes. *)
Lemma nearestNeighborTSP_tour (graph : RouteGraph) (start : string) :
  valid_graph graph -> In start (Object_keys (nodes graph)) ->
  tour_of (Object_keys (nodes graph)) start (Algorithms.nearestNeighborTSP graph start).
Proof.
  intros Hv Hstart.
  destruct (nearestNeighborTSP_spec graph start (vg_nodup _ Hv) Hstart) as [Ht | Hopen].
  { intros e He. apply (vg_inside _ Hv e He). }
  { exact Ht. }
  exfalso. destruct Hopen as (Hnd & Hincl & Hlen & [rest Hh] & Hstuck).
  set (path := Algorithms.nearestNeighborTSP graph start) in *.
  set (keys := Object_keys (nodes graph)) in *.
  (* some node is not on the path *)
  destruct (exists_missing keys path (vg_nodup _ Hv) Hlen) as (x & Hx & Hxp).
  assert (Hlast : In (List.last path "") path).
  { rewrite Hh. clear. generalize start. induction rest as [|y rest IH]; intros s; simpl.
    - auto.
    - right. apply IH. }
  assert (Hne : List.last path "" <> x) by (intros E; apply Hxp; rewrite <- E; exact Hlast).
  destruct (vg_complete _ Hv (List.last path "") x (Hincl _ Hlast) Hx Hne) as (e & He & Hfrom & Hto).
  destruct (Hstuck e He Hfrom) as [Hin | (e' & He' & _ & Hempty & _)].
  - rewrite Hto in Hin. auto.
  - apply (vg_nonempty _ Hv). rewrite <- Hempty. apply (vg_inside _ Hv e' He').
Qed.

(** ** Nearest neighbour of graphAlgorithms.ts *)

Lemma obj_get_In {A : Type} (o : list (string * A)) (k : string) :
  In k (Object_keys o) <-> exists v, obj_get o k = Some v.
Proof.
  unfold obj_get, Object_keys. induction o as [|[k' v'] o IH]; simpl.
  - split; [intros [] | intros [v H]; discriminate].
  - destruct (String.eqb k' k) eqn:E.
    + apply String.eqb_eq in E. split; [intros _; exists v'; reflexivity | auto].
    + apply String.eqb_neq in E. rewrite <- IH. split; [intros [H | H]; [congruence | exact H] | auto].
Qed.

Module GraphNNFacts.
Import GraphAlgorithms.

Section WithGraph.
Variable sqrt : Q -> Q.
Variable graph : Graph.
Variable conditions : Conditions.

Let keys := Object_keys (g_nodes graph).

(** Every node of the graph has an index. *)
Definition indexed : Prop :=
  forall x, In x keys -> exists i, obj_get (nodeIndices graph) x = Some i.

Lemma realWorldWeight_defined (a b : string) (w : num) :
  In a keys -> In b keys -> exists d, realWorldWeight sqrt graph conditions a b w = Some d.
Proof.
  intros Ha Hb. unfold realWorldWeight. destruct w as [d|]; [eauto|].
  apply obj_get_In in Ha, Hb. destruct Ha as [na ->]. destruct Hb as [nb ->]. eauto.
Qed.

(** The scan over the candidates: the best node so far stays, or becomes one
    of the unvisited candidates. *)
Lemma nnScan_fold (current : string) (currentIndex : nat) (visited : JsSet.t) :
  indexed -> In current keys ->
  forall cands, incl cands keys ->
  forall b s,
    exists b' s',
      fold_left (nnScanStep sqrt graph conditions current currentIndex visited)
                cands (Some (b, s)) = Some (b', s')
      /\ ((b' = b /\ s' = s /\ (s = Infinity -> forall x, In x cands -> In x visited))
          \/ (In b' cands /\ ~ In b' visited)).
Proof.
  intros Hidx Hcur. induction cands as [|x cands IH]; intros Hincl b s; cbn [fold_left].
  - exists b, s. split; [reflexivity|]. left. repeat split. intros _ x [].
  - assert (Hx : In x keys) by (apply Hincl; left; reflexivity).
    assert (Hincl' : incl cands keys) by (intros y Hy; apply Hincl; right; exact Hy).
    unfold nnScanStep at 2.
    destruct (JsSet.has visited x) eqn:Hhas.
    + destruct (IH Hincl' b s) as (b' & s' & Hf & Hcase). exists b', s'. split; [exact Hf|].
      destruct Hcase as [(Hb & Hs & Hinf) | [Hin Hnot]].
      * left. repeat split; auto. intros Hi y [<- | Hy]; [apply has_In; exact Hhas | auto].
      * right. split; [right; exact Hin | exact Hnot].
    + destruct (Hidx x Hx) as [i Hi]. rewrite Hi.
      destruct (realWorldWeight_defined current x (mat_get (adjacencyMatrix graph) currentIndex i)
                  Hcur Hx) as [d Hd].
      rewrite Hd. pose proof Hx as Hx'. apply obj_get_In in Hx'. destruct Hx' as [cityNode Hnode].
      rewrite Hnode. cbv zeta.
      destruct (num_ltb (Fin (smartScore cityNode d)) s) eqn:Hlt.
      * destruct (IH Hincl' x (Fin (smartScore cityNode d))) as (b' & s' & Hf & Hcase).
        exists b', s'. split; [exact Hf|]. right.
        destruct Hcase as [(Hb & Hs & _) | [Hin Hnot]].
        -- subst b'. split; [left; reflexivity | apply has_not_In; exact Hhas].
        -- split; [right; exact Hin | exact Hnot].
      * destruct (IH Hincl' b s) as (b' & s' & Hf & Hcase). exists b', s'. split; [exact Hf|].
        destruct Hcase as [(Hb & Hs & Hinf) | [Hin Hnot]].
        -- left. repeat split; auto. intros Hi'. rewrite Hi' in Hlt. discriminate.
        -- right. split; [right; exact Hin | exact Hnot].
Qed.

Lemma nnScan_cases (current : string) (currentIndex : nat) (visited : JsSet.t) :
  indexed -> In current keys ->
  exists bestNode bestScore,
    nnScan sqrt graph conditions current currentIndex visited keys = Some (bestNode, bestScore)
    /\ ((bestNode = "" /\ forall x, In x keys -> In x visited)
        \/ (In bestNode keys /\ ~ In bestNode visited)).
Proof.
  intros Hidx Hcur. unfold nnScan.
  destruct (nnScan_fold current currentIndex visited Hidx Hcur keys (incl_refl _) "" Infinity)
    as (b & s & Hf & Hcase).
  exists b, s. split; [exact Hf|].
  destruct Hcase as [(Hb & Hs & Hinf) | H]; [left | right; exact H].
  split; [exact Hb | apply Hinf; reflexivity].
Qed.

Record nn_inv (start : string) (st : NNState) : Prop := {
  nn_same : nn_path st = nn_visited st;
  nn_nodup : NoDup (nn_path st);
  nn_incl : incl (nn_path st) keys;
  nn_head : exists rest, nn_path st = start :: rest;
  nn_last : List.last (nn_path st) "" = nn_current st
}.

Lemma nn_inv_push (start : string) (st : NNState) (x : string) (total : Q) :
  nn_inv start st -> In x keys -> ~ In x (nn_visited st) ->
  nn_inv start {| nn_visited := JsSet.add x (nn_visited st);
                  nn_path := nn_path st ++ [x];
                  nn_current := x;
                  nn_total := total |}.
Proof.
  intros [Hs Hnd Hincl [rest Hh] Hl] Hx Hnot. constructor; simpl.
  - unfold JsSet.add. apply has_not_In in Hnot. rewrite Hnot, Hs. reflexivity.
  - apply NoDup_snoc; [exact Hnd | rewrite Hs; exact Hnot].
  - intros y Hy. apply in_app_iff in Hy. destruct Hy as [Hy | [<- | []]]; auto.
  - exists (rest ++ [x]). rewrite Hh. reflexivity.
  - apply last_last.
Qed.

(** The loop does not raise, keeps the invariant, and stops when all nodes are
    visited, or at the node whose id is empty. *)
Lemma graph_nn_loop_spec (start : string) :
  NoDup keys -> indexed ->
  forall fuel st,
    nn_inv start st ->
    length keys < length (nn_visited st) + fuel ->
    exists st',
      nn_loop sqrt fuel graph conditions keys st = Some st'
      /\ nn_inv start st'
      /\ (length keys <= length (nn_visited st')
          \/ (In "" keys /\ ~ In "" (nn_visited st'))).
Proof.
  intros Hnd Hidx. induction fuel as [|fuel IH]; intros st Hinv Hfuel; simpl.
  - exists st. split; [reflexivity|]. split; [exact Hinv|]. left. lia.
  - unfold JsSet.size. destruct (length (nn_visited st) <? length keys)%nat eqn:Hlt.
    + assert (Hcur : In (nn_current st) keys).
      { rewrite <- (nn_last _ _ Hinv). apply (nn_incl _ _ Hinv).
        destruct (nn_head _ _ Hinv) as [rest ->]. clear. generalize start.
        induction rest as [|y rest IHr]; intros s; simpl; [auto | right; apply IHr]. }
      destruct (Hidx _ Hcur) as [ci Hci]. rewrite Hci.
      destruct (nnScan_cases (nn_current st) ci (nn_visited st) Hidx Hcur)
        as (b & s & Hscan & Hcase).
      rewrite Hscan.
      destruct Hcase as [[Hb Hall] | [Hin Hnot]].
      * exfalso. apply Nat.ltb_lt in Hlt.
        pose proof (incl_short keys (nn_visited st) Hnd Hall) as Hc.
        lia.
      * destruct (String.eqb b "") eqn:Hempty.
        -- exists st. split; [reflexivity|]. split; [exact Hinv|]. right.
           apply String.eqb_eq in Hempty. subst b. auto.
        -- destruct (Hidx _ Hin) as [bi Hbi]. rewrite Hbi.
           destruct (realWorldWeight_defined (nn_current st) b
                       (mat_get (adjacencyMatrix graph) ci bi) Hcur Hin) as [d Hd].
           rewrite Hd. apply IH.
           ++ apply nn_inv_push; assumption.
           ++ simpl. rewrite (add_length_fresh _ _ Hnot). lia.
    + exists st. split; [reflexivity|]. split; [exact Hinv|]. left.
      apply Nat.ltb_ge in Hlt. exact Hlt.
Qed.

End WithGraph.
End GraphNNFacts.

(** ** C9: the greedy construction closes its path exactly when it is complete *)

(** C9. Both greedy constructions, on a graph with distinct node ids that has
    the start among its nodes (for algorithms.ts: whose edges lead to nodes of
    the graph; for graphAlgorithms.ts: whose nodes all have an index): the
    returned path goes back to the start if and only if it visits every node.
    When a node is left out, the construction does not fail: the path is open,
    starts at the start and repeats no node, so it has fewer than [n + 1]
    elements; in algorithms.ts it stops at a node none of whose edges leads to
    an unvisited node (an edge to the node with the empty id does not count:
    the empty id stands for "none" in the scan). *)
Theorem C9_nearest_neighbour_closes_iff_complete :
  (forall (graph : RouteGraph) (start : string),
      let keys := Object_keys (nodes graph) in
      let path := Algorithms.nearestNeighborTSP graph start in
      NoDup keys -> In start keys ->
      (forall e, In e (edges graph) -> In (to e) keys) ->
      (closed_tour start path <-> visits_all keys path)
      /\ (~ visits_all keys path ->
          NoDup path /\ length path < length keys + 1
          /\ (exists rest, path = start :: rest)
          /\ NearestNeighborFacts.stuck_at graph path))
  /\ (forall (sqrt : Q -> Q) (graph : GraphAlgorithms.Graph)
             (conditions : GraphAlgorithms.Conditions) (start : string),
         let keys := Object_keys (GraphAlgorithms.g_nodes graph) in
         NoDup keys -> In start keys -> GraphNNFacts.indexed graph ->
         exists r,
           GraphAlgorithms.nearestNeighbor sqrt graph start conditions = Some r
           /\ (closed_tour start (GraphAlgorithms.res_path r)
               <-> visits_all keys (GraphAlgorithms.res_path r))
           /\ (~ visits_all keys (GraphAlgorithms.res_path r) ->
               NoDup (GraphAlgorithms.res_path r)
               /\ length (GraphAlgorithms.res_path r) < length keys + 1
               /\ exists rest, GraphAlgorithms.res_path r = start :: rest)).
Proof.
  split.
  - intros graph start keys path Hnd Hstart Hto.
    pose proof (nearestNeighborTSP_spec graph start Hnd Hstart Hto) as Hspec.
    cbv zeta in Hspec.
    remember (Algorithms.nearestNeighborTSP graph start) as path' eqn:Epath.
    remember (Object_keys (nodes graph)) as keys' eqn:Ekeys.
    subst path keys. clear Epath Ekeys.
    rename path' into path. rename keys' into keys.
    destruct Hspec as [(interior & Hp & Hperm) | (Hn & Hincl & Hlen & Hrest & Hstuck)].
    + assert (Hall : visits_all keys path).
      { intros x Hx. rewrite Hp. apply (Permutation_in x (Permutation_sym Hperm)) in Hx.
        destruct Hx as [<- | Hx]; [left; reflexivity | right; apply in_app_iff; auto]. }
      split; [split; [intros _; exact Hall | intros _; exists interior; exact Hp]|].
      intros Hnot. contradiction.
    + assert (Hnot : ~ visits_all keys path).
      { intros Hall. pose proof (incl_short keys path Hnd Hall). lia. }
      split.
      * split; [intros Hc; exfalso; exact (NoDup_not_closed start path Hn Hc) | intros Hall; contradiction].
      * intros _. repeat split; [exact Hn | lia | exact Hrest | exact Hstuck].
  - intros sqrt graph conditions start keys Hnd Hstart Hidx.
    unfold GraphAlgorithms.nearestNeighbor. fold keys.
    set (st0 := {| GraphAlgorithms.nn_visited := JsSet.add start [];
                   GraphAlgorithms.nn_path := [start];
                   GraphAlgorithms.nn_current := start;
                   GraphAlgorithms.nn_total := 0 |}).
    assert (H0 : GraphNNFacts.nn_inv graph start st0).
    { constructor; simpl.
      - reflexivity.
      - constructor; [simpl; tauto | constructor].
      - intros x [<- | []]. exact Hstart.
      - exists []. reflexivity.
      - reflexivity. }
    assert (Hpos : 0 < length keys) by (destruct keys; [destruct Hstart | simpl; lia]).
    destruct (GraphNNFacts.graph_nn_loop_spec sqrt graph conditions start Hnd Hidx (length keys) st0 H0)
      as (st & Hloop & Hinv & Hexit).
    { change (Object_keys (GraphAlgorithms.g_nodes graph)) with keys. simpl. lia. }
    fold keys in Hloop. rewrite Hloop.
    destruct Hinv as [Hs Hn Hincl [rest Hh] Hl].
    pose proof (NoDup_incl_length Hn Hincl) as Hle. fold keys in Hincl, Hle.
    unfold JsSet.size. rewrite <- Hs.
    destruct (length (GraphAlgorithms.nn_path st) =? length keys)%nat eqn:Hfull.
    + apply Nat.eqb_eq in Hfull.
      assert (Hcur : In (GraphAlgorithms.nn_current st) keys).
      { rewrite <- Hl. apply Hincl. rewrite Hh. clear. generalize start.
        induction rest as [|y rest IHr]; intros s; simpl; [auto | right; apply IHr]. }
      destruct (Hidx _ Hcur) as [ci Hci]. destruct (Hidx _ Hstart) as [si Hsi].
      rewrite Hci, Hsi.
      destruct (GraphNNFacts.realWorldWeight_defined sqrt graph conditions
                  (GraphAlgorithms.nn_current st) start
                  (mat_get (GraphAlgorithms.adjacencyMatrix graph) ci si) Hcur Hstart) as [d Hd].
      rewrite Hd. eexists. split; [reflexivity|]. simpl.
      assert (Hall : visits_all keys (GraphAlgorithms.nn_path st ++ [start])).
      { intros x Hx. apply in_app_iff. left.
        apply (NoDup_full keys (GraphAlgorithms.nn_path st)); [assumption | assumption | lia | assumption]. }
      split; [split; [intros _; exact Hall | intros _; exists rest; rewrite Hh; reflexivity]|].
      intros Hnot. contradiction.
    + apply Nat.eqb_neq in Hfull. eexists. split; [reflexivity|]. simpl.
      assert (Hnot : ~ visits_all keys (GraphAlgorithms.nn_path st)).
      { intros Hall. pose proof (incl_short keys _ Hnd Hall). lia. }
      split.
      * split; [intros Hc; exfalso; exact (NoDup_not_closed start _ Hn Hc) | intros Hall; contradiction].
      * intros _. repeat split; [exact Hn | lia | exists rest; exact Hh].
Qed.

Ltac distinct_strings :=
  repeat (constructor; [simpl; intuition discriminate|]); constructor.

(** Three nodes, and edges between the first two only: the third node cannot
    be reached. *)
Definition stuckGraph : RouteGraph :=
  {| nodes := map Examples.mkNode ["a"; "b"; "c"];
     edges := [Examples.mkEdge "a" "b" 1; Examples.mkEdge "b" "a" 1] |}.

(** A graph of the editor: three nodes and one edge. *)
Definition editorGraph : GraphAlgorithms.Graph :=
  default {| GraphAlgorithms.g_nodes := []; GraphAlgorithms.g_edges := [];
             GraphAlgorithms.adjacencyMatrix := []; GraphAlgorithms.nodeIndices := [];
             GraphAlgorithms.indexToNode := [] |}
    (GraphAlgorithms.convertToGraph (fun q => q) (fun _ => (1 # 2)%Q)
       [ {| GraphAlgorithms.fn_id := "1"; GraphAlgorithms.fn_label := "A";
            GraphAlgorithms.fn_x := 0; GraphAlgorithms.fn_y := 0 |};
         {| GraphAlgorithms.fn_id := "2"; GraphAlgorithms.fn_label := "B";
            GraphAlgorithms.fn_x := 30; GraphAlgorithms.fn_y := 0 |};
         {| GraphAlgorithms.fn_id := "3"; GraphAlgorithms.fn_label := "C";
            GraphAlgorithms.fn_x := 30; GraphAlgorithms.fn_y := 40 |} ]
       [ {| GraphAlgorithms.fe_source := "1"; GraphAlgorithms.fe_target := "2";
            GraphAlgorithms.fe_label := Some 7%Z |} ]).

Definition noConditions : GraphAlgorithms.Conditions :=
  {| GraphAlgorithms.c_weather := None; GraphAlgorithms.c_timeOfDay := None;
     GraphAlgorithms.c_vehicle := None |}.

Lemma C9_witness :
  ((closed_tour "a" (Algorithms.nearestNeighborTSP stuckGraph "a")
    <-> visits_all ["a"; "b"; "c"] (Algorithms.nearestNeighborTSP stuckGraph "a"))
   /\ (~ visits_all ["a"; "b"; "c"] (Algorithms.nearestNeighborTSP stuckGraph "a") ->
       NoDup (Algorithms.nearestNeighborTSP stuckGraph "a")
       /\ length (Algorithms.nearestNeighborTSP stuckGraph "a") < 3 + 1
       /\ (exists rest, Algorithms.nearestNeighborTSP stuckGraph "a" = "a" :: rest)
       /\ NearestNeighborFacts.stuck_at stuckGraph (Algorithms.nearestNeighborTSP stuckGraph "a")))
  /\ (exists r,
         GraphAlgorithms.nearestNeighbor (fun q => q) editorGraph "1" noConditions = Some r
         /\ (closed_tour "1" (GraphAlgorithms.res_path r)
             <-> visits_all ["1"; "2"; "3"] (GraphAlgorithms.res_path r))
         /\ (~ visits_all ["1"; "2"; "3"] (GraphAlgorithms.res_path r) ->
             NoDup (GraphAlgorithms.res_path r)
             /\ length (GraphAlgorithms.res_path r) < 3 + 1
             /\ exists rest, GraphAlgorithms.res_path r = "1" :: rest)).
Proof.
  split.
  - apply (proj1 C9_nearest_neighbour_closes_iff_complete stuckGraph "a").
    + simpl. distinct_strings.
    + simpl. auto.
    + intros e [<- | [<- | []]]; simpl; auto.
  - apply (proj2 C9_nearest_neighbour_closes_iff_complete (fun q => q) editorGraph noConditions "1").
    + simpl. distinct_strings.
    + simpl. auto.
    + intros x [<- | [<- | [<- | []]]]; eexists; reflexivity.
Defined.

(** The path of the stuck graph is open. *)
Example stuckGraph_path : Algorithms.nearestNeighborTSP stuckGraph "a" = ["a"; "b"].
Proof. reflexivity. Qed.

(** ** The Held-Karp table of the simulation file *)

Lemma indexOf_from_In (arr : list string) (x : string) :
  In x arr -> forall k, exists i, indexOf_from arr x k = Some i /\ k <= i < k + length arr.
Proof.
  induction arr as [|y arr IH]; intros Hin k; [destruct Hin|]. simpl.
  destruct (String.eqb y x) eqn:E.
  - exists k. split; [reflexivity | lia].
  - destruct Hin as [-> | Hin]; [rewrite String.eqb_refl in E; discriminate|].
    destruct (IH Hin (S k)) as (i & Hi & Hr). exists i. split; [exact Hi | lia].
Qed.

Lemma indexOf_In (arr : list string) (x : string) :
  In x arr -> exists i, indexOf arr x = Some i /\ i < length arr.
Proof.
  intros Hin. destruct (indexOf_from_In arr x Hin 0) as (i & Hi & Hr).
  exists i. split; [exact Hi | lia].
Qed.

Lemma testbit_shiftl_1 (i s : nat) :
  Z.testbit (Z.shiftl 1 (Z.of_nat i)) (Z.of_nat s) = (i =? s)%nat.
Proof.
  rewrite Z.shiftl_1_l. rewrite Z.pow2_bits_eqb by lia.
  destruct (Nat.eqb_spec i s) as [-> | Hne].
  - apply Z.eqb_refl.
  - apply Z.eqb_neq. lia.
Qed.

Lemma testbit_full (n s : nat) :
  s < n -> Z.testbit (Z.shiftl 1 (Z.of_nat n) - 1) (Z.of_nat s) = true.
Proof.
  intros Hs. replace (Z.shiftl 1 (Z.of_nat n) - 1)%Z with (Z.ones (Z.of_nat n)).
  - apply Z.ones_spec_low. lia.
  - unfold Z.ones. lia.
Qed.

Module HeldKarpFacts.
Import TspSimulation.

Section Table.
Variable haversine : Q -> Q -> Q -> Q -> Q.
Variable cities : list string.
Variable locations : list Location.
Variable start : nat.

(** No key of the table has the bit of the start city in its mask. *)
Definition no_start (dp : HKTable) : Prop :=
  forall mask u entry, dp !! (mask, u) = Some entry ->
                       Z.testbit mask (Z.of_nat start) = false.

Lemma hkInit_no_start :
  no_start (hkInit haversine cities (Z.of_nat start) locations).
Proof.
  unfold hkInit.
  assert (H : forall l (dp : HKTable), no_start dp ->
            no_start (fold_left
              (fun (dp : HKTable) (i : nat) =>
                 if (Z.of_nat i =? Z.of_nat start)%Z then dp
                 else <[(Z.shiftl 1 (Z.of_nat i), Z.of_nat i) :=
                          (calculateDistance haversine (cityAt cities (Z.of_nat start))
                                             (cityAt cities (Z.of_nat i)) locations,
                           Z.of_nat start)]> dp) l dp)).
  { induction l as [|i l IH]; intros dp Hdp; simpl; [exact Hdp|].
    apply IH. destruct (Z.eqb_spec (Z.of_nat i) (Z.of_nat start)) as [E | E]; [exact Hdp|].
    intros mask u entry Hl. rewrite lookup_insert in Hl.
    destruct (decide ((Z.shiftl 1 (Z.of_nat i), Z.of_nat i) = (mask, u))) as [Ek | Ek].
    - inversion Ek; subst. rewrite testbit_shiftl_1. apply Nat.eqb_neq. lia.
    - exact (Hdp mask u entry Hl). }
  apply H. intros mask u entry Hl. rewrite lookup_empty in Hl. discriminate.
Qed.

(** A parent found by the inner loop comes from an entry of the table. *)
Lemma hkBest_parent (dp : HKTable) (mask : Z) (u : nat) :
  snd (hkBest haversine cities (Z.of_nat start) locations dp mask u) <> (-1)%Z ->
  exists v entry, dp !! (Z.lxor mask (Z.shiftl 1 (Z.of_nat u)), Z.of_nat v) = Some entry.
Proof.
  unfold hkBest.
  generalize (seq 0 (length cities)). intros l.
  assert (H : forall (st : num * Z),
            snd (fold_left
                   (fun (st : num * Z) (v : nat) =>
                      if negb (Z.testbit mask (Z.of_nat v)) || (v =? u)%nat
                         || (Z.of_nat v =? Z.of_nat start)%Z
                      then st
                      else
                        match dp !! (Z.lxor mask (Z.shiftl 1 (Z.of_nat u)), Z.of_nat v) with
                        | Some (c, _) =>
                            if num_ltb
                                 (Fin (c + calculateDistance haversine (cityAt cities (Z.of_nat v))
                                                             (cityAt cities (Z.of_nat u)) locations)%Q)
                                 (fst st)
                            then (Fin (c + calculateDistance haversine (cityAt cities (Z.of_nat v))
                                                             (cityAt cities (Z.of_nat u)) locations)%Q,
                                  Z.of_nat v)
                            else st
                        | None => st
                        end) l st) <> (-1)%Z ->
            snd st <> (-1)%Z
            \/ exists v entry,
                dp !! (Z.lxor mask (Z.shiftl 1 (Z.of_nat u)), Z.of_nat v) = Some entry).
  { induction l as [|v l IH]; intros st Hst; simpl in Hst; [left; exact Hst|].
    destruct (IH _ Hst) as [Hs | Hex]; [|right; exact Hex].
    destruct (negb (Z.testbit mask (Z.of_nat v)) || (v =? u)%nat
              || (Z.of_nat v =? Z.of_nat start)%Z); [left; exact Hs|].
    destruct (dp !! (Z.lxor mask (Z.shiftl 1 (Z.of_nat u)), Z.of_nat v)) as [[c p]|] eqn:El;
      [|left; exact Hs].
    right. exists v, (c, p). exact El. }
  intros Hne. destruct (H _ Hne) as [Hs | Hex]; [simpl in Hs; congruence | exact Hex].
Qed.

Lemma hkFill_no_start (dp : HKTable) :
  no_start dp -> no_start (hkFill haversine cities (Z.of_nat start) locations dp).
Proof.
  unfold hkFill. generalize (seq 1 (2 ^ length cities - 1)). intros masks.
  revert dp. induction masks as [|mask masks IHm]; intros dp Hdp; simpl; [exact Hdp|].
  apply IHm. clear IHm. generalize (seq 0 (length cities)). intros us.
  revert dp Hdp. induction us as [|u us IHu]; intros dp Hdp; simpl; [exact Hdp|].
  apply IHu. clear IHu.
  destruct (negb (Z.testbit (Z.of_nat mask) (Z.of_nat u))) eqn:Hbit; simpl; [exact Hdp|].
  destruct (Z.eqb_spec (Z.of_nat u) (Z.of_nat start)) as [E | E]; [exact Hdp|].
  destruct (dp !! (Z.of_nat mask, Z.of_nat u)); [exact Hdp|].
  destruct (hkBest haversine cities (Z.of_nat start) locations dp (Z.of_nat mask) u)
    as [[minCost|] bestParent] eqn:Hbest; [|exact Hdp].
  destruct (Z.eqb_spec bestParent (-1)) as [Ep | Ep]; [exact Hdp|].
  destruct (hkBest_parent dp (Z.of_nat mask) u) as (v & entry & Hv).
  { rewrite Hbest. exact Ep. }
  pose proof (Hdp _ _ _ Hv) as Hprev. rewrite Z.lxor_spec, testbit_shiftl_1 in Hprev.
  assert (Hus : (u =? start)%nat = false) by (apply Nat.eqb_neq; lia).
  rewrite Hus, xorb_false_r in Hprev.
  intros mask' u' entry' Hl. rewrite lookup_insert in Hl.
  destruct (decide ((Z.of_nat mask, Z.of_nat u) = (mask', u'))) as [Ek | Ek].
  - inversion Ek; subst. exact Hprev.
  - exact (Hdp _ _ _ Hl).
Qed.

Lemma hkLast_none (dp : HKTable) :
  start < length cities -> no_start dp ->
  hkLast haversine cities (Z.of_nat start) locations dp = (Infinity, (-1)%Z).
Proof.
  intros Hs Hdp. unfold hkLast. generalize (seq 0 (length cities)). intros l.
  induction l as [|i l IH]; simpl; [reflexivity|].
  destruct (Z.of_nat i =? Z.of_nat start)%Z; [exact IH|].
  destruct (dp !! ((Z.shiftl 1 (Z.of_nat (length cities)) - 1)%Z, Z.of_nat i)) as [[c p]|] eqn:El;
    [|exact IH].
  exfalso. pose proof (Hdp _ _ _ El) as Hbit. rewrite testbit_full in Hbit by exact Hs.
  discriminate.
Qed.

End Table.

(** What [runHeldKarpDP] returns on up to ten cities: no entry of its table
    has the start in its mask, the full mask has it, so no last city is found
    and the reconstruction reads [cities[-1]]. *)
Lemma runHeldKarpDP_undefined (haversine : Q -> Q -> Q -> Q -> Q)
      (params : SimulationParams) (locations : list Location) (cities : list string) :
  selectedCities params = Some cities ->
  length cities <= 10 ->
  In (startLocation params) cities ->
  runHeldKarpDP haversine params locations
  = [Id (startLocation params); undefined; Id (startLocation params)].
Proof.
  intros Hsel Hlen Hin. unfold runHeldKarpDP. rewrite Hsel. simpl default.
  destruct (10 <? length cities)%nat eqn:Hc; [apply Nat.ltb_lt in Hc; lia|].
  destruct (indexOf_In cities (startLocation params) Hin) as (s & Hs & Hlt).
  unfold indexOfZ. rewrite Hs.
  rewrite hkLast_none;
    [| exact Hlt | apply hkFill_no_start, hkInit_no_start].
  cbn [snd hkReconstruct].
  assert (Hneg : negb (-1 =? Z.of_nat s)%Z = true).
  { apply negb_true_iff. apply Z.eqb_neq. lia. }
  assert (Hpos : (0 <? Z.shiftl 1 (Z.of_nat (length cities)) - 1)%Z = true).
  { apply Z.ltb_lt. rewrite Z.shiftl_1_l.
    assert (2 ^ 1 <= 2 ^ Z.of_nat (length cities))%Z by (apply Z.pow_le_mono_r; lia).
    lia. }
  rewrite Hneg, Hpos. cbn [andb].
  destruct (hkFill haversine cities (Z.of_nat s) locations
              (hkInit haversine cities (Z.of_nat s) locations)
            !! ((Z.shiftl 1 (Z.of_nat (length cities)) - 1)%Z, (-1)%Z)) as [[c p]|] eqn:El.
  - exfalso.
    pose proof (hkFill_no_start haversine cities locations s _
                  (hkInit_no_start haversine cities locations s) _ _ _ El) as Hbit.
    rewrite testbit_full in Hbit by exact Hlt. discriminate.
  - reflexivity.
Qed.

End HeldKarpFacts.

(** C1 fails on the Held-Karp solver of the simulation file. For every request
    with two to ten distinct selected cities that include the start,
    [runHeldKarpDP] returns the start, [undefined] and the start: the path
    is closed, but it visits none of the other selected cities. *)
Theorem C1_held_karp_returns_no_tour :
  forall (haversine : Q -> Q -> Q -> Q -> Q) (params : SimulationParams)
         (locations : list Location) (cities : list string),
    selectedCities params = Some cities ->
    2 <= length cities <= 10 ->
    NoDup cities ->
    In (startLocation params) cities ->
    TspSimulation.runHeldKarpDP haversine params locations
    = [TspSimulation.Id (startLocation params); TspSimulation.undefined;
       TspSimulation.Id (startLocation params)]
    /\ exists city,
        In city cities
        /\ ~ In (TspSimulation.Id city) (TspSimulation.runHeldKarpDP haversine params locations).
Proof.
  intros h p locations cities Hsel [Hlo Hhi] Hnd Hin.
  pose proof (HeldKarpFacts.runHeldKarpDP_undefined h p locations cities Hsel Hhi Hin) as Hrun.
  split; [exact Hrun|]. rewrite Hrun.
  destruct (exists_missing cities [startLocation p] Hnd) as (city & Hc & Hnot).
  { simpl. lia. }
  exists city. split; [exact Hc|]. simpl. intros [E | [E | [E | []]]]; try discriminate;
    inversion E; subst; apply Hnot; left; reflexivity.
Qed.

Lemma C1_witness :
  TspSimulation.runHeldKarpDP (fun _ _ _ _ => 100000%Q)
    (Examples.request dynamic_programming "k1" (Some ["k1"; "k2"; "k3"]))
    (Maps.mapLocations karnataka)
  = [TspSimulation.Id "k1"; TspSimulation.undefined; TspSimulation.Id "k1"]
  /\ exists city,
      In city ["k1"; "k2"; "k3"]
      /\ ~ In (TspSimulation.Id city)
              (TspSimulation.runHeldKarpDP (fun _ _ _ _ => 100000%Q)
                 (Examples.request dynamic_programming "k1" (Some ["k1"; "k2"; "k3"]))
                 (Maps.mapLocations karnataka)).
Proof.
  apply (C1_held_karp_returns_no_tour (fun _ _ _ _ => 100000%Q)
           (Examples.request dynamic_programming "k1" (Some ["k1"; "k2"; "k3"]))
           (Maps.mapLocations karnataka) ["k1"; "k2"; "k3"]).
  - reflexivity.
  - simpl. lia.
  - distinct_strings.
  - simpl. auto.
Defined.

(** C2 fails on the same solver. On the request for Bengaluru and Mysuru from
    Bengaluru, whatever the great-circle distances are, the brute-force solver
    returns the tour k1, k2, k1, whose distance is the two legs, and the
    Held-Karp solver returns k1, [undefined], k1, whose distance is twice the
    999999 that [calculateDistance] gives for a city it does not find. *)
Theorem C2_held_karp_distance_is_not_brute_force_distance :
  forall (haversine : Q -> Q -> Q -> Q -> Q) (fuel : nat),
    let locations := Maps.mapLocations karnataka in
    let request alg := Examples.request alg "k1" (Some ["k1"; "k2"]) in
    TspSimulation.runOptimalBruteForce haversine (S fuel) [] [] (request brute_force) locations
    = Some ["k1"; "k2"; "k1"]
    /\ TspSimulation.pathDistanceOf haversine ["k1"; "k2"; "k1"] locations
       = (0 + haversine (129716 # 10000) (775946 # 10000) (122958 # 10000) (766394 # 10000)
          + haversine (122958 # 10000) (766394 # 10000) (129716 # 10000) (775946 # 10000))%Q
    /\ TspSimulation.runHeldKarpDP haversine (request dynamic_programming) locations
       = [TspSimulation.Id "k1"; TspSimulation.undefined; TspSimulation.Id "k1"]
    /\ TspSimulation.calculatePathDistance haversine
         (TspSimulation.runHeldKarpDP haversine (request dynamic_programming) locations) locations
       = (0 + 999999 + 999999)%Q.
Proof.
  intros h fuel locations request. repeat split.
Qed.

(** ** Brute force *)

(** [a <= b] on numbers that may be [Infinity]. *)
Definition num_le (a b : num) : Prop := num_ltb b a = false.

Lemma num_le_refl (a : num) : num_le a a.
Proof.
  unfold num_le. destruct a as [x|]; simpl; [|reflexivity].
  apply Qltb_ge. apply Qle_refl.
Qed.

Lemma num_le_trans (a b c : num) : num_le a b -> num_le b c -> num_le a c.
Proof.
  unfold num_le. destruct a as [x|], b as [y|], c as [z|]; simpl; try congruence.
  rewrite !Qltb_ge. intros H1 H2. exact (Qle_trans _ _ _ H1 H2).
Qed.

Lemma num_ltb_le (a b : num) : num_ltb a b = true -> num_le a b.
Proof.
  unfold num_le. destruct a as [x|], b as [y|]; simpl; try congruence.
  rewrite Qltb_lt, Qltb_ge. apply Qlt_le_weak.
Qed.


Lemma num_ltb_false_le (a b : num) : num_ltb a b = false -> num_le b a.
Proof. intros H. exact H. Qed.

Lemma num_le_Fin (x y : Q) : num_le (Fin x) (Fin y) <-> (x <= y)%Q.
Proof. unfold num_le. simpl. apply Qltb_ge. Qed.


(** The first permutation that [permute] lists is the array itself. *)
Lemma permute_fuel_head (fuel : nat) :
  forall arr, length arr <= fuel ->
              exists rest, Algorithms.permute_fuel fuel arr = arr :: rest.
Proof.
  induction fuel as [|fuel IH]; intros arr Hlen.
  - destruct arr; [|simpl in Hlen; lia]. exists []. reflexivity.
  - cbn [Algorithms.permute_fuel].
    destruct (length arr <=? 1)%nat eqn:Hshort; [exists []; reflexivity|].
    apply Nat.leb_gt in Hshort.
    destruct arr as [|x arr]; [simpl in Hshort; lia|].
    cbn [length seq flat_map]. cbn [firstn Nat.add skipn nth app].
    destruct (IH arr) as [rest Hrest]; [simpl in Hlen; lia|].
    change (skipn 0 arr) with arr.
    rewrite Hrest. cbn [map app]. eexists. reflexivity.
Qed.

Lemma permute_head (arr : list string) :
  exists rest, Algorithms.permute arr = arr :: rest.
Proof. apply permute_fuel_head. lia. Qed.

Module BruteForceFacts.
Import GraphAlgorithms.

Section WithGraph.
Variable sqrt : Q -> Q.
Variable graph : Graph.
Variable start : string.
Variable conditions : Conditions.

(** The incumbent is the empty path at [Infinity], or a path with its own distance. *)
Definition consistent (st : list string * num) : Prop :=
  st = ([], Infinity)
  \/ calculateRealWorldDistance sqrt (fst st) graph conditions = Some (snd st).

Lemma bruteStep_fold (perms : list (list string)) :
  forall st,
    consistent st ->
    match fold_left (bruteStep sqrt graph start conditions) perms (Some st) with
    | None => True
    | Some st' => consistent st' /\ num_le (snd st') (snd st)
    end.
Proof.
  induction perms as [|perm perms IH]; intros [bp bd] Hc; cbn [fold_left].
  - split; [exact Hc | apply num_le_refl].
  - unfold bruteStep at 2.
    destruct (calculateRealWorldDistance sqrt (start :: perm ++ [start]) graph conditions)
      as [d|] eqn:Hd.
    + destruct (num_ltb d bd) eqn:Hlt.
      * specialize (IH (start :: perm ++ [start], d)).
        destruct (fold_left _ perms _) as [st'|]; [|exact I].
        destruct IH as [Hc' Hle]; [right; exact Hd|].
        split; [exact Hc'|]. simpl in *. apply (num_le_trans _ d _ Hle).
        apply num_ltb_le. exact Hlt.
      * apply (IH (bp, bd)). exact Hc.
    + clear. induction perms as [|p ps IHp]; [exact I | exact IHp].
Qed.

(** The distance that [bruteForce] returns is the distance of the path that it
    returns, and it is at most the distance of the tour in the order of the keys. *)
Lemma bruteForce_identity (r : Result) (d0 : num) :
  let keys := Object_keys (g_nodes graph) in
  let others := filter (fun node => negb (String.eqb node start)) keys in
  2 <= length keys ->
  calculateRealWorldDistance sqrt (start :: others ++ [start]) graph conditions = Some d0 ->
  bruteForce sqrt graph start conditions = Some r ->
  (calculateRealWorldDistance sqrt (res_path r) graph conditions = Some (res_distance r)
   \/ (res_path r = [] /\ res_distance r = Infinity))
  /\ num_le (res_distance r) d0.
Proof.
  intros keys others Hlen Hd0. unfold bruteForce. fold keys. fold others.
  destruct (length keys <? 2)%nat eqn:Hshort; [apply Nat.ltb_lt in Hshort; lia|].
  destruct (permute_head others) as [rest Hperm]. rewrite Hperm. cbn [fold_left].
  unfold bruteStep at 2. rewrite Hd0.
  assert (Hfirst : exists st, (if num_ltb d0 Infinity
                               then Some (start :: others ++ [start], d0)
                               else Some ([], Infinity)) = Some st
                              /\ consistent st /\ num_le (snd st) d0).
  { destruct d0 as [x|]; simpl.
    - eexists. split; [reflexivity|]. split; [right; exact Hd0 | apply num_le_refl].
    - eexists. split; [reflexivity|]. split; [left; reflexivity | reflexivity]. }
  destruct Hfirst as (st & -> & Hc & Hle).
  pose proof (bruteStep_fold rest st Hc) as Hfold.
  destruct (fold_left _ rest (Some st)) as [[bp bd]|]; [|discriminate].
  destruct Hfold as [Hc' Hle']. intros E. inversion E; subst; simpl in *.
  split.
  - destruct Hc' as [E' | Hc']; [inversion E'; subst; right; auto | left; exact Hc'].
  - exact (num_le_trans _ _ _ Hle' Hle).
Qed.

End WithGraph.
End BruteForceFacts.

(** C5, as the code has it. With more than eight nodes besides the start, the
    brute-force solver of algorithms.ts returns the nearest-neighbour tour
    without listing permutations, and the one of the simulation file returns
    the result of its 2-opt search from four starting orders. (The one of
    graphAlgorithms.ts has no cutoff: see the counterexample.) *)
Theorem C5_brute_force_cutoff :
  (forall (graph : RouteGraph) (start : string),
      8 < length (filter (fun node => negb (String.eqb node start)) (Object_keys (nodes graph))) ->
      Algorithms.bruteForceTSP graph start = Algorithms.nearestNeighborTSP graph start)
  /\ (forall haversine fuel random1 random2 (params : SimulationParams) locations,
         8 < length (TspSimulation.otherCities params) ->
         TspSimulation.runOptimalBruteForce haversine fuel random1 random2 params locations
         = TspSimulation.runIntensive2Opt haversine fuel random1 random2 params locations
             (TspSimulation.otherCities params)).
Proof.
  split.
  - intros graph start H. unfold Algorithms.bruteForceTSP.
    apply Nat.ltb_lt in H. rewrite H. reflexivity.
  - intros h fuel r1 r2 params locations H. unfold TspSimulation.runOptimalBruteForce.
    apply Nat.ltb_lt in H. rewrite H. reflexivity.
Qed.

(** Ten (or eleven) points on a ring: neighbours are 2 apart, the first and
    the third are 1 apart, every other pair 50. The greedy path takes the
    short cut first and pays for it later. *)
Definition ringNames (n : nat) : list string :=
  firstn n ["n0"; "n1"; "n2"; "n3"; "n4"; "n5"; "n6"; "n7"; "n8"; "n9"; "n10"].

Definition ringDistance (n i j : nat) : Z :=
  let lo := Nat.min i j in
  let hi := Nat.max i j in
  if ((lo =? 0) && (hi =? 2))%nat then 1%Z
  else if ((hi - lo =? 1) || (hi - lo =? n - 1))%nat then 2%Z
  else 50%Z.

Definition ringGraph : RouteGraph :=
  Examples.completeGraph (ringNames 11) (ringDistance 11).

(** The same ring with ten points, drawn in the graph editor: an edge between
    every two nodes, labelled with its distance. *)
Definition ringFlowEdges : list GraphAlgorithms.FlowEdge :=
  flat_map
    (fun i =>
       flat_map
         (fun j =>
            if (i <? j)%nat then
              [{| GraphAlgorithms.fe_source := nth i (ringNames 10) "";
                  GraphAlgorithms.fe_target := nth j (ringNames 10) "";
                  GraphAlgorithms.fe_label := Some (ringDistance 10 i j) |}]
            else [])
         (seq 0 10))
    (seq 0 10).

Definition ringEditorGraph : GraphAlgorithms.Graph :=
  default {| GraphAlgorithms.g_nodes := []; GraphAlgorithms.g_edges := [];
             GraphAlgorithms.adjacencyMatrix := []; GraphAlgorithms.nodeIndices := [];
             GraphAlgorithms.indexToNode := [] |}
    (GraphAlgorithms.convertToGraph (fun q => q) (fun _ => (1 # 2)%Q)
       (map (fun s => {| GraphAlgorithms.fn_id := s; GraphAlgorithms.fn_label := s;
                         GraphAlgorithms.fn_x := 0; GraphAlgorithms.fn_y := 0 |})
            (ringNames 10))
       ringFlowEdges).

Lemma C5_witness :
  Algorithms.bruteForceTSP ringGraph "n0" = Algorithms.nearestNeighborTSP ringGraph "n0"
  /\ TspSimulation.runOptimalBruteForce (fun _ _ _ _ => 100000%Q) 1 [] []
       (Examples.request brute_force "k1" (Some (map loc_id (Maps.mapLocations karnataka))))
       (Maps.mapLocations karnataka)
     = TspSimulation.runIntensive2Opt (fun _ _ _ _ => 100000%Q) 1 [] []
         (Examples.request brute_force "k1" (Some (map loc_id (Maps.mapLocations karnataka))))
         (Maps.mapLocations karnataka)
         (TspSimulation.otherCities
            (Examples.request brute_force "k1" (Some (map loc_id (Maps.mapLocations karnataka))))).
Proof.
  split.
  - apply (proj1 C5_brute_force_cutoff ringGraph "n0"). vm_compute. lia.
  - apply (proj2 C5_brute_force_cutoff). vm_compute. lia.
Defined.

(** C5 as stated fails on the brute-force solver of graphAlgorithms.ts, which
    has no cutoff: on the ring of ten nodes (nine besides the start) its tour
    is not the nearest-neighbour tour. *)
Lemma C5_counterexample :
  8 < length (filter (fun node => negb (String.eqb node "n0"))
                     (Object_keys (GraphAlgorithms.g_nodes ringEditorGraph)))
  /\ option_map GraphAlgorithms.res_path
       (GraphAlgorithms.bruteForce (fun q => q) ringEditorGraph "n0" noConditions)
     <> option_map GraphAlgorithms.res_path
          (GraphAlgorithms.nearestNeighbor (fun q => q) ringEditorGraph "n0" noConditions).
Proof.
  split; [vm_compute; lia|]. intros Heq.
  assert (Hnn : option_map GraphAlgorithms.res_path
                  (GraphAlgorithms.nearestNeighbor (fun q => q) ringEditorGraph "n0" noConditions)
                = Some ["n0"; "n2"; "n1"; "n3"; "n4"; "n5"; "n6"; "n7"; "n8"; "n9"; "n0"])
    by (vm_compute; reflexivity).
  rewrite Hnn in Heq. clear Hnn.
  destruct (GraphAlgorithms.bruteForce (fun q => q) ringEditorGraph "n0" noConditions)
    as [r|] eqn:Hbf; [|discriminate].
  simpl in Heq. inversion Heq as [Hpath]. clear Heq.
  assert (Hcmp :
    match GraphAlgorithms.calculateRealWorldDistance (fun q => q)
            ("n0" :: filter (fun node => negb (String.eqb node "n0"))
                            (Object_keys (GraphAlgorithms.g_nodes ringEditorGraph)) ++ ["n0"])
            ringEditorGraph noConditions,
          GraphAlgorithms.calculateRealWorldDistance (fun q => q)
            ["n0"; "n2"; "n1"; "n3"; "n4"; "n5"; "n6"; "n7"; "n8"; "n9"; "n0"]
            ringEditorGraph noConditions with
    | Some a, Some b => num_ltb a b = true
    | _, _ => False
    end) by (vm_compute; reflexivity).
  destruct (GraphAlgorithms.calculateRealWorldDistance (fun q => q)
              ("n0" :: filter (fun node => negb (String.eqb node "n0"))
                              (Object_keys (GraphAlgorithms.g_nodes ringEditorGraph)) ++ ["n0"])
              ringEditorGraph noConditions) as [d0|] eqn:Hd0; [|destruct Hcmp].
  destruct (BruteForceFacts.bruteForce_identity (fun q => q) ringEditorGraph "n0" noConditions
              r d0) as [Hcons Hle]; [vm_compute; lia | exact Hd0 | exact Hbf |].
  rewrite Hpath in Hcons. destruct Hcons as [Hcons | [Hcons _]]; [|discriminate].
  rewrite Hcons in Hcmp. unfold num_le in Hle. congruence.
Qed.

(** ** The ceilings of branch and bound *)

(** C6, as the code has it. Above ten nodes the branch and bound of
    graphAlgorithms.ts returns the nearest-neighbour result; the one of
    algorithms.ts returns the result of its dynamic-programming solver, which
    is the nearest-neighbour tour only above twelve nodes; above nine selected
    cities the one of the simulation file returns the result of
    [runHeuristicBranchBound] (the nearest-neighbour tour after relocation
    moves). *)
Theorem C6_branch_and_bound_above_its_ceiling :
  (forall sqrt (graph : GraphAlgorithms.Graph) (start : string) conditions,
      10 < length (Object_keys (GraphAlgorithms.g_nodes graph)) ->
      GraphAlgorithms.branchAndBound sqrt graph start conditions
      = GraphAlgorithms.nearestNeighbor sqrt graph start conditions)
  /\ (forall fl fuel (graph : RouteGraph) (start : string),
         10 < length (Object_keys (nodes graph)) ->
         Algorithms.branchAndBoundTSP fl fuel graph start
         = Some (Algorithms.dynamicProgrammingTSP graph start))
  /\ (forall fl fuel (graph : RouteGraph) (start : string),
         12 < length (Object_keys (nodes graph)) ->
         Algorithms.branchAndBoundTSP fl fuel graph start
         = Some (Algorithms.nearestNeighborTSP graph start))
  /\ (forall haversine (params : SimulationParams) locations,
         9 < length (default [] (selectedCities params)) ->
         TspSimulation.runBranchAndBoundTSP haversine params locations
         = TspSimulation.runHeuristicBranchBound haversine params locations).
Proof.
  split; [|split; [|split]].
  - intros sqrt graph start c H. unfold GraphAlgorithms.branchAndBound.
    apply Nat.ltb_lt in H. rewrite H. reflexivity.
  - intros fl fuel graph start H. unfold Algorithms.branchAndBoundTSP.
    apply Nat.ltb_lt in H. rewrite H. reflexivity.
  - intros fl fuel graph start H. unfold Algorithms.branchAndBoundTSP, Algorithms.dynamicProgrammingTSP.
    assert (H10 : (10 <? length (Object_keys (nodes graph)))%nat = true) by (apply Nat.ltb_lt; lia).
    apply Nat.ltb_lt in H. rewrite H10, H. reflexivity.
  - intros h params locations H. unfold TspSimulation.runBranchAndBoundTSP.
    apply Nat.ltb_lt in H. rewrite H. reflexivity.
Qed.

(** Eleven nodes of the editor, without edges. *)
Definition elevenNodes : GraphAlgorithms.Graph :=
  default {| GraphAlgorithms.g_nodes := []; GraphAlgorithms.g_edges := [];
             GraphAlgorithms.adjacencyMatrix := []; GraphAlgorithms.nodeIndices := [];
             GraphAlgorithms.indexToNode := [] |}
    (GraphAlgorithms.convertToGraph (fun q => q) (fun _ => (1 # 2)%Q)
       (map (fun s => {| GraphAlgorithms.fn_id := s; GraphAlgorithms.fn_label := s;
                         GraphAlgorithms.fn_x := 0; GraphAlgorithms.fn_y := 0 |})
            (ringNames 11))
       []).

(** Thirteen nodes, no edges. *)
Definition thirteenNodes : RouteGraph :=
  {| nodes := map Examples.mkNode (ringNames 11 ++ ["n11"; "n12"]); edges := [] |}.

Lemma C6_witness :
  GraphAlgorithms.branchAndBound (fun q => q) elevenNodes "n0" noConditions
  = GraphAlgorithms.nearestNeighbor (fun q => q) elevenNodes "n0" noConditions
  /\ Algorithms.branchAndBoundTSP binary64 0 ringGraph "n0"
     = Some (Algorithms.dynamicProgrammingTSP ringGraph "n0")
  /\ Algorithms.branchAndBoundTSP binary64 0 thirteenNodes "n0"
     = Some (Algorithms.nearestNeighborTSP thirteenNodes "n0")
  /\ TspSimulation.runBranchAndBoundTSP (fun _ _ _ _ => 100000%Q)
       (Examples.request branch_and_bound "k1" (Some (map loc_id (Maps.mapLocations karnataka))))
       (Maps.mapLocations karnataka)
     = TspSimulation.runHeuristicBranchBound (fun _ _ _ _ => 100000%Q)
         (Examples.request branch_and_bound "k1" (Some (map loc_id (Maps.mapLocations karnataka))))
         (Maps.mapLocations karnataka).
Proof.
  pose proof C6_branch_and_bound_above_its_ceiling as (H1 & H2 & H3 & H4).
  split; [|split; [|split]].
  - apply H1. vm_compute. lia.
  - apply H2. vm_compute. lia.
  - apply H3. vm_compute. lia.
  - apply H4. vm_compute. lia.
Defined.

(** C6 as stated fails on algorithms.ts: on the ring of eleven nodes, branch
    and bound returns the tour of the dynamic-programming solver (around the
    ring, of distance 22), not the nearest-neighbour tour (of distance 69). *)
Lemma C6_counterexample :
  10 < length (Object_keys (nodes ringGraph))
  /\ Algorithms.branchAndBoundTSP binary64 0 ringGraph "n0"
     = Some ["n0"; "n10"; "n9"; "n8"; "n7"; "n6"; "n5"; "n4"; "n3"; "n2"; "n1"; "n0"]
  /\ Algorithms.nearestNeighborTSP ringGraph "n0"
     = ["n0"; "n2"; "n1"; "n3"; "n4"; "n5"; "n6"; "n7"; "n8"; "n9"; "n10"; "n0"]
  /\ Algorithms.pathDistance ringGraph
       ["n0"; "n10"; "n9"; "n8"; "n7"; "n6"; "n5"; "n4"; "n3"; "n2"; "n1"; "n0"] 0 = Some 22%Q
  /\ Algorithms.pathDistance ringGraph
       ["n0"; "n2"; "n1"; "n3"; "n4"; "n5"; "n6"; "n7"; "n8"; "n9"; "n10"; "n0"] 0 = Some 69%Q.
Proof.
  split; [vm_compute; lia|].
  split; [vm_compute; reflexivity|].
  split; [vm_compute; reflexivity|].
  split; vm_compute; reflexivity.
Qed.

(** ** Sorting *)

Lemma sort_insert_perm {A : Type} (lt : A -> A -> bool) (x : A) (l : list A) :
  Permutation (sort_insert lt x l) (x :: l).
Proof.
  induction l as [|y l IH]; cbn [sort_insert]; [reflexivity|].
  destruct (lt y x); [|reflexivity].
  rewrite IH. apply perm_swap.
Qed.

Lemma sort_with_perm {A : Type} (lt : A -> A -> bool) (l : list A) :
  Permutation (sort_with lt l) l.
Proof.
  unfold sort_with. induction l as [|x l IH]; cbn [fold_right]; [reflexivity|].
  rewrite sort_insert_perm. constructor. exact IH.
Qed.

Lemma sort_with_length {A : Type} (lt : A -> A -> bool) (l : list A) :
  length (sort_with lt l) = length l.
Proof. apply Permutation_length, sort_with_perm. Qed.

Lemma filter_out_shorter (city : string) (l : list string) :
  In city l -> length (filter (fun c => negb (String.eqb c city)) l) < length l.
Proof.
  induction l as [|y l IH]; intros Hin; [destruct Hin|]. simpl.
  destruct Hin as [-> | Hin].
  - rewrite String.eqb_refl. simpl.
    pose proof (filter_length_le (fun c => negb (String.eqb c city)) l). lia.
  - specialize (IH Hin). destruct (negb (String.eqb y city)); simpl; lia.
Qed.

(** ** C3 on the simulation file: branch and bound starts from the greedy tour *)

Module SimulationBnBFacts.
Import TspSimulation.

Section WithDistances.
Variable haversine : Q -> Q -> Q -> Q -> Q.
Variable params : SimulationParams.
Variable locations : list Location.

Let dist (a b : string) : Q := calculateDistance haversine (Id a) (Id b) locations.
Let cost (path : list string) : Q := pathDistanceOf haversine path locations.




(** The incumbent of the search: a path with its own distance, not above [limit]. *)
Definition incumbent (limit : Q) (best : list string * Q) : Prop :=
  snd best = cost (fst best) /\ (snd best <= limit)%Q.



Lemma fold_left_ext_in {A B : Type} (f g : A -> B -> A) (l : list B) :
  (forall a b, In b l -> f a b = g a b) ->
  forall a, fold_left f l a = fold_left g l a.
Proof.
  induction l as [|b l IH]; intros H a; simpl; [reflexivity|].
  rewrite H by (left; reflexivity). apply IH. intros a' b' Hb. apply H. right. exact Hb.
Qed.




(** The fuel of [bnb] does not matter once it covers the remaining cities. *)
Lemma bnb_fuel :
  forall fuel fuel' currentPath remaining currentCost best,
    length remaining <= fuel -> length remaining <= fuel' ->
    bnb haversine fuel params locations currentPath remaining currentCost best
    = bnb haversine fuel' params locations currentPath remaining currentCost best.
Proof.
  induction fuel as [|fuel IH]; intros fuel' currentPath remaining currentCost best Hf Hf'.
  - destruct remaining; [|simpl in Hf; lia]. destruct fuel'; reflexivity.
  - destruct remaining as [|c remaining]; [destruct fuel'; reflexivity|].
    destruct fuel' as [|fuel']; [simpl in Hf'; lia|].
    cbn [bnb]. destruct (Qle_bool (snd best) _); [reflexivity|].
    set (sorted := sort_by _ (c :: remaining)).
    assert (Hsorted : length sorted = length (c :: remaining)) by apply sort_with_length.
    revert best. apply fold_left_ext_in. intros best' city Hcity.
    pose proof (filter_out_shorter city sorted Hcity) as Hshort.
    rewrite Hsorted in Hshort. simpl in Hshort, Hf, Hf'.
    apply IH; lia.
Qed.

End WithDistances.
End SimulationBnBFacts.

(** ** Sums of rationals *)

Definition sumQ (l : list Q) : Q := fold_right Qplus 0%Q l.




Lemma sumQ_nonneg (l : list Q) : (forall x, In x l -> (0 <= x)%Q) -> (0 <= sumQ l)%Q.
Proof.
  induction l as [|x l IH]; intros H; simpl; [lra|].
  assert (0 <= x)%Q by (apply H; left; reflexivity).
  assert (0 <= sumQ l)%Q by (apply IH; intros y Hy; apply H; right; exact Hy).
  lra.
Qed.


Lemma fold_left_sumQ {A : Type} (f : A -> Q) (l : list A) :
  forall a, (fold_left (fun acc x => acc + f x)%Q l a == a + sumQ (map f l))%Q.
Proof.
  induction l as [|x l IH]; intros a; simpl; [lra|]. rewrite IH. lra.
Qed.

(** The consecutive pairs of a path. *)
Fixpoint consecutive (path : list string) : list (string * string) :=
  match path with
  | a :: (b :: _) as rest => (a, b) :: consecutive rest
  | _ => []
  end.

Lemma consecutive_snoc (path : list string) (x : string) :
  path <> [] -> consecutive (path ++ [x]) = consecutive path ++ [(List.last path "", x)].
Proof.
  induction path as [|a path IH]; intros Hne; [congruence|].
  destruct path as [|b path]; [reflexivity|].
  change ((a :: b :: path) ++ [x]) with (a :: (b :: path) ++ [x]).
  change (consecutive (a :: (b :: path) ++ [x]))
    with ((a, b) :: consecutive ((b :: path) ++ [x])).
  rewrite IH by discriminate. reflexivity.
Qed.


Lemma consecutive_In (path : list string) (a b : string) :
  In (a, b) (consecutive path) -> In a path /\ In b path.
Proof.
  induction path as [|x path IH]; [intros []|].
  destruct path as [|y path]; [intros []|].
  change (consecutive (x :: y :: path)) with ((x, y) :: consecutive (y :: path)).
  intros [E | Hin].
  - inversion E; subst. simpl. auto.
  - destruct (IH Hin). simpl. auto.
Qed.

(** In a duplicate-free path, followed by [x], a node is never its own successor
    unless the path is the single node [x]. *)
Lemma consecutive_distinct (path : list string) (x : string) (a b : string) :
  NoDup path -> 2 <= length path -> (exists rest, path = x :: rest) ->
  In (a, b) (consecutive (path ++ [x])) -> a <> b.
Proof.
  intros Hnd Hlen [rest ->].
  assert (H : forall l, NoDup l -> ~ In x l -> l <> [] ->
                        In (a, b) (consecutive (l ++ [x])) -> a <> b).
  { induction l as [|y l IH]; intros Hl Hx Hne Hin; [congruence|].
    destruct l as [|z l].
    - simpl in Hin. destruct Hin as [E | []]. inversion E; subst. intros ->. apply Hx. left. reflexivity.
    - change ((y :: z :: l) ++ [x]) with (y :: (z :: l) ++ [x]) in Hin.
      change (consecutive (y :: (z :: l) ++ [x]))
        with ((y, z) :: consecutive ((z :: l) ++ [x])) in Hin.
      inversion Hl as [|? ? Hy Hl']; subst.
      destruct Hin as [E | Hin].
      + inversion E; subst. intros ->. apply Hy. left. reflexivity.
      + apply (IH Hl'); [intros H; apply Hx; right; exact H | discriminate | exact Hin]. }
  inversion Hnd as [|? ? Hx Hrest]; subst.
  destruct rest as [|y rest]; [simpl in Hlen; lia|].
  change ((x :: y :: rest) ++ [x]) with (x :: (y :: rest) ++ [x]).
  change (consecutive (x :: (y :: rest) ++ [x]))
    with ((x, y) :: consecutive ((y :: rest) ++ [x])).
  intros [E | Hin].
  - inversion E; subst. intros ->. apply Hx. left. reflexivity.
  - apply (H (y :: rest) Hrest Hx ltac:(discriminate) Hin).
Qed.

(** ** Distances of paths in algorithms.ts *)

Module CostFacts.
Import Algorithms.

Section WithGraph.
Variable graph : RouteGraph.

(** The distance that the metrics count for a pair of consecutive nodes. *)
Definition edgeCost (ab : string * string) : Q :=
  match find_edge graph (fst ab) (snd ab) with
  | Some e => distance e
  | None => 0%Q
  end.

(** [totalDistance] of [calculatePathMetrics]. *)
Definition tourDistance (path : list string) : Q := fst (sumPath graph path (0, 0)%Q).

Lemma sumPath_step (a b : string) (rest : list string) (acc : Q * Q) :
  sumPath graph (a :: b :: rest) acc
  = sumPath graph (b :: rest)
      match find_edge graph a b with
      | Some e => (fst acc + distance e, snd acc + time e)%Q
      | None => acc
      end.
Proof. reflexivity. Qed.



Lemma sumPath_snoc (path : list string) (x : string) (e : Edge) :
  path <> [] -> find_edge graph (List.last path "") x = Some e ->
  forall acc,
    fst (sumPath graph (path ++ [x]) acc) = (fst (sumPath graph path acc) + distance e)%Q.
Proof.
  intros Hne He. induction path as [|a path IH]; intros acc; [congruence|].
  destruct path as [|b path].
  - change ([a] ++ [x]) with [a; x]. rewrite sumPath_step.
    change (List.last [a] "") with a in He. rewrite He. reflexivity.
  - change ((a :: b :: path) ++ [x]) with (a :: b :: path ++ [x]).
    rewrite !sumPath_step. apply (IH ltac:(discriminate) He).
Qed.

Lemma tourDistance_snoc (path : list string) (x : string) (e : Edge) :
  path <> [] -> find_edge graph (List.last path "") x = Some e ->
  tourDistance (path ++ [x]) = (tourDistance path + distance e)%Q.
Proof. intros Hne He. apply sumPath_snoc; assumption. Qed.


Hypothesis Hvalid : valid_graph graph.

Let keys := Object_keys (nodes graph).

Lemma find_edge_In (a b : string) (e : Edge) :
  find_edge graph a b = Some e -> In e (edges graph) /\ from e = a /\ to e = b.
Proof.
  unfold find_edge. intros H. apply find_some in H. destruct H as [Hin Hb].
  apply andb_true_iff in Hb. destruct Hb as [H1 H2].
  apply String.eqb_eq in H1, H2. auto.
Qed.

Lemma find_edge_complete (a b : string) :
  In a keys -> In b keys -> a <> b -> exists e, find_edge graph a b = Some e.
Proof.
  intros Ha Hb Hne. destruct (vg_complete _ Hvalid a b Ha Hb Hne) as (e & He & Hf & Ht).
  unfold find_edge.
  destruct (find (fun e0 => String.eqb (from e0) a && String.eqb (to e0) b) (edges graph))
    as [e'|] eqn:Hfind; [eauto|].
  exfalso. pose proof (find_none _ _ Hfind e He) as Hn. simpl in Hn.
  rewrite Hf, Ht, !String.eqb_refl in Hn. discriminate.
Qed.



(** The least distance of an edge out of [node], 0 when it has none. *)
Definition minOut (node : string) : Q :=
  match minEdge graph node with
  | Fin m => m
  | Infinity => 0%Q
  end.

Lemma minEdge_fold (node : string) (es : list Edge) :
  forall m,
    let r := fold_left
               (fun (m : num) edge =>
                  if String.eqb (from edge) node && num_ltb (Fin (distance edge)) m
                  then Fin (distance edge) else m) es m in
    num_le r m
    /\ (forall e, In e es -> from e = node -> num_le r (Fin (distance e)))
    /\ (r = m \/ exists e, In e es /\ r = Fin (distance e)).
Proof.
  induction es as [|e es IH]; intros m; cbn [fold_left].
  - split; [apply num_le_refl|]. split; [intros e []|]. left. reflexivity.
  - destruct (String.eqb (from e) node && num_ltb (Fin (distance e)) m) eqn:Hc.
    + apply andb_true_iff in Hc. destruct Hc as [Hf Hlt].
      destruct (IH (Fin (distance e))) as (H1 & H2 & H3).
      split; [eapply num_le_trans; [exact H1 | apply num_ltb_le; exact Hlt]|].
      split.
      * intros e0 [<- | Hin] Hfrom; [exact H1 | exact (H2 e0 Hin Hfrom)].
      * right. destruct H3 as [-> | (e' & Hin & ->)]; [exists e | exists e']; simpl; auto.
    + destruct (IH m) as (H1 & H2 & H3).
      split; [exact H1|]. split.
      * intros e0 [<- | Hin] Hfrom; [|exact (H2 e0 Hin Hfrom)].
        rewrite Hfrom, String.eqb_refl in Hc. simpl in Hc.
        eapply num_le_trans; [exact H1|]. exact Hc.
      * destruct H3 as [-> | (e' & Hin & ->)]; [left; reflexivity | right; exists e'; simpl; auto].
Qed.


Lemma minOut_nonneg (node : string) : (0 <= minOut node)%Q.
Proof.
  unfold minOut, minEdge.
  destruct (minEdge_fold node (edges graph) Infinity) as (_ & _ & H3).
  destruct H3 as [-> | (e & He & ->)]; [lra|].
  apply (vg_nonneg _ Hvalid). exact He.
Qed.


End WithGraph.
End CostFacts.

(** ** Branch and bound of algorithms.ts *)


Lemma last_In (a : string) (l : list string) : In (List.last (a :: l) "") (a :: l).
Proof.
  revert a. induction l as [|b l IH]; intros a; [left; reflexivity|].
  right. apply IH.
Qed.

Lemma last_firstn_nth (k : nat) :
  forall l, k < length l -> List.last (firstn (S k) l) "" = nth k l "".
Proof.
  induction k as [|k IH]; intros l Hk.
  - destruct l as [|a l]; [simpl in Hk; lia | reflexivity].
  - destruct l as [|a [|b l]]; [simpl in Hk; lia | simpl in Hk; lia |].
    change (firstn (S (S k)) (a :: b :: l)) with (a :: firstn (S k) (b :: l)).
    change (nth (S k) (a :: b :: l) "") with (nth k (b :: l) "").
    rewrite <- IH by (simpl in *; lia). reflexivity.
Qed.

Lemma firstn_S_snoc {A : Type} (d : A) (k : nat) :
  forall l, k < length l -> firstn (S k) l = firstn k l ++ [nth k l d].
Proof.
  induction k as [|k IH]; intros l Hk.
  - destruct l as [|a l]; [simpl in Hk; lia | reflexivity].
  - destruct l as [|a l]; [simpl in Hk; lia|].
    change (firstn (S (S k)) (a :: l)) with (a :: firstn (S k) l).
    rewrite IH by (simpl in Hk; lia). reflexivity.
Qed.

Lemma NoDup_nth_not_firstn {A : Type} (d : A) (k : nat) :
  forall l, NoDup l -> k < length l -> ~ In (nth k l d) (firstn k l).
Proof.
  induction k as [|k IH]; intros l Hnd Hk; [intros []|].
  destruct l as [|a l]; [simpl in Hk; lia|].
  inversion Hnd as [|? ? Ha Hl]; subst. cbn [firstn nth]. intros [E | Hin].
  - apply Ha. rewrite E. apply nth_In. simpl in Hk. lia.
  - apply (IH l Hl); [simpl in Hk; lia | exact Hin].
Qed.

Module BnBFacts.
Import Algorithms CostFacts.

(** *** The search, whatever the rounding of its sums *)

Section WithGraph.
Variable fl : Q -> Q.
Variable graph : RouteGraph.
Variable start : string.
Hypothesis Hvalid : valid_graph graph.

Let keys := Object_keys (nodes graph).
Let n := length keys.

(** The state pushed for [edge] out of [current]. *)
Definition child (current : BranchNode) (e : Edge) : BranchNode :=
  {| bn_path := bn_path current ++ [to e];
     bn_cost := fl (bn_cost current + distance e)%Q;
     bn_visited := JsSet.add (to e) (bn_visited current);
     bn_bound := calculateBound fl graph keys (JsSet.add (to e) (bn_visited current)) |}.

Definition pushed (current : BranchNode) (currentNode : string) (bestCost : num)
           (e : Edge) : bool :=
  String.eqb (from e) currentNode && negb (JsSet.has (bn_visited current) (to e))
  && num_ltb (Fin (priority fl (child current e))) bestCost.

Lemma expand_fold (current : BranchNode) (currentNode : string) (bestCost : num) :
  forall es queue,
    fold_left (expandStep fl graph keys current currentNode bestCost) es queue
    = queue ++ map (child current) (filter (pushed current currentNode bestCost) es).
Proof.
  induction es as [|e es IH]; intros queue; cbn [fold_left filter map].
  - rewrite app_nil_r. reflexivity.
  - rewrite IH.
    assert (Hstep : expandStep fl graph keys current currentNode bestCost queue e
                    = if pushed current currentNode bestCost e
                      then queue ++ [child current e] else queue).
    { unfold expandStep, pushed, child, priority. cbn [bn_cost bn_bound].
      destruct (String.eqb (from e) currentNode && negb (JsSet.has (bn_visited current) (to e)));
        reflexivity. }
    rewrite Hstep. destruct (pushed current currentNode bestCost e); [|reflexivity].
    cbn [map]. rewrite <- app_assoc. reflexivity.
Qed.

(** What the path of every state of the queue satisfies. *)
Record good (q : BranchNode) : Prop := {
  g_head : exists rest, bn_path q = start :: rest;
  g_visited : bn_visited q = bn_path q;
  g_nodup : NoDup (bn_path q);
  g_incl : incl (bn_path q) keys
}.


Lemma good_child (current : BranchNode) (e : Edge) :
  good current -> In e (edges graph) ->
  ~ In (to e) (bn_visited current) ->
  good (child current e).
Proof.
  intros Hc He Hfresh.
  assert (Hadd : JsSet.add (to e) (bn_visited current) = bn_path current ++ [to e]).
  { unfold JsSet.add. apply has_not_In in Hfresh. rewrite Hfresh.
    rewrite (g_visited _ Hc). reflexivity. }
  destruct (g_head _ Hc) as [rest Hrest].
  constructor; cbn [child bn_path bn_cost bn_visited bn_bound].
  - exists (rest ++ [to e]). rewrite Hrest. reflexivity.
  - exact Hadd.
  - apply NoDup_snoc; [exact (g_nodup _ Hc)|]. rewrite <- (g_visited _ Hc). exact Hfresh.
  - intros x Hx. apply in_app_iff in Hx. destruct Hx as [Hx | [<- | []]].
    + exact (g_incl _ Hc x Hx).
    + apply (vg_inside _ Hvalid e He).
Qed.

Lemma good_size (q : BranchNode) : good q -> JsSet.size (bn_visited q) <= n.
Proof.
  intros Hq. unfold JsSet.size. rewrite (g_visited _ Hq).
  apply NoDup_incl_length; [exact (g_nodup _ Hq) | exact (g_incl _ Hq)].
Qed.

(** A state that visited every node closes into a tour. *)
Lemma good_complete (current : BranchNode) :
  good current -> JsSet.size (bn_visited current) = n ->
  tour_of keys start (bn_path current ++ [start]).
Proof.
  intros Hc Hfull. destruct (g_head _ Hc) as [rest Hrest].
  exists rest. split; [rewrite Hrest; reflexivity|].
  rewrite <- Hrest. apply NoDup_full_Permutation.
  - exact (vg_nodup _ Hvalid).
  - exact (g_nodup _ Hc).
  - exact (g_incl _ Hc).
  - rewrite <- (g_visited _ Hc). exact Hfull.
Qed.

(** *** Termination of the queue loop *)

(** The number of loop turns a state with [k] nodes left can cause, with at
    most [E] children a state. *)
Fixpoint turns (E k : nat) : nat :=
  match k with
  | O => 1
  | S k' => S (E * turns E k')
  end.

Definition weight (q : BranchNode) : nat :=
  turns (length (edges graph)) (n - JsSet.size (bn_visited q)).

Definition measure (queue : list BranchNode) : nat := list_sum (map weight queue).

Lemma measure_perm (l l' : list BranchNode) : Permutation l l' -> measure l = measure l'.
Proof.
  unfold measure. induction 1 as [| x l l' _ IH | x y l | l l' l'' _ IH1 _ IH2]; simpl; lia.
Qed.

Lemma measure_app (l l' : list BranchNode) : measure (l ++ l') = measure l + measure l'.
Proof. unfold measure. rewrite map_app, list_sum_app. reflexivity. Qed.

Lemma measure_children (current : BranchNode) (currentNode : string) (bestCost : num) :
  forall es,
    measure (map (child current) (filter (pushed current currentNode bestCost) es))
    <= length es * turns (length (edges graph)) (n - S (JsSet.size (bn_visited current))).
Proof.
  induction es as [|e es IH]; cbn [filter map length]; [unfold measure; simpl; lia|].
  destruct (pushed current currentNode bestCost e) eqn:Hp; [|lia].
  cbn [map]. change (measure (?x :: ?l)) with (weight x + measure l).
  assert (Hw : weight (child current e)
               = turns (length (edges graph)) (n - S (JsSet.size (bn_visited current)))).
  { unfold weight. cbn [child bn_visited]. rewrite add_size_fresh; [reflexivity|].
    unfold pushed in Hp. apply andb_true_iff in Hp. destruct Hp as [Hp _].
    apply andb_true_iff in Hp. destruct Hp as [_ Hp].
    apply negb_true_iff in Hp. apply has_not_In. exact Hp. }
  rewrite Hw. lia.
Qed.

Lemma weight_positive (q : BranchNode) : 1 <= weight q.
Proof. unfold weight. destruct (n - JsSet.size (bn_visited q)); simpl; lia. Qed.

(** Expanding a state that is not complete lowers the measure. *)
Lemma measure_expand (current : BranchNode) (currentNode : string) (bestCost : num)
      (queue' : list BranchNode) :
  good current -> JsSet.size (bn_visited current) <> n ->
  measure (fold_left (expandStep fl graph keys current currentNode bestCost)
                     (edges graph) queue')
  < weight current + measure queue'.
Proof.
  intros Hg Hsz. rewrite expand_fold, measure_app.
  pose proof (measure_children current currentNode bestCost (edges graph)) as Hc.
  pose proof (good_size _ Hg) as Hle.
  unfold weight at 1.
  replace (n - JsSet.size (bn_visited current))
    with (S (n - S (JsSet.size (bn_visited current)))) by lia.
  cbn [turns]. lia.
Qed.

(** *** The loop *)

Lemma Forall_good_expand (current : BranchNode) (bestCost : num) (queue' : list BranchNode) :
  good current -> Forall good queue' ->
  Forall good (fold_left (expandStep fl graph keys current (List.last (bn_path current) "")
                                     bestCost)
                         (edges graph) queue').
Proof.
  intros Hg Hq. rewrite expand_fold. apply Forall_app. split; [exact Hq|].
  apply Forall_forall. intros q Hin. apply in_map_iff in Hin.
  destruct Hin as (e & <- & He). apply filter_In in He. destruct He as [He Hp].
  unfold pushed in Hp. apply andb_true_iff in Hp. destruct Hp as [Hp _].
  apply andb_true_iff in Hp. destruct Hp as [Hf Hv].
  apply negb_true_iff, has_not_In in Hv.
  apply good_child; assumption.
Qed.

(** The incumbent: none, or a tour. *)
Definition tour_or_none (best : option BranchNode) : Prop :=
  match best with
  | None => True
  | Some b => tour_of keys start (bn_path b)
  end.

(** With fuel above the measure of the queue the loop ends, whatever the
    rounding, and its incumbent is a tour if there is one. *)
Lemma bb_loop_tour :
  forall fuel queue best bestCost,
    Forall good queue -> tour_or_none best -> measure queue < fuel ->
    exists r, bb_loop fl fuel graph start keys queue best bestCost = Some r
              /\ tour_or_none r.
Proof.
  induction fuel as [|fuel IH]; intros queue best bestCost Hgood Hbest Hfuel; [lia|].
  cbn [bb_loop].
  pose proof (sort_with_perm (fun a b => Qltb (priority fl a) (priority fl b)) queue) as Hperm.
  fold (sort_by (priority fl) queue) in Hperm.
  destruct (sort_by (priority fl) queue) as [|current queue'].
  - exists best. split; [reflexivity | exact Hbest].
  - assert (Hall : Forall good (current :: queue')).
    { apply Forall_forall. intros q Hq. apply (proj1 (Forall_forall _ _) Hgood).
      apply (Permutation_in _ Hperm). exact Hq. }
    inversion Hall as [|? ? Hcur Hrest]; subst.
    assert (Hm : measure queue = weight current + measure queue').
    { rewrite <- (measure_perm _ _ Hperm). reflexivity. }
    pose proof (weight_positive current) as Hpos.
    destruct (num_geb (Fin (priority fl current)) bestCost);
      [apply IH; [exact Hrest | exact Hbest | lia]|].
    destruct (JsSet.size (bn_visited current) =? length keys)%nat eqn:Hsz; fold n in Hsz.
    { apply Nat.eqb_eq in Hsz.
      destruct (find_edge graph (List.last (bn_path current) "") start) as [returnEdge|];
        [|apply IH; [exact Hrest | exact Hbest | lia]].
      destruct (num_ltb (Fin (fl (bn_cost current + distance returnEdge))) bestCost);
        [|apply IH; [exact Hrest | exact Hbest | lia]].
      apply IH; [exact Hrest | | lia].
      cbn [tour_or_none bn_path]. apply good_complete; assumption. }
    apply Nat.eqb_neq in Hsz.
    apply IH; [apply Forall_good_expand; assumption | exact Hbest |].
    pose proof (measure_expand current (List.last (bn_path current) "") bestCost queue'
                               Hcur Hsz) as Hlt.
    lia.
Qed.

End WithGraph.

(** Up to ten nodes: with enough fuel for the queue loop, the search returns a
    tour of the graph, whatever the rounding of its sums. *)
Lemma branchAndBoundTSP_tour (fl : Q -> Q) (graph : RouteGraph) (start : string)
      (fuel : nat) :
  valid_graph graph ->
  In start (Object_keys (nodes graph)) ->
  2 <= length (Object_keys (nodes graph)) <= 10 ->
  turns (length (edges graph)) (length (Object_keys (nodes graph)) - 1) < fuel ->
  exists path, branchAndBoundTSP fl fuel graph start = Some path
               /\ tour_of (Object_keys (nodes graph)) start path.
Proof.
  intros Hvalid Hstart [Hlo Hhi] Hfuel.
  unfold branchAndBoundTSP.
  destruct (10 <? length (Object_keys (nodes graph)))%nat eqn:Hbig;
    [apply Nat.ltb_lt in Hbig; lia|].
  set (keys := Object_keys (nodes graph)) in *.
  set (q0 := {| bn_path := [start]; bn_cost := 0; bn_visited := JsSet.add start [];
                bn_bound := calculateBound fl graph keys (JsSet.add start []) |}).
  destruct (bb_loop_tour fl graph start Hvalid fuel [q0] None Infinity)
    as (r & Hr & Ht).
  - constructor; [|constructor]. constructor; cbn [q0 bn_path bn_visited].
    + exists []. reflexivity.
    + reflexivity.
    + constructor; [intros [] | constructor].
    + intros x [<- | []]. exact Hstart.
  - exact I.
  - unfold measure, weight. cbn [map list_sum q0 bn_visited]. fold keys.
    change (JsSet.size (JsSet.add start [])) with 1. simpl. lia.
  - fold keys in Hr. cbv zeta. rewrite Hr. destruct r as [b|].
    + exists (bn_path b). split; [reflexivity | exact Ht].
    + eexists. split; [reflexivity|]. apply nearestNeighborTSP_tour; assumption.
Qed.

(** *** The search without rounding *)

Section WithTour.
Variable graph : RouteGraph.
Variable start : string.
Hypothesis Hvalid : valid_graph graph.

Let keys := Object_keys (nodes graph).
Let n := length keys.

Hypothesis Hsize : 2 <= n.

(** A tour: the nodes in the order of the visit, from the start. *)
Variable Tn : list string.
Hypothesis Tperm : Permutation Tn keys.
Hypothesis Thead : exists interior, Tn = start :: interior.

Let cT := tourDistance graph (Tn ++ [start]).









(** *** The states of the queue *)

Local Abbreviation child := (child (fun q : Q => q) graph).
Local Abbreviation pushed := (pushed (fun q : Q => q) graph).
Local Abbreviation good := (good graph start).
Local Abbreviation priority := (priority (fun q : Q => q)).

(** The cost of a state is the distance of its path, and its bound the sum
    over the nodes it has not visited. *)
Record priced (q : BranchNode) : Prop := {
  p_cost : bn_cost q = tourDistance graph (bn_path q);
  p_bound : bn_bound q = calculateBound (fun q => q) graph keys (bn_visited q)
}.




(** What every state of the queue satisfies. *)
Definition sound (q : BranchNode) : Prop := good q /\ priced q.

(** *** The tour stays within reach *)

(** A state that walked the first [k] nodes of the tour. *)
Definition on_tour (q : BranchNode) : Prop :=
  exists k, 1 <= k <= n /\ bn_path q = firstn k Tn.







(** *** The loop *)




End WithTour.


End BnBFacts.

(** ** Held-Karp of algorithms.ts *)

Lemma indexOf_from_Some (arr : list string) (x : string) :
  forall k i, indexOf_from arr x k = Some i ->
              k <= i /\ i - k < length arr /\ nth (i - k) arr "" = x.
Proof.
  induction arr as [|y arr IH]; intros k i H; [discriminate|]. simpl in H.
  destruct (String.eqb y x) eqn:E.
  - injection H as <-. apply String.eqb_eq in E. replace (k - k) with 0 by lia.
    simpl. split; [lia|]. split; [lia | exact E].
  - destruct (IH _ _ H) as (Hk & Hlen & Hnth). split; [lia|].
    replace (i - k) with (S (i - S k)) by lia. simpl. split; [lia | exact Hnth].
Qed.

Lemma indexOf_Some (arr : list string) (x : string) (i : nat) :
  indexOf arr x = Some i -> i < length arr /\ nth i arr "" = x.
Proof.
  intros H. apply indexOf_from_Some in H. rewrite Nat.sub_0_r in H. tauto.
Qed.

Lemma indexOf_from_nth (arr : list string) :
  NoDup arr -> forall i k, i < length arr -> indexOf_from arr (nth i arr "") k = Some (k + i).
Proof.
  induction 1 as [|y arr Hy Hnd IH]; intros i k Hi; [simpl in Hi; lia|].
  destruct i as [|i]; simpl.
  - rewrite String.eqb_refl. f_equal. lia.
  - destruct (String.eqb y (nth i arr "")) eqn:E.
    + apply String.eqb_eq in E. exfalso. apply Hy. rewrite E. apply nth_In.
      simpl in Hi. lia.
    + rewrite IH by (simpl in Hi; lia). f_equal. lia.
Qed.

Lemma indexOf_nth (arr : list string) (i : nat) :
  NoDup arr -> i < length arr -> indexOf arr (nth i arr "") = Some i.
Proof. intros Hnd Hi. unfold indexOf. rewrite indexOf_from_nth by assumption. reflexivity. Qed.

Lemma nth_list_insert {A : Type} (l : list A) (x d : A) :
  forall i j, nth j (<[i:=x]> l) d = if ((i =? j) && (i <? length l))%nat then x else nth j l d.
Proof.
  induction l as [|y l IH]; intros i j.
  - rewrite andb_false_r. reflexivity.
  - destruct i as [|i], j as [|j]; try reflexivity.
    cbn [length]. change (<[S i:=x]> (y :: l)) with (y :: <[i:=x]> l).
    cbn [nth]. rewrite IH. reflexivity.
Qed.

(** A square matrix of size [n]. *)
Definition square (n : nat) (m : Matrix) : Prop :=
  length m = n /\ forall i, i < n -> length (nth i m []) = n.

Lemma square_new (n : nat) : square n (mat_new n).
Proof.
  unfold square, mat_new. split; [apply repeat_length|].
  intros i Hi. rewrite nth_repeat_lt by exact Hi. apply repeat_length.
Qed.

Lemma mat_get_set (n : nat) (m : Matrix) (i j i' j' : nat) (x : num) :
  square n m -> i < n -> j < n ->
  mat_get (mat_set m i j x) i' j'
  = if ((i =? i') && (j =? j'))%nat then x else mat_get m i' j'.
Proof.
  intros [Hlen Hrows] Hi Hj. unfold mat_get, mat_set.
  rewrite (nth_list_insert (A:=list num) m). rewrite Hlen.
  destruct (Nat.eqb_spec i i') as [<- | Hne]; cbn [andb].
  - replace (i <? n)%nat with true by (symmetry; apply Nat.ltb_lt; exact Hi).
    rewrite nth_list_insert. rewrite (Hrows i Hi).
    replace (j <? n)%nat with true by (symmetry; apply Nat.ltb_lt; exact Hj).
    rewrite andb_true_r. reflexivity.
  - reflexivity.
Qed.

Lemma square_set (n : nat) (m : Matrix) (i j : nat) (x : num) :
  square n m -> i < n -> j < n -> square n (mat_set m i j x).
Proof.
  intros [Hlen Hrows] Hi Hj. unfold square, mat_set. split.
  - rewrite (length_insert (A:=list num) m). exact Hlen.
  - intros k Hk. rewrite (nth_list_insert (A:=list num) m). rewrite Hlen.
    destruct (Nat.eqb_spec i k) as [<- | Hne]; cbn [andb].
    + replace (i <? n)%nat with true by (symmetry; apply Nat.ltb_lt; exact Hi).
      rewrite length_insert. apply Hrows. exact Hi.
    + apply Hrows. exact Hk.
Qed.

Module HeldKarpDPFacts.
Import Algorithms CostFacts.

Section Distances.
Variable graph : RouteGraph.
Hypothesis Hvalid : valid_graph graph.

Let keys := Object_keys (nodes graph).
Let n := length keys.

(** The distance of the last edge from [a] to [b] in the array of edges. *)
Definition lastMatch (a b : string) (es : list Edge) : num :=
  fold_left
    (fun (acc : num) e =>
       if String.eqb (from e) a && String.eqb (to e) b then Fin (distance e) else acc)
    es Infinity.

Lemma nth_eqb (i j : nat) :
  i < n -> j < n -> String.eqb (nth i keys "") (nth j keys "") = (i =? j)%nat.
Proof.
  intros Hi Hj. destruct (Nat.eqb_spec i j) as [-> | Hne].
  - apply String.eqb_refl.
  - apply String.eqb_neq. intros E. apply Hne.
    apply (proj1 (NoDup_nth keys "") (vg_nodup _ Hvalid)); assumption.
Qed.

Lemma buildDist_lastMatch (es : list Edge) :
  square n (buildDist keys es)
  /\ forall i j, i < n -> j < n ->
                 mat_get (buildDist keys es) i j = lastMatch (nth i keys "") (nth j keys "") es.
Proof.
  induction es as [|e es IH] using rev_ind.
  - split; [apply square_new|]. intros i j Hi Hj. unfold buildDist, mat_new, mat_get. simpl.
    fold n. rewrite nth_repeat_lt by exact Hi. rewrite nth_repeat_lt by exact Hj. reflexivity.
  - destruct IH as [Hsq Hget]. unfold buildDist, lastMatch in *. rewrite !fold_left_app.
    cbn [fold_left]. fold n in Hsq, Hget |- *.
    set (m := fold_left _ es (mat_new n)) in *.
    destruct (indexOf keys (from e)) as [i0|] eqn:Hi0.
    + destruct (indexOf keys (to e)) as [j0|] eqn:Hj0.
      * apply indexOf_Some in Hi0, Hj0. destruct Hi0 as [Hi0 Hf], Hj0 as [Hj0 Ht].
        split; [apply square_set; assumption|]. intros i j Hi Hj.
        rewrite (mat_get_set n) by assumption. rewrite fold_left_app. cbn [fold_left].
        rewrite <- Hf, <- Ht.
        rewrite !nth_eqb by assumption. rewrite Hget by assumption. reflexivity.
      * split; [exact Hsq|]. intros i j Hi Hj. rewrite Hget by assumption.
        rewrite fold_left_app. cbn [fold_left].
        destruct (String.eqb (to e) (nth j keys "")) eqn:E; [|rewrite andb_false_r; reflexivity].
        apply String.eqb_eq in E.
        destruct (indexOf_In keys (to e)) as (k & Hk & _); [rewrite E; apply nth_In; exact Hj|].
        congruence.
    + split; [exact Hsq|]. intros i j Hi Hj. rewrite Hget by assumption.
      rewrite fold_left_app. cbn [fold_left].
      destruct (String.eqb (from e) (nth i keys "")) eqn:E; [|reflexivity].
      apply String.eqb_eq in E.
      destruct (indexOf_In keys (from e)) as (k & Hk & _); [rewrite E; apply nth_In; exact Hi|].
      congruence.
Qed.

Lemma lastMatch_cases (a b : string) :
  forall es acc,
    let r := fold_left
               (fun (acc : num) e =>
                  if String.eqb (from e) a && String.eqb (to e) b then Fin (distance e) else acc)
               es acc in
    r = acc \/ exists e, In e es /\ from e = a /\ to e = b /\ r = Fin (distance e).
Proof.
  induction es as [|e es IH]; intros acc; [left; reflexivity|]. cbn [fold_left].
  destruct (IH (if String.eqb (from e) a && String.eqb (to e) b
                then Fin (distance e) else acc)) as [H | (e' & Hin & Hf & Ht & H)].
  - cbv zeta. rewrite H.
    destruct (String.eqb (from e) a && String.eqb (to e) b) eqn:E; [|left; reflexivity].
    apply andb_true_iff in E. destruct E as [E1 E2]. apply String.eqb_eq in E1, E2.
    right. exists e. split; [left; reflexivity|]. auto.
  - right. exists e'. split; [right; exact Hin|]. auto.
Qed.

Lemma lastMatch_find (a b : string) :
  lastMatch a b (edges graph)
  = match find_edge graph a b with
    | Some e => Fin (distance e)
    | None => Infinity
    end.
Proof.
  destruct (find_edge graph a b) as [e|] eqn:He.
  - apply find_edge_In in He. destruct He as (Hin & Hf & Ht).
    assert (Hex : forall es acc, In e es -> incl es (edges graph) ->
                    fold_left
                      (fun (acc : num) e0 =>
                         if String.eqb (from e0) a && String.eqb (to e0) b
                         then Fin (distance e0) else acc) es acc = Fin (distance e)).
    { induction es as [|e1 es IH]; intros acc Hein Hincl; [destruct Hein|]. cbn [fold_left].
      assert (Hsame : forall e', In e' (edges graph) -> from e' = a -> to e' = b -> e' = e).
      { intros e' Hin' Hf' Ht'. apply (vg_unique _ Hvalid); congruence. }
      destruct Hein as [-> | Hein].
      - rewrite Hf, Ht, !String.eqb_refl. cbn [andb].
        destruct (lastMatch_cases a b es (Fin (distance e))) as [H | (e' & Hin' & Hf' & Ht' & H)].
        + exact H.
        + cbv zeta in H. rewrite H. f_equal. f_equal.
          apply Hsame; [apply Hincl; right; exact Hin' | exact Hf' | exact Ht'].
      - apply IH; [exact Hein|]. intros x Hx. apply Hincl. right. exact Hx. }
    apply Hex; [exact Hin | apply incl_refl].
  - unfold lastMatch.
    destruct (lastMatch_cases a b (edges graph) Infinity) as [H | (e' & Hin' & Hf' & Ht' & H)].
    + exact H.
    + exfalso. unfold find_edge in He. apply (find_none _ _ He) in Hin'.
      rewrite Hf', Ht', !String.eqb_refl in Hin'. discriminate.
Qed.

(** [dist[i][j]] is the distance of the edge that [find] gives. *)
Lemma dist_spec (i j : nat) :
  i < n -> j < n ->
  mat_get (buildDist keys (edges graph)) i j
  = match find_edge graph (nth i keys "") (nth j keys "") with
    | Some e => Fin (distance e)
    | None => Infinity
    end.
Proof.
  intros Hi Hj. rewrite (proj2 (buildDist_lastMatch (edges graph))) by assumption.
  apply lastMatch_find.
Qed.

End Distances.

(** *** The writes of the table *)

Section Table.
Variable dist : Matrix.
Variable n : nat.

(** [t'] is [t] with the entry of [(newMask, v)] set to the cost [c] and the
    parent [u]. *)
Definition updated (t t' : Tables) (newMask : Z) (v u : nat) (c : Q) : Prop :=
  (forall m x, dp_get t' m x
               = if decide ((newMask, Z.of_nat v) = (m, x)) then Some c else dp_get t m x)
  /\ (forall m x, parent_get t' m x
                  = if decide ((newMask, Z.of_nat v) = (m, x)) then Some u
                    else parent_get t m x)
  /\ (forall m, is_Some (dp t' !! m) -> m = newMask \/ is_Some (dp t !! m)).

(** [t'] has the entries of [t], and maybe an empty row for [newMask]. *)
Definition unchanged (t t' : Tables) (newMask : Z) : Prop :=
  (forall m x, dp_get t' m x = dp_get t m x)
  /\ (forall m x, parent_get t' m x = parent_get t m x)
  /\ (forall m, is_Some (dp t' !! m) -> m = newMask \/ is_Some (dp t !! m)).

Lemma unchanged_refl (t : Tables) (newMask : Z) : unchanged t t newMask.
Proof. repeat split; auto. Qed.

Lemma row_default {V : Type} (tbl : gmap Z (gmap Z V)) (m x : Z) :
  default ∅ (tbl !! m) !! x = match tbl !! m with Some row => row !! x | None => None end.
Proof. destruct (tbl !! m); [reflexivity | apply lookup_empty]. Qed.

Lemma get_insert_row {V : Type} (tbl : gmap Z (gmap Z V)) (newMask : Z) (row : gmap Z V)
      (m x : Z) :
  match <[newMask := row]> tbl !! m with Some r => r !! x | None => None end
  = if decide (newMask = m) then row !! x
    else match tbl !! m with Some r => r !! x | None => None end.
Proof. rewrite lookup_insert. destruct (decide (newMask = m)); reflexivity. Qed.

Lemma get_write {V : Type} (tbl : gmap Z (gmap Z V)) (newMask k : Z) (c : V) (m x : Z) :
  match <[newMask := <[k := c]> (default ∅ (tbl !! newMask))]> tbl !! m with
  | Some r => r !! x
  | None => None
  end
  = if decide ((newMask, k) = (m, x)) then Some c
    else match tbl !! m with Some r => r !! x | None => None end.
Proof.
  rewrite get_insert_row. destruct (decide (newMask = m)) as [<- | Hm].
  - rewrite lookup_insert. destruct (decide (k = x)) as [<- | Hx].
    + rewrite decide_True by reflexivity. reflexivity.
    + rewrite decide_False by congruence. apply row_default.
  - rewrite decide_False by congruence. reflexivity.
Qed.

Lemma get_touch {V : Type} (tbl : gmap Z (gmap Z V)) (newMask : Z) (m x : Z) :
  match <[newMask := default ∅ (tbl !! newMask)]> tbl !! m with
  | Some r => r !! x
  | None => None
  end
  = match tbl !! m with Some r => r !! x | None => None end.
Proof.
  rewrite get_insert_row. destruct (decide (newMask = m)) as [<- | Hm]; [|reflexivity].
  apply row_default.
Qed.

Lemma rows_insert {V : Type} (tbl : gmap Z (gmap Z V)) (newMask : Z) (row : gmap Z V) (m : Z) :
  is_Some (<[newMask := row]> tbl !! m) -> m = newMask \/ is_Some (tbl !! m).
Proof.
  rewrite lookup_insert. destruct (decide (newMask = m)); [left; congruence | right; assumption].
Qed.

(** What one turn of the loop over [v] does to the table. *)
Lemma relax_cases (mask : Z) (u : nat) (t : Tables) (v : nat) :
  let newMask := Z.lor mask (bit v) in
  let t' := relax dist mask u t v in
  (t' = t /\ (Z.testbit mask (Z.of_nat v) = true \/ mat_get dist u v = Infinity
              \/ dp_get t mask (Z.of_nat u) = None))
  \/ (Z.testbit mask (Z.of_nat v) = false
      /\ exists d cu,
          mat_get dist u v = Fin d /\ dp_get t mask (Z.of_nat u) = Some cu
          /\ ((match dp_get t newMask (Z.of_nat v) with
               | None => True
               | Some old => (cu + d < old)%Q
               end /\ updated t t' newMask v u (cu + d)%Q)
              \/ (exists old, dp_get t newMask (Z.of_nat v) = Some old
                              /\ (old <= cu + d)%Q /\ unchanged t t' newMask))).
Proof.
  cbv zeta. unfold relax.
  destruct (Z.testbit mask (Z.of_nat v)) eqn:Hbit; [left; auto|].
  destruct (mat_get dist u v) as [d|] eqn:Hd; [|left; auto].
  destruct (dp_get t mask (Z.of_nat u)) as [cu|] eqn:Hcu; [|left; auto].
  right. split; [reflexivity|]. exists d, cu. split; [reflexivity|]. split; [reflexivity|].
  rewrite row_default. fold (dp_get t (Z.lor mask (bit v)) (Z.of_nat v)).
  destruct (dp_get t (Z.lor mask (bit v)) (Z.of_nat v)) as [old|] eqn:Hold.
  - destruct (Qltb (cu + d) old) eqn:Hlt.
    + left. split; [apply Qltb_lt; exact Hlt|].
      split; [|split].
      * intros m x. unfold dp_get at 1. cbn [dp]. apply get_write.
      * intros m x. unfold parent_get at 1. cbn [parent]. apply get_write.
      * intros m. cbn [dp]. apply rows_insert.
    + right. exists old. split; [reflexivity|]. split; [apply Qltb_ge; exact Hlt|].
      split; [|split].
      * intros m x. unfold dp_get at 1. cbn [dp]. apply get_touch.
      * intros m x. unfold parent_get at 1. cbn [parent]. apply get_touch.
      * intros m. cbn [dp]. apply rows_insert.
  - left. split; [exact I|]. split; [|split].
    + intros m x. unfold dp_get at 1. cbn [dp]. apply get_write.
    + intros m x. unfold parent_get at 1. cbn [parent]. apply get_write.
    + intros m. cbn [dp]. apply rows_insert.
Qed.


(** *** Bits *)

Lemma testbit_bit (v x : nat) : Z.testbit (bit v) (Z.of_nat x) = (v =? x)%nat.
Proof. apply testbit_shiftl_1. Qed.

Lemma testbit_bit_Z (v : nat) (i : Z) :
  (0 <= i)%Z -> Z.testbit (bit v) i = (Z.of_nat v =? i)%Z.
Proof. intros Hi. unfold bit. rewrite Z.shiftl_1_l. apply Z.pow2_bits_eqb. lia. Qed.

Lemma bit_positive (v : nat) : (0 < bit v)%Z.
Proof. unfold bit. rewrite Z.shiftl_1_l. apply Z.pow_pos_nonneg; lia. Qed.

Lemma testbit_lor_bit (mask : Z) (v x : nat) :
  Z.testbit (Z.lor mask (bit v)) (Z.of_nat x) = Z.testbit mask (Z.of_nat x) || (v =? x)%nat.
Proof. rewrite Z.lor_spec, testbit_bit. reflexivity. Qed.

Lemma land_bit_0 (mask : Z) (v : nat) :
  Z.testbit mask (Z.of_nat v) = false -> Z.land mask (bit v) = 0%Z.
Proof.
  intros Hv. apply Z.bits_inj'. intros i Hi.
  rewrite Z.land_spec, Z.bits_0, testbit_bit_Z by exact Hi.
  destruct (Z.eqb_spec (Z.of_nat v) i) as [<- | Hne].
  - rewrite Hv. reflexivity.
  - apply andb_false_r.
Qed.

Lemma lor_bit_add (mask : Z) (v : nat) :
  Z.testbit mask (Z.of_nat v) = false -> Z.lor mask (bit v) = (mask + bit v)%Z.
Proof.
  intros Hv. pose proof (land_bit_0 mask v Hv) as H0.
  rewrite <- Z.lxor_lor by exact H0. symmetry. apply Z.add_nocarry_lxor. exact H0.
Qed.

Lemma lxor_lor_bit (mask : Z) (v : nat) :
  Z.testbit mask (Z.of_nat v) = false -> Z.lxor (Z.lor mask (bit v)) (bit v) = mask.
Proof.
  intros Hv. rewrite <- Z.lxor_lor by (apply land_bit_0; exact Hv).
  rewrite Z.lxor_assoc, Z.lxor_nilpotent, Z.lxor_0_r. reflexivity.
Qed.

Lemma lor_bit_neq (mask : Z) (v : nat) :
  Z.testbit mask (Z.of_nat v) = false -> Z.lor mask (bit v) <> mask.
Proof.
  intros Hv E. pose proof (testbit_lor_bit mask v v) as H.
  rewrite E, Hv, Nat.eqb_refl in H. discriminate.
Qed.

Lemma testbit_lxor_bit (mask : Z) (v x : nat) :
  Z.testbit (Z.lxor mask (bit v)) (Z.of_nat x)
  = xorb (Z.testbit mask (Z.of_nat x)) (v =? x)%nat.
Proof. rewrite Z.lxor_spec, testbit_bit. reflexivity. Qed.

Lemma lxor_bit_sub (mask : Z) (v : nat) :
  Z.testbit mask (Z.of_nat v) = true -> Z.lxor mask (bit v) = (mask - bit v)%Z.
Proof.
  intros Hv.
  assert (Hc : Z.testbit (Z.lxor mask (bit v)) (Z.of_nat v) = false).
  { rewrite testbit_lxor_bit, Hv, Nat.eqb_refl. reflexivity. }
  pose proof (lor_bit_add _ _ Hc) as Hadd.
  rewrite <- Z.lxor_lor in Hadd by (apply land_bit_0; exact Hc).
  rewrite Z.lxor_assoc, Z.lxor_nilpotent, Z.lxor_0_r in Hadd. lia.
Qed.


(** *** The invariant of the table *)

Variable si : nat.

(** Rows exist for masks that hold the start only; the start has no parent
    and its one entry is the initial one; every other entry has a parent
    whose entry, plus the distance between the two, is at most its cost. *)
Record sound (t : Tables) : Prop := {
  s_rows : forall mask, is_Some (dp t !! mask) ->
                        Z.testbit mask (Z.of_nat si) = true /\ (0 <= mask)%Z;
  s_root : forall mask, parent_get t mask (Z.of_nat si) = None;
  s_start : forall mask d, dp_get t mask (Z.of_nat si) = Some d -> mask = bit si /\ d = 0%Q;
  s_step : forall mask v d,
      v <> si -> dp_get t mask (Z.of_nat v) = Some d ->
      Z.testbit mask (Z.of_nat v) = true
      /\ exists u du e,
          u < n /\ parent_get t mask (Z.of_nat v) = Some u
          /\ dp_get t (Z.lxor mask (bit v)) (Z.of_nat u) = Some du
          /\ mat_get dist u v = Fin e /\ (du + e <= d)%Q
}.

Lemma dp_get_row (t : Tables) (mask x : Z) (d : Q) :
  dp_get t mask x = Some d -> is_Some (dp t !! mask).
Proof. unfold dp_get. destruct (dp t !! mask); [eauto | discriminate]. Qed.

Lemma sound_unchanged (t t' : Tables) (mask : Z) (v : nat) :
  sound t -> Z.testbit mask (Z.of_nat si) = true -> (0 <= mask)%Z ->
  unchanged t t' (Z.lor mask (bit v)) -> sound t'.
Proof.
  intros Hs Hsi Hpos (Hdp & Hpar & Hrows). constructor.
  - intros m Hm. destruct (Hrows m Hm) as [-> | Hold]; [|exact (s_rows _ Hs m Hold)].
    split; [rewrite testbit_lor_bit, Hsi; reflexivity|].
    apply Z.lor_nonneg. split; [exact Hpos | apply Z.lt_le_incl, bit_positive].
  - intros m. rewrite Hpar. apply (s_root _ Hs).
  - intros m d. rewrite Hdp. apply (s_start _ Hs).
  - intros m x d Hx. rewrite Hdp. intros Hd.
    destruct (s_step _ Hs m x d Hx Hd) as (Hbit & u & du & e & Hu & Hp & Hdu & He & Hle).
    split; [exact Hbit|]. exists u, du, e. rewrite Hpar, Hdp. auto.
Qed.

Lemma sound_updated (t t' : Tables) (mask : Z) (u v : nat) (cu d : Q) :
  sound t -> Z.testbit mask (Z.of_nat si) = true -> (0 <= mask)%Z -> u < n ->
  Z.testbit mask (Z.of_nat v) = false ->
  mat_get dist u v = Fin d -> dp_get t mask (Z.of_nat u) = Some cu ->
  match dp_get t (Z.lor mask (bit v)) (Z.of_nat v) with
  | None => True
  | Some old => (cu + d < old)%Q
  end ->
  updated t t' (Z.lor mask (bit v)) v u (cu + d)%Q -> sound t'.
Proof.
  intros Hs Hsi Hpos Hu Hv Hd Hcu Hbetter (Hdp & Hpar & Hrows).
  assert (Hvsi : v <> si) by (intros ->; congruence).
  assert (Hkey : forall m, (Z.lor mask (bit v), Z.of_nat v) <> (m, Z.of_nat si)).
  { intros m E. inversion E. lia. }
  constructor.
  - intros m Hm. destruct (Hrows m Hm) as [-> | Hold]; [|exact (s_rows _ Hs m Hold)].
    split; [rewrite testbit_lor_bit, Hsi; reflexivity|].
    apply Z.lor_nonneg. split; [exact Hpos | apply Z.lt_le_incl, bit_positive].
  - intros m. rewrite Hpar. rewrite decide_False by apply Hkey. apply (s_root _ Hs).
  - intros m d0. rewrite Hdp. rewrite decide_False by apply Hkey. apply (s_start _ Hs).
  - intros m x d0 Hx. rewrite Hdp.
    destruct (decide ((Z.lor mask (bit v), Z.of_nat v) = (m, Z.of_nat x))) as [E | E].
    + injection E as Em Ex. apply Nat2Z.inj in Ex. subst x m. intros [= <-].
      split; [rewrite testbit_lor_bit, Nat.eqb_refl; apply orb_true_r|].
      exists u, cu, d. split; [exact Hu|]. split.
      * rewrite Hpar. rewrite decide_True by reflexivity. reflexivity.
      * split; [|split; [exact Hd | apply Qle_refl]].
        rewrite lxor_lor_bit by exact Hv. rewrite Hdp.
        rewrite decide_False; [exact Hcu|].
        intros E'. injection E' as Em' _. exact (lor_bit_neq _ _ Hv Em').
    + intros Hd0.
      destruct (s_step _ Hs m x d0 Hx Hd0) as (Hbit & u0 & du0 & e0 & Hu0 & Hp0 & Hdu0 & He0 & Hle).
      split; [exact Hbit|].
      destruct (decide ((Z.lor mask (bit v), Z.of_nat v) = (Z.lxor m (bit x), Z.of_nat u0)))
        as [E2 | E2].
      * exists u0, (cu + d)%Q, e0. split; [exact Hu0|]. split.
        { rewrite Hpar. rewrite decide_False by exact E. exact Hp0. }
        split; [rewrite Hdp; rewrite decide_True by exact E2; reflexivity|].
        split; [exact He0|].
        injection E2 as Em Ex. rewrite Em, Ex, Hdu0 in Hbetter. lra.
      * exists u0, du0, e0. split; [exact Hu0|]. split.
        { rewrite Hpar. rewrite decide_False by exact E. exact Hp0. }
        split; [rewrite Hdp; rewrite decide_False by exact E2; exact Hdu0|].
        split; [exact He0 | exact Hle].
Qed.

Lemma sound_relax (mask : Z) (u : nat) (t : Tables) (v : nat) :
  sound t -> Z.testbit mask (Z.of_nat si) = true -> (0 <= mask)%Z -> u < n ->
  sound (relax dist mask u t v).
Proof.
  intros Hs Hsi Hpos Hu.
  destruct (relax_cases mask u t v) as [[-> _] | (Hv & d & cu & Hd & Hcu & [[Hb Hup] | (old & _ & _ & Hun)])].
  - exact Hs.
  - exact (sound_updated _ _ _ _ _ _ _ Hs Hsi Hpos Hu Hv Hd Hcu Hb Hup).
  - exact (sound_unchanged _ _ _ _ Hs Hsi Hpos Hun).
Qed.

(** *** Entries only go down *)

Definition entry_le (t : Tables) (mask : Z) (x : nat) (c : Q) : Prop :=
  exists d, dp_get t mask (Z.of_nat x) = Some d /\ (d <= c)%Q.

Definition mono (t t' : Tables) : Prop :=
  forall mask x c, entry_le t mask x c -> entry_le t' mask x c.

Lemma mono_refl (t : Tables) : mono t t.
Proof. intros mask x c H. exact H. Qed.

Lemma mono_trans (t1 t2 t3 : Tables) : mono t1 t2 -> mono t2 t3 -> mono t1 t3.
Proof. intros H12 H23 mask x c H. apply H23, H12, H. Qed.

Lemma entry_le_weaken (t : Tables) (mask : Z) (x : nat) (c c' : Q) :
  entry_le t mask x c -> (c <= c')%Q -> entry_le t mask x c'.
Proof. intros (d & Hd & Hle) Hc. exists d. split; [exact Hd | lra]. Qed.

Lemma mono_relax (mask : Z) (u : nat) (t : Tables) (v : nat) :
  mono t (relax dist mask u t v).
Proof.
  destruct (relax_cases mask u t v)
    as [[-> _] | (Hv & d & cu & Hd & Hcu & [[Hb (Hdp & _)] | (old & _ & _ & (Hdp & _))])].
  - apply mono_refl.
  - intros m x c (d0 & Hd0 & Hle). unfold entry_le. rewrite Hdp.
    destruct (decide ((Z.lor mask (bit v), Z.of_nat v) = (m, Z.of_nat x))) as [E | E].
    + exists (cu + d)%Q. split; [reflexivity|].
      injection E as Em Ex. rewrite Em, Ex, Hd0 in Hb. lra.
    + exists d0. auto.
  - intros m x c (d0 & Hd0 & Hle). exists d0. rewrite Hdp. auto.
Qed.

(** The turn for [v] leaves at [(mask | 1 << v, v)] at most the cost of
    [(mask, u)] plus the distance from [u] to [v]. *)
Lemma relax_hit (mask : Z) (u : nat) (t : Tables) (v : nat) (c d : Q) :
  entry_le t mask u c -> Z.testbit mask (Z.of_nat v) = false -> mat_get dist u v = Fin d ->
  entry_le (relax dist mask u t v) (Z.lor mask (bit v)) v (c + d)%Q.
Proof.
  intros (cu & Hcu & Hle) Hv Hd.
  destruct (relax_cases mask u t v)
    as [[_ [H | [H | H]]] | (_ & d' & cu' & Hd' & Hcu' & [[Hb (Hdp & _)] | (old & Hold & Hle' & (Hdp & _))])];
    try congruence.
  - rewrite Hd in Hd'. injection Hd' as <-. rewrite Hcu in Hcu'. injection Hcu' as <-.
    exists (cu + d)%Q. rewrite Hdp. rewrite decide_True by reflexivity. split; [reflexivity | lra].
  - rewrite Hd in Hd'. injection Hd' as <-. rewrite Hcu in Hcu'. injection Hcu' as <-.
    exists old. rewrite Hdp. split; [exact Hold | lra].
Qed.


(** *** The three loops *)

Lemma fold_mono {A : Type} (f : Tables -> A -> Tables) :
  (forall t x, mono t (f t x)) -> forall l t, mono t (fold_left f l t).
Proof.
  intros Hf. induction l as [|x l IH]; intros t; cbn [fold_left]; [apply mono_refl|].
  apply (mono_trans _ (f t x)); [apply Hf | apply IH].
Qed.

Lemma fold_hit {A : Type} (f : Tables -> A -> Tables) (x0 : A)
      (m1 : Z) (x1 : nat) (c1 : Q) (m2 : Z) (x2 : nat) (c2 : Q) :
  (forall t x, mono t (f t x)) ->
  (forall t, entry_le t m1 x1 c1 -> entry_le (f t x0) m2 x2 c2) ->
  forall l, In x0 l ->
            forall t, entry_le t m1 x1 c1 -> entry_le (fold_left f l t) m2 x2 c2.
Proof.
  intros Hf Hhit. induction l as [|x l IH]; intros Hin t Ht; [destruct Hin|].
  cbn [fold_left]. destruct Hin as [-> | Hin].
  - apply (fold_mono f Hf l). apply Hhit. exact Ht.
  - apply IH; [exact Hin|]. apply (Hf t x). exact Ht.
Qed.

Lemma fold_sound {A : Type} (f : Tables -> A -> Tables) (ok : A -> Prop) :
  (forall t x, ok x -> sound t -> sound (f t x)) ->
  forall l, Forall ok l -> forall t, sound t -> sound (fold_left f l t).
Proof.
  intros Hf. induction l as [|x l IH]; intros Hl t Ht; cbn [fold_left]; [exact Ht|].
  inversion Hl; subst. apply IH; [assumption|]. apply Hf; assumption.
Qed.

Lemma seq_below (len : nat) : Forall (fun x => x < len) (seq 0 len).
Proof. apply Forall_forall. intros x Hx. apply in_seq in Hx. lia. Qed.

Lemma mono_relaxFrom (mask : Z) (t : Tables) (u : nat) : mono t (relaxFrom dist n mask t u).
Proof.
  unfold relaxFrom. destruct (negb (Z.testbit mask (Z.of_nat u))); [apply mono_refl|].
  destruct (dp_get t mask (Z.of_nat u)); [|apply mono_refl].
  apply fold_mono. intros t' v. apply mono_relax.
Qed.

Lemma sound_relaxFrom (mask : Z) (t : Tables) (u : nat) :
  Z.testbit mask (Z.of_nat si) = true -> (0 <= mask)%Z -> u < n ->
  sound t -> sound (relaxFrom dist n mask t u).
Proof.
  intros Hsi Hpos Hu Ht. unfold relaxFrom.
  destruct (negb (Z.testbit mask (Z.of_nat u))); [exact Ht|].
  destruct (dp_get t mask (Z.of_nat u)); [|exact Ht].
  apply (fold_sound _ (fun _ => True)); [| apply Forall_forall; auto | exact Ht].
  intros t' v _ Ht'. apply sound_relax; assumption.
Qed.

Lemma relaxFrom_hit (mask : Z) (t : Tables) (u v : nat) (c d : Q) :
  entry_le t mask u c -> Z.testbit mask (Z.of_nat u) = true ->
  v < n -> Z.testbit mask (Z.of_nat v) = false -> mat_get dist u v = Fin d ->
  entry_le (relaxFrom dist n mask t u) (Z.lor mask (bit v)) v (c + d)%Q.
Proof.
  intros Hc Hu Hv Hbit Hd. unfold relaxFrom. rewrite Hu. cbn [negb].
  destruct Hc as (cu & Hcu & Hle). rewrite Hcu.
  apply (fold_hit (relax dist mask u) v mask u c).
  - intros t' x. apply mono_relax.
  - intros t' Ht'. apply relax_hit; assumption.
  - apply in_seq. lia.
  - exists cu. auto.
Qed.

Lemma mono_fillMask (t : Tables) (mask : nat) : mono t (fillMask dist n t mask).
Proof.
  unfold fillMask. destruct (dp t !! Z.of_nat mask); [|apply mono_refl].
  apply fold_mono. intros t' u. apply mono_relaxFrom.
Qed.

Lemma sound_fillMask (t : Tables) (mask : nat) : sound t -> sound (fillMask dist n t mask).
Proof.
  intros Ht. unfold fillMask. destruct (dp t !! Z.of_nat mask) as [row|] eqn:Hrow; [|exact Ht].
  destruct (s_rows _ Ht (Z.of_nat mask)) as [Hsi Hpos]; [rewrite Hrow; eauto|].
  apply (fold_sound _ (fun u => u < n)); [| apply seq_below | exact Ht].
  intros t' u Hu Ht'. apply sound_relaxFrom; assumption.
Qed.

Lemma fillMask_hit (t : Tables) (mask u v : nat) (c d : Q) :
  entry_le t (Z.of_nat mask) u c -> u < n -> Z.testbit (Z.of_nat mask) (Z.of_nat u) = true ->
  v < n -> Z.testbit (Z.of_nat mask) (Z.of_nat v) = false -> mat_get dist u v = Fin d ->
  entry_le (fillMask dist n t mask) (Z.lor (Z.of_nat mask) (bit v)) v (c + d)%Q.
Proof.
  intros Hc Hu Hbu Hv Hbv Hd. unfold fillMask.
  destruct (dp t !! Z.of_nat mask) as [row|] eqn:Hrow.
  - apply (fold_hit (relaxFrom dist n (Z.of_nat mask)) u (Z.of_nat mask) u c).
    + intros t' x. apply mono_relaxFrom.
    + intros t' Ht'. apply relaxFrom_hit; assumption.
    + apply in_seq. lia.
    + exact Hc.
  - destruct Hc as (cu & Hcu & _). apply dp_get_row in Hcu. rewrite Hrow in Hcu.
    destruct Hcu as [? ?]. discriminate.
Qed.

Lemma sound_fillTable (t : Tables) : sound t -> sound (fillTable dist n t).
Proof.
  intros Ht. unfold fillTable.
  apply (fold_sound _ (fun _ => True)); [| apply Forall_forall; auto | exact Ht].
  intros t' m _. apply sound_fillMask.
Qed.


(** *** Along a tour *)

Section Tour.
(** The indices of a tour, in the order of the visit; [cost k] bounds the
    distance of its first [k] nodes. *)
Variable Ti : list nat.
Variable cost : nat -> Q.
Hypothesis Ti_nodup : NoDup Ti.
Hypothesis Ti_below : forall x, In x Ti -> x < n.
Hypothesis Ti_length : length Ti = n.
Hypothesis Ti_head : nth 0 Ti 0 = si.
Hypothesis cost_first : (0 <= cost 1)%Q.
Hypothesis cost_next :
  forall k, 1 <= k < n ->
            exists e, mat_get dist (nth (k - 1) Ti 0) (nth k Ti 0) = Fin e
                      /\ (cost k + e <= cost (S k))%Q.

(** The mask of the first [k] nodes. *)
Definition pm (k : nat) : Z := fold_left (fun m i => Z.lor m (bit i)) (firstn k Ti) 0%Z.

Lemma testbit_masks (l : list nat) :
  forall m0 i, (0 <= i)%Z ->
               Z.testbit (fold_left (fun m x => Z.lor m (bit x)) l m0) i
               = Z.testbit m0 i || existsb (fun x => (Z.of_nat x =? i)%Z) l.
Proof.
  induction l as [|x l IH]; intros m0 i Hi; cbn [fold_left existsb].
  - rewrite orb_false_r. reflexivity.
  - rewrite IH by exact Hi. rewrite Z.lor_spec, testbit_bit_Z by exact Hi.
    rewrite orb_assoc. reflexivity.
Qed.

Lemma testbit_pm (k x : nat) :
  Z.testbit (pm k) (Z.of_nat x) = true <-> In x (firstn k Ti).
Proof.
  unfold pm. rewrite testbit_masks by lia. rewrite Z.bits_0. cbn [orb].
  rewrite existsb_exists. split.
  - intros (y & Hy & E). apply Z.eqb_eq in E. apply Nat2Z.inj in E. subst. exact Hy.
  - intros H. exists x. split; [exact H | apply Z.eqb_refl].
Qed.

Lemma pm_S (k : nat) : k < n -> pm (S k) = Z.lor (pm k) (bit (nth k Ti 0)).
Proof.
  intros Hk. unfold pm. rewrite (firstn_S_snoc 0) by (rewrite Ti_length; exact Hk).
  rewrite fold_left_app. reflexivity.
Qed.

Lemma pm_fresh (k : nat) : k < n -> Z.testbit (pm k) (Z.of_nat (nth k Ti 0)) = false.
Proof.
  intros Hk. destruct (Z.testbit (pm k) (Z.of_nat (nth k Ti 0))) eqn:E; [|reflexivity].
  apply testbit_pm in E. exfalso. revert E.
  apply NoDup_nth_not_firstn; [exact Ti_nodup | rewrite Ti_length; exact Hk].
Qed.

Lemma pm_last (k : nat) : 1 <= k <= n -> Z.testbit (pm k) (Z.of_nat (nth (k - 1) Ti 0)) = true.
Proof.
  intros Hk. apply testbit_pm. destruct k as [|k]; [lia|].
  replace (S k - 1) with k by lia.
  rewrite (firstn_S_snoc 0) by (rewrite Ti_length; lia).
  apply in_app_iff. right. left. reflexivity.
Qed.

Lemma pm_lt (k : nat) : k < n -> (pm k < pm (S k))%Z.
Proof.
  intros Hk. rewrite pm_S by exact Hk. rewrite lor_bit_add by (apply pm_fresh; exact Hk).
  pose proof (bit_positive (nth k Ti 0)). lia.
Qed.

Lemma pm_le (k k' : nat) : k <= k' -> k' <= n -> (pm k <= pm k')%Z.
Proof.
  induction 1 as [|k' Hle IH]; intros Hn; [lia|].
  pose proof (pm_lt k'). lia.
Qed.

Lemma pm_1 : 1 <= n -> pm 1 = bit si.
Proof.
  intros Hn. rewrite pm_S by lia. rewrite Ti_head. reflexivity.
Qed.

Lemma Ti_all (x : nat) : x < n -> In x Ti.
Proof.
  intros Hx. apply (NoDup_length_incl (l := Ti) (l' := seq 0 n)).
  - exact Ti_nodup.
  - rewrite length_seq, Ti_length. lia.
  - intros y Hy. apply in_seq. pose proof (Ti_below y Hy). lia.
  - apply in_seq. lia.
Qed.

Lemma pm_full : pm n = (Z.shiftl 1 (Z.of_nat n) - 1)%Z.
Proof.
  replace (Z.shiftl 1 (Z.of_nat n) - 1)%Z with (Z.ones (Z.of_nat n)) by (unfold Z.ones; lia).
  apply Z.bits_inj'. intros i Hi. unfold pm.
  rewrite testbit_masks by exact Hi. rewrite Z.bits_0. cbn [orb].
  rewrite <- Ti_length at 1. rewrite firstn_all.
  destruct (Z.ltb_spec i (Z.of_nat n)) as [Hlt | Hge].
  - rewrite Z.ones_spec_low by lia. apply existsb_exists.
    exists (Z.to_nat i). split; [apply Ti_all; lia | apply Z.eqb_eq; lia].
  - rewrite Z.ones_spec_high by lia.
    destruct (existsb (fun x => (Z.of_nat x =? i)%Z) Ti) eqn:E; [|reflexivity].
    apply existsb_exists in E. destruct E as (x & Hx & E). apply Z.eqb_eq in E.
    pose proof (Ti_below x Hx). lia.
Qed.

(** After the turns of the masks up to [len], the entry of every prefix of the
    tour whose predecessor has been processed is at most the cost of the prefix. *)
Lemma fillTable_tour (t0 : Tables) :
  entry_le t0 (pm 1) si 0%Q ->
  forall len k,
    1 <= k < n -> (pm k <= Z.of_nat len)%Z ->
    entry_le (fold_left (fillMask dist n) (seq 1 len) t0) (pm (S k)) (nth k Ti 0) (cost (S k)).
Proof.
  intros H0. induction len as [|len IH]; intros k Hk Hpm.
  - pose proof (pm_le 1 k) as H1. rewrite pm_1 in H1 by lia. pose proof (bit_positive si). lia.
  - rewrite seq_S, fold_left_app. cbn [fold_left]. change (1 + len) with (S len).
    set (t' := fold_left (fillMask dist n) (seq 1 len) t0) in *.
    destruct (Z.le_gt_cases (pm k) (Z.of_nat len)) as [Hle | Hgt].
    { apply (mono_fillMask t' (S len)). apply IH; assumption. }
    assert (Hmask : Z.of_nat (S len) = pm k) by lia.
    assert (Hprev : entry_le t' (pm k) (nth (k - 1) Ti 0) (cost k)).
    { destruct (Nat.eq_dec k 1) as [-> | Hk1].
      - cbn [Nat.sub]. rewrite Ti_head.
        apply (fold_mono (fillMask dist n)); [intros; apply mono_fillMask|].
        apply entry_le_weaken with 0%Q; [exact H0 | exact cost_first].
      - replace k with (S (k - 1)) at 1 3 by lia. apply IH; [lia|].
        pose proof (pm_lt (k - 1)). replace (S (k - 1)) with k in H by lia. lia. }
    destruct (cost_next k Hk) as (e & He & Hce).
    rewrite pm_S by lia. rewrite <- Hmask.
    apply entry_le_weaken with (cost k + e)%Q; [|exact Hce].
    apply (fillMask_hit t' (S len) (nth (k - 1) Ti 0) (nth k Ti 0) (cost k) e).
    + rewrite Hmask. exact Hprev.
    + apply Ti_below. apply nth_In. rewrite Ti_length. lia.
    + rewrite Hmask. apply pm_last. lia.
    + apply Ti_below. apply nth_In. rewrite Ti_length. lia.
    + rewrite Hmask. apply pm_fresh. lia.
    + exact He.
Qed.

(** In the filled table the entry of the whole tour is at most its cost. *)
Lemma fillTable_full (t0 : Tables) :
  2 <= n -> entry_le t0 (pm 1) si 0%Q ->
  entry_le (fillTable dist n t0) (Z.shiftl 1 (Z.of_nat n) - 1) (nth (n - 1) Ti 0) (cost n).
Proof.
  intros Hn H0. unfold fillTable. rewrite <- pm_full.
  pose proof (fillTable_tour t0 H0 (2 ^ n - 1) (n - 1)) as H.
  replace (S (n - 1)) with n in H by lia. apply H; [lia|]. clear H.
  pose proof (pm_lt (n - 1)) as Hlt. replace (S (n - 1)) with n in Hlt by lia.
  rewrite pm_full in Hlt. rewrite Z.shiftl_1_l in Hlt.
  rewrite Nat2Z.inj_sub by (apply Nat.pow_lower_bound; lia).
  rewrite Nat2Z.inj_pow. simpl Z.of_nat at 2 3. lia.
Qed.

End Tour.

(** *** The best return to the start *)

(** The state of the search: no last city and [Infinity], or a last city
    with its cost plus the distance back as the minimum. *)
Definition last_ok (t : Tables) (st : num * option nat) : Prop :=
  match snd st with
  | None => fst st = Infinity
  | Some l =>
      l < n /\ l <> si
      /\ exists c e, dp_get t (Z.shiftl 1 (Z.of_nat n) - 1) (Z.of_nat l) = Some c
                     /\ mat_get dist l si = Fin e /\ fst st = Fin (c + e)%Q
  end.

Lemma bestLast_spec (t : Tables) :
  last_ok t (bestLast dist n (Some si) t)
  /\ forall i c e,
      i < n -> i <> si ->
      dp_get t (Z.shiftl 1 (Z.of_nat n) - 1) (Z.of_nat i) = Some c ->
      mat_get dist i si = Fin e ->
      num_le (fst (bestLast dist n (Some si) t)) (Fin (c + e)%Q).
Proof.
  unfold bestLast. set (fullMask := (Z.shiftl 1 (Z.of_nat n) - 1)%Z).
  destruct (dp t !! fullMask) as [row|] eqn:Hrow.
  - set (step := fun (st : num * option nat) (i : nat) =>
                   if (i =? si)%nat then st
                   else match row !! Z.of_nat i with
                        | Some c =>
                            if num_ltb (num_add (Fin c) (mat_get dist i si)) (fst st)
                            then (num_add (Fin c) (mat_get dist i si), Some i) else st
                        | None => st
                        end).
    assert (Hget : forall i, dp_get t fullMask (Z.of_nat i) = row !! Z.of_nat i).
    { intros i. unfold dp_get. rewrite Hrow. reflexivity. }
    assert (H : forall l st,
               Forall (fun i => i < n) l -> last_ok t st ->
               last_ok t (fold_left step l st)
               /\ num_le (fst (fold_left step l st)) (fst st)
               /\ forall i c e, In i l -> i <> si -> row !! Z.of_nat i = Some c ->
                                mat_get dist i si = Fin e ->
                                num_le (fst (fold_left step l st)) (Fin (c + e)%Q)).
    { induction l as [|x l IH]; intros st Hl Hst; cbn [fold_left].
      - split; [exact Hst|]. split; [apply num_le_refl|]. intros i c e [].
      - inversion Hl as [|? ? Hx Hl']; subst.
        assert (Hstep : last_ok t (step st x) /\ num_le (fst (step st x)) (fst st)
                        /\ forall c e, x <> si -> row !! Z.of_nat x = Some c ->
                                       mat_get dist x si = Fin e ->
                                       num_le (fst (step st x)) (Fin (c + e)%Q)).
        { unfold step. destruct (Nat.eqb_spec x si) as [E | E].
          - split; [exact Hst|]. split; [apply num_le_refl|]. intros; contradiction.
          - destruct (row !! Z.of_nat x) as [c|] eqn:Hc.
            + destruct (num_ltb (num_add (Fin c) (mat_get dist x si)) (fst st)) eqn:Hlt.
              * split; [|split].
                -- unfold last_ok. cbn [fst snd].
                   destruct (mat_get dist x si) as [e|] eqn:He; [|discriminate Hlt].
                   split; [exact Hx|]. split; [exact E|]. exists c, e.
                   fold fullMask. rewrite Hget. auto.
                -- cbn [fst]. apply num_ltb_le. exact Hlt.
                -- intros c' e' _ [= <-] He. rewrite He. cbn [fst num_add]. apply num_le_refl.
              * split; [exact Hst|]. split; [apply num_le_refl|].
                intros c' e' _ [= <-] He. rewrite He in Hlt. exact Hlt.
            + split; [exact Hst|]. split; [apply num_le_refl|]. intros; discriminate. }
        destruct Hstep as (Hok & Hle & Hx').
        destruct (IH (step st x) Hl' Hok) as (Hok' & Hle' & Hrest).
        split; [exact Hok'|]. split; [exact (num_le_trans _ _ _ Hle' Hle)|].
        intros i c e [<- | Hi] Hne Hc He.
        + apply (num_le_trans _ _ _ Hle'). apply Hx'; assumption.
        + apply (Hrest i c e); assumption. }
    destruct (H (seq 0 n) (Infinity, None) (seq_below n)) as (Hok & _ & Hall); [reflexivity|].
    split; [exact Hok|]. intros i c e Hi Hne Hc He. rewrite Hget in Hc.
    apply (Hall i c e); [apply in_seq; lia | assumption..].
  - split; [reflexivity|]. intros i c e _ _ Hc. unfold dp_get in Hc. rewrite Hrow in Hc.
    discriminate.
Qed.

End Table.

(** *** The reconstruction of the path *)

Section Reconstruction.
Variable graph : RouteGraph.
Hypothesis Hvalid : valid_graph graph.

Let keys := Object_keys (nodes graph).
Let n := length keys.
Let dist := buildDist keys (edges graph).
Let key (i : nat) : string := nth i keys "".

Variable si : nat.
Hypothesis Hsi : si < n.

(** The walk along the parents from an entry down to the start: the
    indices from the start to the entry. *)
Inductive chain (t : Tables) : Z -> nat -> list nat -> Prop :=
| chain_start : chain t (bit si) si [si]
| chain_step (mask : Z) (v u : nat) (p : list nat) :
    v <> si -> parent_get t mask (Z.of_nat v) = Some u -> (0 < mask)%Z ->
    chain t (Z.lxor mask (bit v)) u p -> chain t mask v (p ++ [v]).

Lemma chain_head (t : Tables) (mask : Z) (v : nat) (p : list nat) :
  chain t mask v p -> exists p', p = si :: p'.
Proof.
  induction 1 as [| mask v u p _ _ _ _ [p' ->]]; [exists []; reflexivity|].
  exists (p' ++ [v]). reflexivity.
Qed.

Lemma dist_edge (u v : nat) (e : Q) :
  u < n -> v < n -> mat_get dist u v = Fin e ->
  exists edge, find_edge graph (key u) (key v) = Some edge /\ distance edge = e.
Proof.
  intros Hu Hv Hd. unfold dist in Hd. rewrite (dist_spec graph Hvalid) in Hd by assumption.
  fold keys in Hd. fold (key u) (key v) in Hd.
  destruct (find_edge graph (key u) (key v)) as [edge|]; [|discriminate].
  exists edge. split; [reflexivity|]. congruence.
Qed.

Lemma last_map_key (p : list nat) :
  p <> [] -> List.last (map key p) "" = key (List.last p 0).
Proof.
  induction p as [|a p IH]; intros Hne; [congruence|].
  destruct p as [|b p]; [reflexivity|].
  change (List.last (map key (a :: b :: p)) "") with (List.last (map key (b :: p)) "").
  change (List.last (a :: b :: p) 0) with (List.last (b :: p) 0).
  apply IH. discriminate.
Qed.

(** Every entry of a sound table has its walk, of distance at most the entry. *)
Lemma chain_exists (t : Tables) :
  sound dist n si t ->
  forall k mask v d,
    Z.to_nat mask <= k -> v < n -> dp_get t mask (Z.of_nat v) = Some d ->
    exists p, chain t mask v p
              /\ List.last p 0 = v
              /\ (forall x, In x p -> x < n /\ Z.testbit mask (Z.of_nat x) = true)
              /\ NoDup p
              /\ (tourDistance graph (map key p) <= d)%Q.
Proof.
  intros Hs. induction k as [|k IH]; intros mask v d Hk Hv Hd.
  - (* the mask is not positive: no entry *)
    exfalso. destruct (s_rows _ _ _ _ Hs mask (dp_get_row _ _ _ _ Hd)) as [Hbit Hpos].
    assert (mask = 0%Z) by lia. subst. rewrite Z.bits_0 in Hbit. discriminate.
  - destruct (Nat.eq_dec v si) as [-> | Hne].
    + destruct (s_start _ _ _ _ Hs mask d Hd) as [-> ->].
      exists [si]. split; [constructor|]. split; [reflexivity|]. split.
      * intros x [<- | []]. split; [exact Hsi|]. rewrite testbit_bit. apply Nat.eqb_refl.
      * split; [constructor; [intros [] | constructor]|]. simpl. apply Qle_refl.
    + destruct (s_step _ _ _ _ Hs mask v d Hne Hd)
        as (Hbit & u & du & e & Hu & Hp & Hdu & He & Hle).
      destruct (s_rows _ _ _ _ Hs _ (dp_get_row _ _ _ _ Hdu)) as [_ Hpos'].
      pose proof (lxor_bit_sub mask v Hbit) as Hsub. pose proof (bit_positive v) as Hbv.
      destruct (IH (Z.lxor mask (bit v)) u du) as (p & Hc & Hlast & Hin & Hnd & Hcost);
        [lia | exact Hu | exact Hdu |].
      destruct (chain_head _ _ _ _ Hc) as [p' Hp'].
      assert (Hfresh : ~ In v p).
      { intros Hv'. destruct (Hin v Hv') as [_ Hb].
        rewrite testbit_lxor_bit, Hbit, Nat.eqb_refl in Hb. discriminate. }
      exists (p ++ [v]). split; [apply chain_step with u; [assumption | assumption | lia | assumption]|].
      split; [apply last_last|]. split; [|split].
      * intros x Hx. apply in_app_iff in Hx. destruct Hx as [Hx | [<- | []]]; [|auto].
        destruct (Hin x Hx) as [Hxn Hb]. split; [exact Hxn|].
        rewrite testbit_lxor_bit in Hb.
        destruct (Nat.eqb_spec v x) as [<- | _]; [contradiction|].
        rewrite xorb_false_r in Hb. exact Hb.
      * apply NoDup_snoc; assumption.
      * destruct (dist_edge u v e Hu Hv He) as (edge & Hedge & Hdist).
        rewrite map_app. cbn [map].
        rewrite (tourDistance_snoc graph (map key p) (key v) edge).
        -- rewrite Hdist. lra.
        -- rewrite Hp'. discriminate.
        -- rewrite last_map_key by (rewrite Hp'; discriminate). rewrite Hlast. exact Hedge.
Qed.

(** The loop of the reconstruction follows the walk, with a turn of fuel for
    each of its steps. *)
Lemma chain_run (t : Tables) (mask : Z) (v : nat) (p : list nat) :
  chain t mask v p -> parent_get t (bit si) (Z.of_nat si) = None ->
  forall fuel acc,
    length p <= S fuel ->
    reconstruct fuel keys t acc mask v = (map key (tl p) ++ acc, bit si).
Proof.
  intros Hc Hroot. induction Hc as [| mask v u p Hne Hp Hpos Hc IH]; intros fuel acc Hlen.
  - destruct fuel as [|fuel]; [reflexivity|]. cbn [reconstruct].
    rewrite Hroot. destruct (0 <? bit si)%Z; reflexivity.
  - destruct (chain_head _ _ _ _ Hc) as [p' Hp']. rewrite length_app in Hlen. cbn [length] in Hlen.
    destruct fuel as [|fuel]; [rewrite Hp' in Hlen; simpl in Hlen; lia|].
    cbn [reconstruct]. replace (0 <? mask)%Z with true by (symmetry; apply Z.ltb_lt; exact Hpos).
    rewrite Hp. rewrite IH by lia. rewrite Hp'. cbn [tl app].
    rewrite map_app, <- app_assoc. reflexivity.
Qed.

(** The walk passes through every index of its mask. *)
Lemma chain_covers (t : Tables) (mask : Z) (v : nat) (p : list nat) :
  chain t mask v p -> forall x, Z.testbit mask (Z.of_nat x) = true -> In x p.
Proof.
  induction 1 as [| mask v u p Hne Hp Hpos Hc IH]; intros x Hx.
  - rewrite testbit_bit in Hx. apply Nat.eqb_eq in Hx. left. exact Hx.
  - apply in_app_iff. destruct (Nat.eqb_spec v x) as [-> | Hvx]; [right; left; reflexivity|].
    left. apply IH. rewrite testbit_lxor_bit, Hx.
    replace (v =? x)%nat with false by (symmetry; apply Nat.eqb_neq; exact Hvx).
    reflexivity.
Qed.

End Reconstruction.

(** *** The result *)

Section Optimal.
Variable graph : RouteGraph.
Variable start : string.
Hypothesis Hvalid : valid_graph graph.

Let keys := Object_keys (nodes graph).
Let n := length keys.
Let dist := buildDist keys (edges graph).
Let key (i : nat) : string := nth i keys "".
Let idx (x : string) : nat := default 0 (indexOf keys x).

Variable Tn : list string.
Hypothesis Tperm : Permutation Tn keys.
Hypothesis Thead : exists interior, Tn = start :: interior.
Hypothesis Hsize : 2 <= n.

Lemma key_idx (x : string) : In x keys -> idx x < n /\ key (idx x) = x.
Proof.
  intros Hx. destruct (indexOf_In keys x Hx) as (i & Hi & _). unfold idx. rewrite Hi.
  apply indexOf_Some in Hi. exact Hi.
Qed.

Lemma Tn_keys (x : string) : In x Tn -> In x keys.
Proof. apply Permutation_in. exact Tperm. Qed.

Lemma Tn_length : length Tn = n.
Proof. apply Permutation_length. exact Tperm. Qed.

Lemma Tn_nodup : NoDup Tn.
Proof. apply (Permutation_NoDup (Permutation_sym Tperm)). exact (vg_nodup _ Hvalid). Qed.

Lemma map_key_idx (l : list string) : incl l keys -> map key (map idx l) = l.
Proof.
  induction l as [|x l IH]; intros Hl; [reflexivity|]. cbn [map].
  rewrite (proj2 (key_idx x (Hl x (or_introl eq_refl)))).
  rewrite IH; [reflexivity|]. intros y Hy. apply Hl. right. exact Hy.
Qed.

Lemma nth_idx (k : nat) : k < n -> nth k (map idx Tn) 0 = idx (nth k Tn "").
Proof.
  intros Hk. rewrite (nth_indep _ 0 (idx "")) by (rewrite length_map, Tn_length; exact Hk).
  apply map_nth.
Qed.

Lemma idx_nodup : NoDup (map idx Tn).
Proof.
  apply (NoDup_map_inv key). rewrite map_key_idx; [exact Tn_nodup|].
  intros x. apply Tn_keys.
Qed.

(** The legs of the tour in the matrix of distances. *)
Lemma tour_leg (k : nat) :
  1 <= k < n ->
  exists e, mat_get dist (nth (k - 1) (map idx Tn) 0) (nth k (map idx Tn) 0) = Fin e
            /\ (tourDistance graph (firstn k Tn) + e
                <= tourDistance graph (firstn (S k) Tn))%Q.
Proof.
  intros Hk. rewrite !nth_idx by lia.
  set (a := nth (k - 1) Tn ""). set (b := nth k Tn "").
  assert (Ha : In a Tn) by (apply nth_In; rewrite Tn_length; lia).
  assert (Hb : In b Tn) by (apply nth_In; rewrite Tn_length; lia).
  assert (Hab : a <> b).
  { intros E. apply (proj1 (NoDup_nth Tn "") Tn_nodup) in E; rewrite ?Tn_length; lia. }
  destruct (find_edge_complete graph Hvalid a b (Tn_keys a Ha) (Tn_keys b Hb) Hab) as [edge He].
  destruct (key_idx a (Tn_keys a Ha)) as [Hia Hka].
  destruct (key_idx b (Tn_keys b Hb)) as [Hib Hkb].
  exists (distance edge). split.
  - unfold dist. rewrite (dist_spec graph Hvalid) by assumption.
    fold keys. fold (key (idx a)) (key (idx b)). rewrite Hka, Hkb, He. reflexivity.
  - rewrite (firstn_S_snoc "" k) by (rewrite Tn_length; lia). fold b.
    rewrite (tourDistance_snoc graph (firstn k Tn) b edge).
    + apply Qle_refl.
    + destruct Thead as [interior ->]. destruct k; [lia | discriminate].
    + replace k with (S (k - 1)) by lia. rewrite last_firstn_nth by (rewrite Tn_length; lia).
      exact He.
Qed.


Lemma sound_initial (si : nat) :
  sound dist n si {| dp := {[ bit si := {[ Z.of_nat si := 0%Q ]} ]}; parent := ∅ |}.
Proof.
  assert (Hget : forall m x d,
             dp_get {| dp := {[ bit si := {[ Z.of_nat si := 0%Q ]} ]}; parent := ∅ |} m x = Some d
             -> m = bit si /\ x = Z.of_nat si /\ d = 0%Q).
  { intros m x d. unfold dp_get. cbn [dp]. rewrite lookup_singleton.
    destruct (decide (bit si = m)) as [<- | _]; [|discriminate].
    rewrite lookup_singleton. destruct (decide (Z.of_nat si = x)) as [<- | _]; [|discriminate].
    intros [= <-]. auto. }
  constructor.
  - intros m [row Hrow]. cbn [dp] in Hrow. rewrite lookup_singleton in Hrow.
    destruct (decide (bit si = m)) as [<- | _]; [|discriminate].
    split; [rewrite testbit_bit; apply Nat.eqb_refl | apply Z.lt_le_incl, bit_positive].
  - intros m. unfold parent_get. cbn [parent]. rewrite lookup_empty. reflexivity.
  - intros m d Hd. apply Hget in Hd. tauto.
  - intros m v d Hv Hd. apply Hget in Hd. destruct Hd as (_ & E & _). lia.
Qed.

(** With at most twelve nodes, the path of the table is at most as long as the
    tour [Tn]. *)
Lemma dynamicProgrammingTSP_not_longer :
  n <= 12 ->
  (tourDistance graph (dynamicProgrammingTSP graph start)
   <= tourDistance graph (Tn ++ [start]))%Q.
Proof.
  intros Hn. unfold dynamicProgrammingTSP. fold keys. fold n.
  replace (12 <? n)%nat with false by (symmetry; apply Nat.ltb_ge; exact Hn).
  destruct Thead as [interior Hint].
  assert (Hstart : In start keys) by (apply Tn_keys; rewrite Hint; left; reflexivity).
  destruct (indexOf_In keys start Hstart) as (si & Hsi & Hlt). rewrite Hsi.
  change (default 0 (Some si)) with si. cbv beta iota zeta.
  pose proof (indexOf_Some _ _ _ Hsi) as [_ Hkey]. fold n in Hlt. fold dist.
  set (t0 := {| dp := {[ bit si := {[ Z.of_nat si := 0%Q ]} ]}; parent := ∅ |}).
  set (t := fillTable dist n t0).
  assert (Hsound : sound dist n si t) by (apply sound_fillTable, sound_initial).
  assert (Hidx0 : idx start = si) by (unfold idx; rewrite Hsi; reflexivity).
  (* the entry of the whole tour *)
  assert (Hfull : entry_le t (Z.shiftl 1 (Z.of_nat n) - 1) (nth (n - 1) (map idx Tn) 0)
                           (tourDistance graph (firstn n Tn))).
  { apply (fillTable_full dist n si (map idx Tn) (fun k => tourDistance graph (firstn k Tn))).
    - exact idx_nodup.
    - intros x Hx. apply in_map_iff in Hx. destruct Hx as (y & <- & Hy).
      apply key_idx. apply Tn_keys. exact Hy.
    - rewrite length_map. apply Tn_length.
    - rewrite Hint. cbn [map nth]. exact Hidx0.
    - rewrite Hint. simpl. apply Qle_refl.
    - apply tour_leg.
    - exact Hsize.
    - rewrite (pm_1 n si (map idx Tn));
        [| rewrite length_map; apply Tn_length
         | rewrite Hint; cbn [map nth]; exact Hidx0 | lia].
      exists 0%Q. split; [|apply Qle_refl]. unfold dp_get, t0. cbn [dp].
      rewrite lookup_singleton, decide_True by reflexivity.
      rewrite lookup_singleton, decide_True by reflexivity. reflexivity. }
  rewrite <- Tn_length in Hfull at 3. rewrite firstn_all in Hfull.
  rewrite nth_idx in Hfull by lia.
  set (z := nth (n - 1) Tn "") in *.
  assert (Hz : In z Tn) by (apply nth_In; rewrite Tn_length; lia).
  assert (Hzs : z <> start).
  { intros E. assert (E' : nth (n - 1) Tn "" = nth 0 Tn "") by (rewrite Hint at 2; exact E).
    apply (proj1 (NoDup_nth Tn "") Tn_nodup) in E'; rewrite ?Tn_length; lia. }
  destruct (key_idx z (Tn_keys z Hz)) as [Hiz Hkz].
  destruct (find_edge_complete graph Hvalid z start (Tn_keys z Hz) Hstart Hzs) as [back Hback].
  assert (Hcost : tourDistance graph (Tn ++ [start])
                  = (tourDistance graph Tn + distance back)%Q).
  { apply tourDistance_snoc.
    - rewrite Hint. discriminate.
    - replace (List.last Tn "") with z; [exact Hback|].
      unfold z. replace Tn with (firstn (S (n - 1)) Tn) at 2
        by (replace (S (n - 1)) with (length Tn) by (rewrite Tn_length; lia); apply firstn_all).
      symmetry. apply last_firstn_nth. rewrite Tn_length. lia. }
  assert (Hdback : mat_get dist (idx z) si = Fin (distance back)).
  { unfold dist. rewrite (dist_spec graph Hvalid) by assumption.
    fold keys. fold (key (idx z)). rewrite Hkz, Hkey, Hback. reflexivity. }
  (* the best return *)
  destruct (bestLast_spec dist n si t) as [Hok Hmin].
  destruct Hfull as (cz & Hcz & Hczle).
  assert (Hzi : idx z <> si).
  { intros E. apply Hzs. rewrite <- Hkz, E. exact Hkey. }
  specialize (Hmin (idx z) cz (distance back) Hiz Hzi Hcz Hdback).
  unfold last_ok in Hok.
  destruct (bestLast dist n (Some si) t) as [minCost lastCity]. cbn [fst snd] in *.
  destruct lastCity as [l|]; [|subst minCost; discriminate Hmin].
  destruct Hok as (Hl & Hlsi & c & e & Hc & He & ->).
  apply num_le_Fin in Hmin.
  (* the walk from the last city *)
  destruct (chain_exists graph Hvalid si Hlt t Hsound
                         (Z.to_nat (Z.shiftl 1 (Z.of_nat n) - 1)) _ l c (le_n _) Hl Hc)
    as (p & Hchain & Hlast & Hin & Hnd & Hpc).
  destruct (chain_head _ _ _ _ _ Hchain) as [p' Hp'].
  assert (Hplen : length p <= S n).
  { assert (length p <= length (seq 0 n)); [|rewrite length_seq in *; lia].
    apply NoDup_incl_length; [exact Hnd|]. intros x Hx. apply in_seq.
    destruct (Hin x Hx) as [Hxn _]. fold keys in Hxn. fold n in Hxn. lia. }
  fold keys in Hpc. fold key in Hpc.
  pose proof (chain_run graph si Hlt t _ l p Hchain (s_root _ _ _ _ Hsound _) n [] Hplen)
    as Hrun.
  fold keys in Hrun. fold key in Hrun. rewrite Hrun. clear Hrun.
  rewrite Z.eqb_refl. rewrite app_nil_r. rewrite Hp'. cbn [tl].
  assert (Hp'ne : p' <> []).
  { intros ->. rewrite Hp' in Hlast. simpl in Hlast. congruence. }
  replace (2 <? length (nth si keys "" :: map key p' ++ [nth si keys ""]))%nat
    with true.
  2:{ symmetry. apply Nat.ltb_lt. cbn [length]. rewrite length_app, length_map. cbn [length].
      destruct p'; [congruence | simpl; lia]. }
  destruct (dist_edge graph Hvalid l si e Hl Hlt He) as (edge & Hedge & Hdist).
  fold (key si). rewrite Hcost.
  assert (Hpath : key si :: map key p' ++ [key si] = map key (si :: p') ++ [key si])
    by reflexivity.
  rewrite Hpath. rewrite <- Hp'.
  rewrite (tourDistance_snoc graph (map key p) (key si) edge).
  - rewrite Hdist. lra.
  - rewrite Hp'. discriminate.
  - pose proof (last_map_key graph p) as Hlm. fold keys in Hlm. fold key in Hlm.
    rewrite Hlm by (rewrite Hp'; discriminate). rewrite Hlast. exact Hedge.
Qed.

(** With at most twelve nodes, the path of the table is a tour of all nodes. *)
Lemma dynamicProgrammingTSP_closed :
  n <= 12 -> tour_of keys start (dynamicProgrammingTSP graph start).
Proof.
  intros Hn. unfold dynamicProgrammingTSP. fold keys. fold n.
  replace (12 <? n)%nat with false by (symmetry; apply Nat.ltb_ge; exact Hn).
  destruct Thead as [interior Hint].
  assert (Hstart : In start keys) by (apply Tn_keys; rewrite Hint; left; reflexivity).
  destruct (indexOf_In keys start Hstart) as (si & Hsi & Hlt). rewrite Hsi.
  change (default 0 (Some si)) with si. cbv beta iota zeta.
  pose proof (indexOf_Some _ _ _ Hsi) as [_ Hkey]. fold n in Hlt. fold dist.
  set (t0 := {| dp := {[ bit si := {[ Z.of_nat si := 0%Q ]} ]}; parent := ∅ |}).
  set (t := fillTable dist n t0).
  assert (Hsound : sound dist n si t) by (apply sound_fillTable, sound_initial).
  assert (Hidx0 : idx start = si) by (unfold idx; rewrite Hsi; reflexivity).
  (* the entry of the whole tour *)
  assert (Hfull : entry_le t (Z.shiftl 1 (Z.of_nat n) - 1) (nth (n - 1) (map idx Tn) 0)
                           (tourDistance graph (firstn n Tn))).
  { apply (fillTable_full dist n si (map idx Tn) (fun k => tourDistance graph (firstn k Tn))).
    - exact idx_nodup.
    - intros x Hx. apply in_map_iff in Hx. destruct Hx as (y & <- & Hy).
      apply key_idx. apply Tn_keys. exact Hy.
    - rewrite length_map. apply Tn_length.
    - rewrite Hint. cbn [map nth]. exact Hidx0.
    - rewrite Hint. simpl. apply Qle_refl.
    - apply tour_leg.
    - exact Hsize.
    - rewrite (pm_1 n si (map idx Tn));
        [| rewrite length_map; apply Tn_length
         | rewrite Hint; cbn [map nth]; exact Hidx0 | lia].
      exists 0%Q. split; [|apply Qle_refl]. unfold dp_get, t0. cbn [dp].
      rewrite lookup_singleton, decide_True by reflexivity.
      rewrite lookup_singleton, decide_True by reflexivity. reflexivity. }
  rewrite <- Tn_length in Hfull at 3. rewrite firstn_all in Hfull.
  rewrite nth_idx in Hfull by lia.
  set (z := nth (n - 1) Tn "") in *.
  assert (Hz : In z Tn) by (apply nth_In; rewrite Tn_length; lia).
  assert (Hzs : z <> start).
  { intros E. assert (E' : nth (n - 1) Tn "" = nth 0 Tn "") by (rewrite Hint at 2; exact E).
    apply (proj1 (NoDup_nth Tn "") Tn_nodup) in E'; rewrite ?Tn_length; lia. }
  destruct (key_idx z (Tn_keys z Hz)) as [Hiz Hkz].
  destruct (find_edge_complete graph Hvalid z start (Tn_keys z Hz) Hstart Hzs) as [back Hback].
  assert (Hcost : tourDistance graph (Tn ++ [start])
                  = (tourDistance graph Tn + distance back)%Q).
  { apply tourDistance_snoc.
    - rewrite Hint. discriminate.
    - replace (List.last Tn "") with z; [exact Hback|].
      unfold z. replace Tn with (firstn (S (n - 1)) Tn) at 2
        by (replace (S (n - 1)) with (length Tn) by (rewrite Tn_length; lia); apply firstn_all).
      symmetry. apply last_firstn_nth. rewrite Tn_length. lia. }
  assert (Hdback : mat_get dist (idx z) si = Fin (distance back)).
  { unfold dist. rewrite (dist_spec graph Hvalid) by assumption.
    fold keys. fold (key (idx z)). rewrite Hkz, Hkey, Hback. reflexivity. }
  (* the best return *)
  destruct (bestLast_spec dist n si t) as [Hok Hmin].
  destruct Hfull as (cz & Hcz & Hczle).
  assert (Hzi : idx z <> si).
  { intros E. apply Hzs. rewrite <- Hkz, E. exact Hkey. }
  specialize (Hmin (idx z) cz (distance back) Hiz Hzi Hcz Hdback).
  unfold last_ok in Hok.
  destruct (bestLast dist n (Some si) t) as [minCost lastCity]. cbn [fst snd] in *.
  destruct lastCity as [l|]; [|subst minCost; discriminate Hmin].
  destruct Hok as (Hl & Hlsi & c & e & Hc & He & ->).
  apply num_le_Fin in Hmin.
  (* the walk from the last city *)
  destruct (chain_exists graph Hvalid si Hlt t Hsound
                         (Z.to_nat (Z.shiftl 1 (Z.of_nat n) - 1)) _ l c (le_n _) Hl Hc)
    as (p & Hchain & Hlast & Hin & Hnd & Hpc).
  destruct (chain_head _ _ _ _ _ Hchain) as [p' Hp'].
  assert (Hplen : length p <= S n).
  { assert (length p <= length (seq 0 n)); [|rewrite length_seq in *; lia].
    apply NoDup_incl_length; [exact Hnd|]. intros x Hx. apply in_seq.
    destruct (Hin x Hx) as [Hxn _]. fold keys in Hxn. fold n in Hxn. lia. }
  fold keys in Hpc. fold key in Hpc.
  pose proof (chain_run graph si Hlt t _ l p Hchain (s_root _ _ _ _ Hsound _) n [] Hplen)
    as Hrun.
  fold keys in Hrun. fold key in Hrun. rewrite Hrun. clear Hrun.
  rewrite Z.eqb_refl. rewrite app_nil_r. rewrite Hp'. cbn [tl].
  assert (Hp'ne : p' <> []).
  { intros ->. rewrite Hp' in Hlast. simpl in Hlast. congruence. }
  replace (2 <? length (nth si keys "" :: map key p' ++ [nth si keys ""]))%nat
    with true.
  2:{ symmetry. apply Nat.ltb_lt. cbn [length]. rewrite length_app, length_map. cbn [length].
      destruct p'; [congruence | simpl; lia]. }
  exists (map key p'). rewrite Hkey. split; [reflexivity|].
  assert (Hk' : key si = start) by exact Hkey.
  assert (Hperm : Permutation p (seq 0 n)).
  { apply NoDup_Permutation; [exact Hnd | apply seq_NoDup|].
    intros x. rewrite in_seq. split.
    - intros Hx. destruct (Hin x Hx) as [Hxn _]. fold keys in Hxn. fold n in Hxn. lia.
    - intros Hx. apply (chain_covers si t _ l p Hchain). apply testbit_full. lia. }
  apply (Permutation_map key) in Hperm. rewrite Hp' in Hperm. cbn [map] in Hperm.
  rewrite Hk' in Hperm. rewrite Hperm.
  assert (Hseq : forall (l0 : list string) s,
             map (fun i => nth (i - s) l0 "") (seq s (length l0)) = l0).
  { induction l0 as [|x0 l0 IH]; intros s; [reflexivity|]. cbn [length seq map].
    replace (s - s) with 0 by lia. cbn [nth]. f_equal. rewrite <- (IH (S s)) at 2.
    apply map_ext_in. intros i Hi. apply in_seq in Hi.
    replace (i - s) with (S (i - S s)) by lia. reflexivity. }
  specialize (Hseq keys 0). fold n in Hseq.
  replace (map key (seq 0 n)) with keys; [reflexivity|].
  etransitivity; [symmetry; exact Hseq|].
  apply map_ext. intros i. unfold key. rewrite Nat.sub_0_r. reflexivity.
Qed.

End Optimal.
End HeldKarpDPFacts.

(** ** The degenerate instances of algorithms.ts *)

Lemma indexOf_None (arr : list string) (x : string) : ~ In x arr -> indexOf arr x = None.
Proof.
  intros H. destruct (indexOf arr x) as [i|] eqn:E; [|reflexivity].
  apply indexOf_Some in E. destruct E as [Hi <-]. exfalso. apply H. apply nth_In. exact Hi.
Qed.

Lemma filter_none {A : Type} (f : A -> bool) (l : list A) :
  (forall x, In x l -> f x = false) -> filter f l = [].
Proof.
  induction l as [|x l IH]; intros H; [reflexivity|]. cbn [filter].
  rewrite (H x (or_introl eq_refl)). apply IH. intros y Hy. apply H. right. exact Hy.
Qed.

Module DegenerateFacts.
Import Algorithms.

(** One turn of the queue loop. *)
Lemma bb_loop_step (fl : Q -> Q) (fuel : nat) (graph : RouteGraph) (start : string)
      (allNodes : list string) (queue : list BranchNode)
      (bestSolution : option BranchNode) (bestCost : num) :
  bb_loop fl (S fuel) graph start allNodes queue bestSolution bestCost
  = match sort_by (priority fl) queue with
    | [] => Some bestSolution
    | current :: queue' =>
        if num_geb (Fin (priority fl current)) bestCost then
          bb_loop fl fuel graph start allNodes queue' bestSolution bestCost
        else if (JsSet.size (bn_visited current) =? length allNodes)%nat then
          match find_edge graph (List.last (bn_path current) "") start with
          | Some returnEdge =>
              if num_ltb (Fin (fl (bn_cost current + distance returnEdge)%Q)) bestCost then
                bb_loop fl fuel graph start allNodes queue'
                        (Some {| bn_path := bn_path current ++ [start];
                                 bn_cost := fl (bn_cost current + distance returnEdge)%Q;
                                 bn_visited := bn_visited current;
                                 bn_bound := 0 |})
                        (Fin (fl (bn_cost current + distance returnEdge)%Q))
              else bb_loop fl fuel graph start allNodes queue' bestSolution bestCost
          | None => bb_loop fl fuel graph start allNodes queue' bestSolution bestCost
          end
        else
          bb_loop fl fuel graph start allNodes
                  (fold_left (expandStep fl graph allNodes current
                                         (List.last (bn_path current) "") bestCost)
                             (edges graph) queue')
                  bestSolution bestCost
    end.
Proof. reflexivity. Qed.

(** With a start that is not a node the table stays as it begins: the path is
    the nearest neighbour one. *)
Lemma dynamicProgrammingTSP_start_outside (graph : RouteGraph) (start : string) :
  ~ In start (Object_keys (nodes graph)) ->
  dynamicProgrammingTSP graph start = nearestNeighborTSP graph start.
Proof.
  intros Hout. unfold dynamicProgrammingTSP.
  destruct (12 <? length (Object_keys (nodes graph)))%nat; [reflexivity|].
  rewrite (indexOf_None _ _ Hout). change (default 0 None) with 0. cbv beta iota zeta.
  set (dist := buildDist (Object_keys (nodes graph)) (edges graph)).
  set (n := length (Object_keys (nodes graph))).
  set (t0 := {| dp := {[ bit 0 := {[ (-1)%Z := 0%Q ]} ]}; parent := ∅ |}).
  assert (Hget : forall mask u, dp_get t0 mask (Z.of_nat u) = None).
  { intros mask u. unfold dp_get, t0. cbn [dp]. rewrite lookup_singleton.
    destruct (decide (bit 0 = mask)); [|reflexivity].
    rewrite lookup_singleton. rewrite decide_False by lia. reflexivity. }
  assert (Hfrom : forall mask l, fold_left (relaxFrom dist n mask) l t0 = t0).
  { intros mask. induction l as [|u l IH]; cbn [fold_left]; [reflexivity|].
    assert (H : relaxFrom dist n mask t0 u = t0).
    { unfold relaxFrom. destruct (negb (Z.testbit mask (Z.of_nat u))); [reflexivity|].
      rewrite Hget. reflexivity. }
    rewrite H. exact IH. }
  assert (Hfill : forall l, fold_left (fillMask dist n) l t0 = t0).
  { induction l as [|m l IH]; cbn [fold_left]; [reflexivity|].
    assert (H : fillMask dist n t0 m = t0).
    { unfold fillMask. destruct (dp t0 !! Z.of_nat m); [apply Hfrom | reflexivity]. }
    rewrite H. exact IH. }
  unfold fillTable. rewrite Hfill.
  assert (Hbest : snd (bestLast dist n None t0) = None).
  { unfold bestLast.
    destruct (dp t0 !! (Z.shiftl 1 (Z.of_nat n) - 1)%Z) as [row|] eqn:Hrow; [|reflexivity].
    assert (Hrow' : forall i, row !! Z.of_nat i = None).
    { intros i. pose proof (Hget (Z.shiftl 1 (Z.of_nat n) - 1)%Z i) as H.
      unfold dp_get in H. rewrite Hrow in H. exact H. }
    generalize (seq 0 n). intros l. induction l as [|i l IH]; [reflexivity|].
    cbn [fold_left]. rewrite Hrow'. exact IH. }
  rewrite Hbest. reflexivity.
Qed.

Lemma find_edge_outside (graph : RouteGraph) (a b : string) :
  valid_graph graph -> ~ In a (Object_keys (nodes graph)) -> find_edge graph a b = None.
Proof.
  intros Hvalid Hout. destruct (find_edge graph a b) as [e|] eqn:He; [|reflexivity].
  apply CostFacts.find_edge_In in He. destruct He as (Hin & Hf & _).
  exfalso. apply Hout. rewrite <- Hf. apply (vg_inside _ Hvalid e Hin).
Qed.

(** With a start that is not a node the queue runs empty at once, and the
    result is the nearest neighbour path. *)
Lemma branchAndBoundTSP_start_outside (fl : Q -> Q) (graph : RouteGraph) (start : string)
      (fuel : nat) :
  valid_graph graph -> ~ In start (Object_keys (nodes graph)) -> 2 <= fuel ->
  branchAndBoundTSP fl fuel graph start = Some (nearestNeighborTSP graph start).
Proof.
  intros Hvalid Hout Hfuel. unfold branchAndBoundTSP.
  destruct (10 <? length (Object_keys (nodes graph)))%nat.
  { rewrite dynamicProgrammingTSP_start_outside by exact Hout. reflexivity. }
  destruct fuel as [|[|fuel]]; [lia | lia |].
  set (q0 := {| bn_path := [start]; bn_cost := 0; bn_visited := JsSet.add start [];
                bn_bound := calculateBound fl graph (Object_keys (nodes graph))
                                           (JsSet.add start []) |}).
  assert (Hempty : forall best bestCost,
             bb_loop fl (S fuel) graph start (Object_keys (nodes graph)) [] best bestCost
             = Some best) by reflexivity.
  rewrite bb_loop_step. change (sort_by (priority fl) [q0]) with [q0]. cbv beta match.
  change (num_geb (Fin (priority fl q0)) Infinity) with false. cbv beta match.
  destruct (JsSet.size (bn_visited q0) =? length (Object_keys (nodes graph)))%nat.
  - change (List.last (bn_path q0) "") with start.
    rewrite (find_edge_outside graph start start Hvalid Hout). rewrite Hempty. reflexivity.
  - rewrite BnBFacts.expand_fold. rewrite filter_none; [cbn [map app]; rewrite Hempty; reflexivity|].
    intros e He. unfold BnBFacts.pushed.
    change (List.last (bn_path q0) "") with start.
    replace (String.eqb (from e) start) with false; [reflexivity|].
    symmetry. apply String.eqb_neq. intros E. apply Hout. rewrite <- E.
    apply (vg_inside _ Hvalid e He).
Qed.


End DegenerateFacts.

(** ** Sums that are not rounded *)





Module WholeFacts.
Import Algorithms BnBFacts.

Section WithGraph.
Variable fl : Q -> Q.
Variable graph : RouteGraph.
Variable start : string.

Let keys := Object_keys (nodes graph).
Let n := length keys.

Variable M : Z.
Hypothesis HM : (0 <= M)%Z.
Hypothesis Hdist : forall e, In e (edges graph) ->
                             exists z, distance e = inject_Z z /\ (0 <= z <= M)%Z.
Hypothesis Hfl : forall z, (0 <= z <= 2 * Z.of_nat n * M)%Z -> fl (inject_Z z) = inject_Z z.










End WithGraph.


End WholeFacts.

(** ** The rounding of whole numbers *)








(** ** The rounding against the floating-point numbers of the kernel *)

(** The value of a finite floating-point number (binary64). *)
Definition float_value (x : PrimFloat.float) : Q :=
  match FloatOps.Prim2SF x with
  | SpecFloat.S754_finite s m e => Qscale (inject_Z (if s then Z.neg m else Z.pos m)) e
  | _ => 0%Q
  end.

(** Numbers around 1 and around [2 ^ -53]: 0, 1, 2, [2 ^ -54], [2 ^ -53],
    [3 * 2 ^ -54], [3 * 2 ^ -53], [1 + 2 ^ -52] and [1 + 2 ^ -51]. *)
Definition roundingSamples : list PrimFloat.float :=
  let one := PrimFloat.one in
  let three := PrimFloat.add PrimFloat.two one in
  [PrimFloat.zero; one; PrimFloat.two; FloatOps.Z.ldexp one (-54); FloatOps.Z.ldexp one (-53);
   FloatOps.Z.ldexp three (-54); FloatOps.Z.ldexp three (-53);
   PrimFloat.add one (FloatOps.Z.ldexp one (-52));
   PrimFloat.add one (FloatOps.Z.ldexp one (-51))].

(** On every pair of these numbers, [binary64] of the real sum is the sum
    that the floating-point addition returns. *)
Lemma binary64_is_the_addition_of_the_floats :
  forallb
    (fun x =>
       forallb
         (fun y => Qeq_bool (binary64 (float_value x + float_value y))
                            (float_value (PrimFloat.add x y)))
         roundingSamples)
    roundingSamples
  = true.
Proof. vm_compute. reflexivity. Qed.

(** ** Branch and bound against nearest neighbour, algorithms.ts *)


(** ** Branch and bound of graphAlgorithms.ts *)

(** After the sort, nothing in the queue comes before its head. *)
Lemma sort_insert_head_min {A : Type} (lt : A -> A -> bool) :
  (forall a, lt a a = false) ->
  (forall a b, lt a b = true -> lt b a = false) ->
  (forall a b c, lt b a = false -> lt c b = false -> lt c a = false) ->
  forall x l,
    match l with [] => True | h :: _ => forall y, In y l -> lt y h = false end ->
    match sort_insert lt x l with
    | [] => True
    | h :: _ => forall y, In y (x :: l) -> lt y h = false
    end.
Proof.
  intros Hrefl Hasym Htrans x l Hl. destruct l as [|h l]; cbn [sort_insert].
  - intros y [<- | []]. apply Hrefl.
  - destruct (lt h x) eqn:E.
    + intros y [<- | Hy]; [apply Hasym; exact E | apply Hl; exact Hy].
    + intros y [<- | Hy]; [apply Hrefl|].
      apply (Htrans x h y); [exact E | apply Hl; exact Hy].
Qed.

Lemma sort_with_head_min {A : Type} (lt : A -> A -> bool) :
  (forall a, lt a a = false) ->
  (forall a b, lt a b = true -> lt b a = false) ->
  (forall a b c, lt b a = false -> lt c b = false -> lt c a = false) ->
  forall l h t, sort_with lt l = h :: t -> forall y, In y l -> lt y h = false.
Proof.
  intros Hrefl Hasym Htrans l.
  assert (H : match sort_with lt l with
              | [] => True
              | h :: _ => forall y, In y l -> lt y h = false
              end).
  { induction l as [|x l IH]; [exact I|].
    change (sort_with lt (x :: l)) with (sort_insert lt x (sort_with lt l)).
    pose proof (sort_insert_head_min lt Hrefl Hasym Htrans x (sort_with lt l)) as Hins.
    destruct (sort_insert lt x (sort_with lt l)) as [|h t] eqn:E; [exact I|].
    intros y Hy. apply Hins.
    - destruct (sort_with lt l) as [|h' t'] eqn:E'; [exact I|].
      intros z Hz. apply IH. apply (Permutation_in _ (sort_with_perm lt l)).
      rewrite E'. exact Hz.
    - destruct Hy as [<- | Hy]; [left; reflexivity|]. right.
      apply (Permutation_in _ (Permutation_sym (sort_with_perm lt l))). exact Hy. }
  intros h t E y Hy. rewrite E in H. apply H. exact Hy.
Qed.

Lemma sort_by_num_head_min {A : Type} (key : A -> num) (l : list A) (h : A) (t : list A) :
  sort_by_num key l = h :: t -> forall y, In y l -> num_le (key h) (key y).
Proof.
  intros E y Hy. unfold num_le.
  apply (sort_with_head_min (fun a b => num_ltb (key a) (key b))) with l t; try assumption.
  - intros a. apply num_le_refl.
  - intros a b H. apply num_ltb_le. exact H.
  - intros a b c H1 H2. apply (num_le_trans (key a) (key b) (key c)); assumption.
Qed.

Module GraphBnBFacts.
Import GraphAlgorithms.

Section WithGraph.
Variable sqrt : Q -> Q.
Variable graph : Graph.
Variable conditions : Conditions.
Variable start : string.

Let keys := Object_keys (g_nodes graph).
Let n := length keys.

(** The graphs of the editor that the comparison is about: distinct ids, none
    empty; every node has its index, within the matrix, with 0 on the
    diagonal; no weight of the matrix is negative. *)
Record metric : Prop := {
  mt_nodup : NoDup keys;
  mt_named : ~ In "" keys;
  mt_indexed : forall x, In x keys ->
                         exists i, obj_get (nodeIndices graph) x = Some i /\ i < n
                                   /\ mat_get (adjacencyMatrix graph) i i = Fin 0;
  mt_nonneg : forall i j d, mat_get (adjacencyMatrix graph) i j = Fin d -> (0 <= d)%Q
}.

Hypothesis Hmetric : metric.
Hypothesis sqrt_nonneg : forall x, (0 <= x)%Q -> (0 <= sqrt x)%Q.
Hypothesis Hstart : In start keys.

(** The cost of going from [a] to [b]: the cell of the matrix, with the
    fallback. *)
Definition gweight (a b : string) : Q :=
  match obj_get (nodeIndices graph) a, obj_get (nodeIndices graph) b with
  | Some i, Some j =>
      default 0%Q (realWorldWeight sqrt graph conditions a b
                                   (mat_get (adjacencyMatrix graph) i j))
  | _, _ => 0%Q
  end.

(** The cost of a path, summed from the left as the solvers do. *)
Fixpoint gsum (acc : Q) (path : list string) : Q :=
  match path with
  | a :: (b :: _) as rest => gsum (acc + gweight a b)%Q rest
  | _ => acc
  end.

Lemma gsum_step (acc : Q) (a b : string) (rest : list string) :
  gsum acc (a :: b :: rest) = gsum (acc + gweight a b)%Q (b :: rest).
Proof. reflexivity. Qed.

Lemma gsum_snoc (path : list string) (x : string) :
  path <> [] ->
  forall acc, gsum acc (path ++ [x]) = (gsum acc path + gweight (List.last path "") x)%Q.
Proof.
  induction path as [|a path IH]; intros Hne acc; [congruence|].
  destruct path as [|b path]; [reflexivity|].
  change ((a :: b :: path) ++ [x]) with (a :: b :: (path ++ [x])).
  rewrite !gsum_step. change (b :: path ++ [x]) with ((b :: path) ++ [x]).
  rewrite IH by discriminate. reflexivity.
Qed.

Lemma indexed_keys (x : string) : In x keys -> exists i, obj_get (nodeIndices graph) x = Some i.
Proof. intros Hx. destruct (mt_indexed Hmetric x Hx) as (i & Hi & _). eauto. Qed.

(** Between nodes of the graph the weight is defined, and is [gweight]. *)
Lemma weight_defined (a b : string) (i j : nat) :
  In a keys -> In b keys ->
  obj_get (nodeIndices graph) a = Some i -> obj_get (nodeIndices graph) b = Some j ->
  realWorldWeight sqrt graph conditions a b (mat_get (adjacencyMatrix graph) i j)
  = Some (gweight a b).
Proof.
  intros Ha Hb Hi Hj. unfold gweight. rewrite Hi, Hj.
  destruct (GraphNNFacts.realWorldWeight_defined sqrt graph conditions a b
              (mat_get (adjacencyMatrix graph) i j) Ha Hb) as [d Hd].
  rewrite Hd. reflexivity.
Qed.

Lemma applyWeather_nonneg (x : Q) : (0 <= x)%Q -> (0 <= applyWeather conditions x)%Q.
Proof.
  intros Hx. unfold applyWeather. destruct (c_weather conditions) as [w|]; [|exact Hx].
  apply Qmult_le_0_compat; [exact Hx|]. destruct w; unfold weatherMultiplier; lra.
Qed.

Lemma applyTimeOfDay_nonneg (x : Q) : (0 <= x)%Q -> (0 <= applyTimeOfDay conditions x)%Q.
Proof.
  intros Hx. unfold applyTimeOfDay. destruct (c_timeOfDay conditions) as [t|]; [|exact Hx].
  apply Qmult_le_0_compat; [exact Hx|]. destruct t; unfold timeOfDayMultiplier; lra.
Qed.

Lemma euclidean_nonneg (a b : GraphNode) : (0 <= calculateEuclideanDistance sqrt a b)%Q.
Proof.
  unfold calculateEuclideanDistance. cbv zeta.
  apply Qmult_le_0_compat; [|lra]. apply sqrt_nonneg.
  set (dx := (gn_x a - gn_x b)%Q). set (dy := (gn_y a - gn_y b)%Q).
  nra.
Qed.

Lemma gweight_nonneg (a b : string) : (0 <= gweight a b)%Q.
Proof.
  unfold gweight.
  destruct (obj_get (nodeIndices graph) a) as [i|]; [|apply Qle_refl].
  destruct (obj_get (nodeIndices graph) b) as [j|]; [|apply Qle_refl].
  unfold realWorldWeight.
  destruct (mat_get (adjacencyMatrix graph) i j) as [d|] eqn:Hd.
  - exact (mt_nonneg Hmetric i j d Hd).
  - destruct (obj_get (g_nodes graph) a) as [na|]; [|apply Qle_refl].
    destruct (obj_get (g_nodes graph) b) as [nb|]; [|apply Qle_refl].
    cbn [default]. apply applyTimeOfDay_nonneg, applyWeather_nonneg, euclidean_nonneg.
Qed.

Lemma gsum_nonneg (path : list string) : forall acc, (acc <= gsum acc path)%Q.
Proof.
  induction path as [|a path IH]; intros acc; [apply Qle_refl|].
  destruct path as [|b path]; [apply Qle_refl|].
  rewrite gsum_step. pose proof (IH (acc + gweight a b)%Q). pose proof (gweight_nonneg a b).
  lra.
Qed.


(** *** The bound *)

Lemma min_fold_le (w : nat -> num) :
  forall l acc,
    let r := fold_left (fun (minEdge : num) i =>
                          if num_ltb (w i) minEdge then w i else minEdge) l acc in
    num_le r acc /\ forall i, In i l -> num_le r (w i).
Proof.
  induction l as [|x l IH]; intros acc; cbn [fold_left].
  - split; [apply num_le_refl | intros i []].
  - destruct (IH (if num_ltb (w x) acc then w x else acc)) as [Hacc Hall]. cbv zeta in *.
    set (r := fold_left _ l _) in *.
    assert (Hstep : num_le (if num_ltb (w x) acc then w x else acc) acc
                    /\ num_le (if num_ltb (w x) acc then w x else acc) (w x)).
    { destruct (num_ltb (w x) acc) eqn:E.
      - split; [apply num_ltb_le; exact E | apply num_le_refl].
      - split; [apply num_le_refl | exact E]. }
    destruct Hstep as [H1 H2]. split; [exact (num_le_trans _ _ _ Hacc H1)|].
    intros i [<- | Hi]; [exact (num_le_trans _ _ _ Hacc H2) | apply Hall; exact Hi].
Qed.

(** With 0 on the diagonal, the minimum of a row is at most 0. *)
Lemma boundMinEdge_le (nodeId : string) (nodeIndex : nat) :
  nodeIndex < n -> mat_get (adjacencyMatrix graph) nodeIndex nodeIndex = Fin 0 ->
  num_le (boundMinEdge sqrt graph conditions n nodeId nodeIndex) (Fin 0).
Proof.
  intros Hlt Hdiag. unfold boundMinEdge.
  set (w := fun i : nat =>
              match mat_get (adjacencyMatrix graph) nodeIndex i with
              | Fin d => Fin d
              | Infinity =>
                  match obj_get (g_nodes graph) nodeId,
                        match nth_error (indexToNode graph) i with
                        | Some b => obj_get (g_nodes graph) b
                        | None => None
                        end with
                  | Some fromNode, Some toNode =>
                      let e := calculateEuclideanDistance sqrt fromNode toNode in
                      match c_weather conditions with
                      | Some w =>
                          Fin (e * (if Qltb (12 # 10) (weatherMultiplier w)
                                    then 12 # 10 else weatherMultiplier w))%Q
                      | None => Fin e
                      end
                  | _, _ => Infinity
                  end
              end).
  destruct (min_fold_le w (seq 0 n) Infinity) as [_ Hall].
  assert (Hw : w nodeIndex = Fin 0) by (unfold w; rewrite Hdiag; reflexivity).
  rewrite <- Hw. apply Hall. apply in_seq. lia.
Qed.

Lemma bound_partial_le (unvisited : list string) :
  incl unvisited keys ->
  forall acc,
    (acc <= 0)%Q ->
    (fold_left
       (fun (bound : Q) nodeId =>
          match obj_get (nodeIndices graph) nodeId with
          | Some nodeIndex =>
              match boundMinEdge sqrt graph conditions n nodeId nodeIndex with
              | Fin m => (bound + m)%Q
              | Infinity => bound
              end
          | None => bound
          end)
       unvisited acc <= 0)%Q.
Proof.
  induction unvisited as [|x l IH]; intros Hincl acc Hacc; cbn [fold_left]; [exact Hacc|].
  apply IH; [intros y Hy; apply Hincl; right; exact Hy|].
  destruct (mt_indexed Hmetric x (Hincl x (or_introl eq_refl))) as (i & Hi & Hlt & Hdiag).
  rewrite Hi. pose proof (boundMinEdge_le x i Hlt Hdiag) as Hle.
  destruct (boundMinEdge sqrt graph conditions n x i) as [m|]; [|exact Hacc].
  apply num_le_Fin in Hle. lra.
Qed.

(** The bound of a state: the way back for a complete one, at most 0 for
    the others. *)
Lemma bound_cases (path : list string) (visited : JsSet.t) :
  In (List.last path "") keys ->
  exists b,
    calculateBound sqrt graph start conditions keys path visited = Some (Fin b)
    /\ if (JsSet.size visited =? n)%nat then b = gweight (List.last path "") start
       else (b <= 0)%Q.
Proof.
  intros Hlast. unfold calculateBound. fold n.
  destruct (JsSet.size visited =? n)%nat.
  - destruct (indexed_keys _ Hlast) as [i Hi]. destruct (indexed_keys _ Hstart) as [j Hj].
    rewrite Hi, Hj. rewrite (weight_defined _ _ i j Hlast Hstart Hi Hj).
    exists (gweight (List.last path "") start). split; reflexivity.
  - eexists. split; [reflexivity|]. apply bound_partial_le; [|apply Qle_refl].
    intros x Hx. apply filter_In in Hx. tauto.
Qed.


(** *** The states of the queue *)

Record good (q : BnBNode) : Prop := {
  g_head : exists rest, bn_path q = start :: rest;
  g_visited : bn_visited q = bn_path q;
  g_nodup : NoDup (bn_path q);
  g_incl : incl (bn_path q) keys;
  g_cost : bn_cost q = gsum 0 (bn_path q);
  g_bound : calculateBound sqrt graph start conditions keys (bn_path q) (bn_visited q)
            = Some (bn_bound q)
}.

Lemma good_last_keys (q : BnBNode) : good q -> In (List.last (bn_path q) "") keys.
Proof.
  intros Hq. apply (g_incl _ Hq). destruct (g_head _ Hq) as [rest ->]. apply last_In.
Qed.

(** The priority of a good state is finite. *)
Lemma good_priority (q : BnBNode) :
  good q ->
  exists b, bn_bound q = Fin b
            /\ priority q = Fin (bn_cost q + b)
            /\ if (JsSet.size (bn_visited q) =? n)%nat
               then b = gweight (List.last (bn_path q) "") start
               else (b <= 0)%Q.
Proof.
  intros Hq. destruct (bound_cases (bn_path q) (bn_visited q) (good_last_keys q Hq))
    as (b & Hb & Hcase).
  rewrite (g_bound _ Hq) in Hb. injection Hb as Hb. exists b.
  split; [exact Hb|]. split; [unfold priority; rewrite Hb; reflexivity | exact Hcase].
Qed.

(** The state pushed for the node [x] after [current]. *)
Definition child (current : BnBNode) (x : string) : BnBNode :=
  {| bn_path := bn_path current ++ [x];
     bn_cost := (bn_cost current + gweight (List.last (bn_path current) "") x)%Q;
     bn_visited := JsSet.add x (bn_visited current);
     bn_bound := default Infinity
                   (calculateBound sqrt graph start conditions keys
                                   (bn_path current ++ [x])
                                   (JsSet.add x (bn_visited current))) |}.

Definition pushed (current : BnBNode) (bestCost : num) (x : string) : bool :=
  negb (JsSet.has (bn_visited current) x) && num_ltb (priority (child current x)) bestCost.

Lemma graph_good_child (current : BnBNode) (x : string) :
  good current -> In x keys -> ~ In x (bn_visited current) -> good (child current x).
Proof.
  intros Hc Hx Hfresh.
  assert (Hadd : JsSet.add x (bn_visited current) = bn_path current ++ [x]).
  { unfold JsSet.add. apply has_not_In in Hfresh. rewrite Hfresh, (g_visited _ Hc). reflexivity. }
  destruct (g_head _ Hc) as [rest Hrest].
  constructor; cbn [child bn_path bn_cost bn_visited bn_bound].
  - exists (rest ++ [x]). rewrite Hrest. reflexivity.
  - exact Hadd.
  - apply NoDup_snoc; [exact (g_nodup _ Hc) | rewrite <- (g_visited _ Hc); exact Hfresh].
  - intros y Hy. apply in_app_iff in Hy. destruct Hy as [Hy | [<- | []]];
      [exact (g_incl _ Hc y Hy) | exact Hx].
  - rewrite gsum_snoc by (rewrite Hrest; discriminate). rewrite (g_cost _ Hc). reflexivity.
  - destruct (bound_cases (bn_path current ++ [x]) (JsSet.add x (bn_visited current)))
      as (b & Hb & _); [rewrite last_last; exact Hx|].
    rewrite Hb. reflexivity.
Qed.

(** The expansion loop does not raise: it appends the children that pass. *)
Lemma graph_expand_fold (current : BnBNode) (ci : nat) (bestCost : num) :
  good current ->
  obj_get (nodeIndices graph) (List.last (bn_path current) "") = Some ci ->
  forall l, incl l keys ->
  forall q,
    fold_left (expandStep sqrt graph start conditions keys current
                          (List.last (bn_path current) "") ci bestCost) l (Some q)
    = Some (q ++ map (child current) (filter (pushed current bestCost) l)).
Proof.
  intros Hc Hci. induction l as [|x l IH]; intros Hincl q; cbn [fold_left filter map].
  - rewrite app_nil_r. reflexivity.
  - assert (Hx : In x keys) by (apply Hincl; left; reflexivity).
    assert (Hstep : expandStep sqrt graph start conditions keys current
                               (List.last (bn_path current) "") ci bestCost (Some q) x
                    = Some (if pushed current bestCost x then q ++ [child current x] else q)).
    { unfold expandStep, pushed.
      destruct (JsSet.has (bn_visited current) x) eqn:Hhas; [reflexivity|]. cbn [negb andb].
      destruct (indexed_keys x Hx) as [j Hj]. rewrite Hj.
      rewrite (weight_defined _ _ ci j (good_last_keys _ Hc) Hx Hci Hj).
      destruct (bound_cases (bn_path current ++ [x]) (JsSet.add x (bn_visited current)))
        as (b & Hb & _); [rewrite last_last; exact Hx|].
      unfold priority, child. cbn [bn_cost bn_bound]. rewrite Hb. cbn [default].
      destruct (num_ltb _ bestCost); reflexivity. }
    rewrite Hstep. rewrite IH by (intros y Hy; apply Hincl; right; exact Hy).
    destruct (pushed current bestCost x); [|reflexivity].
    cbn [map]. rewrite <- app_assoc. reflexivity.
Qed.

Lemma graph_Forall_good_expand (current : BnBNode) (bestCost : num) (queue' : list BnBNode) :
  good current -> Forall good queue' ->
  Forall good (queue' ++ map (child current) (filter (pushed current bestCost) keys)).
Proof.
  intros Hc Hq. apply Forall_app. split; [exact Hq|].
  apply Forall_forall. intros q Hin. apply in_map_iff in Hin.
  destruct Hin as (x & <- & Hx). apply filter_In in Hx. destruct Hx as [Hx Hp].
  unfold pushed in Hp. apply andb_true_iff in Hp. destruct Hp as [Hv _].
  apply negb_true_iff, has_not_In in Hv. apply graph_good_child; assumption.
Qed.


(** *** Along a tour *)

Lemma gsum_app_le (l2 : list string) :
  forall l1 acc, l1 <> [] -> (gsum acc l1 <= gsum acc (l1 ++ l2))%Q.
Proof.
  induction l2 as [|x l2 IH]; intros l1 acc Hne.
  - rewrite app_nil_r. apply Qle_refl.
  - replace (l1 ++ x :: l2) with ((l1 ++ [x]) ++ l2) by (rewrite <- app_assoc; reflexivity).
    apply Qle_trans with (gsum acc (l1 ++ [x])).
    + rewrite gsum_snoc by exact Hne. pose proof (gweight_nonneg (List.last l1 "") x). lra.
    + apply IH. destruct l1; discriminate.
Qed.

Section Tour.
Variable Tn : list string.
Hypothesis Tperm : Permutation Tn keys.
Hypothesis Thead : exists interior, Tn = start :: interior.

Let cT := gsum 0 (Tn ++ [start]).

Lemma gT_length : length Tn = n.
Proof. apply Permutation_length. exact Tperm. Qed.

Lemma gT_nodup : NoDup Tn.
Proof. apply (Permutation_NoDup (Permutation_sym Tperm)). exact (mt_nodup Hmetric). Qed.

Lemma gT_keys (x : string) : In x Tn -> In x keys.
Proof. apply Permutation_in. exact Tperm. Qed.

Definition on_tour (q : BnBNode) : Prop :=
  exists k, 1 <= k <= n /\ bn_path q = firstn k Tn.

Lemma graph_on_tour_priority (q : BnBNode) :
  good q -> on_tour q -> num_le (priority q) (Fin cT).
Proof.
  intros Hq (k & Hk & Hpath). destruct (good_priority q Hq) as (b & _ & Hp & Hcase).
  rewrite Hp. apply num_le_Fin. rewrite (g_cost _ Hq).
  unfold JsSet.size in Hcase. rewrite (g_visited _ Hq), Hpath in Hcase.
  rewrite length_firstn, gT_length in Hcase. rewrite Hpath.
  destruct Thead as [interior Hint].
  destruct (Nat.eqb_spec (Nat.min k n) n) as [E | E].
  - assert (Hfull : firstn k Tn = Tn).
    { replace k with (length Tn) by (rewrite gT_length; lia). apply firstn_all. }
    rewrite Hfull in *.
    subst b. unfold cT. rewrite gsum_snoc by (rewrite Hint; discriminate). apply Qle_refl.
  - apply Qle_trans with (gsum 0 (firstn k Tn)); [lra|].
    unfold cT. rewrite <- (firstn_skipn k Tn) at 2. rewrite <- app_assoc.
    apply gsum_app_le. rewrite Hint. destruct k; [lia | discriminate].
Qed.

(** The next state of the tour after an incomplete one is among its children. *)
Lemma graph_expand_on_tour (current : BnBNode) :
  good current -> on_tour current -> JsSet.size (bn_visited current) <> n ->
  exists x, In x keys /\ ~ In x (bn_visited current) /\ on_tour (child current x).
Proof.
  intros Hg (k & Hk & Hpath) Hsz.
  assert (Hkn : k < n).
  { unfold JsSet.size in Hsz. rewrite (g_visited _ Hg), Hpath in Hsz.
    rewrite length_firstn, gT_length in Hsz. lia. }
  exists (nth k Tn ""). split; [|split].
  - apply gT_keys. apply nth_In. rewrite gT_length. exact Hkn.
  - rewrite (g_visited _ Hg), Hpath.
    apply NoDup_nth_not_firstn; [exact gT_nodup | rewrite gT_length; exact Hkn].
  - exists (S k). split; [lia|]. cbn [child bn_path]. rewrite Hpath. symmetry.
    apply firstn_S_snoc. rewrite gT_length. exact Hkn.
Qed.

(** The incumbent is at most as long as the tour; as long as there is none,
    a state on the tour waits in the queue. *)
Definition reach (queue : list BnBNode) (best : option BnBNode) (bestCost : num) : Prop :=
  (exists b, best = Some b /\ bestCost = Fin (bn_cost b) /\ (bn_cost b <= cT)%Q)
  \/ (best = None /\ bestCost = Infinity /\ exists q, In q queue /\ on_tour q).

(** The loop does not raise, and whatever the number of turns it stops with no
    incumbent or with one that is at most as long as the tour. *)
Lemma graph_bb_loop_spec :
  forall fuel queue best bestCost,
    Forall good queue -> reach queue best bestCost ->
    exists r, bb_loop sqrt fuel graph start conditions keys queue best bestCost = Some r
              /\ match r with
                 | Some b => (bn_cost b <= cT)%Q
                 | None => True
                 end.
Proof.
  assert (Hstop : forall queue best bestCost,
             reach queue best bestCost ->
             match best with Some b => (bn_cost b <= cT)%Q | None => True end).
  { intros queue best bestCost [(b & -> & _ & Hb) | (-> & _)]; [exact Hb | exact I]. }
  induction fuel as [|fuel IH]; intros queue best bestCost Hgood Hreach; cbn [bb_loop].
  { exists best. split; [reflexivity | exact (Hstop _ _ _ Hreach)]. }
  pose proof (sort_with_perm (fun a b => num_ltb (priority a) (priority b)) queue) as Hperm.
  pose proof (sort_by_num_head_min priority queue) as Hmin.
  fold (sort_by_num priority queue) in Hperm.
  destruct (sort_by_num priority queue) as [|current queue'].
  { exists best. split; [reflexivity | exact (Hstop _ _ _ Hreach)]. }
  specialize (Hmin current queue' eq_refl).
  assert (Hall : Forall good (current :: queue')).
  { apply Forall_forall. intros q Hq. apply (proj1 (Forall_forall _ _) Hgood).
    apply (Permutation_in _ Hperm). exact Hq. }
  inversion Hall as [|? ? Hcur Hrest]; subst.
  destruct (good_priority current Hcur) as (bc & Hbc & Hprio & Hcase).
  assert (Hcases : (exists b, best = Some b /\ bestCost = Fin (bn_cost b) /\ (bn_cost b <= cT)%Q)
                   \/ (best = None /\ bestCost = Infinity
                       /\ num_le (priority current) (Fin cT)
                       /\ (on_tour current \/ exists q, In q queue' /\ on_tour q))).
  { destruct Hreach as [H | (Hb & Hc & q & Hq & Ht)]; [left; exact H | right].
    split; [exact Hb|]. split; [exact Hc|]. split.
    - apply (num_le_trans _ (priority q)); [apply Hmin; exact Hq|].
      apply graph_on_tour_priority; [|exact Ht].
      apply (proj1 (Forall_forall _ _) Hgood). exact Hq.
    - apply (Permutation_in _ (Permutation_sym Hperm)) in Hq.
      destruct Hq as [<- | Hq]; [left; exact Ht | right; eauto]. }
  destruct (num_geb (priority current) bestCost) eqn:Hprune.
  { (* pruned *)
    apply IH; [exact Hrest|].
    destruct Hcases as [H | (_ & Hc & _)]; [left; exact H|].
    rewrite Hc, Hprio in Hprune. discriminate Hprune. }
  pose proof (good_last_keys current Hcur) as Hlast.
  destruct (indexed_keys _ Hlast) as [ci Hci].
  destruct (JsSet.size (bn_visited current) =? length keys)%nat eqn:Hsz; fold n in Hsz.
  { (* complete *)
    destruct (indexed_keys _ Hstart) as [sj Hsj]. rewrite Hci, Hsj.
    rewrite (weight_defined _ _ ci sj Hlast Hstart Hci Hsj).
    rewrite Hsz in Hcase. subst bc.
    destruct (num_ltb (Fin (bn_cost current + gweight (List.last (bn_path current) "") start))
                      bestCost) eqn:Hlt.
    - apply IH; [exact Hrest|]. left. eexists. split; [reflexivity|]. cbn [bn_cost].
      split; [reflexivity|].
      destruct Hcases as [(b & _ & Hc & Hb) | (_ & _ & Hle & _)].
      + rewrite Hc in Hlt. apply num_ltb_Fin in Hlt. lra.
      + rewrite Hprio in Hle. apply num_le_Fin in Hle. exact Hle.
    - apply IH; [exact Hrest|].
      destruct Hcases as [H | (_ & Hc & _)]; [left; exact H|].
      rewrite Hc in Hlt. discriminate Hlt. }
  (* expanded *)
  apply Nat.eqb_neq in Hsz. rewrite Hci.
  rewrite (graph_expand_fold current ci bestCost Hcur Hci keys (incl_refl _) queue').
  apply IH; [apply graph_Forall_good_expand; assumption|].
  destruct Hcases as [H | (Hb & Hc & _ & [Ht | (q & Hq & Ht)])]; [left; exact H | |].
  - right. split; [exact Hb|]. split; [exact Hc|].
    destruct (graph_expand_on_tour current Hcur Ht Hsz) as (x & Hx & Hfresh & Hnext).
    exists (child current x). split; [|exact Hnext].
    apply in_app_iff. right. apply in_map. apply filter_In. split; [exact Hx|].
    unfold pushed. apply has_not_In in Hfresh. rewrite Hfresh. cbn [negb andb].
    destruct (good_priority _ (graph_good_child current x Hcur Hx
                                 (proj1 (has_not_In _ _) Hfresh))) as (b' & _ & Hp' & _).
    rewrite Hp', Hc. reflexivity.
  - right. split; [exact Hb|]. split; [exact Hc|]. exists q.
    split; [apply in_app_iff; left; exact Hq | exact Ht].
Qed.


(** *** The turns of the queue loop *)






End Tour.

(** *** The nearest neighbour path and its distance *)

Lemma graph_nn_loop_total :
  forall fuel st,
    GraphNNFacts.nn_inv graph start st -> nn_total st = gsum 0 (nn_path st) ->
    n < length (nn_visited st) + fuel ->
    exists st',
      nn_loop sqrt fuel graph conditions keys st = Some st'
      /\ GraphNNFacts.nn_inv graph start st'
      /\ nn_total st' = gsum 0 (nn_path st')
      /\ n <= length (nn_visited st').
Proof.
  assert (Hidx : GraphNNFacts.indexed graph) by (intros x Hx; apply indexed_keys; exact Hx).
  induction fuel as [|fuel IH]; intros st Hinv Htotal Hfuel; cbn [nn_loop].
  - exists st. split; [reflexivity|]. split; [exact Hinv|]. split; [exact Htotal | lia].
  - unfold JsSet.size. fold n. destruct (length (nn_visited st) <? n)%nat eqn:Hlt.
    + assert (Hcur : In (nn_current st) keys).
      { rewrite <- (GraphNNFacts.nn_last _ _ _ Hinv). apply (GraphNNFacts.nn_incl _ _ _ Hinv).
        destruct (GraphNNFacts.nn_head _ _ _ Hinv) as [rest ->]. apply last_In. }
      destruct (indexed_keys _ Hcur) as [ci Hci]. rewrite Hci.
      destruct (GraphNNFacts.nnScan_cases sqrt graph conditions (nn_current st) ci (nn_visited st)
                                          Hidx Hcur)
        as (b & s & Hscan & Hcase).
      fold keys in Hscan. rewrite Hscan.
      destruct Hcase as [[Hb Hall] | [Hin Hnot]].
      * exfalso. apply Nat.ltb_lt in Hlt.
        pose proof (incl_short keys (nn_visited st) (mt_nodup Hmetric) Hall) as Hc.
        fold n in Hc. lia.
      * fold keys in Hin.
        replace (String.eqb b "") with false.
        2:{ symmetry. apply String.eqb_neq. intros ->. exact (mt_named Hmetric Hin). }
        destruct (indexed_keys _ Hin) as [bi Hbi]. rewrite Hbi.
        rewrite (weight_defined _ _ ci bi Hcur Hin Hci Hbi).
        apply IH.
        -- apply GraphNNFacts.nn_inv_push; assumption.
        -- cbn [nn_total nn_path]. rewrite Htotal.
           rewrite gsum_snoc.
           ++ rewrite (GraphNNFacts.nn_last _ _ _ Hinv). reflexivity.
           ++ destruct (GraphNNFacts.nn_head _ _ _ Hinv) as [rest ->]. discriminate.
        -- cbn [nn_visited]. rewrite (add_length_fresh _ _ Hnot). lia.
    + exists st. apply Nat.ltb_ge in Hlt.
      split; [reflexivity|]. split; [exact Hinv|]. split; [exact Htotal | exact Hlt].
Qed.

(** The nearest neighbour construction returns a tour, with its cost as the
    distance. *)
Lemma graph_nearestNeighbor_tour :
  exists Tn,
    Permutation Tn keys /\ (exists interior, Tn = start :: interior)
    /\ exists r, nearestNeighbor sqrt graph start conditions = Some r
                 /\ res_distance r = Fin (gsum 0 (Tn ++ [start])).
Proof.
  unfold nearestNeighbor. fold keys.
  destruct (graph_nn_loop_total (length keys)
              {| nn_visited := JsSet.add start []; nn_path := [start];
                 nn_current := start; nn_total := 0 |})
    as (st & Hloop & Hinv & Htotal & Hfull).
  - constructor; cbn [nn_path nn_visited nn_current].
    + reflexivity.
    + constructor; [intros [] | constructor].
    + intros x [<- | []]. exact Hstart.
    + exists []. reflexivity.
    + reflexivity.
  - reflexivity.
  - cbn [nn_visited]. change (length (JsSet.add start [])) with 1. fold n. lia.
  - rewrite Hloop. exists (nn_path st).
    assert (Hlen : length (nn_path st) = n).
    { rewrite (GraphNNFacts.nn_same _ _ _ Hinv). apply Nat.le_antisymm; [|exact Hfull].
      rewrite <- (GraphNNFacts.nn_same _ _ _ Hinv).
      apply NoDup_incl_length;
        [exact (GraphNNFacts.nn_nodup _ _ _ Hinv) | exact (GraphNNFacts.nn_incl _ _ _ Hinv)]. }
    split; [|split].
    + apply NoDup_full_Permutation;
        [exact (mt_nodup Hmetric) | exact (GraphNNFacts.nn_nodup _ _ _ Hinv)
         | exact (GraphNNFacts.nn_incl _ _ _ Hinv) | exact Hlen].
    + exact (GraphNNFacts.nn_head _ _ _ Hinv).
    + unfold JsSet.size. rewrite <- (GraphNNFacts.nn_same _ _ _ Hinv), Hlen. fold n.
      rewrite Nat.eqb_refl.
      assert (Hcur : In (nn_current st) keys).
      { rewrite <- (GraphNNFacts.nn_last _ _ _ Hinv). apply (GraphNNFacts.nn_incl _ _ _ Hinv).
        destruct (GraphNNFacts.nn_head _ _ _ Hinv) as [rest ->]. apply last_In. }
      destruct (indexed_keys _ Hcur) as [ci Hci]. destruct (indexed_keys _ Hstart) as [sj Hsj].
      rewrite Hci, Hsj. rewrite (weight_defined _ _ ci sj Hcur Hstart Hci Hsj).
      eexists. split; [reflexivity|]. cbn [res_distance]. f_equal.
      rewrite gsum_snoc.
      * rewrite Htotal, (GraphNNFacts.nn_last _ _ _ Hinv). reflexivity.
      * destruct (GraphNNFacts.nn_head _ _ _ Hinv) as [rest ->]. discriminate.
Qed.

(** *** The distance of a path of nodes *)

Lemma distance_step (total : Q) (a b : string) (rest : list string) :
  realWorldDistanceFrom sqrt total (a :: b :: rest) graph conditions
  = match obj_get (nodeIndices graph) a, obj_get (nodeIndices graph) b with
    | Some fromIndex, Some toIndex =>
        match realWorldWeight sqrt graph conditions a b
                (mat_get (adjacencyMatrix graph) fromIndex toIndex) with
        | Some edgeWeight =>
            realWorldDistanceFrom sqrt (total + edgeWeight)%Q (b :: rest) graph conditions
        | None => None
        end
    | _, _ => Some Infinity
    end.
Proof. reflexivity. Qed.

(** On nodes of the graph [calculateRealWorldDistance] is the sum of the
    weights of the legs. *)
Lemma distance_defined (path : list string) :
  incl path keys ->
  forall total,
    realWorldDistanceFrom sqrt total path graph conditions = Some (Fin (gsum total path)).
Proof.
  induction path as [|a path IH]; intros Hincl total; [reflexivity|].
  destruct path as [|b path]; [reflexivity|].
  assert (Ha : In a keys) by (apply Hincl; left; reflexivity).
  assert (Hb : In b keys) by (apply Hincl; right; left; reflexivity).
  destruct (indexed_keys a Ha) as [i Hi]. destruct (indexed_keys b Hb) as [j Hj].
  rewrite distance_step, Hi, Hj, (weight_defined a b i j Ha Hb Hi Hj), gsum_step.
  apply IH. intros x Hx. apply Hincl. right. exact Hx.
Qed.

Lemma calculateRealWorldDistance_gsum (path : list string) :
  incl path keys ->
  calculateRealWorldDistance sqrt path graph conditions = Some (Fin (gsum 0 path)).
Proof.
  intros Hincl. unfold calculateRealWorldDistance.
  destruct (length path <? 2)%nat eqn:E; [|apply distance_defined; exact Hincl].
  destruct path as [|a [|b path]]; [reflexivity | reflexivity | simpl in E; discriminate].
Qed.

Lemma tour_incl (tour : list string) : tour_of keys start tour -> incl tour keys.
Proof.
  intros (interior & -> & Hperm) x Hx.
  change (start :: interior ++ [start]) with ((start :: interior) ++ [start]) in Hx.
  apply in_app_iff in Hx. destruct Hx as [Hx | [<- | []]]; [|exact Hstart].
  apply (Permutation_in _ Hperm). exact Hx.
Qed.

(** *** The incumbent of the search is a tour *)

Definition best_tour (best : option BnBNode) : Prop :=
  match best with
  | None => True
  | Some b => tour_of keys start (bn_path b) /\ bn_cost b = gsum 0 (bn_path b)
  end.

Lemma graph_bb_loop_incumbent :
  forall fuel queue best bestCost,
    Forall good queue -> best_tour best ->
    forall r, bb_loop sqrt fuel graph start conditions keys queue best bestCost = Some r ->
              best_tour r.
Proof.
  induction fuel as [|fuel IH]; intros queue best bestCost Hgood Hbest r; cbn [bb_loop].
  { intros [= <-]. exact Hbest. }
  pose proof (sort_with_perm (fun a b => num_ltb (priority a) (priority b)) queue) as Hperm.
  fold (sort_by_num priority queue) in Hperm.
  destruct (sort_by_num priority queue) as [|current queue'].
  { intros [= <-]. exact Hbest. }
  assert (Hall : Forall good (current :: queue')).
  { apply Forall_forall. intros q Hq. apply (proj1 (Forall_forall _ _) Hgood).
    apply (Permutation_in _ Hperm). exact Hq. }
  inversion Hall as [|? ? Hcur Hrest]; subst.
  destruct (num_geb (priority current) bestCost); [apply IH; assumption|].
  pose proof (good_last_keys current Hcur) as Hlast.
  destruct (indexed_keys _ Hlast) as [ci Hci].
  destruct (JsSet.size (bn_visited current) =? length keys)%nat eqn:Hsz.
  { destruct (indexed_keys _ Hstart) as [sj Hsj]. rewrite Hci, Hsj.
    rewrite (weight_defined _ _ ci sj Hlast Hstart Hci Hsj).
    destruct (num_ltb _ bestCost); [|apply IH; assumption].
    apply IH; [exact Hrest|]. cbn [best_tour bn_path bn_cost].
    destruct (g_head _ Hcur) as [rest Hrest'].
    apply Nat.eqb_eq in Hsz. unfold JsSet.size in Hsz. rewrite (g_visited _ Hcur) in Hsz.
    split.
    - exists rest. rewrite Hrest'. split; [reflexivity|]. rewrite <- Hrest'.
      apply NoDup_full_Permutation;
        [exact (mt_nodup Hmetric) | exact (g_nodup _ Hcur) | exact (g_incl _ Hcur) | exact Hsz].
    - rewrite gsum_snoc by (rewrite Hrest'; discriminate).
      rewrite (g_cost _ Hcur). reflexivity. }
  rewrite Hci.
  rewrite (graph_expand_fold current ci bestCost Hcur Hci keys (incl_refl _) queue').
  apply IH; [apply graph_Forall_good_expand; assumption | exact Hbest].
Qed.

(** Up to ten nodes the search returns the empty result or a shortest tour
    with its distance. *)
Lemma graph_branchAndBound_exact :
  length keys <= 10 ->
  exists rb,
    branchAndBound sqrt graph start conditions = Some rb
    /\ ((res_path rb = [] /\ res_distance rb = Fin 0)
        \/ (tour_of keys start (res_path rb)
            /\ calculateRealWorldDistance sqrt (res_path rb) graph conditions
               = Some (res_distance rb)
            /\ forall tour d,
                tour_of keys start tour ->
                calculateRealWorldDistance sqrt tour graph conditions = Some d ->
                num_le (res_distance rb) d)).
Proof.
  intros Hn. unfold branchAndBound. fold keys.
  replace (10 <? length keys)%nat with false by (symmetry; apply Nat.ltb_ge; exact Hn).
  destruct (bound_cases [start] (JsSet.add start [])) as (b0 & Hb0 & _); [exact Hstart|].
  rewrite Hb0.
  set (q0 := {| bn_path := [start]; bn_cost := 0; bn_visited := JsSet.add start [];
                bn_bound := Fin b0 |}).
  assert (Hq0 : Forall good [q0]).
  { constructor; [|constructor]. constructor; cbn [q0 bn_path bn_cost bn_visited bn_bound].
    - exists []. reflexivity.
    - reflexivity.
    - constructor; [intros [] | constructor].
    - intros x [<- | []]. exact Hstart.
    - reflexivity.
    - exact Hb0. }
  assert (Hspec : forall Tn, Permutation Tn keys -> (exists interior, Tn = start :: interior) ->
                    exists r, bb_loop sqrt maxIterations graph start conditions keys [q0]
                                      None Infinity = Some r
                              /\ match r with
                                 | Some b => (bn_cost b <= gsum 0 (Tn ++ [start]))%Q
                                 | None => True
                                 end).
  { intros Tn Hperm Hhead.
    apply (graph_bb_loop_spec Tn Hperm Hhead maxIterations [q0] None Infinity Hq0).
    right. split; [reflexivity|]. split; [reflexivity|]. exists q0.
    split; [left; reflexivity|]. exists 1. split.
    - assert (H1 : forall (l : list string) x, In x l -> 1 <= length l)
        by (intros [|? ?] ? H; [destruct H | simpl; lia]).
      pose proof (H1 keys start Hstart) as Hn'. fold n. lia.
    - destruct Hhead as [interior ->]. reflexivity. }
  destruct graph_nearestNeighbor_tour as (Tn0 & Hperm0 & Hhead0 & _).
  destruct (Hspec Tn0 Hperm0 Hhead0) as (r & Hr & _). rewrite Hr.
  destruct r as [b|]; eexists; (split; [reflexivity|]); cbn [res_path res_distance];
    [right | left; split; reflexivity].
  pose proof (graph_bb_loop_incumbent maxIterations [q0] None Infinity Hq0 I (Some b) Hr)
    as [Htour Hcost].
  split; [exact Htour|]. split.
  - rewrite (calculateRealWorldDistance_gsum _ (tour_incl _ Htour)), Hcost. reflexivity.
  - intros tour d Ht Hd. rewrite (calculateRealWorldDistance_gsum _ (tour_incl _ Ht)) in Hd.
    injection Hd as <-. destruct Ht as (interior & -> & Hperm).
    destruct (Hspec (start :: interior) Hperm (ex_intro _ interior eq_refl)) as (r' & Hr' & Hle).
    rewrite Hr in Hr'. injection Hr' as <-. apply num_le_Fin. exact Hle.
Qed.

(** *** The nearest neighbour path *)

(** The nearest neighbour construction returns a tour, and the distance it
    reports is the distance of that tour. *)
Lemma graph_nearestNeighbor_path :
  exists r,
    nearestNeighbor sqrt graph start conditions = Some r
    /\ tour_of keys start (res_path r)
    /\ calculateRealWorldDistance sqrt (res_path r) graph conditions = Some (res_distance r).
Proof.
  unfold nearestNeighbor. fold keys.
  destruct (graph_nn_loop_total (length keys)
              {| nn_visited := JsSet.add start []; nn_path := [start];
                 nn_current := start; nn_total := 0 |})
    as (st & Hloop & Hinv & Htotal & Hfull).
  - constructor; cbn [nn_path nn_visited nn_current].
    + reflexivity.
    + constructor; [intros [] | constructor].
    + intros x [<- | []]. exact Hstart.
    + exists []. reflexivity.
    + reflexivity.
  - reflexivity.
  - cbn [nn_visited]. change (length (JsSet.add start [])) with 1. fold n. lia.
  - rewrite Hloop.
    assert (Hlen : length (nn_path st) = n).
    { rewrite (GraphNNFacts.nn_same _ _ _ Hinv). apply Nat.le_antisymm; [|exact Hfull].
      rewrite <- (GraphNNFacts.nn_same _ _ _ Hinv).
      apply NoDup_incl_length;
        [exact (GraphNNFacts.nn_nodup _ _ _ Hinv) | exact (GraphNNFacts.nn_incl _ _ _ Hinv)]. }
    unfold JsSet.size. rewrite <- (GraphNNFacts.nn_same _ _ _ Hinv), Hlen. fold n.
    rewrite Nat.eqb_refl.
    assert (Hcur : In (nn_current st) keys).
    { rewrite <- (GraphNNFacts.nn_last _ _ _ Hinv). apply (GraphNNFacts.nn_incl _ _ _ Hinv).
      destruct (GraphNNFacts.nn_head _ _ _ Hinv) as [rest ->]. apply last_In. }
    destruct (indexed_keys _ Hcur) as [ci Hci]. destruct (indexed_keys _ Hstart) as [sj Hsj].
    rewrite Hci, Hsj. rewrite (weight_defined _ _ ci sj Hcur Hstart Hci Hsj).
    eexists. split; [reflexivity|]. cbn [res_path res_distance].
    destruct (GraphNNFacts.nn_head _ _ _ Hinv) as [rest Hrest].
    assert (Htour : tour_of keys start (nn_path st ++ [start])).
    { exists rest. rewrite Hrest. split; [reflexivity|]. rewrite <- Hrest.
      apply NoDup_full_Permutation;
        [exact (mt_nodup Hmetric) | exact (GraphNNFacts.nn_nodup _ _ _ Hinv)
         | exact (GraphNNFacts.nn_incl _ _ _ Hinv) | exact Hlen]. }
    split; [exact Htour|].
    rewrite (calculateRealWorldDistance_gsum _ (tour_incl _ Htour)).
    rewrite gsum_snoc by (rewrite Hrest; discriminate).
    rewrite Htotal, (GraphNNFacts.nn_last _ _ _ Hinv). reflexivity.
Qed.

(** *** Branch and bound against nearest neighbour *)



(** *** The enumeration *)

(** The incumbent of the loop over the permutations. *)
Definition shortest_so_far (perms : list (list string)) (st : list string * num) : Prop :=
  ((st = ([], Infinity) /\ perms = [])
   \/ exists perm, In perm perms /\ st = (start :: perm ++ [start],
                                          Fin (gsum 0 (start :: perm ++ [start]))))
  /\ forall perm, In perm perms ->
                  num_le (snd st) (Fin (gsum 0 (start :: perm ++ [start]))).

Lemma graph_bruteStep_fold (perms : list (list string)) :
  (forall perm, In perm perms -> incl perm keys) ->
  forall seen st,
    shortest_so_far seen st ->
    exists st', fold_left (bruteStep sqrt graph start conditions) perms (Some st) = Some st'
                /\ shortest_so_far (seen ++ perms) st'.
Proof.
  induction perms as [|perm perms IH]; intros Hall seen st Hst; cbn [fold_left].
  - exists st. rewrite app_nil_r. split; [reflexivity | exact Hst].
  - replace (seen ++ perm :: perms) with ((seen ++ [perm]) ++ perms)
      by (rewrite <- app_assoc; reflexivity).
    assert (Hd : calculateRealWorldDistance sqrt (start :: perm ++ [start]) graph conditions
                 = Some (Fin (gsum 0 (start :: perm ++ [start])))).
    { apply calculateRealWorldDistance_gsum. intros x [<- | Hx]; [exact Hstart|].
      apply in_app_iff in Hx. destruct Hx as [Hx | [<- | []]]; [|exact Hstart].
      apply (Hall perm (or_introl eq_refl)). exact Hx. }
    destruct st as [bp bd]. unfold bruteStep at 2. rewrite Hd.
    destruct Hst as [Hcur Hmin]. cbn [snd] in Hmin.
    assert (Hall' : forall p, In p perms -> incl p keys)
      by (intros p Hp; apply Hall; right; exact Hp).
    destruct (num_ltb (Fin (gsum 0 (start :: perm ++ [start]))) bd) eqn:Hlt;
      apply (IH Hall'); split.
    + right. exists perm. split; [apply in_or_app; right; left; reflexivity | reflexivity].
    + intros p Hp. cbn [snd]. apply in_app_iff in Hp. destruct Hp as [Hp | [<- | []]].
      * apply (num_le_trans _ bd); [apply num_ltb_le; exact Hlt | apply Hmin; exact Hp].
      * apply num_le_refl.
    + destruct Hcur as [[E _] | (p & Hp & E)].
      * injection E as -> ->. discriminate Hlt.
      * right. exists p. split; [apply in_or_app; left; exact Hp | exact E].
    + intros p Hp. cbn [snd]. apply in_app_iff in Hp. destruct Hp as [Hp | [<- | []]].
      * apply Hmin. exact Hp.
      * apply num_ltb_false_le. exact Hlt.
Qed.

End WithGraph.
End GraphBnBFacts.

(** ** Checking a concrete graph *)

Fixpoint nodupb (l : list string) : bool :=
  match l with
  | [] => true
  | x :: l' => negb (includes l' x) && nodupb l'
  end.

Lemma nodupb_NoDup (l : list string) : nodupb l = true -> NoDup l.
Proof.
  induction l as [|x l IH]; intros H; [constructor|].
  cbn [nodupb] in H. apply andb_true_iff in H. destruct H as [Hx Hl].
  constructor; [|apply IH; exact Hl].
  apply negb_true_iff in Hx. intros Hin. apply includes_In in Hin. congruence.
Qed.

Fixpoint edges_uniqueb (es : list Edge) : bool :=
  match es with
  | [] => true
  | e :: es' =>
      negb (existsb (fun e' => String.eqb (from e) (from e') && String.eqb (to e) (to e')) es')
      && edges_uniqueb es'
  end.

Lemma edges_uniqueb_sound (es : list Edge) :
  edges_uniqueb es = true ->
  forall e e', In e es -> In e' es -> from e = from e' -> to e = to e' -> e = e'.
Proof.
  induction es as [|e0 es IH]; intros H e e' He He' Hf Ht; [destruct He|].
  cbn [edges_uniqueb] in H. apply andb_true_iff in H. destruct H as [H0 Hes].
  apply negb_true_iff in H0.
  assert (Hno : forall x, In x es -> from e0 = from x -> to e0 = to x -> False).
  { intros x Hx Hfx Htx.
    assert (Hex : existsb (fun e' => String.eqb (from e0) (from e') && String.eqb (to e0) (to e')) es
                  = true).
    { apply existsb_exists. exists x. split; [exact Hx|].
      rewrite Hfx, Htx, !String.eqb_refl. reflexivity. }
    congruence. }
  destruct He as [<- | He], He' as [<- | He'].
  - reflexivity.
  - exfalso. exact (Hno e' He' Hf Ht).
  - exfalso. exact (Hno e He (eq_sym Hf) (eq_sym Ht)).
  - exact (IH Hes e e' He He' Hf Ht).
Qed.

(** The boolean form of [valid_graph]. *)
Definition valid_graphb (graph : RouteGraph) : bool :=
  let keys := Object_keys (nodes graph) in
  nodupb keys
  && negb (includes keys "")
  && forallb (fun e => includes keys (from e) && includes keys (to e)
                       && Qle_bool 0 (distance e)) (edges graph)
  && forallb (fun a =>
                forallb (fun b =>
                           String.eqb a b
                           || existsb (fun e => String.eqb (from e) a && String.eqb (to e) b)
                                      (edges graph)) keys) keys
  && edges_uniqueb (edges graph).

Lemma valid_graphb_sound (graph : RouteGraph) : valid_graphb graph = true -> valid_graph graph.
Proof.
  unfold valid_graphb. cbv zeta. rewrite !andb_true_iff.
  intros [[[[Hnd Hne] Hin] Hc] Hu]. rewrite forallb_forall in Hin, Hc.
  constructor.
  - apply nodupb_NoDup. exact Hnd.
  - apply negb_true_iff in Hne. intros H. apply includes_In in H. congruence.
  - intros e He. specialize (Hin e He). rewrite !andb_true_iff in Hin.
    destruct Hin as [[Hf Ht] _]. split; apply includes_In; assumption.
  - intros a b Ha Hb Hab. specialize (Hc a Ha). rewrite forallb_forall in Hc.
    specialize (Hc b Hb). apply orb_true_iff in Hc. destruct Hc as [E | Hex].
    + apply String.eqb_eq in E. contradiction.
    + apply existsb_exists in Hex. destruct Hex as (e & He & Hm).
      apply andb_true_iff in Hm. destruct Hm as [Hf Ht]. apply String.eqb_eq in Hf, Ht.
      exists e. auto.
  - apply edges_uniqueb_sound. exact Hu.
  - intros e He. specialize (Hin e He). rewrite !andb_true_iff in Hin.
    destruct Hin as [_ Hd]. apply Qle_bool_iff. exact Hd.
Qed.

(** The boolean form of [GraphBnBFacts.metric]. *)
Definition metricb (graph : GraphAlgorithms.Graph) : bool :=
  let keys := Object_keys (GraphAlgorithms.g_nodes graph) in
  nodupb keys
  && negb (includes keys "")
  && forallb (fun x =>
                match obj_get (GraphAlgorithms.nodeIndices graph) x with
                | Some i =>
                    (i <? length keys)%nat
                    && match mat_get (GraphAlgorithms.adjacencyMatrix graph) i i with
                       | Fin (Qmake 0%Z 1%positive) => true
                       | _ => false
                       end
                | None => false
                end) keys
  && forallb (forallb (fun c => match c with Fin d => Qle_bool 0 d | Infinity => true end))
             (GraphAlgorithms.adjacencyMatrix graph).

Lemma metricb_sound (graph : GraphAlgorithms.Graph) :
  metricb graph = true -> GraphBnBFacts.metric graph.
Proof.
  unfold metricb. cbv zeta. rewrite !andb_true_iff.
  intros [[[Hnd Hne] Hidx] Hcells]. rewrite forallb_forall in Hidx, Hcells.
  constructor.
  - apply nodupb_NoDup. exact Hnd.
  - apply negb_true_iff in Hne. intros H. apply includes_In in H. congruence.
  - intros x Hx. specialize (Hidx x Hx).
    destruct (obj_get (GraphAlgorithms.nodeIndices graph) x) as [i|]; [|discriminate].
    apply andb_true_iff in Hidx. destruct Hidx as [Hlt Hdiag]. apply Nat.ltb_lt in Hlt.
    exists i. split; [reflexivity|]. split; [exact Hlt|].
    destruct (mat_get (GraphAlgorithms.adjacencyMatrix graph) i i) as [[[| |] [| |]]|];
      try discriminate. reflexivity.
  - intros i j d Hd. unfold mat_get in Hd.
    destruct (Nat.lt_ge_cases i (length (GraphAlgorithms.adjacencyMatrix graph))) as [Hi | Hi].
    + assert (Hrow : In (nth i (GraphAlgorithms.adjacencyMatrix graph) [])
                        (GraphAlgorithms.adjacencyMatrix graph)) by (apply nth_In; exact Hi).
      specialize (Hcells _ Hrow). rewrite forallb_forall in Hcells.
      destruct (Nat.lt_ge_cases j (length (nth i (GraphAlgorithms.adjacencyMatrix graph) [])))
        as [Hj | Hj].
      * assert (Hcell : In (nth j (nth i (GraphAlgorithms.adjacencyMatrix graph) []) Infinity)
                           (nth i (GraphAlgorithms.adjacencyMatrix graph) []))
          by (apply nth_In; exact Hj).
        specialize (Hcells _ Hcell). rewrite Hd in Hcells. apply Qle_bool_iff. exact Hcells.
      * rewrite (nth_overflow _ _ Hj) in Hd. discriminate.
    + rewrite (nth_overflow _ _ Hi) in Hd. destruct j; discriminate.
Qed.

(** * Further properties of the engine *)

(** ** The graph of the selected cities (algorithms.ts) *)

Lemma Object_keys_obj_set {A : Type} (o : list (string * A)) (k : string) (v : A) :
  Object_keys (obj_set o k v) = JsSet.add k (Object_keys o).
Proof.
  unfold JsSet.add, JsSet.has, Object_keys.
  induction o as [|[k' v'] o IH]; cbn [obj_set map existsb fst]; [reflexivity|].
  rewrite (String.eqb_sym k k'). destruct (String.eqb k' k); cbn [orb map fst]; [reflexivity|].
  rewrite IH. destruct (existsb (String.eqb k) (map fst o)); reflexivity.
Qed.

Module FilterFacts.
Import Algorithms.

Section WithGraph.
Variable graph : RouteGraph.

(** The body of [selectedCities.forEach]. *)
Definition keep (filteredNodes : list (string * NodeData)) (cityId : string)
  : list (string * NodeData) :=
  match obj_get (nodes graph) cityId with
  | Some nd => obj_set filteredNodes cityId nd
  | None => filteredNodes
  end.

Lemma keep_keys (selected : list string) :
  forall acc,
    NoDup (Object_keys acc) ->
    NoDup (Object_keys (fold_left keep selected acc))
    /\ forall x, In x (Object_keys (fold_left keep selected acc))
                 <-> In x (Object_keys acc)
                     \/ (In x selected /\ In x (Object_keys (nodes graph))).
Proof.
  induction selected as [|c selected IH]; intros acc Hnd; cbn [fold_left].
  - split; [exact Hnd|]. intros x. simpl. tauto.
  - assert (Hstep : NoDup (Object_keys (keep acc c))
                    /\ forall x, In x (Object_keys (keep acc c))
                                 <-> In x (Object_keys acc)
                                     \/ (x = c /\ In x (Object_keys (nodes graph)))).
    { unfold keep. destruct (obj_get (nodes graph) c) as [nd|] eqn:Hc.
      - rewrite Object_keys_obj_set. split; [apply add_NoDup; exact Hnd|].
        intros x. rewrite add_In. split.
        + intros [-> | H]; [right; split; [reflexivity|] | left; exact H].
          apply obj_get_In. eauto.
        + intros [H | [-> _]]; auto.
      - split; [exact Hnd|]. intros x. split; [auto|]. intros [H | [-> H]]; [exact H|].
        apply obj_get_In in H. destruct H as [v Hv]. congruence. }
    destruct Hstep as [Hnd' Hin]. destruct (IH (keep acc c) Hnd') as [Hnd'' Hin''].
    split; [exact Hnd''|]. intros x. rewrite Hin'', Hin. simpl. split.
    + intros [[H | [-> H]] | [H1 H2]]; auto.
    + intros [H | [[<- | H1] H2]]; auto.
Qed.

(** The nodes of the filtered graph are the selected cities that the graph
    has, each once. *)
Lemma filter_keys (selected : list string) :
  selected <> [] ->
  NoDup (Object_keys (nodes (filterGraphForSelectedCities graph selected)))
  /\ forall x, In x (Object_keys (nodes (filterGraphForSelectedCities graph selected)))
               <-> In x selected /\ In x (Object_keys (nodes graph)).
Proof.
  intros Hne. destruct selected as [|c selected]; [congruence|].
  unfold filterGraphForSelectedCities. cbn [nodes].
  destruct (keep_keys (c :: selected) [] (NoDup_nil _)) as [Hnd Hin].
  split; [exact Hnd|]. intros x. rewrite (Hin x). simpl. tauto.
Qed.

Lemma filter_edges (selected : list string) (e : Edge) :
  selected <> [] ->
  In e (edges (filterGraphForSelectedCities graph selected))
  <-> In e (edges graph) /\ In (from e) selected /\ In (to e) selected.
Proof.
  intros Hne. destruct selected as [|c selected]; [congruence|].
  unfold filterGraphForSelectedCities. cbn [edges].
  rewrite filter_In, andb_true_iff, !includes_In. tauto.
Qed.

Lemma filter_valid (selected : list string) :
  valid_graph graph -> valid_graph (filterGraphForSelectedCities graph selected).
Proof.
  intros Hvalid. destruct selected as [|c rest] eqn:E; [exact Hvalid|].
  rewrite <- E. assert (Hne : selected <> []) by (rewrite E; discriminate).
  clear E. destruct (filter_keys selected Hne) as [Hnd Hkeys].
  constructor.
  - exact Hnd.
  - intros H. apply Hkeys in H. exact (vg_nonempty _ Hvalid (proj2 H)).
  - intros e He. apply (filter_edges selected e Hne) in He. destruct He as (He & Hf & Ht).
    destruct (vg_inside _ Hvalid e He) as [Hf' Ht'].
    split; apply Hkeys; auto.
  - intros a b Ha Hb Hab. apply Hkeys in Ha, Hb.
    destruct (vg_complete _ Hvalid a b (proj2 Ha) (proj2 Hb) Hab) as (e & He & Hf & Ht).
    exists e. split; [|auto]. apply (filter_edges selected e Hne).
    rewrite Hf, Ht. tauto.
  - intros e e' He He'. apply (filter_edges selected _ Hne) in He, He'.
    apply (vg_unique _ Hvalid); tauto.
  - intros e He. apply (filter_edges selected _ Hne) in He.
    apply (vg_nonneg _ Hvalid). tauto.
Qed.

End WithGraph.
End FilterFacts.
(** ** The route graph of a map (the map data file) *)

Lemma In_combine_seq {A : Type} (l : list A) :
  forall s i a, In (i, a) (combine (seq s (length l)) l)
                <-> (s <= i)%nat /\ nth_error l (i - s) = Some a.
Proof.
  induction l as [|x l IH]; intros s i a; cbn [length seq combine In].
  - split; [intros [] | intros [_ H]]. destruct (i - s)%nat; discriminate.
  - rewrite IH. split.
    + intros [E | [Hle Hn]].
      * injection E as -> ->. split; [lia|]. replace (i - i)%nat with 0%nat by lia.
        reflexivity.
      * split; [lia|]. replace (i - s)%nat with (S (i - S s)) by lia. exact Hn.
    + intros [Hle Hn]. destruct (Nat.eq_dec s i) as [-> | Hne].
      * left. replace (i - i)%nat with 0%nat in Hn by lia. cbn in Hn. congruence.
      * right. split; [lia|]. replace (i - s)%nat with (S (i - S s)) in Hn by lia.
        exact Hn.
Qed.

Lemma In_indexed {A : Type} (l : list A) (i : nat) (a : A) :
  In (i, a) (Maps.indexed l) <-> nth_error l i = Some a.
Proof.
  unfold Maps.indexed. rewrite In_combine_seq, Nat.sub_0_r. split; [tauto|].
  intros H. split; [lia | exact H].
Qed.

Lemma NoDup_flat_map {A B : Type} (f : A -> list B) (l : list A) :
  NoDup l ->
  (forall x, In x l -> NoDup (f x)) ->
  (forall x y z, In x l -> In y l -> In z (f x) -> In z (f y) -> x = y) ->
  NoDup (flat_map f l).
Proof.
  induction 1 as [|x l Hx Hnd IH]; intros Hf Hdis; cbn [flat_map]; [constructor|].
  apply List.NoDup_app.
  - apply Hf. left. reflexivity.
  - apply IH.
    + intros y Hy. apply Hf. right. exact Hy.
    + intros a b z Ha Hb. apply Hdis; right; assumption.
  - intros z Hz Hz'. apply in_flat_map in Hz'. destruct Hz' as (y & Hy & Hzy).
    apply Hx. rewrite (Hdis x y z); auto. { left. reflexivity. } right. exact Hy.
Qed.

Lemma NoDup_map_eq {A B : Type} (f : A -> B) (l : list A) :
  NoDup (map f l) -> forall x y, In x l -> In y l -> f x = f y -> x = y.
Proof.
  induction l as [|a l IH]; intros Hnd x y Hx Hy E; [destruct Hx|].
  cbn [map] in Hnd. inversion Hnd as [|? ? Ha Hl]; subst.
  destruct Hx as [-> | Hx], Hy as [-> | Hy].
  - reflexivity.
  - exfalso. apply Ha. rewrite E. apply in_map. exact Hy.
  - exfalso. apply Ha. rewrite <- E. apply in_map. exact Hx.
  - apply IH; assumption.
Qed.

Module RouteGraphFacts.
Import Maps.

Definition ends (e : Edge) : string * string := (from e, to e).

(** The edges that the loops push are good when the straight distance and the
    draws are not negative. *)
Definition good_edge (e : Edge) : Prop :=
  (0 <= distance e)%Q /\ (0 <= time e)%Q /\ (1 <= trafficFactor e)%Q.

Section WithDraws.
Variable straightDistance : Q -> Q -> Q -> Q -> Q.
Variable rnd : nat -> Q.
Variable mapType : MapType.
Hypothesis straight_nonneg : forall a b c d, (0 <= straightDistance a b c d)%Q.
Hypothesis rnd_nonneg : forall k, (0 <= rnd k)%Q.

Lemma calculateRoadDistance_nonneg (r a b c d : Q) :
  (0 <= r)%Q -> (0 <= calculateRoadDistance straightDistance r a b c d)%Q.
Proof.
  intros Hr. unfold calculateRoadDistance. cbv zeta.
  pose proof (straight_nonneg a b c d). nra.
Qed.

Lemma calculateTravelTime_nonneg (r d a b : Q) :
  (0 <= r)%Q -> (0 <= d)%Q -> (0 <= calculateTravelTime r d mapType a b)%Q.
Proof.
  intros Hr Hd. unfold calculateTravelTime. cbv zeta.
  set (s0 := match mapType with karnataka => 70%Q | bengaluru => 30%Q | mysuru => 50%Q end).
  assert (H0 : (0 <= s0)%Q) by (unfold s0; destruct mapType; lra).
  set (s1 := if Qltb 1 (Math_abs (a - b)) then (s0 * (9 # 10))%Q else s0).
  assert (H1 : (0 <= s1)%Q) by (unfold s1; destruct (Qltb 1 (Math_abs (a - b))); lra).
  set (s2 := if Qltb b (135 # 10) then (s1 * (95 # 100))%Q else s1).
  assert (H2 : (0 <= s2)%Q) by (unfold s2; destruct (Qltb b (135 # 10)); lra).
  assert (H3 : (0 <= s2 * ((9 # 10) + r * (2 # 10)))%Q) by nra.
  apply Qmult_le_0_compat; [|lra].
  unfold Qdiv. apply Qmult_le_0_compat.
  - apply Qmult_le_0_compat; [exact Hd|]. apply Qinv_le_0_compat. lra.
  - apply Qinv_le_0_compat. exact H3.
Qed.

Lemma trafficFactorOf_ge_1 (r d : Q) : (0 <= r)%Q -> (1 <= trafficFactorOf r mapType d)%Q.
Proof.
  intros Hr. unfold trafficFactorOf. destruct mapType; [|lra|lra].
  destruct (Qltb 150000 d); [lra|]. destruct (Qltb d 50000); lra.
Qed.

(** The inner loop, over [j], pushes one good edge from [loc1] to every
    location with another index, in the order of the locations. *)
Lemma inner_loop (loc1 : nat * Location) (L : list (nat * Location)) :
  forall st,
  exists es,
    fst (fold_left (addRouteEdge straightDistance rnd mapType loc1) L st) = fst st ++ es
    /\ map ends es
       = flat_map (fun loc2 => if (fst loc1 =? fst loc2)%nat then []
                               else [(loc_id (snd loc1), loc_id (snd loc2))]) L
    /\ Forall good_edge es.
Proof.
  induction L as [|loc2 L IH]; intros st; cbn [fold_left flat_map].
  - exists []. rewrite app_nil_r. repeat split; constructor.
  - destruct (fst loc1 =? fst loc2)%nat eqn:Eq.
    + replace (addRouteEdge straightDistance rnd mapType loc1 st loc2) with st
        by (unfold addRouteEdge; rewrite Eq; reflexivity).
      apply IH.
    + set (d := calculateRoadDistance straightDistance (rnd (snd st))
                  (loc_lat (snd loc1)) (loc_lng (snd loc1))
                  (loc_lat (snd loc2)) (loc_lng (snd loc2))).
      set (e := {| from := loc_id (snd loc1); to := loc_id (snd loc2); distance := d;
                   time := (calculateTravelTime (rnd (snd st + 1)%nat) d mapType
                              (loc_lat (snd loc1)) (loc_lat (snd loc2))
                            * trafficFactorOf (rnd (snd st + 2)%nat) mapType d)%Q;
                   trafficFactor := trafficFactorOf (rnd (snd st + 2)%nat) mapType d |}).
      replace (addRouteEdge straightDistance rnd mapType loc1 st loc2)
        with (fst st ++ [e], (snd st + 3)%nat)
        by (unfold addRouteEdge; rewrite Eq; reflexivity).
      destruct (IH (fst st ++ [e], (snd st + 3)%nat)) as (es & E & Hends & Hgood).
      exists (e :: es). cbn [fst] in E. rewrite <- app_assoc in E.
      split; [exact E|]. split.
      * cbn [map app]. rewrite Hends. reflexivity.
      * constructor; [|exact Hgood]. unfold good_edge, e. cbn [distance time trafficFactor].
        assert (Hd : (0 <= d)%Q) by (apply calculateRoadDistance_nonneg, rnd_nonneg).
        pose proof (calculateTravelTime_nonneg (rnd (snd st + 1)) d
                      (loc_lat (snd loc1)) (loc_lat (snd loc2)) (rnd_nonneg _) Hd).
        pose proof (trafficFactorOf_ge_1 (rnd (snd st + 2)) d (rnd_nonneg _)).
        split; [exact Hd|]. split; [nra | assumption].
Qed.

Definition pairs (L : list (nat * Location)) : list (string * string) :=
  flat_map (fun loc1 =>
              flat_map (fun loc2 => if (fst loc1 =? fst loc2)%nat then []
                                    else [(loc_id (snd loc1), loc_id (snd loc2))]) L) L.

Lemma outer_loop (L L1 : list (nat * Location)) :
  forall st,
  exists es,
    fst (fold_left (fun st loc1 => fold_left (addRouteEdge straightDistance rnd mapType loc1) L st)
                   L1 st) = fst st ++ es
    /\ map ends es
       = flat_map (fun loc1 =>
                     flat_map (fun loc2 => if (fst loc1 =? fst loc2)%nat then []
                                           else [(loc_id (snd loc1), loc_id (snd loc2))]) L) L1
    /\ Forall good_edge es.
Proof.
  induction L1 as [|loc1 L1 IH]; intros st; cbn [fold_left flat_map].
  - exists []. rewrite app_nil_r. repeat split; constructor.
  - destruct (inner_loop loc1 L st) as (es1 & E1 & Hends1 & Hgood1).
    destruct (IH (fold_left (addRouteEdge straightDistance rnd mapType loc1) L st))
      as (es & E & Hends & Hgood).
    exists (es1 ++ es). rewrite E, E1, <- app_assoc. split; [reflexivity|]. split.
    + rewrite map_app, Hends1, Hends. reflexivity.
    + apply Forall_app. split; assumption.
Qed.

Lemma routeEdges_spec (locations : list Location) :
  map ends (routeEdges straightDistance rnd mapType locations) = pairs (indexed locations)
  /\ Forall good_edge (routeEdges straightDistance rnd mapType locations).
Proof.
  unfold routeEdges.
  destruct (outer_loop (indexed locations) (indexed locations) ([], 0%nat))
    as (es & E & Hends & Hgood).
  rewrite E. cbn [fst app]. split; assumption.
Qed.

End WithDraws.

Lemma In_pairs (locations : list Location) (a b : string) :
  In (a, b) (pairs (indexed locations))
  <-> exists i j la lb,
      nth_error locations i = Some la /\ nth_error locations j = Some lb
      /\ i <> j /\ a = loc_id la /\ b = loc_id lb.
Proof.
  unfold pairs. rewrite in_flat_map. split.
  - intros ([i la] & Hi & H). apply in_flat_map in H. destruct H as ([j lb] & Hj & H).
    cbn [fst snd] in H. destruct (Nat.eqb_spec i j) as [|Hne]; [destruct H|].
    destruct H as [E | []]. injection E as <- <-.
    exists i, j, la, lb. rewrite <- !In_indexed. auto.
  - intros (i & j & la & lb & Hi & Hj & Hne & -> & ->).
    exists (i, la). split; [apply In_indexed; exact Hi|].
    apply in_flat_map. exists (j, lb). split; [apply In_indexed; exact Hj|].
    cbn [fst snd]. destruct (Nat.eqb_spec i j); [contradiction|]. left. reflexivity.
Qed.

Lemma nth_error_id (locations : list Location) (i j : nat) (la lb : Location) :
  NoDup (map loc_id locations) ->
  nth_error locations i = Some la -> nth_error locations j = Some lb ->
  loc_id la = loc_id lb -> i = j.
Proof.
  intros Hnd Hi Hj E.
  assert (Hlt : (i < length (map loc_id locations))%nat).
  { rewrite length_map. apply nth_error_Some. congruence. }
  apply (proj1 (NoDup_nth_error (map loc_id locations)) Hnd i j Hlt).
  rewrite !nth_error_map, Hi, Hj. cbn. congruence.
Qed.

Lemma NoDup_indexed {A : Type} (l : list A) : NoDup (indexed l).
Proof.
  apply (NoDup_map_inv fst). unfold indexed.
  assert (H : forall s, map fst (combine (seq s (length l)) l) = seq s (length l)).
  { induction l as [|x l IH]; intros s; cbn; [reflexivity|]. rewrite IH. reflexivity. }
  rewrite H. apply seq_NoDup.
Qed.

Lemma NoDup_pairs (locations : list Location) :
  NoDup (map loc_id locations) -> NoDup (pairs (indexed locations)).
Proof.
  intros Hnd. unfold pairs. apply NoDup_flat_map.
  - apply NoDup_indexed.
  - intros [i la] Hi. apply NoDup_flat_map.
    + apply NoDup_indexed.
    + intros [j lb] _. cbn [fst]. destruct (i =? j)%nat; repeat constructor. intros [].
    + intros [j lb] [j' lb'] z Hj Hj'. cbn [fst snd].
      destruct (i =? j)%nat; [intros []|]. destruct (i =? j')%nat; [intros _ []|].
      intros [<- | []] [E | []]. injection E as E.
      apply In_indexed in Hj, Hj'.
      assert (j' = j) by (eapply nth_error_id; eauto). subst j'. congruence.
  - intros [i la] [i' la'] z Hi Hi' Hz Hz'.
    apply in_flat_map in Hz, Hz'. destruct Hz as ([j lb] & _ & Hz), Hz' as ([j' lb'] & _ & Hz').
    cbn [fst snd] in Hz, Hz'.
    destruct (i =? j)%nat; [destruct Hz|]. destruct (i' =? j')%nat; [destruct Hz'|].
    destruct Hz as [<- | []]. destruct Hz' as [E | []]. injection E as E _.
    apply In_indexed in Hi, Hi'.
    assert (i' = i) by (eapply nth_error_id; eauto). subst i'. congruence.
Qed.

Lemma routeNodes_keys (locations : list Location) :
  NoDup (map loc_id locations) ->
  Object_keys (routeNodes locations) = map loc_id locations.
Proof.
  unfold routeNodes.
  assert (H : forall l acc,
             NoDup (Object_keys acc ++ map loc_id l) ->
             Object_keys
               (fold_left
                  (fun nodes loc =>
                     obj_set nodes (loc_id loc)
                             {| node_id := loc_id loc; lat := loc_lat loc; lng := loc_lng loc |})
                  l acc)
             = Object_keys acc ++ map loc_id l).
  { induction l as [|x l IH]; intros acc Hnd; cbn [fold_left map].
    - rewrite app_nil_r. reflexivity.
    - cbn [map] in Hnd.
      assert (Hx : JsSet.has (Object_keys acc) (loc_id x) = false).
      { apply has_not_In. intros Hin. apply NoDup_remove_2 in Hnd. apply Hnd.
        apply in_or_app. left. exact Hin. }
      rewrite IH; rewrite Object_keys_obj_set; unfold JsSet.add; rewrite Hx;
        rewrite <- app_assoc; [reflexivity | exact Hnd]. }
  intros Hnd. apply (H locations []). exact Hnd.
Qed.

Section Valid.
Variable straightDistance : Q -> Q -> Q -> Q -> Q.
Variable rnd : nat -> Q.
Variable mapType : MapType.
Hypothesis straight_nonneg : forall a b c d, (0 <= straightDistance a b c d)%Q.
Hypothesis rnd_nonneg : forall k, (0 <= rnd k)%Q.

(** A table of locations with distinct ids gives a valid graph. *)
Lemma routeGraph_valid (locations : list Location) :
  NoDup (map loc_id locations) -> ~ In "" (map loc_id locations) ->
  valid_graph {| nodes := routeNodes locations;
                 edges := routeEdges straightDistance rnd mapType locations |}.
Proof.
  intros Hnd Hne.
  destruct (routeEdges_spec straightDistance rnd mapType straight_nonneg rnd_nonneg locations)
    as [Hends Hgood].
  pose proof (routeNodes_keys locations Hnd) as Hkeys.
  rewrite Forall_forall in Hgood.
  assert (Hin : forall e, In e (routeEdges straightDistance rnd mapType locations) ->
                          In (from e, to e) (pairs (indexed locations))).
  { intros e He. rewrite <- Hends. apply (in_map ends) in He. exact He. }
  constructor; cbn [nodes edges]; rewrite ?Hkeys.
  - exact Hnd.
  - exact Hne.
  - intros e He. apply Hin, In_pairs in He.
    destruct He as (i & j & la & lb & Hi & Hj & _ & -> & ->).
    split; apply in_map; eapply nth_error_In; eauto.
  - intros a b Ha Hb Hab. cbn [nodes edges] in *. rewrite Hkeys in Ha, Hb.
    apply in_map_iff in Ha, Hb. destruct Ha as (la & <- & Ha), Hb as (lb & <- & Hb).
    apply In_nth_error in Ha, Hb. destruct Ha as [i Hi], Hb as [j Hj].
    assert (Hp : In (loc_id la, loc_id lb) (pairs (indexed locations))).
    { apply In_pairs. exists i, j, la, lb. repeat split; auto. intros ->. congruence. }
    rewrite <- Hends in Hp. apply in_map_iff in Hp. destruct Hp as (e & E & He).
    exists e. injection E as Ef Et. auto.
  - intros e e' He He' Ef Et.
    apply (NoDup_map_eq ends (routeEdges straightDistance rnd mapType locations)); auto.
    + rewrite Hends. apply NoDup_pairs. exact Hnd.
    + unfold ends. congruence.
  - intros e He. apply (Hgood e He).
Qed.

End Valid.
End RouteGraphFacts.

(** X1. [getRouteGraph] builds, for each of the three maps and whatever the
    random draws (as long as the straight distance and the draws are not
    negative), a graph whose nodes are the locations of the map in their
    order, with exactly one edge for every ordered pair of different
    locations, [n * (n - 1)] edges in all, each with a distance and a time
    that are not negative and a traffic factor of at least 1. *)
Theorem getRouteGraph_valid (straightDistance : Q -> Q -> Q -> Q -> Q) (rnd : nat -> Q)
        (mapType : MapType) :
  (forall a b c d, (0 <= straightDistance a b c d)%Q) ->
  (forall k, (0 <= rnd k)%Q) ->
  let graph := Maps.getRouteGraph straightDistance rnd mapType in
  let n := length (Maps.mapLocations mapType) in
  valid_graph graph
  /\ Object_keys (nodes graph) = map loc_id (Maps.mapLocations mapType)
  /\ length (edges graph) = (n * (n - 1))%nat
  /\ forall e, In e (edges graph) -> (0 <= time e)%Q /\ (1 <= trafficFactor e)%Q.
Proof.
  intros Hs Hr graph n.
  assert (Hnd : NoDup (map loc_id (Maps.mapLocations mapType)))
    by (apply nodupb_NoDup; destruct mapType; vm_compute; reflexivity).
  assert (Hne : ~ In "" (map loc_id (Maps.mapLocations mapType)))
    by (apply has_not_In; destruct mapType; vm_compute; reflexivity).
  destruct (RouteGraphFacts.routeEdges_spec straightDistance rnd mapType Hs Hr
              (Maps.mapLocations mapType)) as [Hends Hgood].
  split; [|split; [|split]].
  - apply RouteGraphFacts.routeGraph_valid; assumption.
  - apply RouteGraphFacts.routeNodes_keys. exact Hnd.
  - unfold graph, Maps.getRouteGraph. cbn [edges].
    rewrite <- (length_map RouteGraphFacts.ends), Hends.
    unfold n. destruct mapType; vm_compute; reflexivity.
  - intros e He. rewrite Forall_forall in Hgood. destruct (Hgood e He) as (_ & Ht & Hf).
    split; assumption.
Qed.

Lemma getRouteGraph_valid_witness :
  let graph := Maps.getRouteGraph (fun _ _ _ _ => 100000%Q) (fun _ => (1 # 2)%Q) mysuru in
  valid_graph graph
  /\ Object_keys (nodes graph) = map loc_id (Maps.mapLocations mysuru)
  /\ length (edges graph) = (7 * (7 - 1))%nat
  /\ forall e, In e (edges graph) -> (0 <= time e)%Q /\ (1 <= trafficFactor e)%Q.
Proof.
  apply (getRouteGraph_valid (fun _ _ _ _ => 100000%Q) (fun _ => (1 # 2)%Q) mysuru).
  - intros. discriminate.
  - intros. discriminate.
Defined.


(** ** The selected cities *)

(** Selected cities that are distinct nodes of the graph are the nodes of the
    filtered graph, in the order of the selection. *)
Lemma filter_keys_exact (graph : RouteGraph) (selected : list string) :
  NoDup selected -> incl selected (Object_keys (nodes graph)) -> selected <> [] ->
  Object_keys (nodes (Algorithms.filterGraphForSelectedCities graph selected)) = selected.
Proof.
  intros Hnd Hincl Hne.
  assert (H : forall l acc,
             NoDup (Object_keys acc ++ l) -> incl l (Object_keys (nodes graph)) ->
             Object_keys (fold_left (FilterFacts.keep graph) l acc) = Object_keys acc ++ l).
  { induction l as [|x l IH]; intros acc Hn Hi; cbn [fold_left].
    - rewrite app_nil_r. reflexivity.
    - assert (Hx : JsSet.has (Object_keys acc) x = false).
      { apply has_not_In. intros Hin. apply NoDup_remove_2 in Hn. apply Hn.
        apply in_or_app. left. exact Hin. }
      assert (Hk : Object_keys (FilterFacts.keep graph acc x) = Object_keys acc ++ [x]).
      { unfold FilterFacts.keep.
        destruct (proj1 (obj_get_In (nodes graph) x) (Hi x (or_introl eq_refl))) as [nd Hnd'].
        rewrite Hnd', Object_keys_obj_set. unfold JsSet.add. rewrite Hx. reflexivity. }
      rewrite IH.
      + rewrite Hk, <- app_assoc. reflexivity.
      + rewrite Hk, <- app_assoc. exact Hn.
      + intros y Hy. apply Hi. right. exact Hy. }
  destruct selected as [|c rest]; [congruence|].
  unfold Algorithms.filterGraphForSelectedCities. cbn [nodes].
  apply (H (c :: rest) []); assumption.
Qed.

(** X2. [filterGraphForSelectedCities] with a selection that is not empty:
    the nodes of the result are the selected cities that the graph has (a
    selected id that is not a node is dropped), its edges are the edges of the
    graph between two selected cities, and the result of a valid graph is a
    valid graph, complete on the cities kept. *)
Theorem filterGraphForSelectedCities_subgraph (graph : RouteGraph) (selected : list string) :
  valid_graph graph -> selected <> [] ->
  let filtered := Algorithms.filterGraphForSelectedCities graph selected in
  valid_graph filtered
  /\ (forall x, In x (Object_keys (nodes filtered))
                <-> In x selected /\ In x (Object_keys (nodes graph)))
  /\ (forall e, In e (edges filtered)
                <-> In e (edges graph) /\ In (from e) selected /\ In (to e) selected).
Proof.
  intros Hv Hne filtered. split; [|split].
  - apply FilterFacts.filter_valid. exact Hv.
  - apply (FilterFacts.filter_keys graph selected Hne).
  - intros e. apply FilterFacts.filter_edges. exact Hne.
Qed.

Lemma filterGraphForSelectedCities_subgraph_witness :
  let filtered := Algorithms.filterGraphForSelectedCities Examples.squareGraph ["c"; "a"; "z"] in
  valid_graph filtered
  /\ (forall x, In x (Object_keys (nodes filtered))
                <-> In x ["c"; "a"; "z"] /\ In x (Object_keys (nodes Examples.squareGraph)))
  /\ (forall e, In e (edges filtered)
                <-> In e (edges Examples.squareGraph)
                    /\ In (from e) ["c"; "a"; "z"] /\ In (to e) ["c"; "a"; "z"]).
Proof.
  apply (filterGraphForSelectedCities_subgraph Examples.squareGraph ["c"; "a"; "z"]).
  - apply valid_graphb_sound. vm_compute. reflexivity.
  - discriminate.
Defined.

(** ** The metrics of a path *)

Lemma sumPath_nonneg (graph : RouteGraph) (path : list string) :
  (forall e, In e (edges graph) -> (0 <= distance e)%Q /\ (0 <= time e)%Q) ->
  forall acc, (0 <= fst acc)%Q /\ (0 <= snd acc)%Q ->
              (0 <= fst (Algorithms.sumPath graph path acc))%Q
              /\ (0 <= snd (Algorithms.sumPath graph path acc))%Q.
Proof.
  intros Hpos. induction path as [|a path IH]; intros acc Hacc; [exact Hacc|].
  destruct path as [|b path]; [exact Hacc|].
  change (Algorithms.sumPath graph (a :: b :: path) acc)
    with (Algorithms.sumPath graph (b :: path)
            match Algorithms.find_edge graph a b with
            | Some e => (fst acc + distance e, snd acc + time e)%Q
            | None => acc
            end).
  apply IH. destruct (Algorithms.find_edge graph a b) as [e|] eqn:He; [|exact Hacc].
  apply find_some in He. destruct (Hpos e (proj1 He)) as [Hd Ht].
  cbn [fst snd]. split; lra.
Qed.

Lemma metrics_bounds (path : list string) (graph : RouteGraph)
        (params : SimulationParams) :
  (forall e, In e (edges graph) -> (0 <= distance e)%Q /\ (0 <= time e)%Q) ->
  let m := Algorithms.calculatePathMetrics path graph params in
  (0 <= m_distance m)%Q /\ (0 <= m_time m)%Q /\ (0 <= m_cost m)%Q /\ (0 <= m_fuel m)%Q
  /\ ((9 # 10) <= m_trafficImpact m)%Q /\ (1 <= m_weatherImpact m)%Q.
Proof.
  intros Hpos m. unfold m, Algorithms.calculatePathMetrics.
  destruct (length path <? 2)%nat.
  { cbn. repeat split; discriminate. }
  destruct (sumPath_nonneg graph path Hpos (0, 0)%Q) as [Hd Ht].
  { cbn. split; discriminate. }
  destruct (Algorithms.sumPath graph path (0, 0)%Q) as [d t]. cbn [fst snd] in Hd, Ht.
  cbv zeta. cbn [m_distance m_time m_cost m_fuel m_trafficImpact m_weatherImpact].
  set (w := Algorithms.getWeatherImpact (weather params)).
  set (ti := Algorithms.getTimeOfDayImpact (timeOfDay params)).
  set (v := Algorithms.getVehicleEfficiency (vehicle params)).
  assert (Hw : (1 <= w)%Q) by (unfold w; destruct (weather params); cbn; lra).
  assert (Hti : ((9 # 10) <= ti)%Q) by (unfold ti; destruct (timeOfDay params); cbn; lra).
  assert (Hv : (0 < Algorithms.speedFactor v)%Q /\ (0 <= Algorithms.fuelRate v)%Q
               /\ (0 <= Algorithms.costPerKm v)%Q)
    by (unfold v; destruct (vehicle params); cbn; repeat split; lra).
  destruct Hv as (Hs & Hf & Hc).
  assert (Hkm : (0 <= d / 1000)%Q).
  { unfold Qdiv. apply Qmult_le_0_compat; [exact Hd | discriminate]. }
  assert (Hat : (0 <= t * w * ti / Algorithms.speedFactor v)%Q).
  { unfold Qdiv. apply Qmult_le_0_compat; [|apply Qinv_le_0_compat; lra].
    apply Qmult_le_0_compat; [|lra]. apply Qmult_le_0_compat; lra. }
  assert (Hdr : (0 <= t * w * ti / Algorithms.speedFactor v / 3600 * 200)%Q).
  { apply Qmult_le_0_compat; [|discriminate].
    unfold Qdiv at 1. apply Qmult_le_0_compat; [exact Hat | discriminate]. }
  assert (Hfu : (0 <= d / 1000 * Algorithms.fuelRate v)%Q)
    by (apply Qmult_le_0_compat; assumption).
  assert (Hco : (0 <= d / 1000 * Algorithms.costPerKm v)%Q)
    by (apply Qmult_le_0_compat; assumption).
  repeat split; try assumption.
  assert (0 <= d / 1000 * Algorithms.fuelRate v * 100)%Q
    by (apply Qmult_le_0_compat; [assumption | discriminate]).
  lra.
Qed.

(** X3. On a graph whose edges have a distance and a time that are not
    negative, [calculatePathMetrics] gives a distance, a time, a cost and a
    fuel consumption that are not negative, for every path (also one with
    missing edges or unknown nodes) and all conditions; the traffic factor it
    reports is at least 0.9 and the weather factor at least 1. *)
Theorem calculatePathMetrics_nonneg (path : list string) (graph : RouteGraph)
        (params : SimulationParams) :
  (forall e, In e (edges graph) -> (0 <= distance e)%Q /\ (0 <= time e)%Q) ->
  let m := Algorithms.calculatePathMetrics path graph params in
  (0 <= m_distance m)%Q /\ (0 <= m_time m)%Q /\ (0 <= m_cost m)%Q /\ (0 <= m_fuel m)%Q
  /\ ((9 # 10) <= m_trafficImpact m)%Q /\ (1 <= m_weatherImpact m)%Q.
Proof. apply metrics_bounds. Qed.

Lemma calculatePathMetrics_nonneg_witness :
  let m := Algorithms.calculatePathMetrics ["a"; "c"; "z"; "a"] Examples.squareGraph
             (Examples.request nearest_neighbor "a" (Some ["a"; "c"])) in
  (0 <= m_distance m)%Q /\ (0 <= m_time m)%Q /\ (0 <= m_cost m)%Q /\ (0 <= m_fuel m)%Q
  /\ ((9 # 10) <= m_trafficImpact m)%Q /\ (1 <= m_weatherImpact m)%Q.
Proof.
  apply (calculatePathMetrics_nonneg ["a"; "c"; "z"; "a"] Examples.squareGraph
           (Examples.request nearest_neighbor "a" (Some ["a"; "c"]))).
  intros e He. vm_compute in He.
  repeat (destruct He as [<- | He]; [split; discriminate|]). destruct He.
Defined.


(** ** Brute force of algorithms.ts *)

Lemma nth_split_at {A : Type} (d : A) (i : nat) :
  forall l, i < length l -> l = firstn i l ++ nth i l d :: skipn (i + 1) l.
Proof.
  induction i as [|i IH]; intros [|x l] Hi; simpl in Hi; try lia; [reflexivity|].
  cbn [firstn nth Nat.add skipn app]. f_equal. apply IH. lia.
Qed.

Lemma filter_all {A : Type} (f : A -> bool) (l : list A) :
  (forall x, In x l -> f x = true) -> filter f l = l.
Proof.
  induction l as [|x l IH]; intros H; [reflexivity|]. cbn [filter].
  rewrite (H x (or_introl eq_refl)), IH; [reflexivity|]. intros y Hy. apply H. right. exact Hy.
Qed.

Lemma filter_start_perm (keys : list string) (start : string) :
  NoDup keys -> In start keys ->
  Permutation (start :: filter (fun node => negb (String.eqb node start)) keys) keys.
Proof.
  induction keys as [|k keys IH]; intros Hnd Hin; [destruct Hin|].
  inversion Hnd as [|? ? Hk Hnd']; subst. cbn [filter].
  destruct (String.eqb_spec k start) as [-> | Hne]; cbn [negb].
  - apply perm_skip. rewrite filter_all; [reflexivity|].
    intros y Hy. destruct (String.eqb_spec y start) as [-> | _]; [contradiction | reflexivity].
  - destruct Hin as [E | Hin]; [contradiction|].
    rewrite perm_swap. apply perm_skip. apply IH; assumption.
Qed.

Module BruteForceTSPFacts.
Import Algorithms.

(** [permute] lists the permutations of the array, and all of them. *)
Lemma permute_fuel_sound (fuel : nat) :
  forall arr l, In l (permute_fuel fuel arr) -> Permutation l arr.
Proof.
  induction fuel as [|fuel IH]; intros arr l Hin; cbn [permute_fuel] in Hin;
    destruct (length arr <=? 1)%nat.
  - destruct Hin as [<- | []]. reflexivity.
  - destruct Hin.
  - destruct Hin as [<- | []]. reflexivity.
  - apply in_flat_map in Hin. destruct Hin as (i & Hi & Hin). apply in_seq in Hi.
    cbv zeta in Hin. apply in_map_iff in Hin. destruct Hin as (perm & <- & Hperm).
    apply IH in Hperm. rewrite (nth_split_at "" i arr) at 2 by lia.
    apply Permutation_cons_app. exact Hperm.
Qed.

Lemma permute_fuel_complete (fuel : nat) :
  forall arr l, length arr <= fuel -> Permutation l arr -> In l (permute_fuel fuel arr).
Proof.
  induction fuel as [|fuel IH]; intros arr l Hlen Hperm; cbn [permute_fuel];
    destruct (length arr <=? 1)%nat eqn:Hshort.
  - destruct arr; [|simpl in Hlen; lia]. apply Permutation_sym, Permutation_nil in Hperm.
    left. auto.
  - apply Nat.leb_gt in Hshort. lia.
  - apply Nat.leb_le in Hshort. left.
    destruct arr as [|a [|b arr]]; [| |simpl in Hshort; lia].
    + apply Permutation_sym, Permutation_nil in Hperm. auto.
    + apply Permutation_sym, Permutation_length_1_inv in Hperm. auto.
  - apply Nat.leb_gt in Hshort.
    destruct l as [|x l].
    { apply Permutation_nil in Hperm. subst. simpl in Hshort. lia. }
    assert (Hx : In x arr) by (apply (Permutation_in _ Hperm); left; reflexivity).
    destruct (In_nth arr x "" Hx) as (i & Hi & Hnth).
    apply in_flat_map. exists i. split; [apply in_seq; lia|]. cbv zeta.
    rewrite Hnth. apply in_map. apply IH.
    + rewrite length_app, length_firstn, length_skipn. lia.
    + rewrite (nth_split_at "" i arr Hi), Hnth in Hperm.
      apply Permutation_cons_app_inv in Hperm. exact Hperm.
Qed.

Lemma permute_spec (arr l : list string) : In l (permute arr) <-> Permutation l arr.
Proof.
  split; [apply permute_fuel_sound | apply permute_fuel_complete; apply Nat.le_refl].
Qed.

Section WithGraph.
Variable graph : RouteGraph.
Variable start : string.
Hypothesis Hvalid : valid_graph graph.
Hypothesis Hstart : In start (Object_keys (nodes graph)).

Let keys := Object_keys (nodes graph).
Let otherNodes := filter (fun node => negb (String.eqb node start)) keys.

(** The distance of a path all of whose legs are edges is the distance that
    the metrics count. *)
Lemma pathDistance_total (path : list string) :
  forall acc t,
    (forall a b, In (a, b) (consecutive path) -> find_edge graph a b <> None) ->
    pathDistance graph path acc = Some (fst (sumPath graph path (acc, t))).
Proof.
  induction path as [|a path IH]; intros acc t Hall; [reflexivity|].
  destruct path as [|b path]; [reflexivity|].
  change (pathDistance graph (a :: b :: path) acc)
    with (match find_edge graph a b with
          | Some e => pathDistance graph (b :: path) (acc + distance e)%Q
          | None => None
          end).
  rewrite CostFacts.sumPath_step.
  destruct (find_edge graph a b) as [e|] eqn:He.
  - cbn [fst snd]. apply IH. intros x y Hxy. apply Hall.
    change (consecutive (a :: b :: path)) with ((a, b) :: consecutive (b :: path)).
    right. exact Hxy.
  - exfalso. apply (Hall a b); [|exact He].
    change (consecutive (a :: b :: path)) with ((a, b) :: consecutive (b :: path)).
    left. reflexivity.
Qed.

(** Every leg of a tour of two nodes or more is an edge of the graph. *)
Lemma tour_legs (interior : list string) :
  Permutation (start :: interior) keys -> 2 <= length keys ->
  forall a b, In (a, b) (consecutive ((start :: interior) ++ [start])) ->
              find_edge graph a b <> None.
Proof.
  intros Hperm Hlen a b Hab.
  assert (Hnd : NoDup (start :: interior)).
  { apply (Permutation_NoDup (Permutation_sym Hperm)). apply (vg_nodup _ Hvalid). }
  assert (Hne : a <> b).
  { apply (consecutive_distinct (start :: interior) start a b Hnd); [| eauto | exact Hab].
    rewrite (Permutation_length Hperm). exact Hlen. }
  destruct (consecutive_In _ _ _ Hab) as [Ha Hb].
  assert (Hk : forall x, In x ((start :: interior) ++ [start]) -> In x keys).
  { intros x Hx. apply in_app_iff in Hx. destruct Hx as [Hx | [<- | []]]; [|exact Hstart].
    apply (Permutation_in _ Hperm). exact Hx. }
  destruct (CostFacts.find_edge_complete graph Hvalid a b (Hk a Ha) (Hk b Hb) Hne) as [e He].
  rewrite He. discriminate.
Qed.

Lemma tour_pathDistance (interior : list string) :
  Permutation (start :: interior) keys -> 2 <= length keys ->
  pathDistance graph (start :: interior ++ [start]) 0
  = Some (CostFacts.tourDistance graph (start :: interior ++ [start])).
Proof.
  intros Hperm Hlen. apply pathDistance_total. apply (tour_legs interior Hperm Hlen).
Qed.

(** The incumbent of the loop over the permutations. *)
Definition incumbent (perms : list (list string)) (st : list string * num) : Prop :=
  (st = ([], Infinity)
   \/ exists perm, In perm perms /\ fst st = start :: perm ++ [start]
                   /\ snd st = Fin (CostFacts.tourDistance graph (fst st)))
  /\ forall perm, In perm perms ->
                  num_le (snd st) (Fin (CostFacts.tourDistance graph (start :: perm ++ [start]))).

Lemma bruteStep_incumbent (perms : list (list string)) :
  2 <= length keys ->
  (forall perm, In perm perms -> Permutation (start :: perm) keys) ->
  forall seen st,
    incumbent seen st ->
    incumbent (seen ++ perms) (fold_left (bruteStep graph start) perms st).
Proof.
  intros Hlen. induction perms as [|perm perms IH]; intros Hall seen st Hst; cbn [fold_left].
  - rewrite app_nil_r. exact Hst.
  - replace (seen ++ perm :: perms) with ((seen ++ [perm]) ++ perms)
      by (rewrite <- app_assoc; reflexivity).
    apply IH; [intros p Hp; apply Hall; right; exact Hp|].
    unfold bruteStep. cbv zeta.
    rewrite (tour_pathDistance perm (Hall perm (or_introl eq_refl)) Hlen).
    destruct Hst as [Hcur Hmin].
    destruct (num_ltb (Fin (CostFacts.tourDistance graph (start :: perm ++ [start]))) (snd st))
      eqn:Hlt.
    + split.
      * right. exists perm. cbn [fst snd]. split; [|auto].
        apply in_or_app. right. left. reflexivity.
      * intros p Hp. cbn [snd]. apply in_app_iff in Hp. destruct Hp as [Hp | [<- | []]].
        -- apply (num_le_trans _ (snd st)); [apply num_ltb_le; exact Hlt | apply Hmin; exact Hp].
        -- apply num_le_refl.
    + split.
      * destruct Hcur as [-> | (p & Hp & Hf & Hs)]; [left; reflexivity|].
        right. exists p. split; [apply in_or_app; left; exact Hp | auto].
      * intros p Hp. apply in_app_iff in Hp. destruct Hp as [Hp | [<- | []]].
        -- apply Hmin. exact Hp.
        -- apply num_ltb_false_le. exact Hlt.
Qed.

(** With two to nine nodes the enumeration returns a tour, and no tour is
    shorter. *)
Lemma bruteForceTSP_optimal :
  2 <= length keys <= 9 ->
  tour_of keys start (bruteForceTSP graph start)
  /\ forall tour, tour_of keys start tour ->
                  (CostFacts.tourDistance graph (bruteForceTSP graph start)
                   <= CostFacts.tourDistance graph tour)%Q.
Proof.
  intros [Hlo Hhi].
  pose proof (filter_start_perm keys start (vg_nodup _ Hvalid) Hstart) as Hfp.
  fold otherNodes in Hfp.
  assert (Hlen : S (length otherNodes) = length keys)
    by (apply (Permutation_length Hfp)).
  unfold bruteForceTSP. cbv zeta. fold keys. fold otherNodes.
  replace (8 <? length otherNodes)%nat with false by (symmetry; apply Nat.ltb_ge; lia).
  assert (Hperms : forall perm, In perm (permute otherNodes) -> Permutation (start :: perm) keys).
  { intros perm Hp. apply permute_spec in Hp. rewrite Hp. exact Hfp. }
  pose proof (bruteStep_incumbent (permute otherNodes) Hlo Hperms [] ([], Infinity)) as Hinc.
  cbn [app] in Hinc.
  destruct Hinc as [Hcur Hmin].
  { split; [left; reflexivity|]. intros p []. }
  set (st := fold_left (bruteStep graph start) (permute otherNodes) ([], Infinity)) in *.
  assert (Hself : In otherNodes (permute otherNodes)) by (apply permute_spec; reflexivity).
  destruct Hcur as [E | (p & Hp & Hf & Hs)].
  { exfalso. specialize (Hmin otherNodes Hself). rewrite E in Hmin. discriminate Hmin. }
  rewrite Hf. cbn [length Nat.ltb Nat.leb]. rewrite <- Hf.
  split.
  - exists p. split; [exact Hf|]. apply Hperms. exact Hp.
  - intros tour (interior & -> & Hperm).
    assert (Hi : In interior (permute otherNodes)).
    { apply permute_spec. apply (Permutation_cons_inv (a:=start)).
      rewrite Hperm. symmetry. exact Hfp. }
    specialize (Hmin interior Hi). rewrite Hs in Hmin. apply num_le_Fin in Hmin. exact Hmin.
Qed.

End WithGraph.
End BruteForceTSPFacts.

(** [permute] returns [n!] lists for an array of [n]. *)
Lemma flat_map_const_length {A B : Type} (f : A -> list B) (k : nat) (l : list A) :
  (forall x, In x l -> length (f x) = k) -> length (flat_map f l) = length l * k.
Proof.
  induction l as [|x l IH]; intros H; [reflexivity|]. cbn [flat_map length].
  rewrite length_app, (H x (or_introl eq_refl)), IH; [lia|].
  intros y Hy. apply H. right. exact Hy.
Qed.

Lemma permute_fuel_length (fuel : nat) :
  forall arr, length arr <= fuel ->
              length (Algorithms.permute_fuel fuel arr) = fact (length arr).
Proof.
  induction fuel as [|fuel IH]; intros arr Hlen; cbn [Algorithms.permute_fuel];
    destruct (length arr <=? 1)%nat eqn:E.
  - destruct arr; [reflexivity | simpl in Hlen; lia].
  - apply Nat.leb_gt in E. lia.
  - apply Nat.leb_le in E. destruct arr as [|a [|b arr]]; [reflexivity | reflexivity|].
    simpl in E. lia.
  - apply Nat.leb_gt in E. cbv zeta.
    rewrite (flat_map_const_length _ (fact (length arr - 1))).
    + rewrite length_seq. destruct (length arr) as [|m]; [lia|].
      replace (S m - 1) with m by lia. reflexivity.
    + intros i Hi. apply in_seq in Hi. rewrite length_map, IH.
      * rewrite length_app, length_firstn, length_skipn. f_equal. lia.
      * rewrite length_app, length_firstn, length_skipn. lia.
Qed.


(** ** The greedy choice of nearest neighbour (algorithms.ts) *)

Module GreedyFacts.
Import Algorithms NearestNeighborFacts.

(** The scan keeps a distance that no eligible edge beats. *)
Lemma nearest_fold_min (current : string) (visited : JsSet.t) (es : list Edge) :
  forall st,
    let r := fold_left (nearestStep current visited) es st in
    num_le (snd r) (snd st)
    /\ forall e, In e es -> eligible current visited e = true ->
                 num_le (snd r) (Fin (distance e)).
Proof.
  induction es as [|e es IH]; intros st; cbn [fold_left].
  - split; [apply num_le_refl | intros e []].
  - assert (Hstep : nearestStep current visited st e
                   = if eligible current visited e
                     then if num_ltb (Fin (distance e)) (snd st)
                          then (to e, Fin (distance e)) else st
                     else st) by reflexivity.
    destruct (eligible current visited e) eqn:He.
    + destruct (num_ltb (Fin (distance e)) (snd st)) eqn:Hlt; rewrite Hstep.
      * destruct (IH (to e, Fin (distance e))) as [Hle Hmin]. cbn [snd] in Hle.
        split; [apply (num_le_trans _ _ _ Hle), num_ltb_le; exact Hlt|].
        intros e' [<- | Hin] He'; [exact Hle | apply Hmin; assumption].
      * destruct (IH st) as [Hle Hmin].
        split; [exact Hle|].
        intros e' [<- | Hin] He'; [|apply Hmin; assumption].
        apply (num_le_trans _ _ _ Hle). apply num_ltb_false_le. exact Hlt.
    + rewrite Hstep. destruct (IH st) as [Hle Hmin]. split; [exact Hle|].
      intros e' [<- | Hin] He'; [congruence | apply Hmin; assumption].
Qed.

(** The edge that the scan chooses is a shortest edge from [current] to an
    unvisited node. *)
Lemma findNearest_min (graph : RouteGraph) (current : string) (visited : JsSet.t) :
  (findNearest graph current visited = ""
   /\ forall e, In e (edges graph) -> eligible current visited e = false)
  \/ (exists e, In e (edges graph) /\ from e = current /\ ~ In (to e) visited
                /\ findNearest graph current visited = to e
                /\ forall e', In e' (edges graph) -> from e' = current ->
                              ~ In (to e') visited -> (distance e <= distance e')%Q).
Proof.
  unfold findNearest.
  destruct (nearest_fold_min current visited (edges graph) ("", Infinity)) as [_ Hmin].
  destruct (nearest_fold current visited (edges graph) ("", Infinity))
    as [[Hr Hinf] | (e & Hin & He & Hr)].
  - left. rewrite Hr. split; [reflexivity | apply Hinf; reflexivity].
  - right. exists e. rewrite Hr in *. cbn [fst snd] in *. unfold eligible in He.
    apply andb_true_iff in He. destruct He as [H1 H2].
    apply String.eqb_eq in H1. apply negb_true_iff, has_not_In in H2.
    repeat split; auto.
    intros e' Hin' Hfrom' Hto'. apply num_le_Fin. apply Hmin; [exact Hin'|].
    unfold eligible. rewrite Hfrom', String.eqb_refl.
    apply has_not_In in Hto'. rewrite Hto'. reflexivity.
Qed.

(** A greedy path: every leg is an edge of the graph that is at most as long
    as any edge from the same node to a node not yet on the path. *)
Definition greedy (graph : RouteGraph) (path : list string) : Prop :=
  forall k, S k < length path ->
            exists e, In e (edges graph)
                      /\ from e = nth k path "" /\ to e = nth (S k) path ""
                      /\ forall e', In e' (edges graph) -> from e' = nth k path "" ->
                                    ~ In (to e') (firstn (S k) path) ->
                                    (distance e <= distance e')%Q.

Lemma greedy_snoc (graph : RouteGraph) (path : list string) (e : Edge) :
  path <> [] -> greedy graph path ->
  In e (edges graph) -> from e = List.last path "" ->
  (forall e', In e' (edges graph) -> from e' = List.last path "" ->
              ~ In (to e') path -> (distance e <= distance e')%Q) ->
  greedy graph (path ++ [to e]).
Proof.
  intros Hne Hg He Hfrom Hmin k Hk. rewrite length_app in Hk. cbn [length] in Hk.
  assert (Hlast : List.last path "" = nth (length path - 1) path "").
  { destruct path as [|a path]; [congruence|].
    replace (a :: path) with (firstn (S (length (a :: path) - 1)) (a :: path)) at 1
      by (replace (S (length (a :: path) - 1)) with (length (a :: path))
            by (simpl; lia); apply firstn_all).
    apply last_firstn_nth. simpl. lia. }
  destruct (Nat.eq_dec (S k) (length path)) as [E | E].
  - exists e. replace k with (length path - 1) by lia.
    rewrite app_nth1 by (destruct path; [congruence | simpl; lia]).
    replace (S (length path - 1)) with (length path) by lia.
    rewrite nth_middle, <- Hlast.
    rewrite firstn_app, firstn_all, Nat.sub_diag. cbn [firstn]. rewrite app_nil_r.
    auto.
  - destruct (Hg k) as (e0 & He0 & Hf0 & Ht0 & Hmin0); [lia|].
    exists e0. rewrite !app_nth1 by lia.
    rewrite firstn_app. replace (S k - length path) with 0 by lia.
    cbn [firstn]. rewrite app_nil_r. auto.
Qed.

Lemma nn_loop_greedy (graph : RouteGraph) (n : nat) :
  forall fuel path current,
    path <> [] -> List.last path "" = current ->
    greedy graph path ->
    greedy graph (snd (nn_loop fuel graph n path path current)).
Proof.
  induction fuel as [|fuel IH]; intros path current Hne Hl Hg; cbn [nn_loop];
    [exact Hg|].
  destruct (JsSet.size path <? n)%nat; [|exact Hg].
  destruct (findNearest_min graph current path)
    as [[Hn Hnone] | (e & Hin & Hfrom & Hnot & Hn & Hmin)]; rewrite Hn; [exact Hg|].
  destruct (String.eqb (to e) ""); [exact Hg|].
  assert (Hadd : JsSet.add (to e) path = path ++ [to e]).
  { unfold JsSet.add. apply has_not_In in Hnot. rewrite Hnot. reflexivity. }
  rewrite Hadd. apply IH.
  - destruct path; discriminate.
  - apply last_last.
  - apply greedy_snoc; [exact Hne | exact Hg | exact Hin | congruence |].
    rewrite Hl. exact Hmin.
Qed.

End GreedyFacts.

(** X4. On a valid graph, [nearestNeighborTSP] from a node of the graph
    returns a tour: the start, every other node once, and the start again.
    Every leg of it but the return is a shortest edge from its node to the
    nodes that the path has not yet visited. *)
Theorem nearestNeighborTSP_greedy_tour (graph : RouteGraph) (start : string) :
  valid_graph graph -> In start (Object_keys (nodes graph)) ->
  exists interior,
    Algorithms.nearestNeighborTSP graph start = start :: interior ++ [start]
    /\ Permutation (start :: interior) (Object_keys (nodes graph))
    /\ GreedyFacts.greedy graph (start :: interior).
Proof.
  intros Hv Hstart.
  destruct (nearestNeighborTSP_tour graph start Hv Hstart) as (interior & Hp & Hperm).
  exists interior. split; [exact Hp|]. split; [exact Hperm|].
  pose proof (GreedyFacts.nn_loop_greedy graph (length (Object_keys (nodes graph)))
                (length (Object_keys (nodes graph))) [start] start
                ltac:(discriminate) eq_refl) as Hg.
  unfold Algorithms.nearestNeighborTSP in Hp. cbv zeta in Hp.
  change (JsSet.add start []) with [start] in Hp.
  destruct (Algorithms.nn_loop (length (Object_keys (nodes graph))) graph
              (length (Object_keys (nodes graph))) [start] [start] start)
    as [visited path] eqn:Hloop.
  cbn [snd] in Hg.
  assert (Hg' : GreedyFacts.greedy graph path).
  { apply Hg. intros k Hk. simpl in Hk. lia. }
  pose proof (NearestNeighborFacts.nn_loop_spec graph (Object_keys (nodes graph)) start
                (fun e He => proj2 (vg_inside _ Hv e He))
                (length (Object_keys (nodes graph))) [start] [start] start) as Hspec.
  rewrite Hloop in Hspec. cbn [fst snd] in Hspec.
  destruct Hspec as [Hinv _].
  { constructor; simpl.
    - reflexivity.
    - constructor; [simpl; tauto | constructor].
    - intros x [<- | []]. exact Hstart.
    - exists []. reflexivity.
    - reflexivity. }
  { simpl. destruct (Object_keys (nodes graph)); [destruct Hstart | simpl; lia]. }
  destruct (JsSet.size visited =? length (Object_keys (nodes graph)))%nat.
  - change (start :: interior ++ [start]) with ((start :: interior) ++ [start]) in Hp.
    apply app_inj_tail in Hp. destruct Hp as [<- _]. exact Hg'.
  - exfalso. apply (NoDup_not_closed start path (NearestNeighborFacts.nn_nodup _ _ _ _ _ Hinv)).
    exists interior. exact Hp.
Qed.

Lemma nearestNeighborTSP_greedy_tour_witness :
  exists interior,
    Algorithms.nearestNeighborTSP Examples.squareGraph "c" = "c" :: interior ++ ["c"]
    /\ Permutation ("c" :: interior) (Object_keys (nodes Examples.squareGraph))
    /\ GreedyFacts.greedy Examples.squareGraph ("c" :: interior).
Proof.
  apply (nearestNeighborTSP_greedy_tour Examples.squareGraph "c").
  - apply valid_graphb_sound. vm_compute. reflexivity.
  - vm_compute. auto.
Defined.


(** ** The exact solvers of algorithms.ts *)

Module ExactFacts.
Import Algorithms.

Section WithGraph.
Variable graph : RouteGraph.
Variable start : string.
Hypothesis Hvalid : valid_graph graph.
Hypothesis Hstart : In start (Object_keys (nodes graph)).

Let keys := Object_keys (nodes graph).
Let n := length keys.
Let otherNodes := filter (fun node => negb (String.eqb node start)) keys.

Lemma tour_exists : tour_of keys start (start :: otherNodes ++ [start]).
Proof.
  exists otherNodes. split; [reflexivity|].
  apply filter_start_perm; [apply (vg_nodup _ Hvalid) | exact Hstart].
Qed.

Lemma bruteForceTSP_closed : 2 <= n -> tour_of keys start (bruteForceTSP graph start).
Proof.
  intros Hn. destruct (le_lt_dec n 9) as [Hle | Hgt].
  - apply (BruteForceTSPFacts.bruteForceTSP_optimal graph start Hvalid Hstart). fold keys n. lia.
  - unfold bruteForceTSP. cbv zeta. fold keys otherNodes.
    pose proof (Permutation_length
                  (filter_start_perm keys start (vg_nodup _ Hvalid) Hstart)) as Hlen.
    fold otherNodes in Hlen. cbn [length] in Hlen. fold n in Hlen.
    replace (8 <? length otherNodes)%nat with true by (symmetry; apply Nat.ltb_lt; lia).
    apply nearestNeighborTSP_tour; assumption.
Qed.

Lemma dynamicProgrammingTSP_exact :
  2 <= n <= 12 ->
  tour_of keys start (dynamicProgrammingTSP graph start)
  /\ forall tour, tour_of keys start tour ->
                  (CostFacts.tourDistance graph (dynamicProgrammingTSP graph start)
                   <= CostFacts.tourDistance graph tour)%Q.
Proof.
  intros [Hlo Hhi]. split.
  - destruct tour_exists as (interior & _ & Hperm).
    apply (HeldKarpDPFacts.dynamicProgrammingTSP_closed graph start Hvalid
             (start :: interior) Hperm (ex_intro _ interior eq_refl) Hlo Hhi).
  - intros tour (interior & -> & Hperm).
    apply (HeldKarpDPFacts.dynamicProgrammingTSP_not_longer graph start Hvalid
             (start :: interior) Hperm (ex_intro _ interior eq_refl) Hlo Hhi).
Qed.

Lemma dynamicProgrammingTSP_closed_always : 2 <= n -> tour_of keys start (dynamicProgrammingTSP graph start).
Proof.
  intros Hn. destruct (le_lt_dec n 12) as [Hle | Hgt].
  - apply dynamicProgrammingTSP_exact. lia.
  - unfold dynamicProgrammingTSP. cbv zeta. fold keys n.
    replace (12 <? n)%nat with true by (symmetry; apply Nat.ltb_lt; lia).
    apply nearestNeighborTSP_tour; assumption.
Qed.

(** Whatever the rounding of its sums, branch and bound returns a tour. *)
Lemma branchAndBoundTSP_closed (fl : Q -> Q) (fuel : nat) :
  2 <= n ->
  (n <= 10 -> BnBFacts.turns (length (edges graph)) (n - 1) < fuel) ->
  exists path, branchAndBoundTSP fl fuel graph start = Some path /\ tour_of keys start path.
Proof.
  intros Hn Hfuel. destruct (le_lt_dec n 10) as [Hle | Hgt].
  - apply BnBFacts.branchAndBoundTSP_tour; [exact Hvalid | exact Hstart | | ].
    + fold keys n. lia.
    + apply Hfuel. exact Hle.
  - exists (dynamicProgrammingTSP graph start).
    split; [|apply dynamicProgrammingTSP_closed_always; lia].
    unfold branchAndBoundTSP. cbv zeta. fold keys n.
    replace (10 <? n)%nat with true by (symmetry; apply Nat.ltb_lt; lia). reflexivity.
Qed.


End WithGraph.
End ExactFacts.

(** X5. [bruteForceTSP] on a valid graph with two to nine nodes, from a node
    of the graph: the result is a tour of all nodes from the start, and no
    tour of the graph from the start has a smaller total distance. *)
Theorem bruteForceTSP_shortest_tour (graph : RouteGraph) (start : string) :
  valid_graph graph -> In start (Object_keys (nodes graph)) ->
  2 <= length (Object_keys (nodes graph)) <= 9 ->
  tour_of (Object_keys (nodes graph)) start (Algorithms.bruteForceTSP graph start)
  /\ forall tour, tour_of (Object_keys (nodes graph)) start tour ->
                  (CostFacts.tourDistance graph (Algorithms.bruteForceTSP graph start)
                   <= CostFacts.tourDistance graph tour)%Q.
Proof. apply BruteForceTSPFacts.bruteForceTSP_optimal. Qed.

Lemma bruteForceTSP_shortest_tour_witness :
  tour_of (Object_keys (nodes Examples.squareGraph)) "c"
          (Algorithms.bruteForceTSP Examples.squareGraph "c")
  /\ forall tour, tour_of (Object_keys (nodes Examples.squareGraph)) "c" tour ->
                  (CostFacts.tourDistance Examples.squareGraph
                     (Algorithms.bruteForceTSP Examples.squareGraph "c")
                   <= CostFacts.tourDistance Examples.squareGraph tour)%Q.
Proof.
  apply (bruteForceTSP_shortest_tour Examples.squareGraph "c").
  - apply valid_graphb_sound. vm_compute. reflexivity.
  - vm_compute. auto.
  - vm_compute. lia.
Defined.

(** X6. [dynamicProgrammingTSP] (Held-Karp) on a valid graph with two to
    twelve nodes, from a node of the graph: the path read back from the table
    is a tour of all nodes from the start, and no tour of the graph from the
    start has a smaller total distance. *)
Theorem dynamicProgrammingTSP_shortest_tour (graph : RouteGraph) (start : string) :
  valid_graph graph -> In start (Object_keys (nodes graph)) ->
  2 <= length (Object_keys (nodes graph)) <= 12 ->
  tour_of (Object_keys (nodes graph)) start (Algorithms.dynamicProgrammingTSP graph start)
  /\ forall tour, tour_of (Object_keys (nodes graph)) start tour ->
                  (CostFacts.tourDistance graph (Algorithms.dynamicProgrammingTSP graph start)
                   <= CostFacts.tourDistance graph tour)%Q.
Proof. apply ExactFacts.dynamicProgrammingTSP_exact. Qed.

Lemma dynamicProgrammingTSP_shortest_tour_witness :
  tour_of (Object_keys (nodes Examples.squareGraph)) "c"
          (Algorithms.dynamicProgrammingTSP Examples.squareGraph "c")
  /\ forall tour, tour_of (Object_keys (nodes Examples.squareGraph)) "c" tour ->
                  (CostFacts.tourDistance Examples.squareGraph
                     (Algorithms.dynamicProgrammingTSP Examples.squareGraph "c")
                   <= CostFacts.tourDistance Examples.squareGraph tour)%Q.
Proof.
  apply (dynamicProgrammingTSP_shortest_tour Examples.squareGraph "c").
  - apply valid_graphb_sound. vm_compute. reflexivity.
  - vm_compute. auto.
  - vm_compute. lia.
Defined.







(** ** The dispatcher of algorithms.ts on a selection *)

Lemma Math_max_ge (a b : Q) : (b <= Math_max a b)%Q.
Proof.
  unfold Math_max. destruct (Qle_bool a b) eqn:E; [apply Qle_refl|].
  destruct (Qlt_le_dec b a) as [H | H]; [apply Qlt_le_weak; exact H|].
  apply Qle_bool_iff in H. congruence.
Qed.

(** The dispatcher on a selection of distinct cities of a valid graph. *)
Lemma runSimulation_selection (fl : Q -> Q) (fuel : nat) (fullGraph : RouteGraph) (rnd : Q)
        (params : SimulationParams) (selected : list string) :
  valid_graph fullGraph ->
  (forall e, In e (edges fullGraph) -> (0 <= time e)%Q) ->
  selectedCities params = Some selected ->
  NoDup selected -> incl selected (Object_keys (nodes fullGraph)) ->
  2 <= length selected ->
  (algorithm params = branch_and_bound -> length selected <= 10 ->
   BnBFacts.turns
     (length (edges (Algorithms.filterGraphForSelectedCities fullGraph selected)))
     (length selected - 1) < fuel) ->
  exists r,
    Algorithms.runSimulation fl fuel fullGraph rnd params = Some r
    /\ Algorithms.r_algorithm r = algorithm params
    /\ tour_of selected
               (if includes selected (startLocation params) then startLocation params
                else nth 0 selected "")
               (Algorithms.r_path r)
    /\ (0 <= m_distance (Algorithms.r_metrics r))%Q
    /\ (0 <= m_time (Algorithms.r_metrics r))%Q
    /\ (0 <= m_cost (Algorithms.r_metrics r))%Q
    /\ (0 <= m_fuel (Algorithms.r_metrics r))%Q
    /\ ((1 # 10) <= m_totalScore (Algorithms.r_metrics r))%Q.
Proof.
  intros Hv Htime Hsel Hnd Hincl Hlen Hfuel.
  unfold Algorithms.runSimulation. rewrite Hsel.
  change (default [] (Some selected)) with selected.
  replace (length selected <? 2)%nat with false by (symmetry; apply Nat.ltb_ge; exact Hlen).
  cbv zeta.
  assert (Hne : selected <> []) by (intros ->; simpl in Hlen; lia).
  set (graph := Algorithms.filterGraphForSelectedCities fullGraph selected) in *.
  set (start := if includes selected (startLocation params) then startLocation params
                else nth 0 selected "").
  assert (Hvg : valid_graph graph) by (apply FilterFacts.filter_valid; exact Hv).
  assert (Hkeys : Object_keys (nodes graph) = selected)
    by (apply filter_keys_exact; assumption).
  assert (Hstart : In start (Object_keys (nodes graph))).
  { rewrite Hkeys. unfold start.
    destruct (includes selected (startLocation params)) eqn:E.
    - apply includes_In. exact E.
    - apply nth_In. lia. }
  assert (Hpos : forall e, In e (edges graph) -> (0 <= distance e)%Q /\ (0 <= time e)%Q).
  { intros e He. apply (FilterFacts.filter_edges fullGraph selected e Hne) in He.
    split; [apply (vg_nonneg _ Hv); tauto | apply Htime; tauto]. }
  assert (Hpath : exists path,
             match algorithm params with
             | nearest_neighbor => Some (Algorithms.nearestNeighborTSP graph start)
             | brute_force => Some (Algorithms.bruteForceTSP graph start)
             | dynamic_programming => Some (Algorithms.dynamicProgrammingTSP graph start)
             | branch_and_bound => Algorithms.branchAndBoundTSP fl fuel graph start
             end = Some path
             /\ tour_of (Object_keys (nodes graph)) start path).
  { rewrite <- Hkeys in Hlen, Hfuel.
    destruct (algorithm params).
    - eexists. split; [reflexivity|]. apply nearestNeighborTSP_tour; assumption.
    - eexists. split; [reflexivity|]. apply ExactFacts.bruteForceTSP_closed; assumption.
    - eexists. split; [reflexivity|].
      apply ExactFacts.dynamicProgrammingTSP_closed_always; assumption.
    - apply ExactFacts.branchAndBoundTSP_closed; [assumption.. |].
      apply Hfuel. reflexivity. }
  destruct Hpath as (path & Hp & Htour). rewrite Hkeys in Htour. rewrite Hp.
  eexists. split; [reflexivity|]. cbn [Algorithms.r_algorithm Algorithms.r_path
                                       Algorithms.r_metrics m_distance m_time m_cost m_fuel
                                       m_totalScore].
  split; [reflexivity|]. split; [exact Htour|].
  destruct (metrics_bounds path graph params Hpos) as (H1 & H2 & H3 & H4 & _).
  repeat split; try assumption.
  unfold Algorithms.calculateAlgorithmScore. cbv zeta. apply Math_max_ge.
Qed.

(** X9. [runSimulation] on a valid graph with non-negative times and a
    selection of two or more distinct cities of the graph: for each of the four
    algorithms (branch and bound given the turns of its queue loop, and
    whatever the rounding of its sums) the result
    carries the algorithm asked for and a tour of exactly the selected cities,
    from the requested start when it is selected and from the first selected
    city otherwise; its distance, time, cost and fuel are not negative and its
    score is at least 0.1. *)
Theorem runSimulation_tour_of_selection (fl : Q -> Q) (fuel : nat) (fullGraph : RouteGraph)
        (rnd : Q)
        (params : SimulationParams) (selected : list string) :
  valid_graph fullGraph ->
  (forall e, In e (edges fullGraph) -> (0 <= time e)%Q) ->
  selectedCities params = Some selected ->
  NoDup selected -> incl selected (Object_keys (nodes fullGraph)) ->
  2 <= length selected ->
  (algorithm params = branch_and_bound -> length selected <= 10 ->
   BnBFacts.turns
     (length (edges (Algorithms.filterGraphForSelectedCities fullGraph selected)))
     (length selected - 1) < fuel) ->
  exists r,
    Algorithms.runSimulation fl fuel fullGraph rnd params = Some r
    /\ Algorithms.r_algorithm r = algorithm params
    /\ tour_of selected
               (if includes selected (startLocation params) then startLocation params
                else nth 0 selected "")
               (Algorithms.r_path r)
    /\ (0 <= m_distance (Algorithms.r_metrics r))%Q
    /\ (0 <= m_time (Algorithms.r_metrics r))%Q
    /\ (0 <= m_cost (Algorithms.r_metrics r))%Q
    /\ (0 <= m_fuel (Algorithms.r_metrics r))%Q
    /\ ((1 # 10) <= m_totalScore (Algorithms.r_metrics r))%Q.
Proof. apply runSimulation_selection. Qed.

Lemma runSimulation_tour_of_selection_witness :
  exists r,
    Algorithms.runSimulation binary64 2000 Examples.squareGraph (1 # 2)
      (Examples.request branch_and_bound "z" (Some ["c"; "a"; "d"])) = Some r
    /\ Algorithms.r_algorithm r = branch_and_bound
    /\ tour_of ["c"; "a"; "d"] "c" (Algorithms.r_path r)
    /\ (0 <= m_distance (Algorithms.r_metrics r))%Q
    /\ (0 <= m_time (Algorithms.r_metrics r))%Q
    /\ (0 <= m_cost (Algorithms.r_metrics r))%Q
    /\ (0 <= m_fuel (Algorithms.r_metrics r))%Q
    /\ ((1 # 10) <= m_totalScore (Algorithms.r_metrics r))%Q.
Proof.
  apply (runSimulation_tour_of_selection binary64 2000 Examples.squareGraph (1 # 2)
           (Examples.request branch_and_bound "z" (Some ["c"; "a"; "d"])) ["c"; "a"; "d"]).
  - apply valid_graphb_sound. vm_compute. reflexivity.
  - intros e He. vm_compute in He.
    repeat (destruct He as [<- | He]; [discriminate|]). destruct He.
  - reflexivity.
  - apply nodupb_NoDup. vm_compute. reflexivity.
  - intros x Hx. vm_compute in Hx. vm_compute. tauto.
  - simpl. lia.
  - intros _ _. vm_compute. lia.
Defined.

(** The graph of a map is valid, and its times are not negative. *)
Lemma getRouteGraph_fine (straightDistance : Q -> Q -> Q -> Q -> Q) (rnd : nat -> Q)
      (mapType : MapType) :
  (forall a b c d, (0 <= straightDistance a b c d)%Q) ->
  (forall k, (0 <= rnd k)%Q) ->
  valid_graph (Maps.getRouteGraph straightDistance rnd mapType)
  /\ Object_keys (nodes (Maps.getRouteGraph straightDistance rnd mapType))
     = map loc_id (Maps.mapLocations mapType)
  /\ forall e, In e (edges (Maps.getRouteGraph straightDistance rnd mapType)) ->
               (0 <= time e)%Q.
Proof.
  intros Hs Hr.
  assert (Hnd : NoDup (map loc_id (Maps.mapLocations mapType)))
    by (apply nodupb_NoDup; destruct mapType; vm_compute; reflexivity).
  assert (Hne : ~ In "" (map loc_id (Maps.mapLocations mapType)))
    by (apply has_not_In; destruct mapType; vm_compute; reflexivity).
  split; [apply RouteGraphFacts.routeGraph_valid; assumption|].
  split; [apply RouteGraphFacts.routeNodes_keys; exact Hnd|].
  intros e He.
  destruct (RouteGraphFacts.routeEdges_spec straightDistance rnd mapType Hs Hr
              (Maps.mapLocations mapType)) as [_ Hgood].
  rewrite Forall_forall in Hgood. apply (Hgood e He).
Qed.

(** X10. The whole of a request on one of the three maps: [runSimulation] on
    the graph that [getRouteGraph] builds for the map of the request (whatever
    the random draws, as long as the straight distance and the draws are not
    negative), with two or more distinct locations of that map selected,
    returns for each of the four algorithms (branch and bound whatever the
    rounding of its sums) a tour of exactly the selected cities from the
    start (the requested one when it is selected, the first selected city
    otherwise), with a distance, a time, a cost and a fuel consumption that
    are not negative. *)
Theorem runSimulation_on_a_map (straightDistance : Q -> Q -> Q -> Q -> Q)
        (draws : nat -> Q) (fl : Q -> Q) (fuel : nat) (rnd : Q) (params : SimulationParams)
        (selected : list string) :
  (forall a b c d, (0 <= straightDistance a b c d)%Q) ->
  (forall k, (0 <= draws k)%Q) ->
  selectedCities params = Some selected ->
  NoDup selected ->
  incl selected (map loc_id (Maps.mapLocations (mapType params))) ->
  2 <= length selected ->
  (algorithm params = branch_and_bound -> length selected <= 10 ->
   BnBFacts.turns
     (length (edges (Algorithms.filterGraphForSelectedCities
                       (Maps.getRouteGraph straightDistance draws (mapType params))
                       selected)))
     (length selected - 1) < fuel) ->
  exists r,
    Algorithms.runSimulation fl fuel
                             (Maps.getRouteGraph straightDistance draws (mapType params))
                             rnd params = Some r
    /\ tour_of selected
               (if includes selected (startLocation params) then startLocation params
                else nth 0 selected "")
               (Algorithms.r_path r)
    /\ (0 <= m_distance (Algorithms.r_metrics r))%Q
    /\ (0 <= m_time (Algorithms.r_metrics r))%Q
    /\ (0 <= m_cost (Algorithms.r_metrics r))%Q
    /\ (0 <= m_fuel (Algorithms.r_metrics r))%Q.
Proof.
  intros Hs Hd Hsel Hnd Hincl Hlen Hfuel.
  destruct (getRouteGraph_fine straightDistance draws (mapType params) Hs Hd)
    as (Hv & Hkeys & Htime).
  destruct (runSimulation_selection fl fuel
              (Maps.getRouteGraph straightDistance draws (mapType params)) rnd params selected
              Hv Htime Hsel Hnd) as (r & Hr & _ & Ht & H1 & H2 & H3 & H4 & _).
  - rewrite Hkeys. exact Hincl.
  - exact Hlen.
  - exact Hfuel.
  - exists r. repeat (split; [assumption|]). exact H4.
Qed.

Lemma runSimulation_on_a_map_witness :
  exists r,
    Algorithms.runSimulation binary64 2000
      (Maps.getRouteGraph (fun _ _ _ _ => 100000%Q) (fun _ => (1 # 2)%Q) karnataka)
      (1 # 2) (Examples.request branch_and_bound "k9" (Some ["k1"; "k2"; "k3"])) = Some r
    /\ tour_of ["k1"; "k2"; "k3"] "k1" (Algorithms.r_path r)
    /\ (0 <= m_distance (Algorithms.r_metrics r))%Q
    /\ (0 <= m_time (Algorithms.r_metrics r))%Q
    /\ (0 <= m_cost (Algorithms.r_metrics r))%Q
    /\ (0 <= m_fuel (Algorithms.r_metrics r))%Q.
Proof.
  apply (runSimulation_on_a_map (fun _ _ _ _ => 100000%Q) (fun _ => (1 # 2)%Q) binary64 2000
           (1 # 2)
           (Examples.request branch_and_bound "k9" (Some ["k1"; "k2"; "k3"]))
           ["k1"; "k2"; "k3"]).
  - intros. discriminate.
  - intros. discriminate.
  - reflexivity.
  - apply nodupb_NoDup. vm_compute. reflexivity.
  - intros x Hx. vm_compute in Hx. vm_compute. tauto.
  - simpl. lia.
  - intros _ _. vm_compute. lia.
Defined.


(** ** The enumeration of the permutations *)

(** X11. [permute] (the enumeration that the three brute-force solvers
    share) lists exactly the rearrangements of its array: every list it
    returns is a rearrangement of the array, every rearrangement of the array
    is in the list, and the list has [n!] elements for an array of [n]. *)
Theorem permute_lists_the_permutations (arr : list string) :
  (forall l, In l (Algorithms.permute arr) <-> Permutation l arr)
  /\ length (Algorithms.permute arr) = fact (length arr).
Proof.
  split.
  - intros l. apply BruteForceTSPFacts.permute_spec.
  - apply permute_fuel_length. apply Nat.le_refl.
Qed.

(** ** A start that the graph does not have (algorithms.ts) *)

Lemma pathDistance_unknown_start (graph : RouteGraph) (start : string) (perm : list string) :
  valid_graph graph -> ~ In start (Object_keys (nodes graph)) ->
  Algorithms.pathDistance graph (start :: perm ++ [start]) 0 = None.
Proof.
  intros Hv Hs.
  destruct (perm ++ [start]) as [|b rest] eqn:E; [destruct perm; discriminate|].
  cbn [Algorithms.pathDistance].
  rewrite (DegenerateFacts.find_edge_outside graph start b Hv Hs). reflexivity.
Qed.

(** X12. On a valid graph with two nodes or more, a start that is not a node
    of the graph makes no solver fail: nearest neighbour finds no edge from
    it and returns the path of the start alone, and brute force (no
    permutation gives a path with all its edges), dynamic programming and
    branch and bound (whatever the rounding of its sums) fall back to that
    same path. *)
Theorem unknown_start_gives_the_start_alone (fl : Q -> Q) (graph : RouteGraph)
        (start : string) (fuel : nat) :
  valid_graph graph -> ~ In start (Object_keys (nodes graph)) ->
  2 <= length (Object_keys (nodes graph)) -> 2 <= fuel ->
  Algorithms.nearestNeighborTSP graph start = [start]
  /\ Algorithms.bruteForceTSP graph start = [start]
  /\ Algorithms.dynamicProgrammingTSP graph start = [start]
  /\ Algorithms.branchAndBoundTSP fl fuel graph start = Some [start].
Proof.
  intros Hv Hs Hn Hfuel.
  assert (Hnn : Algorithms.nearestNeighborTSP graph start = [start]).
  { unfold Algorithms.nearestNeighborTSP. cbv zeta.
    change (JsSet.add start []) with [start].
    destruct (length (Object_keys (nodes graph))) as [|[|n]] eqn:En; [lia | lia|].
    cbn [Algorithms.nn_loop]. change (JsSet.size [start]) with 1.
    change (1 <? S (S n))%nat with true. cbv iota.
    destruct (NearestNeighborFacts.findNearest_cases graph start [start])
      as [[Hnone _] | (e & He & Hfrom & _)].
    - rewrite Hnone. reflexivity.
    - exfalso. apply Hs. rewrite <- Hfrom. apply (vg_inside _ Hv e He). }
  split; [exact Hnn|]. split; [|split].
  - unfold Algorithms.bruteForceTSP. cbv zeta.
    destruct (8 <? _)%nat; [exact Hnn|].
    assert (Hfold : forall perms st,
               fold_left (Algorithms.bruteStep graph start) perms st = st).
    { induction perms as [|perm perms IH]; intros st; [reflexivity|]. cbn [fold_left].
      unfold Algorithms.bruteStep at 2. cbv zeta.
      rewrite (pathDistance_unknown_start graph start perm Hv Hs). apply IH. }
    rewrite Hfold. exact Hnn.
  - rewrite (DegenerateFacts.dynamicProgrammingTSP_start_outside graph start Hs). exact Hnn.
  - rewrite (DegenerateFacts.branchAndBoundTSP_start_outside fl graph start fuel Hv Hs Hfuel).
    rewrite Hnn. reflexivity.
Qed.

Lemma unknown_start_gives_the_start_alone_witness :
  Algorithms.nearestNeighborTSP Examples.squareGraph "z" = ["z"]
  /\ Algorithms.bruteForceTSP Examples.squareGraph "z" = ["z"]
  /\ Algorithms.dynamicProgrammingTSP Examples.squareGraph "z" = ["z"]
  /\ Algorithms.branchAndBoundTSP binary64 2 Examples.squareGraph "z" = Some ["z"].
Proof.
  apply (unknown_start_gives_the_start_alone binary64 Examples.squareGraph "z" 2).
  - apply valid_graphb_sound. vm_compute. reflexivity.
  - apply has_not_In. vm_compute. reflexivity.
  - vm_compute. lia.
  - lia.
Defined.


(** ** The constructions of the simulation file *)

Lemma remove_first_perm (x : string) (l : list string) :
  In x l -> Permutation l (x :: TspSimulation.remove_first x l).
Proof.
  induction l as [|y l IH]; intros Hin; [destruct Hin|]. cbn [TspSimulation.remove_first].
  destruct (String.eqb_spec y x) as [-> | Hne]; [reflexivity|].
  destruct Hin as [E | Hin]; [contradiction|].
  rewrite perm_swap. apply perm_skip. apply IH. exact Hin.
Qed.

Module GreedyPathFacts.
Import TspSimulation.

Section WithDistances.
Variable haversine : Q -> Q -> Q -> Q -> Q.
Variable locations : list Location.

Let d (a b : string) : Q := calculateDistance haversine (Id a) (Id b) locations.

(** The scan returns a city of the array that is nearest to [current]. *)
Lemma nearestOf_spec (current first : string) (others : list string) :
  In (nearestOf haversine current locations first others) (first :: others)
  /\ forall c, In c (first :: others) ->
               (d current (nearestOf haversine current locations first others) <= d current c)%Q.
Proof.
  unfold nearestOf.
  set (step := fun (st : string * Q) (city : string) =>
                 if Qltb (calculateDistance haversine (Id current) (Id city) locations) (snd st)
                 then (city, calculateDistance haversine (Id current) (Id city) locations)
                 else st).
  assert (H : forall l st,
             snd st = d current (fst st) ->
             let r := fold_left step l st in
             snd r = d current (fst r)
             /\ (fst r = fst st \/ In (fst r) l)
             /\ (snd r <= snd st)%Q
             /\ forall c, In c l -> (snd r <= d current c)%Q).
  { induction l as [|x l IH]; intros st Hst; cbn [fold_left].
    - repeat split; auto. apply Qle_refl. intros c [].
    - assert (Hstep : snd (step st x) = d current (fst (step st x))
                      /\ (fst (step st x) = fst st \/ fst (step st x) = x)
                      /\ (snd (step st x) <= snd st)%Q
                      /\ (snd (step st x) <= d current x)%Q).
      { unfold step. fold (d current x). destruct (Qltb (d current x) (snd st)) eqn:E.
        - cbn [fst snd]. repeat split; auto; [|apply Qle_refl].
          apply Qltb_lt in E. apply Qlt_le_weak. exact E.
        - apply Qltb_ge in E. repeat split; auto. apply Qle_refl. }
      destruct Hstep as (H1 & H2 & H3 & H4).
      destruct (IH (step st x) H1) as (I1 & I2 & I3 & I4).
      split; [exact I1|]. split; [|split].
      + destruct I2 as [I2 | I2]; [rewrite I2|right; right; exact I2].
        destruct H2 as [H2 | H2]; [left; exact H2 | right; left; symmetry; exact H2].
      + apply (Qle_trans _ _ _ I3 H3).
      + intros c [<- | Hc]; [apply (Qle_trans _ _ _ I3 H4) | apply I4; exact Hc]. }
  destruct (H others (first, calculateDistance haversine (Id current) (Id first) locations)
              eq_refl) as (H1 & H2 & H3 & H4).
  cbn [fst snd] in *. split.
  - destruct H2 as [-> | H2]; [left; reflexivity | right; exact H2].
  - intros c Hc. rewrite <- H1. destruct Hc as [<- | Hc]; [exact H3 | apply H4; exact Hc].
Qed.

(** A greedy sequence from [current]: each city is nearest to its predecessor
    among the cities that follow it. *)
Fixpoint greedy_from (current : string) (l : list string) : Prop :=
  match l with
  | [] => True
  | x :: rest =>
      (forall c, In c (x :: rest) -> (d current x <= d current c)%Q) /\ greedy_from x rest
  end.

Lemma greedy_from_perm_head (current x : string) (rest l : list string) :
  Permutation l (x :: rest) ->
  (forall c, In c l -> (d current x <= d current c)%Q) ->
  forall c, In c (x :: rest) -> (d current x <= d current c)%Q.
Proof.
  intros Hp H c Hc. apply H. apply (Permutation_in _ (Permutation_sym Hp)). exact Hc.
Qed.

Lemma greedy_loop_spec :
  forall fuel path remaining current,
    length remaining <= fuel ->
    exists rest,
      greedy_loop haversine fuel locations path remaining current = path ++ rest
      /\ Permutation rest remaining
      /\ greedy_from current rest.
Proof.
  induction fuel as [|fuel IH]; intros path remaining current Hlen.
  - destruct remaining; [|simpl in Hlen; lia]. exists []. rewrite app_nil_r.
    repeat split; auto.
  - destruct remaining as [|first others].
    + exists []. rewrite app_nil_r. repeat split; auto.
    + cbn [greedy_loop]. cbv zeta.
      destruct (nearestOf_spec current first others) as [Hin Hmin].
      set (nearest := nearestOf haversine current locations first others) in *.
      pose proof (remove_first_perm nearest (first :: others) Hin) as Hperm.
      destruct (IH (path ++ [nearest]) (remove_first nearest (first :: others)) nearest)
        as (rest & Hr & Hp & Hg).
      { apply Permutation_length in Hperm. simpl in Hperm, Hlen. simpl. lia. }
      exists (nearest :: rest). rewrite Hr, <- app_assoc. split; [reflexivity|]. split.
      * rewrite Hperm. apply perm_skip. exact Hp.
      * cbn [greedy_from]. split; [|exact Hg].
        intros c Hc. apply Hmin.
        apply (Permutation_in _ (Permutation_sym Hperm)).
        apply (Permutation_in c (perm_skip nearest Hp)). exact Hc.
Qed.

(** The next city of the approximation is a city of [remaining]. *)
Lemma dpApproxNext_In (params : SimulationParams) (current first : string)
      (remaining : list string) :
  In first remaining ->
  In (dpApproxNext haversine params locations current first remaining) remaining.
Proof.
  intros Hfirst. unfold dpApproxNext.
  match goal with
  | |- In (fst (fold_left ?f _ _)) _ => set (step := f)
  end.
  assert (H : forall l st, In (fst st) remaining -> incl l remaining ->
                           In (fst (fold_left step l st)) remaining).
  { induction l as [|x l IH]; intros st Hst Hl; cbn [fold_left]; [exact Hst|].
    apply IH; [|intros y Hy; apply Hl; right; exact Hy].
    unfold step. cbv zeta.
    match goal with
    | |- In (fst (if ?b then _ else _)) _ => destruct b
    end; [apply Hl; left; reflexivity | exact Hst]. }
  apply H; [exact Hfirst | apply incl_refl].
Qed.

Lemma dpApprox_loop_spec (params : SimulationParams) :
  forall fuel path remaining current,
    length remaining <= fuel ->
    exists rest,
      dpApprox_loop haversine fuel params locations path remaining current = path ++ rest
      /\ Permutation rest remaining.
Proof.
  induction fuel as [|fuel IH]; intros path remaining current Hlen.
  - destruct remaining; [|simpl in Hlen; lia]. exists []. rewrite app_nil_r. auto.
  - destruct remaining as [|first others].
    + exists []. rewrite app_nil_r. auto.
    + cbn [dpApprox_loop]. cbv zeta.
      pose proof (dpApproxNext_In params current first (first :: others)
                    (or_introl eq_refl)) as Hin.
      set (bestNext := dpApproxNext haversine params locations current first (first :: others))
        in *.
      pose proof (remove_first_perm bestNext (first :: others) Hin) as Hperm.
      destruct (IH (path ++ [bestNext]) (remove_first bestNext (first :: others)) bestNext)
        as (rest & Hr & Hp).
      { apply Permutation_length in Hperm. simpl in Hperm, Hlen. simpl. lia. }
      exists (bestNext :: rest). rewrite Hr, <- app_assoc. split; [reflexivity|].
      rewrite Hperm. apply perm_skip. exact Hp.
Qed.

End WithDistances.
End GreedyPathFacts.

(** X13. [runGreedyNearestNeighbor] of the simulation file, for every request
    and every table of locations: the path is the start, then the other
    selected cities in some order, each as often as the selection has it, then
    the start again; and every city of it is a nearest one to its predecessor
    among the cities that come after it. *)
Theorem runGreedyNearestNeighbor_greedy_tour (haversine : Q -> Q -> Q -> Q -> Q)
        (params : SimulationParams) (locations : list Location) :
  exists interior,
    TspSimulation.runGreedyNearestNeighbor haversine params locations
    = startLocation params :: interior ++ [startLocation params]
    /\ Permutation interior (TspSimulation.otherCities params)
    /\ GreedyPathFacts.greedy_from haversine locations (startLocation params) interior.
Proof.
  unfold TspSimulation.runGreedyNearestNeighbor. cbv zeta.
  destruct (GreedyPathFacts.greedy_loop_spec haversine locations
              (length (TspSimulation.otherCities params)) [startLocation params]
              (TspSimulation.otherCities params) (startLocation params) (le_n _))
    as (rest & Hr & Hp & Hg).
  exists rest. rewrite Hr. auto.
Qed.

(** X14. [runDPApproximation] of the simulation file, for every request and
    every table of locations: the path is the start, then the other selected
    cities in some order, each as often as the selection has it, then the
    start again. *)
Theorem runDPApproximation_tour (haversine : Q -> Q -> Q -> Q -> Q)
        (params : SimulationParams) (locations : list Location) :
  exists interior,
    TspSimulation.runDPApproximation haversine params locations
    = startLocation params :: interior ++ [startLocation params]
    /\ Permutation interior (TspSimulation.otherCities params).
Proof.
  unfold TspSimulation.runDPApproximation. cbv zeta.
  destruct (GreedyPathFacts.dpApprox_loop_spec haversine locations params
              (length (TspSimulation.otherCities params)) [startLocation params]
              (TspSimulation.otherCities params) (startLocation params) (le_n _))
    as (rest & Hr & Hp).
  exists rest. rewrite Hr. auto.
Qed.


(** ** The 2-opt improvement of the simulation file *)

Lemma last_app_nonempty {A : Type} (l1 l2 : list A) (d : A) :
  l2 <> [] -> List.last (l1 ++ l2) d = List.last l2 d.
Proof.
  intros Hne. induction l1 as [|x l1 IH]; [reflexivity|].
  cbn [app]. destruct (l1 ++ l2) eqn:E.
  - apply app_eq_nil in E. destruct E. contradiction.
  - exact IH.
Qed.

Lemma last_skipn {A : Type} (k : nat) (l : list A) (d : A) :
  k < length l -> List.last (skipn k l) d = List.last l d.
Proof.
  intros Hk. rewrite <- (firstn_skipn k l) at 2. symmetry. apply last_app_nonempty.
  intros E. apply (f_equal (@length A)) in E. rewrite length_skipn in E. simpl in E. lia.
Qed.

Lemma filter_length_lt {A : Type} (f g : A -> bool) (l : list A) (x : A) :
  (forall y, In y l -> f y = true -> g y = true) ->
  In x l -> f x = false -> g x = true ->
  length (filter f l) < length (filter g l).
Proof.
  intros Hsub Hx Hf Hg.
  assert (Hle : forall l', (forall y, In y l' -> f y = true -> g y = true) ->
                           length (filter f l') <= length (filter g l')).
  { induction l' as [|y l' IH]; intros H; [apply Nat.le_refl|]. cbn [filter].
    assert (IH' := IH (fun z Hz => H z (or_intror Hz))).
    destruct (f y) eqn:Ef.
    - rewrite (H y (or_introl eq_refl) Ef). simpl. lia.
    - destruct (g y); simpl; lia. }
  induction l as [|y l IH]; [destruct Hx|]. cbn [filter].
  destruct Hx as [-> | Hx].
  - rewrite Hf, Hg. simpl.
    specialize (Hle l (fun z Hz => Hsub z (or_intror Hz))). lia.
  - specialize (IH (fun z Hz => Hsub z (or_intror Hz)) Hx).
    destruct (f y) eqn:Ef.
    + rewrite (Hsub y (or_introl eq_refl) Ef). simpl. lia.
    + destruct (g y); simpl; lia.
Qed.

Module TwoOptFacts.
Import TspSimulation.

(** The reversal of the segment from [i] to [j] keeps the cities, and the two
    ends when the segment is inside. *)
Lemma reverseSegment_perm (path : list string) (i j : nat) :
  i <= j -> Permutation (reverseSegment path i j) path.
Proof.
  intros Hij. unfold reverseSegment.
  assert (E : firstn (j - i + 1) (skipn i path) ++ skipn (j + 1) path = skipn i path).
  { replace (j + 1) with (j - i + 1 + i) by lia. rewrite <- skipn_skipn.
    apply firstn_skipn. }
  apply Permutation_trans with (firstn i path ++ skipn i path);
    [|rewrite firstn_skipn; reflexivity].
  apply Permutation_app_head.
  apply Permutation_trans with (firstn (j - i + 1) (skipn i path) ++ skipn (j + 1) path);
    [|rewrite E; reflexivity].
  apply Permutation_app_tail. symmetry. apply Permutation_rev.
Qed.

Lemma reverseSegment_ends (path : list string) (i j : nat) :
  1 <= i -> i <= j -> j + 1 < length path ->
  hd "" (reverseSegment path i j) = hd "" path
  /\ List.last (reverseSegment path i j) "" = List.last path "".
Proof.
  intros Hi Hij Hj. unfold reverseSegment. split.
  - destruct path as [|a path]; [simpl in Hj; lia|].
    destruct i as [|i]; [lia|]. reflexivity.
  - rewrite app_assoc. rewrite last_app_nonempty.
    + apply last_skipn. exact Hj.
    + intros E. apply (f_equal (@length string)) in E. rewrite length_skipn in E.
      simpl in E. lia.
Qed.

Section WithDistances.
Variable haversine : Q -> Q -> Q -> Q -> Q.
Variable locations : list Location.

Let cost (path : list string) : Q := pathDistanceOf haversine path locations.

(** The state of a pass over the path [path]: the same cities with the same
    ends; it is [path] itself until the first improvement, and shorter after. *)
Record pass_inv (path : list string) (st : list string * bool) : Prop := {
  pi_perm : Permutation (fst st) path;
  pi_hd : hd "" (fst st) = hd "" path;
  pi_last : List.last (fst st) "" = List.last path "";
  pi_true : snd st = true -> (cost (fst st) < cost path)%Q;
  pi_false : snd st = false -> fst st = path
}.

Definition tryReverse (i : nat) (st : list string * bool) (j : nat) : list string * bool :=
  let newPath := reverseSegment (fst st) i j in
  if Qltb (pathDistanceOf haversine newPath locations)
          (pathDistanceOf haversine (fst st) locations)
  then (newPath, true) else st.

Lemma tryReverse_inv (path : list string) (i j : nat) (st : list string * bool) :
  1 <= i -> i <= j -> j + 1 < length path ->
  pass_inv path st -> pass_inv path (tryReverse i st j).
Proof.
  intros Hi Hij Hj [Hp Hh Hl Ht Hf]. unfold tryReverse. cbv zeta.
  destruct (Qltb _ _) eqn:E; [|constructor; assumption].
  apply Qltb_lt in E. fold (cost (reverseSegment (fst st) i j)) in E. fold (cost (fst st)) in E.
  assert (Hlen : j + 1 < length (fst st)) by (rewrite (Permutation_length Hp); exact Hj).
  destruct (reverseSegment_ends (fst st) i j Hi Hij Hlen) as [Hh' Hl'].
  constructor; cbn [fst snd].
  - rewrite reverseSegment_perm by exact Hij. exact Hp.
  - congruence.
  - congruence.
  - intros _. destruct (snd st) eqn:Es.
    + apply (Qlt_trans _ _ _ E). apply Ht. reflexivity.
    + rewrite <- (Hf eq_refl). exact E.
  - discriminate.
Qed.

Lemma twoOptPass_unfold (path : list string) :
  twoOptPass haversine locations path
  = fold_left (fun st i => fold_left (tryReverse i) (seq (i + 1) (length path - 2 - i)) st)
              (seq 1 (length path - 3)) (path, false).
Proof. reflexivity. Qed.

Lemma twoOptPass_inv (path : list string) :
  pass_inv path (twoOptPass haversine locations path).
Proof.
  rewrite twoOptPass_unfold.
  assert (Hinner : forall i js st,
             1 <= i -> Forall (fun j => i <= j /\ j + 1 < length path) js ->
             pass_inv path st -> pass_inv path (fold_left (tryReverse i) js st)).
  { intros i js. induction js as [|j js IH]; intros st Hi Hjs Hst; [exact Hst|].
    inversion Hjs as [|? ? [H1 H2] Hjs']; subst. cbn [fold_left].
    apply IH; [exact Hi | exact Hjs' | apply tryReverse_inv; assumption]. }
  assert (Houter : forall idxs st,
             Forall (fun i => 1 <= i) idxs -> pass_inv path st ->
             pass_inv path
               (fold_left (fun st i => fold_left (tryReverse i)
                                                 (seq (i + 1) (length path - 2 - i)) st)
                          idxs st)).
  { induction idxs as [|i idxs IH]; intros st His Hst; [exact Hst|].
    inversion His as [|? ? Hi His']; subst. cbn [fold_left].
    apply IH; [exact His'|]. apply Hinner; [exact Hi | | exact Hst].
    apply Forall_forall. intros j Hj. apply in_seq in Hj. lia. }
  apply Houter.
  - apply Forall_forall. intros i Hi. apply in_seq in Hi. lia.
  - constructor; cbn [fst snd]; auto. discriminate.
Qed.

(** A pass without improvement has tried every reversal in vain. *)
Lemma twoOptPass_local (path : list string) :
  snd (twoOptPass haversine locations path) = false ->
  forall i j, 1 <= i -> i < j -> j + 2 <= length path ->
              (cost path <= cost (reverseSegment path i j))%Q.
Proof.
  rewrite twoOptPass_unfold.
  assert (Hstay : forall i js st, snd st = true -> snd (fold_left (tryReverse i) js st) = true).
  { intros i js. induction js as [|j js IH]; intros st Hst; [exact Hst|]. cbn [fold_left].
    apply IH. unfold tryReverse. cbv zeta. destruct (Qltb _ _); [reflexivity | exact Hst]. }
  assert (Hinner : forall i js st,
             snd (fold_left (tryReverse i) js st) = false ->
             fold_left (tryReverse i) js st = st
             /\ forall j, In j js -> (cost (fst st) <= cost (reverseSegment (fst st) i j))%Q).
  { intros i js. induction js as [|j js IH]; intros st Hf; cbn [fold_left] in *.
    - split; [reflexivity | intros j []].
    - destruct (IH _ Hf) as [Heq Hall].
      assert (Hstep : tryReverse i st j = st
                      /\ (cost (fst st) <= cost (reverseSegment (fst st) i j))%Q).
      { unfold tryReverse in *. cbv zeta in *.
        destruct (Qltb _ _) eqn:E.
        - exfalso. rewrite Hstay in Hf by reflexivity. discriminate.
        - split; [reflexivity|]. apply Qltb_ge in E. exact E. }
      destruct Hstep as [Hs Hc]. rewrite Hs in Heq, Hall. rewrite Hs.
      split; [exact Heq|]. intros j' [<- | Hj']; [exact Hc | apply Hall; exact Hj']. }
  assert (Hstay' : forall idxs st,
             snd st = true ->
             snd (fold_left (fun st i => fold_left (tryReverse i)
                                                   (seq (i + 1) (length path - 2 - i)) st)
                            idxs st) = true).
  { induction idxs as [|i idxs IH]; intros st Hst; [exact Hst|]. cbn [fold_left].
    apply IH. apply Hstay. exact Hst. }
  assert (Houter : forall idxs st,
             snd (fold_left (fun st i => fold_left (tryReverse i)
                                                   (seq (i + 1) (length path - 2 - i)) st)
                            idxs st) = false ->
             forall i j, In i idxs -> In j (seq (i + 1) (length path - 2 - i)) ->
                         (cost (fst st) <= cost (reverseSegment (fst st) i j))%Q).
  { induction idxs as [|i idxs IH]; intros st Hf i' j Hi Hj; [destruct Hi|].
    cbn [fold_left] in Hf.
    destruct (snd (fold_left (tryReverse i) (seq (i + 1) (length path - 2 - i)) st)) eqn:Es.
    { rewrite Hstay' in Hf by exact Es. discriminate. }
    destruct (Hinner _ _ _ Es) as [Heq Hall]. rewrite Heq in Hf.
    destruct Hi as [<- | Hi]; [apply Hall; exact Hj | apply (IH st Hf i' j Hi Hj)]. }
  intros Hf i j Hi Hij Hj. apply (Houter _ _ Hf i j); apply in_seq; lia.
Qed.

(** The number of orders of the cities that are shorter than [p]. *)
Definition shorter (path0 p : list string) : nat :=
  length (filter (fun q => Qltb (cost q) (cost p)) (Algorithms.permute path0)).

Lemma shorter_decreases (path0 p p' : list string) :
  Permutation p' path0 -> (cost p' < cost p)%Q -> shorter path0 p' < shorter path0 p.
Proof.
  intros Hp' Hlt. unfold shorter. apply (filter_length_lt _ _ _ p').
  - intros q _ Hq. apply Qltb_lt in Hq. apply Qltb_lt. apply (Qlt_trans _ _ _ Hq Hlt).
  - apply BruteForceTSPFacts.permute_spec. exact Hp'.
  - apply Qltb_ge. apply Qle_refl.
  - apply Qltb_lt. exact Hlt.
Qed.

Lemma apply2OptImprovement_spec (path0 : list string) :
  forall fuel p,
    Permutation p path0 -> shorter path0 p < fuel ->
    exists r,
      apply2OptImprovement haversine fuel p locations = Some r
      /\ Permutation r p
      /\ hd "" r = hd "" p /\ List.last r "" = List.last p ""
      /\ (cost r <= cost p)%Q
      /\ snd (twoOptPass haversine locations r) = false.
Proof.
  induction fuel as [|fuel IH]; intros p Hp Hfuel; [lia|].
  cbn [apply2OptImprovement].
  pose proof (twoOptPass_inv p) as [Hperm Hh Hl Ht Hf].
  destruct (twoOptPass haversine locations p) as [cur improved] eqn:Hpass.
  cbn [fst snd] in *. destruct improved.
  - specialize (Ht eq_refl).
    destruct (IH cur) as (r & Hr & Hrp & Hrh & Hrl & Hrc & Hrs).
    + rewrite Hperm. exact Hp.
    + pose proof (shorter_decreases path0 p cur ltac:(rewrite Hperm; exact Hp) Ht). lia.
    + exists r. split; [exact Hr|]. split; [rewrite Hrp; exact Hperm|].
      split; [congruence|]. split; [congruence|]. split; [|exact Hrs].
      apply (Qle_trans _ _ _ Hrc). apply Qlt_le_weak. exact Ht.
  - specialize (Hf eq_refl). subst cur. exists p. split; [reflexivity|].
    split; [reflexivity|]. split; [reflexivity|]. split; [reflexivity|].
    split; [apply Qle_refl|]. rewrite Hpass. reflexivity.
Qed.

Lemma shorter_le (path0 p : list string) : shorter path0 p <= length (Algorithms.permute path0).
Proof. unfold shorter. apply filter_length_le. Qed.

End WithDistances.
End TwoOptFacts.

(** X15. [apply2OptImprovement] ends: every pass but the last shortens the
    path, so for a path of [n] elements its loop makes at most [n!] passes. The result has the cities of the path,
    each as often, between the same two ends; it is at most as long as the
    path, and no reversal of a segment strictly inside it makes it shorter. *)
Theorem apply2OptImprovement_local_optimum (haversine : Q -> Q -> Q -> Q -> Q)
        (locations : list Location) (path : list string) (fuel : nat) :
  fact (length path) < fuel ->
  exists r,
    TspSimulation.apply2OptImprovement haversine fuel path locations = Some r
    /\ Permutation r path
    /\ hd "" r = hd "" path /\ List.last r "" = List.last path ""
    /\ (TspSimulation.pathDistanceOf haversine r locations
        <= TspSimulation.pathDistanceOf haversine path locations)%Q
    /\ forall i j, 1 <= i -> i < j -> j + 2 <= length r ->
                   (TspSimulation.pathDistanceOf haversine r locations
                    <= TspSimulation.pathDistanceOf haversine
                         (TspSimulation.reverseSegment r i j) locations)%Q.
Proof.
  intros Hfuel.
  destruct (TwoOptFacts.apply2OptImprovement_spec haversine locations path fuel path
              (Permutation_refl _))
    as (r & Hr & Hp & Hh & Hl & Hc & Hs).
  { pose proof (TwoOptFacts.shorter_le haversine locations path path) as Hle.
    unfold Algorithms.permute in Hle.
    rewrite (permute_fuel_length (length path) path (Nat.le_refl _)) in Hle. lia. }
  exists r. repeat (split; [assumption|]).
  apply TwoOptFacts.twoOptPass_local. exact Hs.
Qed.

Lemma apply2OptImprovement_local_optimum_witness :
  exists r,
    TspSimulation.apply2OptImprovement (fun a b c d => (a - c) * (a - c) + (b - d) * (b - d))%Q 25
      ["k1"; "k3"; "k2"; "k1"] (Maps.mapLocations karnataka) = Some r
    /\ Permutation r ["k1"; "k3"; "k2"; "k1"]
    /\ hd "" r = hd "" ["k1"; "k3"; "k2"; "k1"]
    /\ List.last r "" = List.last ["k1"; "k3"; "k2"; "k1"] ""
    /\ (TspSimulation.pathDistanceOf (fun a b c d => (a - c) * (a - c) + (b - d) * (b - d))%Q r
          (Maps.mapLocations karnataka)
        <= TspSimulation.pathDistanceOf (fun a b c d => (a - c) * (a - c) + (b - d) * (b - d))%Q
             ["k1"; "k3"; "k2"; "k1"] (Maps.mapLocations karnataka))%Q
    /\ forall i j, 1 <= i -> i < j -> j + 2 <= length r ->
                   (TspSimulation.pathDistanceOf (fun a b c d => (a - c) * (a - c) + (b - d) * (b - d))%Q r
                      (Maps.mapLocations karnataka)
                    <= TspSimulation.pathDistanceOf (fun a b c d => (a - c) * (a - c) + (b - d) * (b - d))%Q
                         (TspSimulation.reverseSegment r i j)
                         (Maps.mapLocations karnataka))%Q.
Proof.
  apply (apply2OptImprovement_local_optimum (fun a b c d => (a - c) * (a - c) + (b - d) * (b - d))%Q
           (Maps.mapLocations karnataka) ["k1"; "k3"; "k2"; "k1"] 25).
  vm_compute. lia.
Defined.


(** ** The exhaustive search of the simulation file *)

Lemma between_ends (a z : string) (l cur : list string) :
  Permutation cur (a :: l ++ [z]) -> hd "" cur = a -> List.last cur "" = z ->
  exists l', cur = a :: l' ++ [z] /\ Permutation l' l.
Proof.
  intros Hp Hh Hl. pose proof (Permutation_length Hp) as Hlen.
  cbn [length] in Hlen. rewrite length_app in Hlen. cbn [length] in Hlen.
  destruct cur as [|x cur]; [simpl in Hlen; lia|]. cbn [hd] in Hh. subst x.
  destruct cur as [|y cur]; [simpl in Hlen; lia|].
  assert (Hne : y :: cur <> []) by discriminate.
  rewrite (app_removelast_last "" Hne) in Hp |- *.
  change (List.last (a :: y :: cur) "") with (List.last (y :: cur) "") in Hl.
  rewrite Hl in Hp |- *. exists (removelast (y :: cur)). split; [reflexivity|].
  apply Permutation_cons_inv in Hp. apply Permutation_app_inv_r in Hp. exact Hp.
Qed.

Module ExhaustiveFacts.
Import TspSimulation.

Section WithDistances.
Variable haversine : Q -> Q -> Q -> Q -> Q.
Variable locations : list Location.
Variable start : string.

Let cost (path : list string) : Q := pathDistanceOf haversine path locations.
Let tour (perm : list string) : list string := start :: perm ++ [start].

Definition keepShorter (st : list string * num) (perm : list string) : list string * num :=
  let testPath := start :: perm ++ [start] in
  let distance := pathDistanceOf haversine testPath locations in
  if num_ltb (Fin distance) (snd st) then (testPath, Fin distance) else st.

(** The incumbent of the loop over the permutations: a tour that no
    permutation seen so far beats. *)
Lemma keepShorter_fold (perms : list (list string)) :
  forall seen st,
    ((st = ([], Infinity) /\ seen = [])
     \/ exists perm, In perm seen /\ st = (tour perm, Fin (cost (tour perm)))) ->
    (forall perm, In perm seen -> num_le (snd st) (Fin (cost (tour perm)))) ->
    let r := fold_left keepShorter perms st in
    ((r = ([], Infinity) /\ seen ++ perms = [])
     \/ exists perm, In perm (seen ++ perms) /\ r = (tour perm, Fin (cost (tour perm))))
    /\ forall perm, In perm (seen ++ perms) -> num_le (snd r) (Fin (cost (tour perm))).
Proof.
  induction perms as [|perm perms IH]; intros seen st Hcur Hmin; cbn [fold_left].
  - rewrite app_nil_r. split; assumption.
  - replace (seen ++ perm :: perms) with ((seen ++ [perm]) ++ perms)
      by (rewrite <- app_assoc; reflexivity).
    apply IH.
    + right. unfold keepShorter. cbv zeta. fold (tour perm). fold (cost (tour perm)).
      destruct (num_ltb (Fin (cost (tour perm))) (snd st)) eqn:E.
      * exists perm. split; [apply in_or_app; right; left; reflexivity | reflexivity].
      * destruct Hcur as [[-> _] | (p & Hp & ->)]; [discriminate E|].
        exists p. split; [apply in_or_app; left; exact Hp | reflexivity].
    + intros p Hp. unfold keepShorter. cbv zeta. fold (tour perm). fold (cost (tour perm)).
      destruct (num_ltb (Fin (cost (tour perm))) (snd st)) eqn:E; cbn [snd];
        apply in_app_iff in Hp; destruct Hp as [Hp | [<- | []]].
      * apply (num_le_trans _ (snd st)); [apply num_ltb_le; exact E | apply Hmin; exact Hp].
      * apply num_le_refl.
      * apply Hmin. exact Hp.
      * apply num_ltb_false_le. exact E.
Qed.

(** A shortest tour is left as it is by the 2-opt improvement. *)
Lemma apply2OptImprovement_optimum (cities perm : list string) (fuel : nat) :
  Permutation perm cities ->
  (forall perm', Permutation perm' cities -> (cost (tour perm) <= cost (tour perm'))%Q) ->
  apply2OptImprovement haversine (S fuel) (tour perm) locations = Some (tour perm).
Proof.
  intros Hperm Hmin. cbn [apply2OptImprovement].
  pose proof (TwoOptFacts.twoOptPass_inv haversine locations (tour perm)) as [Hp Hh Hl Ht Hf].
  destruct (twoOptPass haversine locations (tour perm)) as [cur improved].
  cbn [fst snd] in *. destruct improved.
  - exfalso. specialize (Ht eq_refl).
    destruct (between_ends start start perm cur Hp) as (l' & -> & Hl').
    + exact Hh.
    + rewrite Hl. unfold tour.
      change (start :: perm ++ [start]) with ((start :: perm) ++ [start]). apply last_last.
    + specialize (Hmin l' (Permutation_trans Hl' Hperm)). unfold cost, tour in Hmin.
      apply (Qlt_not_le _ _ Ht). exact Hmin.
  - rewrite (Hf eq_refl). reflexivity.
Qed.

End WithDistances.
End ExhaustiveFacts.

(** Up to eight cities besides the start the enumeration returns a shortest
    order. *)
Lemma runOptimalBruteForce_spec (haversine : Q -> Q -> Q -> Q -> Q) (fuel : nat)
        (random1 random2 : list string) (params : SimulationParams)
        (locations : list Location) :
  length (TspSimulation.otherCities params) <= 8 ->
  exists perm,
    TspSimulation.runOptimalBruteForce haversine (S fuel) random1 random2 params locations
    = Some (startLocation params :: perm ++ [startLocation params])
    /\ Permutation perm (TspSimulation.otherCities params)
    /\ forall perm',
        Permutation perm' (TspSimulation.otherCities params) ->
        (TspSimulation.pathDistanceOf haversine
           (startLocation params :: perm ++ [startLocation params]) locations
         <= TspSimulation.pathDistanceOf haversine
              (startLocation params :: perm' ++ [startLocation params]) locations)%Q.
Proof.
  intros Hlen. unfold TspSimulation.runOptimalBruteForce. cbv zeta.
  replace (8 <? length (TspSimulation.otherCities params))%nat with false
    by (symmetry; apply Nat.ltb_ge; exact Hlen).
  set (cities := TspSimulation.otherCities params).
  set (start := startLocation params).
  pose proof (ExhaustiveFacts.keepShorter_fold haversine locations start
                (TspSimulation.generateAllPermutations cities) [] ([], Infinity)) as H.
  cbn [app] in H. destruct H as [Hcur Hmin].
  { left. split; reflexivity. }
  { intros p []. }
  change (fold_left _ (TspSimulation.generateAllPermutations cities) ([], Infinity))
    with (fold_left (ExhaustiveFacts.keepShorter haversine locations start)
                    (TspSimulation.generateAllPermutations cities) ([], Infinity)).
  destruct Hcur as [[_ Hnil] | (perm & Hperm & Hr)].
  { exfalso. destruct (permute_head cities) as [rest Hrest].
    unfold TspSimulation.generateAllPermutations in Hnil. rewrite Hrest in Hnil.
    discriminate. }
  rewrite Hr in Hmin |- *. cbn [fst snd length Nat.ltb Nat.leb] in *.
  apply BruteForceTSPFacts.permute_spec in Hperm.
  assert (Hopt : forall perm', Permutation perm' cities ->
                   (TspSimulation.pathDistanceOf haversine (start :: perm ++ [start]) locations
                    <= TspSimulation.pathDistanceOf haversine (start :: perm' ++ [start])
                         locations)%Q).
  { intros perm' Hp'. apply num_le_Fin. apply Hmin.
    apply BruteForceTSPFacts.permute_spec. exact Hp'. }
  exists perm. split; [|split; [exact Hperm | exact Hopt]].
  apply (ExhaustiveFacts.apply2OptImprovement_optimum haversine locations start cities perm fuel
           Hperm Hopt).
Qed.

(** X16. [runOptimalBruteForce] of the simulation file with at most eight
    cities besides the start, for every table of locations and every distance
    function: the result is the start, the other selected cities in some order
    and the start again, and no other order of these cities gives a shorter
    path; the 2-opt pass that follows the enumeration changes nothing, so one
    turn of its loop is enough. *)
Theorem runOptimalBruteForce_shortest (haversine : Q -> Q -> Q -> Q -> Q) (fuel : nat)
        (random1 random2 : list string) (params : SimulationParams)
        (locations : list Location) :
  length (TspSimulation.otherCities params) <= 8 ->
  exists perm,
    TspSimulation.runOptimalBruteForce haversine (S fuel) random1 random2 params locations
    = Some (startLocation params :: perm ++ [startLocation params])
    /\ Permutation perm (TspSimulation.otherCities params)
    /\ forall perm',
        Permutation perm' (TspSimulation.otherCities params) ->
        (TspSimulation.pathDistanceOf haversine
           (startLocation params :: perm ++ [startLocation params]) locations
         <= TspSimulation.pathDistanceOf haversine
              (startLocation params :: perm' ++ [startLocation params]) locations)%Q.
Proof. apply runOptimalBruteForce_spec. Qed.

Lemma runOptimalBruteForce_shortest_witness :
  exists perm,
    TspSimulation.runOptimalBruteForce
      (fun a b c d => (a - c) * (a - c) + (b - d) * (b - d))%Q 1 [] []
      (Examples.request brute_force "k1" (Some ["k1"; "k2"; "k3"]))
      (Maps.mapLocations karnataka)
    = Some ("k1" :: perm ++ ["k1"])
    /\ Permutation perm ["k2"; "k3"]
    /\ forall perm',
        Permutation perm' ["k2"; "k3"] ->
        (TspSimulation.pathDistanceOf
           (fun a b c d => (a - c) * (a - c) + (b - d) * (b - d))%Q
           ("k1" :: perm ++ ["k1"]) (Maps.mapLocations karnataka)
         <= TspSimulation.pathDistanceOf
              (fun a b c d => (a - c) * (a - c) + (b - d) * (b - d))%Q
              ("k1" :: perm' ++ ["k1"]) (Maps.mapLocations karnataka))%Q.
Proof.
  apply (runOptimalBruteForce_shortest
           (fun a b c d => (a - c) * (a - c) + (b - d) * (b - d))%Q 0 [] []
           (Examples.request brute_force "k1" (Some ["k1"; "k2"; "k3"]))
           (Maps.mapLocations karnataka)).
  vm_compute. lia.
Defined.


(** ** Branch and bound of the simulation file *)

Lemma filter_out_perm (city : string) (l : list string) :
  NoDup l -> In city l ->
  Permutation l (city :: filter (fun c => negb (String.eqb c city)) l).
Proof.
  intros Hnd Hin. symmetry.
  pose proof (filter_start_perm l city Hnd Hin) as H. exact H.
Qed.

Module SimulationTourFacts.
Import TspSimulation.

(** The same cities between the same two ends. *)
Record same_ends (path path' : list string) : Prop := {
  se_perm : Permutation path' path;
  se_hd : hd "" path' = hd "" path;
  se_last : List.last path' "" = List.last path ""
}.

Lemma same_ends_refl (path : list string) : same_ends path path.
Proof. constructor; reflexivity. Qed.

Lemma same_ends_trans (p1 p2 p3 : list string) :
  same_ends p1 p2 -> same_ends p2 p3 -> same_ends p1 p3.
Proof.
  intros [H1 H2 H3] [H4 H5 H6]. constructor; [rewrite H4; exact H1 | congruence..].
Qed.

(** Moving the city of position [i] to position [j], both inside the path. *)
Lemma relocate_same_ends (path : list string) (i j : nat) :
  1 <= i -> i + 2 <= j -> j + 2 <= length path ->
  same_ends path (relocate path i j).
Proof.
  intros Hi Hij Hj. unfold relocate. cbv zeta.
  set (without := firstn i path ++ skipn (i + 1) path).
  assert (Hsplit : path = firstn i path ++ nth i path "" :: skipn (i + 1) path)
    by (apply nth_split_at; lia).
  assert (Hlen : S (length without) = length path).
  { unfold without. rewrite length_app, length_firstn, length_skipn. lia. }
  constructor.
  - apply Permutation_trans with (nth i path "" :: without).
    + rewrite <- Permutation_middle. rewrite firstn_skipn. reflexivity.
    + unfold without. rewrite Permutation_middle. rewrite <- Hsplit. reflexivity.
  - destruct path as [|a path]; [simpl in Hj; lia|].
    destruct i as [|i]; [lia|]. destruct j as [|j]; [lia|]. reflexivity.
  - change (firstn j without ++ nth i path "" :: skipn j without)
      with (firstn j without ++ [nth i path ""] ++ skipn j without).
    rewrite app_assoc, last_app_nonempty.
    + rewrite last_skipn by lia. unfold without. rewrite last_app_nonempty.
      * apply last_skipn. lia.
      * intros E. apply (f_equal (@length string)) in E. rewrite length_skipn in E.
        simpl in E. lia.
    + intros E. apply (f_equal (@length string)) in E. rewrite length_skipn in E.
      simpl in E. lia.
Qed.

Section WithDistances.
Variable haversine : Q -> Q -> Q -> Q -> Q.
Variable params : SimulationParams.
Variable locations : list Location.

Let start := startLocation params.
Let others := otherCities params.

Lemma runHeuristicBranchBound_same_ends :
  same_ends (runGreedyNearestNeighbor haversine params locations)
            (runHeuristicBranchBound haversine params locations).
Proof.
  unfold runHeuristicBranchBound. cbv zeta.
  set (path0 := runGreedyNearestNeighbor haversine params locations).
  set (len := length path0).
  assert (Hinner : forall i js path,
             1 <= i -> Forall (fun j => i + 2 <= j /\ j + 2 <= len) js ->
             same_ends path0 path ->
             same_ends path0
               (fold_left
                  (fun path j =>
                     let newPath := relocate path i j in
                     if Qltb (pathDistanceOf haversine newPath locations)
                             (pathDistanceOf haversine path locations)
                     then newPath else path) js path)).
  { intros i js. induction js as [|j js IH]; intros path Hi Hjs Hp; [exact Hp|].
    inversion Hjs as [|? ? [H1 H2] Hjs']; subst. cbn [fold_left]. apply IH; [assumption..|].
    cbv zeta. destruct (Qltb _ _); [|exact Hp].
    apply (same_ends_trans _ _ _ Hp). apply relocate_same_ends; [exact Hi | exact H1|].
    rewrite (Permutation_length (se_perm _ _ Hp)). exact H2. }
  assert (Houter : forall idxs path,
             Forall (fun i => 1 <= i) idxs -> same_ends path0 path ->
             same_ends path0
               (fold_left
                  (fun path i =>
                     fold_left
                       (fun path j =>
                          let newPath := relocate path i j in
                          if Qltb (pathDistanceOf haversine newPath locations)
                                  (pathDistanceOf haversine path locations)
                          then newPath else path)
                       (seq (i + 2) (len - 3 - i)) path)
                  idxs path)).
  { induction idxs as [|i idxs IH]; intros path Hidxs Hp; [exact Hp|].
    inversion Hidxs as [|? ? Hi Hidxs']; subst. cbn [fold_left]. apply IH; [exact Hidxs'|].
    apply Hinner; [exact Hi | | exact Hp].
    apply Forall_forall. intros j Hj. apply in_seq in Hj. lia. }
  apply Houter; [|apply same_ends_refl].
  apply Forall_forall. intros i Hi. apply in_seq in Hi. lia.
Qed.

(** An incumbent of the search: the start, the other cities in some order,
    the start. *)
Definition tour_best (best : list string * Q) : Prop :=
  exists perm, fst best = start :: perm ++ [start] /\ Permutation perm others.

Lemma bnb_tour :
  forall fuel currentPath remaining currentCost best,
    length remaining <= fuel ->
    (exists prefix, currentPath = start :: prefix /\ Permutation (prefix ++ remaining) others) ->
    NoDup remaining ->
    tour_best best ->
    tour_best (bnb haversine fuel params locations currentPath remaining currentCost best).
Proof.
  induction fuel as [|fuel IH];
    intros currentPath remaining currentCost best Hlen (prefix & Hcur & Hperm) Hnd Hbest.
  - destruct remaining; [|simpl in Hlen; lia]. cbn [bnb].
    destruct (Qltb _ _); [|exact Hbest].
    exists prefix. cbn [fst]. rewrite Hcur. split; [reflexivity|].
    rewrite app_nil_r in Hperm. exact Hperm.
  - destruct remaining as [|c remaining].
    + cbn [bnb]. destruct (Qltb _ _); [|exact Hbest].
      exists prefix. cbn [fst]. rewrite Hcur. split; [reflexivity|].
      rewrite app_nil_r in Hperm. exact Hperm.
    + cbn [bnb]. destruct (Qle_bool _ _); [exact Hbest|].
      set (sorted := sort_by _ (c :: remaining)).
      assert (Hsorted : Permutation sorted (c :: remaining)) by apply sort_with_perm.
      assert (Hnds : NoDup sorted)
        by (apply (Permutation_NoDup (Permutation_sym Hsorted)); exact Hnd).
      assert (Hfold : forall cities best',
                 incl cities sorted -> tour_best best' ->
                 tour_best
                   (fold_left
                      (fun best0 city =>
                         bnb haversine fuel params locations (currentPath ++ [city])
                             (filter (fun c0 => negb (String.eqb c0 city)) sorted)
                             (currentCost
                              + calculateDistance haversine (Id (List.last currentPath ""))
                                                  (Id city) locations)%Q best0)
                      cities best')).
      { induction cities as [|city cities IHc]; intros best' Hincl Hb'; [exact Hb'|].
        cbn [fold_left]. apply IHc; [intros x Hx; apply Hincl; right; exact Hx|].
        assert (Hcity : In city sorted) by (apply Hincl; left; reflexivity).
        pose proof (filter_out_perm city sorted Hnds Hcity) as Hfp.
        apply IH.
        - pose proof (filter_out_shorter city sorted Hcity) as Hshort.
          rewrite (Permutation_length Hsorted) in Hshort. simpl in Hshort, Hlen. lia.
        - exists (prefix ++ [city]). rewrite Hcur. split; [reflexivity|].
          rewrite <- app_assoc. cbn [app]. rewrite <- Hfp, Hsorted. exact Hperm.
        - apply (NoDup_filter _ Hnds).
        - exact Hb'. }
      apply Hfold; [apply incl_refl | exact Hbest].
Qed.

Lemma runBranchAndBoundTSP_closed :
  NoDup others ->
  exists interior,
    runBranchAndBoundTSP haversine params locations = start :: interior ++ [start]
    /\ Permutation interior others.
Proof.
  intros Hnd.
  destruct (GreedyPathFacts.greedy_loop_spec haversine locations (length others) [start]
              others start (le_n _)) as (rest & Hr & Hp & _).
  assert (Hgreedy : runGreedyNearestNeighbor haversine params locations
                    = start :: rest ++ [start]).
  { unfold runGreedyNearestNeighbor. cbv zeta. fold others start. rewrite Hr. reflexivity. }
  unfold runBranchAndBoundTSP. cbv zeta.
  destruct (9 <? length (default [] (selectedCities params)))%nat.
  - destruct runHeuristicBranchBound_same_ends as [H1 H2 H3]. rewrite Hgreedy in H1, H2, H3.
    destruct (between_ends start start rest _ H1) as (l' & E & Hl').
    + exact H2.
    + rewrite H3. change (start :: rest ++ [start]) with ((start :: rest) ++ [start]).
      apply last_last.
    + exists l'. split; [exact E|]. rewrite Hl'. exact Hp.
  - fold others start.
    destruct (bnb_tour (length others) [start] others 0
                (runGreedyNearestNeighbor haversine params locations,
                 pathDistanceOf haversine (runGreedyNearestNeighbor haversine params locations)
                                locations))
      as (perm & E & Hperm).
    + apply Nat.le_refl.
    + exists []. split; reflexivity.
    + exact Hnd.
    + exists rest. cbn [fst]. split; [exact Hgreedy | exact Hp].
    + exists perm. split; [exact E | exact Hperm].
Qed.

End WithDistances.
End SimulationTourFacts.

(** X17. [runBranchAndBoundTSP] of the simulation file, when the selected
    cities other than the start are distinct: at every size (the exact search
    up to nine selected cities, the relocation heuristic above) the result is
    the start, the other selected cities in some order, each once, and the
    start again. *)
Theorem runBranchAndBoundTSP_tour (haversine : Q -> Q -> Q -> Q -> Q)
        (params : SimulationParams) (locations : list Location) :
  NoDup (TspSimulation.otherCities params) ->
  exists interior,
    TspSimulation.runBranchAndBoundTSP haversine params locations
    = startLocation params :: interior ++ [startLocation params]
    /\ Permutation interior (TspSimulation.otherCities params).
Proof. apply SimulationTourFacts.runBranchAndBoundTSP_closed. Qed.

Lemma runBranchAndBoundTSP_tour_witness :
  exists interior,
    TspSimulation.runBranchAndBoundTSP
      (fun a b c d => (a - c) * (a - c) + (b - d) * (b - d))%Q
      (Examples.request branch_and_bound "k1" (Some ["k1"; "k2"; "k3"]))
      (Maps.mapLocations karnataka)
    = "k1" :: interior ++ ["k1"]
    /\ Permutation interior ["k2"; "k3"].
Proof.
  apply (runBranchAndBoundTSP_tour
           (fun a b c d => (a - c) * (a - c) + (b - d) * (b - d))%Q
           (Examples.request branch_and_bound "k1" (Some ["k1"; "k2"; "k3"]))
           (Maps.mapLocations karnataka)).
  apply nodupb_NoDup. vm_compute. reflexivity.
Defined.


(** ** The 2-opt search from four orders (simulation file) *)

Module IntensiveFacts.
Import TspSimulation.

Section WithDistances.
Variable haversine : Q -> Q -> Q -> Q -> Q.
Variable locations : list Location.
Variable start : string.
Variable cities : list string.
Variable fuel : nat.
Hypothesis Hfuel : fact (length cities + 2) < fuel.

Let cost (path : list string) : Q := pathDistanceOf haversine path locations.

Definition improveFrom (st : option (list string * num)) (order : list string)
  : option (list string * num) :=
  match st with
  | None => None
  | Some (bestPath, bestDistance) =>
      match apply2OptImprovement haversine fuel (start :: order ++ [start]) locations with
      | None => None
      | Some path =>
          let distance := pathDistanceOf haversine path locations in
          if num_ltb (Fin distance) bestDistance then Some (path, Fin distance)
          else Some (bestPath, bestDistance)
      end
  end.

(** A tour that the 2-opt loop cannot improve. *)
Definition settled (path : list string) : Prop :=
  (exists perm, path = start :: perm ++ [start] /\ Permutation perm cities)
  /\ snd (twoOptPass haversine locations path) = false.

Definition best_of (orders : list (list string)) (st : list string * num) : Prop :=
  ((st = ([], Infinity) /\ orders = [])
   \/ (settled (fst st) /\ snd st = Fin (cost (fst st))))
  /\ forall order, In order orders -> num_le (snd st) (Fin (cost (start :: order ++ [start]))).

Lemma improveFrom_fold (orders : list (list string)) :
  Forall (fun order => Permutation order cities) orders ->
  forall seen st,
    best_of seen st ->
    exists st', fold_left improveFrom orders (Some st) = Some st' /\ best_of (seen ++ orders) st'.
Proof.
  induction orders as [|order orders IH]; intros Hall seen st Hst; cbn [fold_left].
  - exists st. rewrite app_nil_r. auto.
  - inversion Hall as [|? ? Horder Hall']; subst.
    replace (seen ++ order :: orders) with ((seen ++ [order]) ++ orders)
      by (rewrite <- app_assoc; reflexivity).
    destruct (TwoOptFacts.apply2OptImprovement_spec haversine locations
                (start :: order ++ [start]) fuel (start :: order ++ [start])
                (Permutation_refl _))
      as (r & Hr & Hp & Hh & Hl & Hc & Hs).
    { pose proof (TwoOptFacts.shorter_le haversine locations (start :: order ++ [start])
                    (start :: order ++ [start])) as Hle.
      unfold Algorithms.permute in Hle.
      rewrite (permute_fuel_length _ _ (Nat.le_refl _)) in Hle.
      cbn [length] in Hle. rewrite length_app in Hle. cbn [length] in Hle.
      rewrite (Permutation_length Horder) in Hle.
      replace (S (length cities + 1)) with (length cities + 2) in Hle by lia. lia. }
    destruct (between_ends start start order r Hp) as (l' & Hr' & Hl').
    { exact Hh. }
    { rewrite Hl. change (start :: order ++ [start]) with ((start :: order) ++ [start]).
      apply last_last. }
    assert (Hsettled : settled r).
    { split; [|exact Hs]. exists l'. split; [exact Hr' | rewrite Hl'; exact Horder]. }
    destruct st as [bp bd]. unfold improveFrom at 2. rewrite Hr. cbv zeta.
    destruct Hst as [Hcur Hmin]. cbn [fst snd] in Hcur, Hmin.
    fold (cost r). fold (cost (start :: order ++ [start])) in Hc.
    destruct (num_ltb (Fin (cost r)) bd) eqn:Hlt; apply (IH Hall'); split; cbn [fst snd].
    + right. split; [exact Hsettled | reflexivity].
    + intros o Ho. apply in_app_iff in Ho. destruct Ho as [Ho | [<- | []]].
      * apply (num_le_trans _ bd); [apply num_ltb_le; exact Hlt | apply Hmin; exact Ho].
      * apply num_le_Fin. exact Hc.
    + destruct Hcur as [[E _] | H]; [|right; exact H].
      injection E as -> ->. discriminate Hlt.
    + intros o Ho. apply in_app_iff in Ho. destruct Ho as [Ho | [<- | []]].
      * apply Hmin. exact Ho.
      * apply (num_le_trans _ (Fin (cost r))); [apply num_ltb_false_le; exact Hlt|].
        apply num_le_Fin. exact Hc.
Qed.

End WithDistances.
End IntensiveFacts.

(** X18. [runIntensive2Opt], the search that replaces the enumeration above
    eight cities, when its two shuffles are rearrangements of the cities and
    for a number of turns above the factorial of the length of a path: it
    returns the start, the cities in some order and the start again; this path
    is at most as long as each of its four starting paths (the given order,
    its reverse and the two shuffles), and no reversal of a segment inside it
    makes it shorter. *)
Theorem runIntensive2Opt_local_optimum (haversine : Q -> Q -> Q -> Q -> Q) (fuel : nat)
        (random1 random2 : list string) (params : SimulationParams)
        (locations : list Location) (cities : list string) :
  Permutation random1 cities -> Permutation random2 cities ->
  fact (length cities + 2) < fuel ->
  exists perm,
    TspSimulation.runIntensive2Opt haversine fuel random1 random2 params locations cities
    = Some (startLocation params :: perm ++ [startLocation params])
    /\ Permutation perm cities
    /\ (forall order,
           In order [cities; rev cities; random1; random2] ->
           (TspSimulation.pathDistanceOf haversine
              (startLocation params :: perm ++ [startLocation params]) locations
            <= TspSimulation.pathDistanceOf haversine
                 (startLocation params :: order ++ [startLocation params]) locations)%Q)
    /\ forall i j, 1 <= i -> i < j -> j + 2 <= length perm + 2 ->
                   (TspSimulation.pathDistanceOf haversine
                      (startLocation params :: perm ++ [startLocation params]) locations
                    <= TspSimulation.pathDistanceOf haversine
                         (TspSimulation.reverseSegment
                            (startLocation params :: perm ++ [startLocation params]) i j)
                         locations)%Q.
Proof.
  intros H1 H2 Hfuel. unfold TspSimulation.runIntensive2Opt.
  change (fold_left _ [cities; rev cities; random1; random2] (Some ([], Infinity)))
    with (fold_left (IntensiveFacts.improveFrom haversine locations (startLocation params) fuel)
                    [cities; rev cities; random1; random2] (Some ([], Infinity))).
  destruct (IntensiveFacts.improveFrom_fold haversine locations (startLocation params) cities
              fuel Hfuel [cities; rev cities; random1; random2])
    with (seen := @nil (list string)) (st := (@nil string, Infinity))
    as (st' & Hfold & Hcur & Hmin).
  { constructor; [reflexivity|]. constructor; [symmetry; apply Permutation_rev|].
    constructor; [exact H1|]. constructor; [exact H2 | constructor]. }
  { split; [left; split; reflexivity | intros o []]. }
  rewrite Hfold. cbn [app] in Hcur, Hmin. cbn [option_map].
  destruct Hcur as [[_ E] | [[(perm & Hp & Hperm) Hs] Hd]]; [discriminate|].
  exists perm. rewrite Hp in *. split; [reflexivity|]. split; [exact Hperm|]. split.
  - intros order Ho. apply num_le_Fin. rewrite <- Hd. apply Hmin. exact Ho.
  - intros i j Hi Hij Hj.
    apply (TwoOptFacts.twoOptPass_local haversine locations _ Hs i j Hi Hij).
    cbn [length]. rewrite length_app. cbn [length]. lia.
Qed.

Lemma runIntensive2Opt_local_optimum_witness :
  exists perm,
    TspSimulation.runIntensive2Opt
      (fun a b c d => (a - c) * (a - c) + (b - d) * (b - d))%Q 25 ["k3"; "k2"] ["k2"; "k3"]
      (Examples.request brute_force "k1" (Some ["k1"; "k2"; "k3"]))
      (Maps.mapLocations karnataka) ["k2"; "k3"]
    = Some ("k1" :: perm ++ ["k1"])
    /\ Permutation perm ["k2"; "k3"]
    /\ (forall order,
           In order [["k2"; "k3"]; rev ["k2"; "k3"]; ["k3"; "k2"]; ["k2"; "k3"]] ->
           (TspSimulation.pathDistanceOf
              (fun a b c d => (a - c) * (a - c) + (b - d) * (b - d))%Q
              ("k1" :: perm ++ ["k1"]) (Maps.mapLocations karnataka)
            <= TspSimulation.pathDistanceOf
                 (fun a b c d => (a - c) * (a - c) + (b - d) * (b - d))%Q
                 ("k1" :: order ++ ["k1"]) (Maps.mapLocations karnataka))%Q)
    /\ forall i j, 1 <= i -> i < j -> j + 2 <= length perm + 2 ->
                   (TspSimulation.pathDistanceOf
                      (fun a b c d => (a - c) * (a - c) + (b - d) * (b - d))%Q
                      ("k1" :: perm ++ ["k1"]) (Maps.mapLocations karnataka)
                    <= TspSimulation.pathDistanceOf
                         (fun a b c d => (a - c) * (a - c) + (b - d) * (b - d))%Q
                         (TspSimulation.reverseSegment ("k1" :: perm ++ ["k1"]) i j)
                         (Maps.mapLocations karnataka))%Q.
Proof.
  apply (runIntensive2Opt_local_optimum
           (fun a b c d => (a - c) * (a - c) + (b - d) * (b - d))%Q 25 ["k3"; "k2"] ["k2"; "k3"]
           (Examples.request brute_force "k1" (Some ["k1"; "k2"; "k3"]))
           (Maps.mapLocations karnataka) ["k2"; "k3"]).
  - apply perm_swap.
  - reflexivity.
  - vm_compute. lia.
Defined.


(** ** The fallback dispatcher of the simulation file *)

(** X19. [runBasicTSPSimulation] with two or more selected cities returns a
    result whose path is the start, the other selected cities in some order
    and the start again, and whose distance is the distance of that path:
    for nearest neighbour always; for branch and bound when the other cities
    are distinct; for brute force with at most eight other cities (one turn
    of the 2-opt loop is enough); for dynamic programming with more than ten
    selected cities, where the approximation runs instead of the table. *)
Theorem runBasicTSPSimulation_tour (haversine : Q -> Q -> Q -> Q -> Q) (fuel : nat)
        (random1 random2 : list string) (rnd1 rnd2 : Q) (params : SimulationParams)
        (selected : list string) :
  selectedCities params = Some selected ->
  2 <= length selected ->
  (algorithm params = nearest_neighbor
   \/ (algorithm params = branch_and_bound /\ NoDup (TspSimulation.otherCities params))
   \/ (algorithm params = brute_force /\ length (TspSimulation.otherCities params) <= 8
       /\ 1 <= fuel)
   \/ (algorithm params = dynamic_programming /\ 10 < length selected)) ->
  exists r interior,
    TspSimulation.runBasicTSPSimulation haversine fuel random1 random2 rnd1 rnd2 params
    = Some r
    /\ TspSimulation.r_path r
       = map TspSimulation.Id (startLocation params :: interior ++ [startLocation params])
    /\ Permutation interior (TspSimulation.otherCities params)
    /\ m_distance (TspSimulation.r_metrics r)
       = TspSimulation.calculatePathDistance haversine (TspSimulation.r_path r)
           (Maps.mapLocations (mapType params)).
Proof.
  intros Hsel Hlen Hcase. unfold TspSimulation.runBasicTSPSimulation. cbv zeta.
  rewrite Hsel.
  replace (length selected <? 2)%nat with false by (symmetry; apply Nat.ltb_ge; exact Hlen).
  set (locations := Maps.mapLocations (mapType params)).
  assert (Hpath : exists interior,
             match algorithm params with
             | nearest_neighbor =>
                 Some (map TspSimulation.Id
                           (TspSimulation.runGreedyNearestNeighbor haversine params locations))
             | brute_force =>
                 option_map (map TspSimulation.Id)
                   (TspSimulation.runOptimalBruteForce haversine fuel random1 random2 params
                                                       locations)
             | dynamic_programming => Some (TspSimulation.runHeldKarpDP haversine params locations)
             | branch_and_bound =>
                 Some (map TspSimulation.Id
                           (TspSimulation.runBranchAndBoundTSP haversine params locations))
             end
             = Some (map TspSimulation.Id
                         (startLocation params :: interior ++ [startLocation params]))
             /\ Permutation interior (TspSimulation.otherCities params)).
  { destruct Hcase as [E | [[E Hnd] | [(E & Hsmall & Hfuel) | [E Hbig]]]]; rewrite E.
    - unfold TspSimulation.runGreedyNearestNeighbor. cbv zeta.
      destruct (GreedyPathFacts.greedy_loop_spec haversine locations
                  (length (TspSimulation.otherCities params)) [startLocation params]
                  (TspSimulation.otherCities params) (startLocation params) (le_n _))
        as (rest & Hr & Hp & _).
      exists rest. rewrite Hr. auto.
    - destruct (SimulationTourFacts.runBranchAndBoundTSP_closed haversine params locations Hnd)
        as (interior & Hr & Hp).
      exists interior. rewrite Hr. auto.
    - destruct fuel as [|fuel]; [lia|].
      destruct (runOptimalBruteForce_spec haversine fuel random1 random2 params locations
                  Hsmall) as (perm & Hr & Hp & _).
      exists perm. rewrite Hr. auto.
    - unfold TspSimulation.runHeldKarpDP. cbv zeta. rewrite Hsel.
      change (default [] (Some selected)) with selected.
      replace (10 <? length selected)%nat with true by (symmetry; apply Nat.ltb_lt; exact Hbig).
      unfold TspSimulation.runDPApproximation. cbv zeta.
      destruct (GreedyPathFacts.dpApprox_loop_spec haversine locations params
                  (length (TspSimulation.otherCities params)) [startLocation params]
                  (TspSimulation.otherCities params) (startLocation params) (le_n _))
        as (rest & Hr & Hp).
      exists rest. rewrite Hr. auto. }
  destruct Hpath as (interior & -> & Hp).
  eexists. exists interior. split; [reflexivity|].
  cbn [TspSimulation.r_path TspSimulation.r_metrics m_distance]. auto.
Qed.

Lemma runBasicTSPSimulation_tour_witness :
  exists r interior,
    TspSimulation.runBasicTSPSimulation
      (fun a b c d => (a - c) * (a - c) + (b - d) * (b - d))%Q 1 [] [] (1 # 2) (1 # 2)
      (Examples.request brute_force "k1" (Some ["k1"; "k2"; "k3"]))
    = Some r
    /\ TspSimulation.r_path r = map TspSimulation.Id ("k1" :: interior ++ ["k1"])
    /\ Permutation interior ["k2"; "k3"]
    /\ m_distance (TspSimulation.r_metrics r)
       = TspSimulation.calculatePathDistance
           (fun a b c d => (a - c) * (a - c) + (b - d) * (b - d))%Q
           (TspSimulation.r_path r) (Maps.mapLocations karnataka).
Proof.
  apply (runBasicTSPSimulation_tour
           (fun a b c d => (a - c) * (a - c) + (b - d) * (b - d))%Q 1 [] [] (1 # 2) (1 # 2)
           (Examples.request brute_force "k1" (Some ["k1"; "k2"; "k3"]))
           ["k1"; "k2"; "k3"]).
  - reflexivity.
  - simpl. lia.
  - right. right. left. split; [reflexivity|]. split; [vm_compute; lia | lia].
Defined.


(** ** The solvers of graphAlgorithms.ts on the graphs of the editor *)

(** X20. [nearestNeighbor] of graphAlgorithms.ts on an editor graph with
    distinct ids whose nodes all have their index, from a node of the graph:
    it returns a tour of all nodes from the start, and the distance it reports
    (the running total of its loop plus the return leg) is the distance that
    [calculateRealWorldDistance] gives for that tour. *)
Theorem graph_nearestNeighbor_reports_its_tour (sqrt : Q -> Q) (graph : GraphAlgorithms.Graph)
        (conditions : GraphAlgorithms.Conditions) (start : string) :
  GraphBnBFacts.metric graph ->
  In start (Object_keys (GraphAlgorithms.g_nodes graph)) ->
  exists r,
    GraphAlgorithms.nearestNeighbor sqrt graph start conditions = Some r
    /\ tour_of (Object_keys (GraphAlgorithms.g_nodes graph)) start (GraphAlgorithms.res_path r)
    /\ GraphAlgorithms.calculateRealWorldDistance sqrt (GraphAlgorithms.res_path r)
         graph conditions
       = Some (GraphAlgorithms.res_distance r).
Proof. apply GraphBnBFacts.graph_nearestNeighbor_path. Qed.

Lemma graph_nearestNeighbor_reports_its_tour_witness :
  exists r,
    GraphAlgorithms.nearestNeighbor (fun q => q) editorGraph "1" noConditions = Some r
    /\ tour_of (Object_keys (GraphAlgorithms.g_nodes editorGraph)) "1"
               (GraphAlgorithms.res_path r)
    /\ GraphAlgorithms.calculateRealWorldDistance (fun q => q) (GraphAlgorithms.res_path r)
         editorGraph noConditions
       = Some (GraphAlgorithms.res_distance r).
Proof.
  apply (graph_nearestNeighbor_reports_its_tour (fun q => q) editorGraph noConditions "1").
  - apply metricb_sound. vm_compute. reflexivity.
  - simpl. auto.
Defined.

(** X21. [branchAndBound] of graphAlgorithms.ts on an editor graph with at
    most ten nodes, distinct ids, 0 on the diagonal and no negative weight,
    from a node of the graph: it returns either the empty result with distance
    0 (no tour was completed within the 50000 turns of its loop) or a tour of
    all nodes from the start, with the distance that
    [calculateRealWorldDistance] gives for it, and then no tour of the graph
    from the start has a smaller distance. *)
Theorem graph_branchAndBound_shortest_or_empty (sqrt : Q -> Q) (graph : GraphAlgorithms.Graph)
        (conditions : GraphAlgorithms.Conditions) (start : string) :
  GraphBnBFacts.metric graph ->
  (forall x, (0 <= x)%Q -> (0 <= sqrt x)%Q) ->
  In start (Object_keys (GraphAlgorithms.g_nodes graph)) ->
  length (Object_keys (GraphAlgorithms.g_nodes graph)) <= 10 ->
  exists rb,
    GraphAlgorithms.branchAndBound sqrt graph start conditions = Some rb
    /\ ((GraphAlgorithms.res_path rb = [] /\ GraphAlgorithms.res_distance rb = Fin 0)
        \/ (tour_of (Object_keys (GraphAlgorithms.g_nodes graph)) start
                    (GraphAlgorithms.res_path rb)
            /\ GraphAlgorithms.calculateRealWorldDistance sqrt (GraphAlgorithms.res_path rb)
                 graph conditions
               = Some (GraphAlgorithms.res_distance rb)
            /\ forall tour d,
                tour_of (Object_keys (GraphAlgorithms.g_nodes graph)) start tour ->
                GraphAlgorithms.calculateRealWorldDistance sqrt tour graph conditions = Some d ->
                num_le (GraphAlgorithms.res_distance rb) d)).
Proof. apply GraphBnBFacts.graph_branchAndBound_exact. Qed.

Lemma graph_branchAndBound_shortest_or_empty_witness :
  exists rb,
    GraphAlgorithms.branchAndBound (fun q => q) editorGraph "1" noConditions = Some rb
    /\ ((GraphAlgorithms.res_path rb = [] /\ GraphAlgorithms.res_distance rb = Fin 0)
        \/ (tour_of (Object_keys (GraphAlgorithms.g_nodes editorGraph)) "1"
                    (GraphAlgorithms.res_path rb)
            /\ GraphAlgorithms.calculateRealWorldDistance (fun q => q)
                 (GraphAlgorithms.res_path rb) editorGraph noConditions
               = Some (GraphAlgorithms.res_distance rb)
            /\ forall tour d,
                tour_of (Object_keys (GraphAlgorithms.g_nodes editorGraph)) "1" tour ->
                GraphAlgorithms.calculateRealWorldDistance (fun q => q) tour editorGraph
                  noConditions = Some d ->
                num_le (GraphAlgorithms.res_distance rb) d)).
Proof.
  apply (graph_branchAndBound_shortest_or_empty (fun q => q) editorGraph noConditions "1").
  - apply metricb_sound. vm_compute. reflexivity.
  - intros x Hx. exact Hx.
  - simpl. auto.
  - vm_compute. lia.
Defined.

(** The enumeration of graphAlgorithms.ts returns a shortest tour. *)
Lemma graph_bruteForce_spec (sqrt : Q -> Q) (graph : GraphAlgorithms.Graph)
        (conditions : GraphAlgorithms.Conditions) (start : string) :
  GraphBnBFacts.metric graph ->
  In start (Object_keys (GraphAlgorithms.g_nodes graph)) ->
  2 <= length (Object_keys (GraphAlgorithms.g_nodes graph)) ->
  exists r,
    GraphAlgorithms.bruteForce sqrt graph start conditions = Some r
    /\ tour_of (Object_keys (GraphAlgorithms.g_nodes graph)) start (GraphAlgorithms.res_path r)
    /\ GraphAlgorithms.calculateRealWorldDistance sqrt (GraphAlgorithms.res_path r)
         graph conditions
       = Some (GraphAlgorithms.res_distance r)
    /\ forall tour d,
        tour_of (Object_keys (GraphAlgorithms.g_nodes graph)) start tour ->
        GraphAlgorithms.calculateRealWorldDistance sqrt tour graph conditions = Some d ->
        num_le (GraphAlgorithms.res_distance r) d.
Proof.
  intros Hm Hstart Hn. unfold GraphAlgorithms.bruteForce. cbv zeta.
  set (keys := Object_keys (GraphAlgorithms.g_nodes graph)) in *.
  replace (length keys <? 2)%nat with false by (symmetry; apply Nat.ltb_ge; exact Hn).
  set (others := filter (fun node => negb (String.eqb node start)) keys).
  pose proof (filter_start_perm keys start (GraphBnBFacts.mt_nodup graph Hm) Hstart) as Hfp.
  fold others in Hfp.
  assert (Hperms : forall perm, In perm (Algorithms.permute others) ->
                                Permutation (start :: perm) keys).
  { intros perm Hp. apply BruteForceTSPFacts.permute_spec in Hp. rewrite Hp. exact Hfp. }
  destruct (GraphBnBFacts.graph_bruteStep_fold sqrt graph conditions start Hm Hstart
              (Algorithms.permute others)) with (seen := @nil (list string))
                                                (st := (@nil string, Infinity))
    as (st' & Hfold & Hcur & Hmin).
  { intros perm Hp x Hx. apply (Permutation_in _ (Hperms perm Hp)). right. exact Hx. }
  { split; [left; split; reflexivity | intros p []]. }
  cbn [app] in Hcur, Hmin. fold keys in Hfold. rewrite Hfold.
  destruct Hcur as [[_ Hnil] | (perm & Hp & ->)].
  { exfalso. destruct (permute_head others) as [rest Hrest]. rewrite Hrest in Hnil.
    discriminate. }
  eexists. split; [reflexivity|]. cbn [GraphAlgorithms.res_path GraphAlgorithms.res_distance].
  assert (Htour : tour_of keys start (start :: perm ++ [start])).
  { exists perm. split; [reflexivity | apply Hperms; exact Hp]. }
  split; [exact Htour|]. split.
  - apply (GraphBnBFacts.calculateRealWorldDistance_gsum sqrt graph conditions Hm).
    apply (GraphBnBFacts.tour_incl graph start Hstart). exact Htour.
  - intros tour d Ht Hd.
    rewrite (GraphBnBFacts.calculateRealWorldDistance_gsum sqrt graph conditions Hm tour
               (GraphBnBFacts.tour_incl graph start Hstart tour Ht)) in Hd.
    injection Hd as <-. destruct Ht as (interior & -> & Hperm). cbn [snd] in Hmin.
    apply Hmin. apply BruteForceTSPFacts.permute_spec.
    apply (Permutation_cons_inv (a:=start)). rewrite Hperm. symmetry. exact Hfp.
Qed.

(** X22. [bruteForce] of graphAlgorithms.ts on an editor graph with two nodes
    or more (at every size: it has no cutoff), distinct ids and every node
    indexed, from a node of the graph: it returns a tour of all nodes from the
    start with the distance that [calculateRealWorldDistance] gives for it,
    and no tour of the graph from the start has a smaller distance. *)
Theorem graph_bruteForce_shortest (sqrt : Q -> Q) (graph : GraphAlgorithms.Graph)
        (conditions : GraphAlgorithms.Conditions) (start : string) :
  GraphBnBFacts.metric graph ->
  In start (Object_keys (GraphAlgorithms.g_nodes graph)) ->
  2 <= length (Object_keys (GraphAlgorithms.g_nodes graph)) ->
  exists r,
    GraphAlgorithms.bruteForce sqrt graph start conditions = Some r
    /\ tour_of (Object_keys (GraphAlgorithms.g_nodes graph)) start (GraphAlgorithms.res_path r)
    /\ GraphAlgorithms.calculateRealWorldDistance sqrt (GraphAlgorithms.res_path r)
         graph conditions
       = Some (GraphAlgorithms.res_distance r)
    /\ forall tour d,
        tour_of (Object_keys (GraphAlgorithms.g_nodes graph)) start tour ->
        GraphAlgorithms.calculateRealWorldDistance sqrt tour graph conditions = Some d ->
        num_le (GraphAlgorithms.res_distance r) d.
Proof. apply graph_bruteForce_spec. Qed.

Lemma graph_bruteForce_shortest_witness :
  exists r,
    GraphAlgorithms.bruteForce (fun q => q) editorGraph "1" noConditions = Some r
    /\ tour_of (Object_keys (GraphAlgorithms.g_nodes editorGraph)) "1"
               (GraphAlgorithms.res_path r)
    /\ GraphAlgorithms.calculateRealWorldDistance (fun q => q) (GraphAlgorithms.res_path r)
         editorGraph noConditions
       = Some (GraphAlgorithms.res_distance r)
    /\ forall tour d,
        tour_of (Object_keys (GraphAlgorithms.g_nodes editorGraph)) "1" tour ->
        GraphAlgorithms.calculateRealWorldDistance (fun q => q) tour editorGraph noConditions
        = Some d ->
        num_le (GraphAlgorithms.res_distance r) d.
Proof.
  apply (graph_bruteForce_shortest (fun q => q) editorGraph noConditions "1").
  - apply metricb_sound. vm_compute. reflexivity.
  - simpl. auto.
  - vm_compute. lia.
Defined.


(** ** From the editor to the graph (graphAlgorithms.ts) *)

Lemma obj_get_obj_set {A : Type} (o : list (string * A)) (k k' : string) (v : A) :
  obj_get (obj_set o k v) k' = if String.eqb k k' then Some v else obj_get o k'.
Proof.
  unfold obj_get. induction o as [|[k0 v0] o IH]; cbn [obj_set find fst snd].
  - destruct (String.eqb k k'); reflexivity.
  - destruct (String.eqb_spec k0 k) as [-> | Hne]; cbn [find fst snd].
    + destruct (String.eqb k k'); reflexivity.
    + destruct (String.eqb_spec k0 k') as [-> | Hne'].
      * destruct (String.eqb_spec k k') as [-> | _]; [contradiction | reflexivity].
      * exact IH.
Qed.

Lemma mat_get_new (n i j : nat) : mat_get (mat_new n) i j = Infinity.
Proof.
  unfold mat_get, mat_new. destruct (Nat.lt_ge_cases i n) as [Hi | Hi].
  - rewrite nth_repeat_lt by exact Hi. destruct (Nat.lt_ge_cases j n) as [Hj | Hj].
    + apply nth_repeat_lt. exact Hj.
    + apply nth_overflow. rewrite repeat_length. exact Hj.
  - rewrite (nth_overflow (repeat (repeat Infinity n) n)) by (rewrite repeat_length; exact Hi).
    destruct j; reflexivity.
Qed.

Module ConvertFacts.
Import GraphAlgorithms.

(** The matrix of a graph of the editor: square, 0 on the diagonal, no
    negative weight, symmetric. *)
Record mat_ok (n : nat) (m : Matrix) : Prop := {
  mo_square : square n m;
  mo_diag : forall i, i < n -> mat_get m i i = Fin 0;
  mo_nonneg : forall i j d, mat_get m i j = Fin d -> (0 <= d)%Q;
  mo_sym : forall i j, mat_get m i j = mat_get m j i
}.

Lemma diagonal_ok (n : nat) :
  mat_ok n (fold_left (fun m i => mat_set m i i (Fin 0)) (seq 0 n) (mat_new n)).
Proof.
  assert (H : forall l m,
             Forall (fun i => i < n) l ->
             square n m -> (forall i j d, mat_get m i j = Fin d -> (0 <= d)%Q) ->
             (forall i j, mat_get m i j = mat_get m j i) ->
             let m' := fold_left (fun m i => mat_set m i i (Fin 0)) l m in
             square n m' /\ (forall i j d, mat_get m' i j = Fin d -> (0 <= d)%Q)
             /\ (forall i j, mat_get m' i j = mat_get m' j i)
             /\ forall i, i < n -> In i l \/ mat_get m i i = Fin 0 -> mat_get m' i i = Fin 0).
  { induction l as [|x l IH]; intros m Hl Hsq Hnn Hsym; cbn [fold_left]; cbv zeta.
    - split; [exact Hsq|]. split; [exact Hnn|]. split; [exact Hsym|].
      intros i _ [[] | Hd]. exact Hd.
    - inversion Hl as [|? ? Hx Hl']; subst.
      destruct (IH (mat_set m x x (Fin 0)) Hl') as (H1 & H2 & H3 & H4); cbv zeta in *.
      + apply square_set; assumption.
      + intros i j d. rewrite (mat_get_set n) by assumption.
        destruct ((x =? i) && (x =? j))%nat; [intros [= <-]; apply Qle_refl | apply Hnn].
      + intros i j. rewrite !(mat_get_set n) by assumption.
        rewrite (andb_comm (x =? j)%nat). destruct ((x =? i) && (x =? j))%nat;
          [reflexivity | apply Hsym].
      + split; [exact H1|]. split; [exact H2|]. split; [exact H3|].
        intros i Hi Hcase. apply H4; [exact Hi|].
        destruct (Nat.eq_dec x i) as [-> | Hne].
        * right. rewrite (mat_get_set n) by assumption. rewrite Nat.eqb_refl. reflexivity.
        * destruct Hcase as [[E | Hin] | Hd]; [contradiction | left; exact Hin|].
          right. rewrite (mat_get_set n) by assumption.
          replace (x =? i)%nat with false by (symmetry; apply Nat.eqb_neq; exact Hne).
          exact Hd. }
  destruct (H (seq 0 n) (mat_new n)) as (H1 & H2 & H3 & H4).
  - apply Forall_forall. intros i Hi. apply in_seq in Hi. lia.
  - apply square_new.
  - intros i j d. rewrite mat_get_new. discriminate.
  - intros i j. rewrite !mat_get_new. reflexivity.
  - constructor; auto. intros i Hi. apply H4; [exact Hi|]. left. apply in_seq. lia.
Qed.

Lemma edge_ok (n : nat) (m : Matrix) (i j : nat) (w : Q) :
  mat_ok n m -> i < n -> j < n -> i <> j -> (0 <= w)%Q ->
  mat_ok n (mat_set (mat_set m i j (Fin w)) j i (Fin w)).
Proof.
  intros [Hsq Hd Hnn Hsym] Hi Hj Hij Hw.
  assert (Hsq1 : square n (mat_set m i j (Fin w))) by (apply square_set; assumption).
  assert (Hget : forall a b,
             mat_get (mat_set (mat_set m i j (Fin w)) j i (Fin w)) a b
             = if ((j =? a) && (i =? b))%nat then Fin w
               else if ((i =? a) && (j =? b))%nat then Fin w else mat_get m a b).
  { intros a b. rewrite (mat_get_set n) by assumption.
    rewrite (mat_get_set n) by assumption. reflexivity. }
  constructor.
  - apply square_set; assumption.
  - intros a Ha. rewrite Hget.
    destruct (Nat.eqb_spec j a) as [-> | _], (Nat.eqb_spec i a) as [-> | _];
      cbn [andb]; try contradiction; apply Hd; exact Ha.
  - intros a b d. rewrite Hget.
    destruct ((j =? a) && (i =? b))%nat; [intros [= <-]; exact Hw|].
    destruct ((i =? a) && (j =? b))%nat; [intros [= <-]; exact Hw | apply Hnn].
  - intros a b. rewrite !Hget.
    destruct (Nat.eqb_spec j a), (Nat.eqb_spec i b), (Nat.eqb_spec i a), (Nat.eqb_spec j b);
      cbn [andb]; subst; try contradiction; try reflexivity; apply Hsym.
Qed.

Section WithDraws.
Variable sqrt : Q -> Q.
Variable rnd : nat -> Q.
Hypothesis sqrt_nonneg : forall x, (0 <= x)%Q -> (0 <= sqrt x)%Q.
Hypothesis rnd_nonneg : forall k, (0 <= rnd k)%Q.

Lemma euclid_nonneg (a b : GraphNode) : (0 <= calculateEuclideanDistance sqrt a b)%Q.
Proof.
  unfold calculateEuclideanDistance. cbv zeta.
  apply Qmult_le_0_compat; [|discriminate]. apply sqrt_nonneg.
  set (dx := (gn_x a - gn_x b)%Q). set (dy := (gn_y a - gn_y b)%Q).
  nra.
Qed.

(** The state of the loop over the nodes, after the nodes [done]. *)
Record nodes_inv (done : list FlowNode) (g : Graph) : Prop := {
  ni_keys : Object_keys (g_nodes g) = map fn_id done;
  ni_index : indexToNode g = map fn_id done;
  ni_get : forall i x, nth_error (map fn_id done) i = Some x ->
                       obj_get (nodeIndices g) x = Some i;
  ni_dom : forall x i, obj_get (nodeIndices g) x = Some i ->
                       nth_error (map fn_id done) i = Some x;
  ni_matrix : adjacencyMatrix g = []
}.

Lemma addNode_inv (done : list FlowNode) (g : Graph) (node : FlowNode) :
  ~ In (fn_id node) (map fn_id done) ->
  nodes_inv done g -> nodes_inv (done ++ [node]) (addNode rnd g node).
Proof.
  intros Hfresh [Hk Hi Hg Hd Hm]. unfold addNode. cbv zeta.
  assert (Hlen : length (indexToNode g) = length (map fn_id done)) by (rewrite Hi; reflexivity).
  constructor; cbn [g_nodes indexToNode nodeIndices adjacencyMatrix].
  - rewrite Object_keys_obj_set, Hk. unfold JsSet.add.
    apply has_not_In in Hfresh. rewrite Hfresh, map_app. reflexivity.
  - rewrite Hi, map_app. reflexivity.
  - intros i x Hx. rewrite obj_get_obj_set. rewrite map_app in Hx. cbn [map] in Hx.
    destruct (String.eqb_spec (fn_id node) x) as [<- | Hne].
    + destruct (Nat.lt_ge_cases i (length (map fn_id done))) as [Hlt | Hge].
      * exfalso. rewrite nth_error_app1 in Hx by exact Hlt.
        apply nth_error_In in Hx. contradiction.
      * rewrite nth_error_app2 in Hx by exact Hge.
        destruct (i - length (map fn_id done)) as [|k] eqn:E;
          [|destruct k; discriminate Hx].
        f_equal. lia.
    + destruct (Nat.lt_ge_cases i (length (map fn_id done))) as [Hlt | Hge].
      * rewrite nth_error_app1 in Hx by exact Hlt. apply Hg. exact Hx.
      * exfalso. rewrite nth_error_app2 in Hx by exact Hge.
        destruct (i - length (map fn_id done)) as [|k];
          [cbn in Hx; congruence | destruct k; discriminate Hx].
  - intros x i. rewrite obj_get_obj_set, map_app. cbn [map].
    destruct (String.eqb_spec (fn_id node) x) as [<- | Hne].
    + intros [= <-]. rewrite Hlen, nth_error_app2 by apply Nat.le_refl.
      rewrite Nat.sub_diag. reflexivity.
    + intros Hx. specialize (Hd x i Hx). rewrite nth_error_app1; [exact Hd|].
      apply nth_error_Some. congruence.
  - exact Hm.
Qed.

Lemma addNode_fold (rest : list FlowNode) :
  forall done g,
    NoDup (map fn_id (done ++ rest)) -> nodes_inv done g ->
    nodes_inv (done ++ rest) (fold_left (addNode rnd) rest g).
Proof.
  induction rest as [|node rest IH]; intros done g Hnd Hinv; cbn [fold_left].
  - rewrite app_nil_r. exact Hinv.
  - replace (done ++ node :: rest) with ((done ++ [node]) ++ rest) in *
      by (rewrite <- app_assoc; reflexivity).
    apply IH; [exact Hnd|]. apply addNode_inv; [|exact Hinv].
    rewrite !map_app in Hnd. apply NoDup_app_remove_r in Hnd.
    apply NoDup_remove_2 in Hnd. rewrite app_nil_r in Hnd. exact Hnd.
Qed.

(** An edge of the editor that the loop accepts: between two different nodes
    of the list, with a label that is not negative (or none). *)
Definition edge_fine (ids : list string) (edge : FlowEdge) : Prop :=
  fe_source edge <> fe_target edge
  /\ In (fe_source edge) ids /\ In (fe_target edge) ids
  /\ forall z, fe_label edge = Some z -> (0 <= z)%Z.

(** The state of the loop over the edges: the maps of the nodes are those of
    [g2], and the matrix is a matrix of the editor. *)
Record edges_inv (g2 g : Graph) : Prop := {
  ei_nodes : g_nodes g = g_nodes g2;
  ei_indices : nodeIndices g = nodeIndices g2;
  ei_index : indexToNode g = indexToNode g2;
  ei_matrix : mat_ok (length (indexToNode g2)) (adjacencyMatrix g)
}.

Lemma addEdge_inv (nodes : list FlowNode) (g2 g : Graph) (j : nat) (edge : FlowEdge) :
  NoDup (map fn_id nodes) ->
  Object_keys (g_nodes g2) = map fn_id nodes ->
  indexToNode g2 = map fn_id nodes ->
  (forall i x, nth_error (map fn_id nodes) i = Some x -> obj_get (nodeIndices g2) x = Some i) ->
  edge_fine (map fn_id nodes) edge ->
  edges_inv g2 g ->
  exists g',
    addEdge sqrt rnd (length nodes) (Some (g, j)) edge = Some (g', S j) /\ edges_inv g2 g'.
Proof.
  intros Hnd Hkeys Hidx Hget (Hne & Hs & Ht & Hlabel) [Hn Hi Hx Hm].
  unfold addEdge. cbv zeta.
  destruct (proj1 (obj_get_In (g_nodes g2) (fe_source edge))) as [a Ha];
    [rewrite Hkeys; exact Hs|].
  destruct (proj1 (obj_get_In (g_nodes g2) (fe_target edge))) as [b Hb];
    [rewrite Hkeys; exact Ht|].
  rewrite Hn, Ha, Hb.
  assert (Hbase : exists w,
             match
               match fe_label edge with
               | Some z => if (z =? 0)%Z then None else Some (inject_Z z)
               | None => None
               end
             with
             | Some w => Some w
             | None => Some (calculateEuclideanDistance sqrt a b)
             end = Some w /\ (0 <= w)%Q).
  { destruct (fe_label edge) as [z|] eqn:Hz.
    - destruct (z =? 0)%Z.
      + eexists. split; [reflexivity | apply euclid_nonneg].
      + eexists. split; [reflexivity|]. specialize (Hlabel z eq_refl).
        change 0%Q with (inject_Z 0). rewrite <- Zle_Qle. exact Hlabel.
    - eexists. split; [reflexivity | apply euclid_nonneg]. }
  destruct Hbase as (w & -> & Hw).
  apply In_nth_error in Hs, Ht. destruct Hs as [fi Hfi], Ht as [ti Hti].
  rewrite Hi, (Hget fi _ Hfi), (Hget ti _ Hti).
  eexists. split; [reflexivity|].
  constructor; cbn [g_nodes nodeIndices indexToNode adjacencyMatrix]; auto.
  assert (Hlt : fi < length (indexToNode g2) /\ ti < length (indexToNode g2)).
  { rewrite Hidx. split; apply nth_error_Some; congruence. }
  apply edge_ok; [exact Hm | tauto | tauto | |].
  - intros ->. apply Hne. congruence.
  - pose proof (rnd_nonneg (3 * length nodes + 3 * j)) as H0.
    pose proof (rnd_nonneg (3 * length nodes + 3 * j + 1)) as H1.
    pose proof (rnd_nonneg (3 * length nodes + 3 * j + 2)) as H2.
    assert (Hr : (0 <= ROAD_TYPE_MULTIPLIERS
                          (pickRoadType (rnd (3 * length nodes + 3 * j))))%Q)
      by (destruct (pickRoadType _); cbn; lra).
    apply Qmult_le_0_compat; [|lra]. apply Qmult_le_0_compat; [|lra].
    apply Qmult_le_0_compat; assumption.
Qed.

Lemma addEdge_fold (nodes : list FlowNode) (g2 : Graph) (edges : list FlowEdge) :
  NoDup (map fn_id nodes) ->
  Object_keys (g_nodes g2) = map fn_id nodes ->
  indexToNode g2 = map fn_id nodes ->
  (forall i x, nth_error (map fn_id nodes) i = Some x -> obj_get (nodeIndices g2) x = Some i) ->
  Forall (edge_fine (map fn_id nodes)) edges ->
  forall g j,
    edges_inv g2 g ->
    exists g' j',
      fold_left (addEdge sqrt rnd (length nodes)) edges (Some (g, j)) = Some (g', j')
      /\ edges_inv g2 g'.
Proof.
  intros Hnd Hkeys Hidx Hget. induction edges as [|edge edges IH]; intros Hall g j Hinv;
    cbn [fold_left].
  - exists g, j. split; [reflexivity | exact Hinv].
  - inversion Hall as [|? ? He Hall']; subst.
    destruct (addEdge_inv nodes g2 g j edge Hnd Hkeys Hidx Hget He Hinv) as (g' & -> & Hinv').
    apply (IH Hall' g' (S j) Hinv').
Qed.

(** The graph built from nodes with distinct ids and fine edges. *)
Lemma convertToGraph_spec (nodes : list FlowNode) (edges : list FlowEdge) :
  NoDup (map fn_id nodes) -> ~ In "" (map fn_id nodes) ->
  Forall (edge_fine (map fn_id nodes)) edges ->
  exists g,
    convertToGraph sqrt rnd nodes edges = Some g
    /\ GraphBnBFacts.metric g
    /\ Object_keys (g_nodes g) = map fn_id nodes
    /\ indexToNode g = map fn_id nodes
    /\ (forall i x, nth_error (map fn_id nodes) i = Some x ->
                    obj_get (nodeIndices g) x = Some i)
    /\ forall i j, mat_get (adjacencyMatrix g) i j = mat_get (adjacencyMatrix g) j i.
Proof.
  intros Hnd Hne Hall. unfold convertToGraph. cbv zeta.
  set (g0 := {| g_nodes := []; g_edges := []; adjacencyMatrix := [];
                nodeIndices := []; indexToNode := [] |}).
  pose proof (addNode_fold nodes [] g0 Hnd) as Hnodes. cbn [app] in Hnodes.
  destruct Hnodes as [Hk Hi Hg Hd _].
  { constructor; try reflexivity.
    - intros i x Hx. destruct i; discriminate Hx.
    - intros x i Hx. discriminate Hx. }
  set (g1 := fold_left (addNode rnd) nodes g0) in *.
  set (matrix := fold_left (fun m i => mat_set m i i (Fin 0)) (seq 0 (length nodes))
                           (mat_new (length nodes))).
  set (g2 := {| g_nodes := g_nodes g1; g_edges := []; adjacencyMatrix := matrix;
                nodeIndices := nodeIndices g1; indexToNode := indexToNode g1 |}).
  destruct (addEdge_fold nodes g2 edges Hnd Hk Hi Hg Hall g2 0) as (g & j & Hfold & Hinv).
  { constructor; try reflexivity. cbn [g2 indexToNode adjacencyMatrix].
    rewrite Hi, length_map. apply diagonal_ok. }
  rewrite Hfold. exists g. split; [reflexivity|].
  destruct Hinv as [En Ei Ex Hm]. cbn [g2 g_nodes nodeIndices indexToNode] in En, Ei, Ex, Hm.
  rewrite Hi, length_map in Hm.
  assert (Hkeys : Object_keys (g_nodes g) = map fn_id nodes) by (rewrite En; exact Hk).
  split; [|split; [exact Hkeys | split; [rewrite Ex; exact Hi | split]]].
  - constructor; rewrite ?Hkeys.
    + exact Hnd.
    + exact Hne.
    + intros x Hx. apply In_nth_error in Hx. destruct Hx as [i Hx]. exists i.
      rewrite Ei. split; [apply Hg; exact Hx|].
      assert (Hlt : i < length nodes).
      { rewrite <- (length_map fn_id). apply nth_error_Some. congruence. }
      split; [rewrite length_map; exact Hlt | apply (mo_diag _ _ Hm); exact Hlt].
    + apply (mo_nonneg _ _ Hm).
  - intros i x Hx. rewrite Ei. apply Hg. exact Hx.
  - apply (mo_sym _ _ Hm).
Qed.

End WithDraws.
End ConvertFacts.

(** X23. [convertToGraph] on the nodes and edges of the editor, when the node
    ids are distinct and not empty and every edge joins two different nodes of
    the list with a label that is not negative (or without a number, or 0:
    then the Euclidean distance is taken), whatever the random draws: it does
    not raise, the nodes of the graph are the nodes of the editor in their
    order, the node of position [i] has the index [i], and the matrix is
    symmetric, with 0 on the diagonal and no negative weight, which is what
    the solvers of the file need. *)
Theorem convertToGraph_builds_a_metric_graph (sqrt : Q -> Q) (rnd : nat -> Q)
        (nodes : list GraphAlgorithms.FlowNode) (edges : list GraphAlgorithms.FlowEdge) :
  (forall x, (0 <= x)%Q -> (0 <= sqrt x)%Q) ->
  (forall k, (0 <= rnd k)%Q) ->
  NoDup (map GraphAlgorithms.fn_id nodes) ->
  ~ In "" (map GraphAlgorithms.fn_id nodes) ->
  Forall (ConvertFacts.edge_fine (map GraphAlgorithms.fn_id nodes)) edges ->
  exists g,
    GraphAlgorithms.convertToGraph sqrt rnd nodes edges = Some g
    /\ GraphBnBFacts.metric g
    /\ Object_keys (GraphAlgorithms.g_nodes g) = map GraphAlgorithms.fn_id nodes
    /\ GraphAlgorithms.indexToNode g = map GraphAlgorithms.fn_id nodes
    /\ (forall i x, nth_error (map GraphAlgorithms.fn_id nodes) i = Some x ->
                    obj_get (GraphAlgorithms.nodeIndices g) x = Some i)
    /\ forall i j, mat_get (GraphAlgorithms.adjacencyMatrix g) i j
                   = mat_get (GraphAlgorithms.adjacencyMatrix g) j i.
Proof. intros Hs Hr. apply ConvertFacts.convertToGraph_spec; assumption. Qed.

Lemma convertToGraph_builds_a_metric_graph_witness :
  exists g,
    GraphAlgorithms.convertToGraph (fun q => q) (fun _ => (1 # 2)%Q)
      [ {| GraphAlgorithms.fn_id := "1"; GraphAlgorithms.fn_label := "A";
           GraphAlgorithms.fn_x := 0; GraphAlgorithms.fn_y := 0 |};
        {| GraphAlgorithms.fn_id := "2"; GraphAlgorithms.fn_label := "B";
           GraphAlgorithms.fn_x := 30; GraphAlgorithms.fn_y := 0 |} ]
      [ {| GraphAlgorithms.fe_source := "1"; GraphAlgorithms.fe_target := "2";
           GraphAlgorithms.fe_label := Some 7%Z |} ] = Some g
    /\ GraphBnBFacts.metric g
    /\ Object_keys (GraphAlgorithms.g_nodes g) = ["1"; "2"]
    /\ GraphAlgorithms.indexToNode g = ["1"; "2"]
    /\ (forall i x, nth_error ["1"; "2"] i = Some x ->
                    obj_get (GraphAlgorithms.nodeIndices g) x = Some i)
    /\ forall i j, mat_get (GraphAlgorithms.adjacencyMatrix g) i j
                   = mat_get (GraphAlgorithms.adjacencyMatrix g) j i.
Proof.
  apply (convertToGraph_builds_a_metric_graph (fun q => q) (fun _ => (1 # 2)%Q)
           [ {| GraphAlgorithms.fn_id := "1"; GraphAlgorithms.fn_label := "A";
                GraphAlgorithms.fn_x := 0; GraphAlgorithms.fn_y := 0 |};
             {| GraphAlgorithms.fn_id := "2"; GraphAlgorithms.fn_label := "B";
                GraphAlgorithms.fn_x := 30; GraphAlgorithms.fn_y := 0 |} ]
           [ {| GraphAlgorithms.fe_source := "1"; GraphAlgorithms.fe_target := "2";
                GraphAlgorithms.fe_label := Some 7%Z |} ]).
  - intros x Hx. exact Hx.
  - intros k. discriminate.
  - apply nodupb_NoDup. vm_compute. reflexivity.
  - apply has_not_In. vm_compute. reflexivity.
  - constructor; [|constructor]. unfold ConvertFacts.edge_fine. cbn.
    split; [discriminate|]. split; [auto|]. split; [auto|]. intros z [= <-]. lia.
Defined.


(** ** The dispatcher of graphAlgorithms.ts *)

Module GraphDispatchFacts.
Import GraphAlgorithms.

(** The node of the graph for a node of the editor keeps its label and its
    position. *)
Definition kept (g : Graph) (nd : FlowNode) : Prop :=
  exists node, obj_get (g_nodes g) (fn_id nd) = Some node
               /\ gn_label node = fn_label nd
               /\ gn_x node = fn_x nd /\ gn_y node = fn_y nd.

Lemma addNode_kept (rnd : nat -> Q) (rest : list FlowNode) :
  forall done g,
    NoDup (map fn_id (done ++ rest)) ->
    (forall nd, In nd done -> kept g nd) ->
    forall nd, In nd (done ++ rest) -> kept (fold_left (addNode rnd) rest g) nd.
Proof.
  induction rest as [|node rest IH]; intros done g Hnd Hdone nd Hin; cbn [fold_left].
  - rewrite app_nil_r in Hin. apply Hdone. exact Hin.
  - replace (done ++ node :: rest) with ((done ++ [node]) ++ rest) in *
      by (rewrite <- app_assoc; reflexivity).
    apply (IH (done ++ [node])); [exact Hnd | | exact Hin].
    assert (Hfresh : ~ In (fn_id node) (map fn_id done)).
    { rewrite !map_app in Hnd. apply NoDup_app_remove_r in Hnd.
      apply NoDup_remove_2 in Hnd. rewrite app_nil_r in Hnd. exact Hnd. }
    intros nd' Hin'. apply in_app_iff in Hin'. unfold kept, addNode. cbv zeta.
    cbn [g_nodes]. rewrite obj_get_obj_set.
    destruct Hin' as [Hin' | [<- | []]].
    + destruct (String.eqb_spec (fn_id node) (fn_id nd')) as [E | _].
      * exfalso. apply Hfresh. rewrite E. apply in_map. exact Hin'.
      * apply Hdone. exact Hin'.
    + rewrite String.eqb_refl. eexists. split; [reflexivity|]. cbn. auto.
Qed.

Lemma addEdge_nodes (sqrt : Q -> Q) (rnd : nat -> Q) (n : nat) (edges : list FlowEdge) :
  forall st g j,
    fold_left (addEdge sqrt rnd n) edges st = Some (g, j) ->
    exists g0 j0, st = Some (g0, j0) /\ g_nodes g = g_nodes g0.
Proof.
  induction edges as [|edge edges IH]; intros st g j H; cbn [fold_left] in H.
  - exists g, j. auto.
  - destruct (IH _ _ _ H) as (g1 & j1 & Hstep & Hn). rewrite Hn.
    unfold addEdge in Hstep. destruct st as [[g0 j0]|]; [|discriminate].
    exists g0, j0. split; [reflexivity|]. cbv zeta in Hstep.
    repeat match type of Hstep with
           | match ?x with _ => _ end = _ => destruct x; try discriminate
           end;
      injection Hstep as <- _; reflexivity.
Qed.

Lemma convertToGraph_kept (sqrt : Q -> Q) (rnd : nat -> Q) (nodes : list FlowNode)
      (edges : list FlowEdge) (g : Graph) :
  NoDup (map fn_id nodes) ->
  convertToGraph sqrt rnd nodes edges = Some g ->
  forall nd, In nd nodes -> kept g nd.
Proof.
  intros Hnd Hg nd Hin. unfold convertToGraph in Hg. cbv zeta in Hg.
  destruct (fold_left (addEdge sqrt rnd (length nodes)) edges _) as [[g' j]|] eqn:Hfold;
    [|discriminate].
  cbn in Hg. injection Hg as ->.
  destruct (addEdge_nodes _ _ _ _ _ _ _ Hfold) as (g0 & j0 & E & Hn).
  injection E as <- _. unfold kept. rewrite Hn. cbn [g_nodes].
  apply (addNode_kept rnd nodes [] _ Hnd); [intros ? [] | exact Hin].
Qed.

End GraphDispatchFacts.

(** X24. [runGraphSimulation], the entry point of graphAlgorithms.ts, on two
    or more editor nodes with distinct ids, edges between different nodes of
    the list with labels that are not negative, and a start among the nodes:
    with nearest neighbour or brute force it returns a result for the
    algorithm asked for whose path is the labels of the nodes along a tour of
    all nodes from the start, and whose distance is the distance that
    [calculateRealWorldDistance] gives for that tour on the graph built. *)
Theorem runGraphSimulation_labels_of_a_tour (sqrt : Q -> Q) (rnd : nat -> Q)
        (rndTraffic rndWeather executionTime : Q) (alg : Algorithm)
        (nodes : list GraphAlgorithms.FlowNode) (edges : list GraphAlgorithms.FlowEdge)
        (start : string) (conditions : GraphAlgorithms.Conditions) :
  (forall x, (0 <= x)%Q -> (0 <= sqrt x)%Q) ->
  (forall k, (0 <= rnd k)%Q) ->
  NoDup (map GraphAlgorithms.fn_id nodes) ->
  ~ In "" (map GraphAlgorithms.fn_id nodes) ->
  Forall (ConvertFacts.edge_fine (map GraphAlgorithms.fn_id nodes)) edges ->
  2 <= length nodes ->
  In start (map GraphAlgorithms.fn_id nodes) ->
  alg = nearest_neighbor \/ alg = brute_force ->
  exists r g tour,
    GraphAlgorithms.convertToGraph sqrt rnd nodes edges = Some g
    /\ GraphAlgorithms.runGraphSimulation sqrt rnd rndTraffic rndWeather executionTime alg
         nodes edges start conditions = Some r
    /\ GraphAlgorithms.r_algorithm r = alg
    /\ tour_of (map GraphAlgorithms.fn_id nodes) start tour
    /\ Forall2 (fun label id =>
                  exists nd, In nd nodes /\ GraphAlgorithms.fn_id nd = id
                             /\ GraphAlgorithms.fn_label nd = label)
               (GraphAlgorithms.r_path r) tour
    /\ GraphAlgorithms.calculateRealWorldDistance sqrt tour g conditions
       = Some (GraphAlgorithms.nm_distance (GraphAlgorithms.r_metrics r)).
Proof.
  intros Hs Hr Hnd Hne Hall Hlen Hstart Halg.
  destruct (ConvertFacts.convertToGraph_spec sqrt rnd Hs Hr nodes edges Hnd Hne Hall)
    as (g & Hg & Hm & Hkeys & _).
  assert (Hsolve : exists res,
             match alg with
             | brute_force => GraphAlgorithms.bruteForce sqrt g start conditions
             | dynamic_programming => GraphAlgorithms.dynamicProgramming sqrt g start conditions
             | nearest_neighbor => GraphAlgorithms.nearestNeighbor sqrt g start conditions
             | branch_and_bound => GraphAlgorithms.branchAndBound sqrt g start conditions
             end = Some res
             /\ tour_of (Object_keys (GraphAlgorithms.g_nodes g)) start
                        (GraphAlgorithms.res_path res)
             /\ GraphAlgorithms.calculateRealWorldDistance sqrt (GraphAlgorithms.res_path res)
                  g conditions
                = Some (GraphAlgorithms.res_distance res)).
  { rewrite <- Hkeys in Hstart. destruct Halg as [-> | ->].
    - apply GraphBnBFacts.graph_nearestNeighbor_path; assumption.
    - destruct (graph_bruteForce_spec sqrt g conditions start Hm Hstart)
        as (res & Hres & Ht & Hd & _).
      + rewrite Hkeys, length_map. exact Hlen.
      + exists res. auto. }
  destruct Hsolve as (res & Hres & Htour & Hdist).
  unfold GraphAlgorithms.runGraphSimulation.
  replace (length nodes <? 2)%nat with false by (symmetry; apply Nat.ltb_ge; exact Hlen).
  rewrite Hg. cbv zeta. rewrite Hres.
  eexists. exists g, (GraphAlgorithms.res_path res). split; [reflexivity|].
  split; [reflexivity|].
  cbn [GraphAlgorithms.r_algorithm GraphAlgorithms.r_path GraphAlgorithms.r_metrics
       GraphAlgorithms.nm_distance].
  split; [reflexivity|]. rewrite Hkeys in Htour. split; [exact Htour|].
  split; [|exact Hdist].
  assert (Hincl : incl (GraphAlgorithms.res_path res) (map GraphAlgorithms.fn_id nodes)).
  { destruct Htour as (interior & -> & Hperm). intros x [<- | Hx]; [exact Hstart|].
    apply in_app_iff in Hx. destruct Hx as [Hx | [<- | []]]; [|exact Hstart].
    apply (Permutation_in _ Hperm). right. exact Hx. }
  clear Htour Hdist Hres. induction (GraphAlgorithms.res_path res) as [|x path IH];
    cbn [map]; constructor.
  - assert (Hx : In x (map GraphAlgorithms.fn_id nodes)) by (apply Hincl; left; reflexivity).
    apply in_map_iff in Hx. destruct Hx as (nd & <- & Hin).
    destruct (GraphDispatchFacts.convertToGraph_kept sqrt rnd nodes edges g Hnd Hg nd Hin)
      as (node & -> & Hl & _).
    exists nd. auto.
  - apply IH. intros y Hy. apply Hincl. right. exact Hy.
Qed.

Lemma runGraphSimulation_labels_of_a_tour_witness :
  exists r g tour,
    GraphAlgorithms.convertToGraph (fun q => q) (fun _ => (1 # 2)%Q)
      [ {| GraphAlgorithms.fn_id := "1"; GraphAlgorithms.fn_label := "A";
           GraphAlgorithms.fn_x := 0; GraphAlgorithms.fn_y := 0 |};
        {| GraphAlgorithms.fn_id := "2"; GraphAlgorithms.fn_label := "B";
           GraphAlgorithms.fn_x := 30; GraphAlgorithms.fn_y := 0 |} ]
      [ {| GraphAlgorithms.fe_source := "1"; GraphAlgorithms.fe_target := "2";
           GraphAlgorithms.fe_label := Some 7%Z |} ] = Some g
    /\ GraphAlgorithms.runGraphSimulation (fun q => q) (fun _ => (1 # 2)%Q) (1 # 2) (1 # 2) 3
         brute_force
         [ {| GraphAlgorithms.fn_id := "1"; GraphAlgorithms.fn_label := "A";
              GraphAlgorithms.fn_x := 0; GraphAlgorithms.fn_y := 0 |};
           {| GraphAlgorithms.fn_id := "2"; GraphAlgorithms.fn_label := "B";
              GraphAlgorithms.fn_x := 30; GraphAlgorithms.fn_y := 0 |} ]
         [ {| GraphAlgorithms.fe_source := "1"; GraphAlgorithms.fe_target := "2";
              GraphAlgorithms.fe_label := Some 7%Z |} ]
         "2" noConditions = Some r
    /\ GraphAlgorithms.r_algorithm r = brute_force
    /\ tour_of ["1"; "2"] "2" tour
    /\ Forall2 (fun label id =>
                  exists nd,
                    In nd [ {| GraphAlgorithms.fn_id := "1"; GraphAlgorithms.fn_label := "A";
                               GraphAlgorithms.fn_x := 0; GraphAlgorithms.fn_y := 0 |};
                            {| GraphAlgorithms.fn_id := "2"; GraphAlgorithms.fn_label := "B";
                               GraphAlgorithms.fn_x := 30; GraphAlgorithms.fn_y := 0 |} ]
                    /\ GraphAlgorithms.fn_id nd = id /\ GraphAlgorithms.fn_label nd = label)
               (GraphAlgorithms.r_path r) tour
    /\ GraphAlgorithms.calculateRealWorldDistance (fun q => q) tour g noConditions
       = Some (GraphAlgorithms.nm_distance (GraphAlgorithms.r_metrics r)).
Proof.
  apply (runGraphSimulation_labels_of_a_tour (fun q => q) (fun _ => (1 # 2)%Q) (1 # 2) (1 # 2) 3
           brute_force
           [ {| GraphAlgorithms.fn_id := "1"; GraphAlgorithms.fn_label := "A";
                GraphAlgorithms.fn_x := 0; GraphAlgorithms.fn_y := 0 |};
             {| GraphAlgorithms.fn_id := "2"; GraphAlgorithms.fn_label := "B";
                GraphAlgorithms.fn_x := 30; GraphAlgorithms.fn_y := 0 |} ]
           [ {| GraphAlgorithms.fe_source := "1"; GraphAlgorithms.fe_target := "2";
                GraphAlgorithms.fe_label := Some 7%Z |} ]
           "2" noConditions).
  - intros x Hx. exact Hx.
  - intros k. discriminate.
  - apply nodupb_NoDup. vm_compute. reflexivity.
  - apply has_not_In. vm_compute. reflexivity.
  - constructor; [|constructor]. unfold ConvertFacts.edge_fine. cbn.
    split; [discriminate|]. split; [auto|]. split; [auto|]. intros z [= <-]. lia.
  - simpl. lia.
  - simpl. auto.
  - right. reflexivity.
Defined.


(** * Branch and bound against nearest neighbour *)

(** Without rounding, [sumDistance] is the distance that [calculatePathMetrics]
    adds up. *)
Lemma sumDistance_unrounded (graph : RouteGraph) (path : list string) :
  forall acc, Algorithms.sumDistance (fun q => q) graph path (fst acc)
              = fst (Algorithms.sumPath graph path acc).
Proof.
  induction path as [|a path IH]; intros acc; [reflexivity|].
  destruct path as [|b path]; [reflexivity|].
  rewrite CostFacts.sumPath_step. cbn [Algorithms.sumDistance]. cbv beta.
  rewrite <- IH. destruct (Algorithms.find_edge graph a b); reflexivity.
Qed.







(** * Two calls with the same request *)

(** The two impact factors of a result with a path are those of the request. *)
Lemma runSimulation_impacts (fl : Q -> Q) (fuel : nat) (fullGraph : RouteGraph) (rnd : Q)
      (params : SimulationParams) (r : Algorithms.SimulationResult) :
  Algorithms.runSimulation fl fuel fullGraph rnd params = Some r ->
  2 <= length (Algorithms.r_path r) ->
  m_trafficImpact (Algorithms.r_metrics r) = Algorithms.getTimeOfDayImpact (timeOfDay params)
  /\ m_weatherImpact (Algorithms.r_metrics r) = Algorithms.getWeatherImpact (weather params).
Proof.
  unfold Algorithms.runSimulation.
  destruct (selectedCities params) as [selected|];
    [|intros [= <-] H; simpl in H; lia].
  destruct (length selected <? 2)%nat; [intros [= <-] H; simpl in H; lia|].
  cbv zeta.
  match goal with
  | |- context [match ?p with Some _ => _ | None => None end] => destruct p as [path|]
  end; [|discriminate].
  intros [= <-]. cbn [Algorithms.r_path Algorithms.r_metrics m_trafficImpact m_weatherImpact].
  intros Hlen. unfold Algorithms.calculatePathMetrics.
  replace (length path <? 2)%nat with false by (symmetry; apply Nat.ltb_ge; exact Hlen).
  destruct (Algorithms.sumPath _ path (0, 0)%Q). split; reflexivity.
Qed.

Lemma tour_of_length (keys : list string) (start : string) (path : list string) :
  tour_of keys start path -> 2 <= length path.
Proof.
  intros (interior & -> & _). cbn [length]. rewrite length_app. cbn [length]. lia.
Qed.

(** C4, as the code has it. [runSimulation] builds the graph of its map
    anew at each call, with three random draws an edge, and adds another draw
    to the score. Two calls with the same request of two or more distinct
    locations of its map (whatever the draws, as long as they and the straight
    distance are not negative; branch and bound given the turns of its queue
    loop) both return a result for the algorithm asked for, with a tour of
    exactly the selected cities from the same start and with the same traffic
    and weather impact, which the request fixes; the order of the tour, its
    distance, time, cost, fuel and score depend on the draws (as [drawsA]
    and [drawsB] show, below). With fewer than two selected cities the two
    results are the same empty result. In [runBasicTSPSimulation], whose
    distances are not drawn, two calls that make the same two shuffles in
    its 2-opt, or none (every algorithm but brute force, and brute force up
    to eight cities besides the start), agree on all but the traffic and the
    weather impact, which are [1 + Math.random() * 0.3] and
    [1 + Math.random() * 0.2]. *)
Theorem C4_results_agree_up_to_the_random_draws :
  (forall (straightDistance : Q -> Q -> Q -> Q -> Q) (fl : Q -> Q) (fuel : nat)
          (params : SimulationParams) (selected : list string)
          (draws draws' : nat -> Q) (rnd rnd' : Q),
      (forall a b c d, (0 <= straightDistance a b c d)%Q) ->
      (forall k, (0 <= draws k)%Q) -> (forall k, (0 <= draws' k)%Q) ->
      selectedCities params = Some selected ->
      NoDup selected ->
      incl selected (map loc_id (Maps.mapLocations (mapType params))) ->
      2 <= length selected ->
      (algorithm params = branch_and_bound -> length selected <= 10 ->
       BnBFacts.turns
         (length (edges (Algorithms.filterGraphForSelectedCities
                           (Maps.getRouteGraph straightDistance draws (mapType params))
                           selected)))
         (length selected - 1) < fuel
       /\ BnBFacts.turns
            (length (edges (Algorithms.filterGraphForSelectedCities
                              (Maps.getRouteGraph straightDistance draws' (mapType params))
                              selected)))
            (length selected - 1) < fuel) ->
      exists r r',
        Algorithms.runSimulation fl fuel
          (Maps.getRouteGraph straightDistance draws (mapType params)) rnd params = Some r
        /\ Algorithms.runSimulation fl fuel
             (Maps.getRouteGraph straightDistance draws' (mapType params)) rnd' params
           = Some r'
        /\ Algorithms.r_algorithm r = Algorithms.r_algorithm r'
        /\ tour_of selected
                   (if includes selected (startLocation params) then startLocation params
                    else nth 0 selected "")
                   (Algorithms.r_path r)
        /\ tour_of selected
                   (if includes selected (startLocation params) then startLocation params
                    else nth 0 selected "")
                   (Algorithms.r_path r')
        /\ m_trafficImpact (Algorithms.r_metrics r) = m_trafficImpact (Algorithms.r_metrics r')
        /\ m_weatherImpact (Algorithms.r_metrics r)
           = m_weatherImpact (Algorithms.r_metrics r'))
  /\ (forall (straightDistance : Q -> Q -> Q -> Q -> Q) (fl : Q -> Q) (fuel : nat)
             (params : SimulationParams) (draws draws' : nat -> Q) (rnd rnd' : Q),
         match selectedCities params with
         | Some selected => length selected < 2
         | None => True
         end ->
         Algorithms.runSimulation fl fuel
           (Maps.getRouteGraph straightDistance draws (mapType params)) rnd params
         = Algorithms.runSimulation fl fuel
             (Maps.getRouteGraph straightDistance draws' (mapType params)) rnd' params)
  /\ (forall haversine fuel random1 random2 random1' random2' p rnd1 rnd2 rnd1' rnd2',
         (random1 = random1' /\ random2 = random2')
         \/ algorithm p <> brute_force
         \/ length (TspSimulation.otherCities p) <= 8 ->
         match TspSimulation.runBasicTSPSimulation haversine fuel random1 random2 rnd1 rnd2 p,
               TspSimulation.runBasicTSPSimulation haversine fuel random1' random2'
                                                   rnd1' rnd2' p with
         | Some r, Some r' =>
             TspSimulation.r_algorithm r = TspSimulation.r_algorithm r'
             /\ TspSimulation.r_path r = TspSimulation.r_path r'
             /\ m_distance (TspSimulation.r_metrics r) = m_distance (TspSimulation.r_metrics r')
             /\ m_time (TspSimulation.r_metrics r) = m_time (TspSimulation.r_metrics r')
             /\ m_cost (TspSimulation.r_metrics r) = m_cost (TspSimulation.r_metrics r')
             /\ m_fuel (TspSimulation.r_metrics r) = m_fuel (TspSimulation.r_metrics r')
             /\ m_totalScore (TspSimulation.r_metrics r) = m_totalScore (TspSimulation.r_metrics r')
         | None, None => True
         | _, _ => False
         end).
Proof.
  split; [|split].
  - intros sd fl fuel params selected draws draws' rnd rnd' Hs Hd Hd' Hsel Hnd Hincl Hlen Hfuel.
    destruct (getRouteGraph_fine sd draws (mapType params) Hs Hd) as (Hv & Hkeys & Htime).
    destruct (getRouteGraph_fine sd draws' (mapType params) Hs Hd') as (Hv' & Hkeys' & Htime').
    destruct (runSimulation_selection fl fuel (Maps.getRouteGraph sd draws (mapType params))
                rnd params selected Hv Htime Hsel Hnd)
      as (r & Hr & Ha & Ht & _);
      [rewrite Hkeys; exact Hincl | exact Hlen | intros H1 H2; apply (Hfuel H1 H2) |].
    destruct (runSimulation_selection fl fuel (Maps.getRouteGraph sd draws' (mapType params))
                rnd' params selected Hv' Htime' Hsel Hnd)
      as (r' & Hr' & Ha' & Ht' & _);
      [rewrite Hkeys'; exact Hincl | exact Hlen | intros H1 H2; apply (Hfuel H1 H2) |].
    destruct (runSimulation_impacts _ _ _ _ _ _ Hr (tour_of_length _ _ _ Ht)) as [Hi Hw].
    destruct (runSimulation_impacts _ _ _ _ _ _ Hr' (tour_of_length _ _ _ Ht')) as [Hi' Hw'].
    exists r, r'. split; [exact Hr|]. split; [exact Hr'|].
    split; [rewrite Ha, Ha'; reflexivity|]. split; [exact Ht|]. split; [exact Ht'|].
    split; [rewrite Hi, Hi'; reflexivity | rewrite Hw, Hw'; reflexivity].
  - intros sd fl fuel params draws draws' rnd rnd' Hp. unfold Algorithms.runSimulation.
    destruct (selectedCities params) as [sel|]; [|reflexivity].
    apply Nat.ltb_lt in Hp. rewrite Hp. reflexivity.
  - intros h fuel r1 r2 r1' r2' p rnd1 rnd2 rnd1' rnd2' Hsame.
    assert (Hpath : TspSimulation.runOptimalBruteForce h fuel r1 r2 p
                      (Maps.mapLocations (mapType p))
                    = TspSimulation.runOptimalBruteForce h fuel r1' r2' p
                        (Maps.mapLocations (mapType p))
                    \/ algorithm p <> brute_force).
    { destruct Hsame as [[-> ->] | [Hne | Hlen]]; [left; reflexivity | right; exact Hne | left].
      unfold TspSimulation.runOptimalBruteForce. cbv zeta.
      replace (8 <? length (TspSimulation.otherCities p))%nat with false
        by (symmetry; apply Nat.ltb_ge; exact Hlen).
      reflexivity. }
    unfold TspSimulation.runBasicTSPSimulation.
    destruct (selectedCities p) as [sel|]; [|simpl; tauto].
    destruct (length sel <? 2)%nat; [simpl; tauto|].
    cbv zeta.
    destruct (algorithm p) eqn:Halg;
      try (cbv beta iota; cbn [Algorithms.r_path]; simpl; tauto).
    destruct Hpath as [-> | Hne]; [|congruence].
    destruct (TspSimulation.runOptimalBruteForce h fuel r1' r2' p
                (Maps.mapLocations (mapType p))); simpl; tauto.
Qed.

(** Two sequences of draws: all 0, and 0.9 for the first draw (the distance
    of the first edge, k1 to k2) and 0.5 for the others. *)
Definition drawsA (k : nat) : Q := 0%Q.
Definition drawsB (k : nat) : Q := if (k =? 0)%nat then (9 # 10)%Q else (1 # 2)%Q.

Lemma C4_witness :
  (exists r r',
      Algorithms.runSimulation binary64 0
        (Maps.getRouteGraph (fun _ _ _ _ => 100000%Q) drawsA karnataka) 0
        (Examples.request nearest_neighbor "k1" (Some ["k1"; "k2"; "k3"])) = Some r
      /\ Algorithms.runSimulation binary64 0
           (Maps.getRouteGraph (fun _ _ _ _ => 100000%Q) drawsB karnataka) (9 # 10)%Q
           (Examples.request nearest_neighbor "k1" (Some ["k1"; "k2"; "k3"])) = Some r'
      /\ Algorithms.r_algorithm r = Algorithms.r_algorithm r'
      /\ tour_of ["k1"; "k2"; "k3"] "k1" (Algorithms.r_path r)
      /\ tour_of ["k1"; "k2"; "k3"] "k1" (Algorithms.r_path r')
      /\ m_trafficImpact (Algorithms.r_metrics r) = m_trafficImpact (Algorithms.r_metrics r')
      /\ m_weatherImpact (Algorithms.r_metrics r)
         = m_weatherImpact (Algorithms.r_metrics r'))
  /\ Algorithms.runSimulation binary64 0
       (Maps.getRouteGraph (fun _ _ _ _ => 100000%Q) drawsA karnataka) 0
       (Examples.request nearest_neighbor "k1" (Some ["k1"]))
     = Algorithms.runSimulation binary64 0
         (Maps.getRouteGraph (fun _ _ _ _ => 100000%Q) drawsB karnataka) (9 # 10)%Q
         (Examples.request nearest_neighbor "k1" (Some ["k1"]))
  /\ match TspSimulation.runBasicTSPSimulation (fun _ _ _ _ => 100000%Q) 0
             ["k2"; "k3"] ["k3"; "k2"] 0 0
             (Examples.request nearest_neighbor "k1" (Some ["k1"; "k2"; "k3"])),
           TspSimulation.runBasicTSPSimulation (fun _ _ _ _ => 100000%Q) 0
             ["k3"; "k2"] ["k2"; "k3"] (1 # 2) (1 # 2)
             (Examples.request nearest_neighbor "k1" (Some ["k1"; "k2"; "k3"])) with
     | Some r, Some r' =>
         TspSimulation.r_algorithm r = TspSimulation.r_algorithm r'
         /\ TspSimulation.r_path r = TspSimulation.r_path r'
         /\ m_distance (TspSimulation.r_metrics r) = m_distance (TspSimulation.r_metrics r')
         /\ m_time (TspSimulation.r_metrics r) = m_time (TspSimulation.r_metrics r')
         /\ m_cost (TspSimulation.r_metrics r) = m_cost (TspSimulation.r_metrics r')
         /\ m_fuel (TspSimulation.r_metrics r) = m_fuel (TspSimulation.r_metrics r')
         /\ m_totalScore (TspSimulation.r_metrics r) = m_totalScore (TspSimulation.r_metrics r')
     | None, None => True
     | _, _ => False
     end.
Proof.
  destruct C4_results_agree_up_to_the_random_draws as (H1 & H2 & H3).
  split; [|split].
  - apply (H1 (fun _ _ _ _ => 100000%Q) binary64 0
              (Examples.request nearest_neighbor "k1" (Some ["k1"; "k2"; "k3"]))
              ["k1"; "k2"; "k3"] drawsA drawsB 0%Q (9 # 10)%Q).
    + intros. discriminate.
    + intros. discriminate.
    + intros k. unfold drawsB. destruct (k =? 0)%nat; discriminate.
    + reflexivity.
    + apply nodupb_NoDup. vm_compute. reflexivity.
    + intros x Hx. vm_compute in Hx. vm_compute. tauto.
    + simpl. lia.
    + intros H. discriminate H.
  - apply H2. simpl. lia.
  - apply H3. right. left. discriminate.
Defined.

(** C4 as stated fails: the same request gets the tour k1, k2, k3, k1 of
    distance 360 km with the draws [drawsA], and the tour k1, k3, k2, k1 of
    distance 375 km with the draws [drawsB] (the edge from k1 to k2 is then
    the longer one); and with the same graph two draws of the score give two
    total scores. *)
Lemma C4_counterexample :
  match Algorithms.runSimulation binary64 0
          (Maps.getRouteGraph (fun _ _ _ _ => 100000%Q) drawsA karnataka) 0
          (Examples.request nearest_neighbor "k1" (Some ["k1"; "k2"; "k3"])),
        Algorithms.runSimulation binary64 0
          (Maps.getRouteGraph (fun _ _ _ _ => 100000%Q) drawsB karnataka) 0
          (Examples.request nearest_neighbor "k1" (Some ["k1"; "k2"; "k3"])),
        Algorithms.runSimulation binary64 0
          (Maps.getRouteGraph (fun _ _ _ _ => 100000%Q) drawsA karnataka) (9 # 10)%Q
          (Examples.request nearest_neighbor "k1" (Some ["k1"; "k2"; "k3"])) with
  | Some r, Some r', Some r'' =>
      Algorithms.r_path r = ["k1"; "k2"; "k3"; "k1"]
      /\ Algorithms.r_path r' = ["k1"; "k3"; "k2"; "k1"]
      /\ Qeq_bool (m_distance (Algorithms.r_metrics r)) 360000%Q = true
      /\ Qeq_bool (m_distance (Algorithms.r_metrics r')) 375000%Q = true
      /\ Qeq_bool (m_time (Algorithms.r_metrics r)) (m_time (Algorithms.r_metrics r')) = false
      /\ Qeq_bool (m_cost (Algorithms.r_metrics r)) (m_cost (Algorithms.r_metrics r')) = false
      /\ Qeq_bool (m_fuel (Algorithms.r_metrics r)) (m_fuel (Algorithms.r_metrics r')) = false
      /\ Algorithms.r_path r'' = Algorithms.r_path r
      /\ Qeq_bool (m_totalScore (Algorithms.r_metrics r))
                  (m_totalScore (Algorithms.r_metrics r'')) = false
  | _, _, _ => False
  end.
Proof. vm_compute. repeat split; reflexivity. Qed.
